(** * TextHighlighter: a shallow embedding of the annotation engine

    The JavaScript sources [src/text-highlighter.js] and [src/utils.js] are
    embedded over an explicit model of the document tree: a store of nodes
    addressed by reference, with parent pointers and ordered child lists, as
    the DOM exposes them.  Every function of the sources is a state
    transformer over that store; a JavaScript exception is an outcome of its
    own, and the store keeps the mutations made before the exception. *)

From Stdlib Require Import ZArith NArith String Ascii List Bool Lia Sorted.
From stdpp Require Import base option list gmap strings.

#[local] Set Warnings "-clear-no-such-hyp".

Local Open Scope string_scope.
Local Open Scope list_scope.

(** ** Platform: the document tree *)

Module Dom.

(** An element carries what the highlighter reads and writes: its tag, the
    [class] attribute, the inline background colour and the remaining
    attributes in source order. *)
Record Element := mkElement {
  tagName : string;
  className : string;
  backgroundColor : string;
  attributes : list (string * string)
}.

Inductive NodeData :=
| TextData (nodeValue : string)
| ElementData (el : Element).

Record Node := mkNode {
  data : NodeData;
  parentNode : option nat;
  childNodes : list nat
}.

(** The store: every node ever created, attached or not, and the next
    unused reference. *)
Record Store := mkStore {
  nodes : gmap nat Node;
  fresh : nat
}.

Inductive exn :=
| TypeError (msg : string)
| DOMException (name : string)
| Thrown (msg : string).

(** How a call ends: it returns, it throws, or the model has no outcome for
    it, because the bound given for a loop is used up or because the call
    leaves what the model has of the platform. *)
Inductive outcome (A : Type) :=
| Ret (a : A)
| Throw (e : exn)
| OutOfFuel.
Arguments Ret {A} a.
Arguments Throw {A} e.
Arguments OutOfFuel {A}.

(** A computation reads and writes the store; the store is returned also
    when the computation throws. *)
Definition M (A : Type) : Type := Store -> outcome A * Store.

Definition ret {A} (a : A) : M A := fun d => (Ret a, d).
Definition throw {A} (e : exn) : M A := fun d => (Throw e, d).
Definition diverge {A} : M A := fun d => (OutOfFuel, d).
Definition bind {A B} (c : M A) (k : A -> M B) : M B :=
  fun d =>
    match c d with
    | (Ret a, d') => k a d'
    | (Throw e, d') => (Throw e, d')
    | (OutOfFuel, d') => (OutOfFuel, d')
    end.
Definition gets {A} (f : Store -> A) : M A := fun d => (Ret (f d), d).
Definition modify (f : Store -> Store) : M unit := fun d => (Ret tt, f d).

(** [try c handler]: JavaScript's try/catch. *)
Definition try {A} (c : M A) (handler : exn -> M A) : M A :=
  fun d =>
    match c d with
    | (Throw e, d') => handler e d'
    | r => r
    end.

(** Dereferencing [null] or [undefined] is a TypeError. *)
Definition deref {A} (what : string) (o : option A) : M A :=
  match o with
  | Some a => ret a
  | None => throw (TypeError what)
  end.

(** *** Reading the tree *)

Definition getData (d : Store) (r : nat) : option NodeData :=
  data <$> nodes d !! r.

Definition getParent (d : Store) (r : nat) : option nat :=
  nodes d !! r ≫= parentNode.

Definition getChildren (d : Store) (r : nat) : list nat :=
  match nodes d !! r with
  | Some n => childNodes n
  | None => []
  end.

Definition isText (d : Store) (r : nat) : bool :=
  match getData d r with
  | Some (TextData _) => true
  | _ => false
  end.

Definition isElement (d : Store) (r : nat) : bool :=
  match getData d r with
  | Some (ElementData _) => true
  | _ => false
  end.

Definition getElement (d : Store) (r : nat) : option Element :=
  match getData d r with
  | Some (ElementData e) => Some e
  | _ => None
  end.

(** [node.nodeValue]: the text of a text node, [null] for an element. *)
Definition getNodeValue (d : Store) (r : nat) : option string :=
  match getData d r with
  | Some (TextData s) => Some s
  | _ => None
  end.

(** [Array.prototype.indexOf] on a list of references. *)
Fixpoint indexOf (r : nat) (l : list nat) : option nat :=
  match l with
  | [] => None
  | x :: l' => if Nat.eqb x r then Some 0 else S <$> indexOf r l'
  end.

Definition previousSibling (d : Store) (r : nat) : option nat :=
  p ← getParent d r;
  i ← indexOf r (getChildren d p);
  match i with
  | 0 => None
  | S j => getChildren d p !! j
  end.

Definition nextSibling (d : Store) (r : nat) : option nat :=
  p ← getParent d r;
  i ← indexOf r (getChildren d p);
  getChildren d p !! S i.

Definition firstChild (d : Store) (r : nat) : option nat :=
  head (getChildren d r).

Definition hasChildNodes (d : Store) (r : nat) : bool :=
  match getChildren d r with
  | [] => false
  | _ => true
  end.

(** [node.parentElement]: the parent when it is an element. *)
Definition parentElement (d : Store) (r : nat) : option nat :=
  p ← getParent d r;
  if isElement d p then Some p else None.

Definition hasAttribute (d : Store) (r : nat) (name : string) : bool :=
  match getElement d r with
  | Some e => existsb (fun kv => String.eqb (fst kv) name) (attributes e)
  | None => false
  end.

Definition getAttribute (d : Store) (r : nat) (name : string) : option string :=
  e ← getElement d r;
  snd <$> find (fun kv => String.eqb (fst kv) name) (attributes e).

(** The chain of ancestors, nearest first.  A chain is never longer than
    the number of nodes created, which bounds the walk. *)
Fixpoint ancestorsFrom (fuel : nat) (d : Store) (r : nat) : list nat :=
  match fuel with
  | 0 => []
  | S f =>
      match getParent d r with
      | Some p => p :: ancestorsFrom f d p
      | None => []
      end
  end.

Definition ancestors (d : Store) (r : nat) : list nat :=
  ancestorsFrom (fresh d) d r.

Definition inList (r : nat) (l : list nat) : bool :=
  existsb (Nat.eqb r) l.

(** [a.contains(b)]: [b] is [a] or a descendant of [a]. *)
Definition Node_contains (d : Store) (a b : nat) : bool :=
  Nat.eqb a b || inList a (ancestors d b).

(** [node.textContent]: the text of the descendants in tree order.  The
    walk answers [None] when it runs out of fuel before the leaves. *)
Fixpoint textContentFrom (fuel : nat) (d : Store) (r : nat) : option string :=
  match fuel with
  | 0 => None
  | S f =>
      match nodes d !! r with
      | Some (mkNode (TextData s) _ _) => Some s
      | Some (mkNode (ElementData _) _ cs) =>
          fold_right
            (fun c acc =>
               s ← textContentFrom f d c; a ← acc; Some (s +:+ a))
            (Some "") cs
      | None => Some ""
      end
  end.

Definition textContent (d : Store) (r : nat) : string :=
  default "" (textContentFrom (S (fresh d)) d r).

(** The descendants of [r] in tree order ([r] itself excluded). *)
Fixpoint descendantsFrom (fuel : nat) (d : Store) (r : nat) : list nat :=
  match fuel with
  | 0 => []
  | S f => flat_map (fun c => c :: descendantsFrom f d c) (getChildren d r)
  end.

Definition descendants (d : Store) (r : nat) : list nat :=
  descendantsFrom (fresh d) d r.

(** *** Writing the tree *)

Definition setParent (r : nat) (p : option nat) (d : Store) : Store :=
  mkStore (alter (fun n => mkNode (data n) p (childNodes n)) r (nodes d)) (fresh d).

Definition setChildren (r : nat) (cs : list nat) (d : Store) : Store :=
  mkStore (alter (fun n => mkNode (data n) (parentNode n) cs) r (nodes d)) (fresh d).

Definition setData (r : nat) (x : NodeData) (d : Store) : Store :=
  mkStore (alter (fun n => mkNode x (parentNode n) (childNodes n)) r (nodes d)) (fresh d).

Definition alloc (x : NodeData) (d : Store) : nat * Store :=
  (fresh d, mkStore (<[fresh d := mkNode x None []]> (nodes d)) (S (fresh d))).

Fixpoint removeRef (r : nat) (l : list nat) : list nat :=
  match l with
  | [] => []
  | x :: l' => if Nat.eqb x r then l' else x :: removeRef r l'
  end.

(** Insert [new] before the reference child, or at the end without one. *)
Fixpoint insertRef (new : nat) (ref : option nat) (l : list nat) : list nat :=
  match l with
  | [] => [new]
  | x :: l' =>
      if (match ref with Some r => Nat.eqb x r | None => false end)
      then new :: x :: l'
      else x :: insertRef new ref l'
  end.

(** The DOM's "remove" step: unlink a node from its parent, if it has one. *)
Definition detach (r : nat) (d : Store) : Store :=
  match getParent d r with
  | Some p => setParent r None (setChildren p (removeRef r (getChildren d p)) d)
  | None => d
  end.

Definition optEqb (a b : option nat) : bool :=
  match a, b with
  | Some x, Some y => Nat.eqb x y
  | None, None => true
  | _, _ => false
  end.

(** [parent.insertBefore(new, ref)]. *)
Definition Node_insertBefore (parent new : nat) (ref : option nat) : M nat :=
  fun d =>
    if negb (isElement d parent) then (Throw (DOMException "HierarchyRequestError"), d)
    else if Node_contains d new parent then (Throw (DOMException "HierarchyRequestError"), d)
    else if (match ref with
             | Some r => negb (optEqb (getParent d r) (Some parent))
             | None => false
             end)
    then (Throw (DOMException "NotFoundError"), d)
    else
      let ref' := if optEqb ref (Some new) then nextSibling d new else ref in
      let d1 := detach new d in
      let d2 := setChildren parent (insertRef new ref' (getChildren d1 parent)) d1 in
      (Ret new, setParent new (Some parent) d2).

Definition Node_appendChild (parent new : nat) : M nat :=
  Node_insertBefore parent new None.

(** [parent.removeChild(child)]. *)
Definition Node_removeChild (parent child : nat) : M nat :=
  fun d =>
    if optEqb (getParent d child) (Some parent)
    then (Ret child, detach child d)
    else (Throw (DOMException "NotFoundError"), d).

(** [parent.replaceChild(new, old)]; [new] may be [null] in the caller. *)
Definition Node_replaceChild (parent : nat) (new : option nat) (old : nat) : M nat :=
  fun d =>
    match new with
    | None => (Throw (TypeError "replaceChild: parameter 1 is not of type Node"), d)
    | Some n =>
        if negb (isElement d parent) then (Throw (DOMException "HierarchyRequestError"), d)
        else if Node_contains d n parent then (Throw (DOMException "HierarchyRequestError"), d)
        else if negb (optEqb (getParent d old) (Some parent))
        then (Throw (DOMException "NotFoundError"), d)
        else
          let ref := if optEqb (nextSibling d old) (Some n)
                     then nextSibling d n else nextSibling d old in
          let d1 := detach old (detach n d) in
          let d2 := setChildren parent (insertRef n ref (getChildren d1 parent)) d1 in
          (Ret old, setParent n (Some parent) d2)
    end.

(** [String.prototype.substring] restricted to in-range arguments. *)
Definition strTake (n : nat) (s : string) : string := String.substring 0 n s.
Definition strDrop (n : nat) (s : string) : string :=
  String.substring n (String.length s - n) s.

(** [text.splitText(offset)]: the node keeps the first [offset] characters,
    a new text node with the rest follows it; the new node is returned. *)
Definition Text_splitText (r : option nat) (offset : nat) : M nat :=
  fun d =>
    match r with
    | None => (Throw (TypeError "splitText of null"), d)
    | Some r =>
        match getNodeValue d r with
        | None => (Throw (TypeError "splitText is not a function"), d)
        | Some s =>
            if Nat.ltb (String.length s) offset
            then (Throw (DOMException "IndexSizeError"), d)
            else
              let (n, d1) := alloc (TextData (strDrop offset s)) d in
              let d2 :=
                match getParent d1 r with
                | Some p =>
                    setParent n (Some p)
                      (setChildren p (insertRef n (nextSibling d1 r) (getChildren d1 p)) d1)
                | None => d1
                end in
              (Ret n, setData r (TextData (strTake offset s)) d2)
        end
    end.

(** [document.createElement] followed by setting the attributes. *)
Definition createElement (e : Element) : M nat :=
  fun d => let (n, d') := alloc (ElementData e) d in (Ret n, d').

End Dom.

Import Dom.
(** ** Platform: strings and numbers of the language *)

Module JsString.

(** A JavaScript string is a sequence of 16-bit code units.  The documents
    of the model hold the code units below 256 and keep their texts as
    [string]; the texts that pass through JSON are JavaScript strings in
    full, since an escape in a JSON text stands for any code unit. *)
Definition t : Type := list N.

Definition ofString (s : string) : t :=
  map N_of_ascii (list_ascii_of_string s).

Definition isNarrow (s : t) : bool := forallb (fun u => (u <? 256)%N) s.

(** The text of a document that a JavaScript string is, if it holds no
    code unit beyond those of the documents. *)
Definition narrow (s : t) : option string :=
  if isNarrow s then Some (string_of_list_ascii (map ascii_of_N s)) else None.

Fixpoint eqb (a b : t) : bool :=
  match a, b with
  | [], [] => true
  | x :: a', y :: b' => N.eqb x y && eqb a' b'
  | _, _ => false
  end.

(** [String.prototype.split] with a separator of one code unit. *)
Fixpoint split (sep : N) (s : t) : list t :=
  match s with
  | [] => [[]]
  | u :: s' =>
      if N.eqb u sep then [] :: split sep s'
      else
        match split sep s' with
        | x :: xs => (u :: x) :: xs
        | [] => [[u]]
        end
  end.

(** [Array.prototype.join] on strings. *)
Fixpoint join (sep : t) (l : list t) : t :=
  match l with
  | [] => []
  | [x] => x
  | x :: l' => x ++ sep ++ join sep l'
  end.

(** White space and line terminators, which [Number(string)] skips at both
    ends: tab, line feed, vertical tab, form feed, carriage return, space,
    no-break space, the space separators beyond Latin-1, the line and the
    paragraph separator and the byte order mark. *)
Definition isWhiteSpace (u : N) : bool :=
  ((9 <=? u) && (u <=? 13) || (u =? 32) || (u =? 160) || (u =? 0x1680)
   || (0x2000 <=? u) && (u <=? 0x200A) || (u =? 0x2028) || (u =? 0x2029)
   || (u =? 0x202F) || (u =? 0x205F) || (u =? 0x3000) || (u =? 0xFEFF))%N.

Fixpoint trimStart (s : t) : t :=
  match s with
  | u :: s' => if isWhiteSpace u then trimStart s' else s
  | [] => []
  end.

Definition trim (s : t) : t := rev (trimStart (rev (trimStart s))).

(** The value of a digit in the given base, letters in either case. *)
Definition digitValue (base : Z) (u : N) : option Z :=
  let v :=
    if (48 <=? u)%N && (u <=? 57)%N then Some (Z.of_N u - 48)%Z
    else if (97 <=? u)%N && (u <=? 122)%N then Some (Z.of_N u - 87)%Z
    else if (65 <=? u)%N && (u <=? 90)%N then Some (Z.of_N u - 55)%Z
    else None in
  match v with
  | Some x => if (x <? base)%Z then Some x else None
  | None => None
  end.

(** The digits at the head of [s]: their value, their number, the rest. *)
Fixpoint readDigits (base : Z) (s : t) (acc : Z) (count : Z) : Z * Z * t :=
  match s with
  | u :: s' =>
      match digitValue base u with
      | Some x => readDigits base s' (base * acc + x)%Z (count + 1)%Z
      | None => (acc, count, s)
      end
  | [] => (acc, count, s)
  end.

(** The decimal digits of a whole number that is not negative, most
    significant first. *)
Fixpoint digitsFrom (fuel : nat) (z : Z) (acc : string) : string :=
  match fuel with
  | 0 => acc
  | S f =>
      let acc' := String (ascii_of_N (Z.to_N (48 + z mod 10))) acc in
      if (z <? 10)%Z then acc' else digitsFrom f (z / 10) acc'
  end.

Definition digits (z : Z) : string :=
  digitsFrom (S (Z.to_nat (Z.log2 z))) z "".

(** The decimal numeral of a whole number. *)
Definition ofZ (z : Z) : string :=
  if (z <? 0)%Z then "-" +:+ digits (- z) else digits z.

End JsString.

Coercion JsString.ofString : string >-> JsString.t.

Module Number.

(** A Number is a double: not a number, an infinity, or the finite value
    [m * 2 ^ e].  The zero has no sign here: no operation of the codec
    tells the two zeros apart.  A whole number is kept with an exponent
    that is not negative. *)
Inductive t :=
| NaN
| Infinity (negative : bool)
| Finite (m e : Z).

Definition zero : t := Finite 0 0.

(** The whole part of the binary logarithm of [num / den], both positive. *)
Definition ilog2 (num den : Z) : Z :=
  let k := (Z.log2 num - Z.log2 den)%Z in
  if (if (0 <=? k)%Z then (num <? den * 2 ^ k)%Z else (num * 2 ^ (- k) <? den)%Z)
  then (k - 1)%Z else k.

(** [a / b] rounded to the nearest whole number, a tie to the even one. *)
Definition divNearest (a b : Z) : Z :=
  let q := (a / b)%Z in
  match (2 * (a mod b) ?= b)%Z with
  | Lt => q
  | Gt => (q + 1)%Z
  | Eq => if Z.even q then q else (q + 1)%Z
  end.

(** The double nearest to [num / den], a tie to the even mantissa, with the
    sign given apart: 53 bits of mantissa, the exponent of the last bit not
    below -1074, an infinity from [2 ^ 1024] on. *)
Definition round (negative : bool) (num den : Z) : t :=
  if (num =? 0)%Z then zero
  else
    let k := ilog2 num den in
    if (1024 <=? k)%Z then Infinity negative
    else
      let e := Z.max (k - 52) (-1074) in
      let m :=
        if (0 <=? e)%Z then divNearest num (den * 2 ^ e)
        else divNearest (num * 2 ^ (- e)) den in
      if (m =? 0)%Z then zero
      else if (1024 <=? Z.log2 m + e)%Z then Infinity negative
      else
        let s := if negative then (- m)%Z else m in
        if (e <? 0)%Z && (m mod 2 ^ (- e) =? 0)%Z
        then Finite (if negative then - (m / 2 ^ (- e)) else m / 2 ^ (- e))%Z 0
        else Finite s e.

(** The double nearest to a fraction with a positive denominator. *)
Definition ofQ (num den : Z) : t := round (num <? 0)%Z (Z.abs num) den.

Definition ofZ (z : Z) : t := ofQ z 1.

(** The double nearest to [m * 10 ^ e], [m] not negative.  Beyond the
    range of the doubles the powers of ten are not computed. *)
Definition ofDecimal (negative : bool) (m e : Z) : t :=
  if (m =? 0)%Z then zero
  else if (400 <? e)%Z then Infinity negative
  else if (0 <=? e)%Z then round negative (m * 10 ^ e) 1
  else if (Z.log2 m + 1 + 3 * e <=? -1076)%Z then zero
  else round negative m (10 ^ (- e)).

(** [x - 1]. *)
Definition pred (x : t) : t :=
  match x with
  | Finite m e =>
      if (0 <=? e)%Z then ofQ (m * 2 ^ e - 1) 1
      else ofQ (m - 2 ^ (- e)) (2 ^ (- e))
  | _ => x
  end.

(** The whole part, towards zero; nothing for what is not finite. *)
Definition truncate (x : t) : option Z :=
  match x with
  | Finite m e =>
      Some (if (0 <=? e)%Z then m * 2 ^ e else Z.quot m (2 ^ (- e)))%Z
  | _ => None
  end.

(** The whole number that [x] is, if it is one. *)
Definition toInteger (x : t) : option Z :=
  match x with
  | Finite m e => if (0 <=? e)%Z then Some (m * 2 ^ e)%Z else None
  | _ => None
  end.

(** Two finite doubles stand for the same value. *)
Definition sameValue (x y : t) : bool :=
  match x, y with
  | Finite m1 e1, Finite m2 e2 =>
      let e := Z.min e1 e2 in
      (m1 * 2 ^ (e1 - e) =? m2 * 2 ^ (e2 - e))%Z
  | _, _ => false
  end.

(** [10 ^ c <= num / den]. *)
Definition fromPower10 (c : Z) (num den : Z) : bool :=
  if (0 <=? c)%Z then (den * 10 ^ c <=? num)%Z else (den <=? num * 10 ^ (- c))%Z.

(** The whole part of the decimal logarithm of [num / den], both positive:
    one of the three candidates next to the estimate from the binary
    logarithm. *)
Definition ilog10 (num den : Z) : Z :=
  let c := (ilog2 num den * 30103 / 100000)%Z in
  if fromPower10 (c + 1) num den then (c + 1)%Z
  else if fromPower10 c num den then c
  else (c - 1)%Z.

(** The digits of a positive double: the shortest decimal [s * 10 ^ (n - k)]
    of [k] digits that is read back as the same double, the nearest one
    among several; [Some (s, n)]. *)
Definition shortest (num den : Z) : Z * Z :=
  let x := round false num den in
  let n := (ilog10 num den + 1)%Z in
  let try (k : Z) : option (Z * Z) :=
    let p := (n - k)%Z in
    let lo :=
      if (0 <=? p)%Z then (num / (den * 10 ^ p))%Z else (num * 10 ^ (- p) / den)%Z in
    let hi := (lo + 1)%Z in
    let ok (s : Z) := (0 <? s)%Z && sameValue (ofDecimal false s p) x in
    let nearer :=
      (* 2 * num / den against (2 * lo + 1) * 10 ^ p *)
      if (0 <=? p)%Z then (2 * num ?= (2 * lo + 1) * 10 ^ p * den)%Z
      else (2 * num * 10 ^ (- p) ?= (2 * lo + 1) * den)%Z in
    let pick (s : Z) := if (s =? 10 ^ k)%Z then (10 ^ (k - 1), n + 1)%Z else (s, n) in
    match ok lo, ok hi with
    | true, true =>
        Some (pick (match nearer with
                    | Lt => lo
                    | Gt => hi
                    | Eq => if Z.even lo then lo else hi
                    end))
    | true, false => Some (pick lo)
    | false, true => Some (pick hi)
    | false, false => None
    end in
  let fix search (ks : list Z) : Z * Z :=
    match ks with
    | [] => (0, 0)%Z
    | k :: ks' =>
        match try k with
        | Some r => r
        | None => search ks'
        end
    end in
  search [1; 2; 3; 4; 5; 6; 7; 8; 9; 10; 11; 12; 13; 14; 15; 16; 17]%Z.

Definition zeros (n : Z) : string :=
  string_of_list_ascii (repeat "0"%char (Z.to_nat n)).

(** The numeral of a positive double with the digits [s] and the decimal
    exponent [n]: the point stands behind the first [n] digits. *)
Definition layout (s n : Z) : string :=
  let ds := JsString.digits s in
  let k := Z.of_nat (String.length ds) in
  if (k <=? n)%Z && (n <=? 21)%Z then ds +:+ zeros (n - k)
  else if (0 <? n)%Z && (n <=? 21)%Z then
    String.substring 0 (Z.to_nat n) ds +:+ "." +:+
    String.substring (Z.to_nat n) (Z.to_nat (k - n)) ds
  else if (-6 <? n)%Z && (n <=? 0)%Z then "0." +:+ zeros (- n) +:+ ds
  else
    let ex :=
      (if (0 <=? n - 1)%Z then "e+" else "e-") +:+ JsString.digits (Z.abs (n - 1)) in
    if (k =? 1)%Z then ds +:+ ex
    else String.substring 0 1 ds +:+ "." +:+
         String.substring 1 (Z.to_nat (k - 1)) ds +:+ ex.

(** [String(x)].  A whole number below [2 ^ 53] is written with all its
    digits, which are the shortest that read back as the same double. *)
Definition toString (x : t) : string :=
  match x with
  | NaN => "NaN"
  | Infinity false => "Infinity"
  | Infinity true => "-Infinity"
  | Finite m e =>
      if (m =? 0)%Z then "0"
      else if (e =? 0)%Z && (Z.abs m <? 2 ^ 53)%Z then JsString.ofZ m
      else
        let (num, den) :=
          if (0 <=? e)%Z then (Z.abs m * 2 ^ e, 1)%Z else (Z.abs m, 2 ^ (- e))%Z in
        let (s, n) := shortest num den in
        (if (m <? 0)%Z then "-" else "") +:+ layout s n
  end.

(** A numeral without sign as [Number(string)] reads it: [Infinity], or
    digits with an optional point and an optional exponent, at least one
    digit before the exponent. *)
Definition readUnsigned (negative : bool) (s : JsString.t) : t :=
  if JsString.eqb s "Infinity" then Infinity negative
  else
    let '(int, n1, s1) := JsString.readDigits 10 s 0 0 in
    let '(mant, n2, s2) :=
      match s1 with
      | 46%N :: s' => JsString.readDigits 10 s' int 0
      | _ => (int, 0%Z, s1)
      end in
    if (n1 + n2 =? 0)%Z then NaN
    else
      match s2 with
      | [] => ofDecimal negative mant (- n2)
      | u :: s' =>
          if (u =? 101)%N || (u =? 69)%N then
            let '(eneg, s'') :=
              match s' with
              | 45%N :: r => (true, r)
              | 43%N :: r => (false, r)
              | _ => (false, s')
              end in
            let '(ex, k, s3) := JsString.readDigits 10 s'' 0 0 in
            match s3 with
            | [] =>
                if (k =? 0)%Z then NaN
                else ofDecimal negative mant ((if eneg then - ex else ex) - n2)
            | _ => NaN
            end
          else NaN
      end.

(** A numeral in base 16, 8 or 2 behind its prefix. *)
Definition readBase (base : Z) (s : JsString.t) : t :=
  let '(v, n, r) := JsString.readDigits base s 0 0 in
  match r with
  | [] => if (n =? 0)%Z then NaN else ofZ v
  | _ => NaN
  end.

(** [Number(string)]. *)
Definition ofString (s : JsString.t) : t :=
  match JsString.trim s with
  | [] => zero
  | 48%N :: 120%N :: r | 48%N :: 88%N :: r => readBase 16 r
  | 48%N :: 111%N :: r | 48%N :: 79%N :: r => readBase 8 r
  | 48%N :: 98%N :: r | 48%N :: 66%N :: r => readBase 2 r
  | 45%N :: r => readUnsigned true r
  | 43%N :: r => readUnsigned false r
  | r => readUnsigned false r
  end.

End Number.

(** ** Platform: JSON *)

Module JSON.

(** A value as [JSON.parse] builds it.  An object lists its own properties
    in the order in which it enumerates them. *)
#[local] Unset Elimination Schemes.
Inductive json :=
| JNull
| JBool (b : bool)
| JNum (x : Number.t)
| JStr (s : JsString.t)
| JArr (l : list json)
| JObj (l : list (JsString.t * json)).
#[local] Set Elimination Schemes.

Definition isWs (u : N) : bool :=
  match u with
  | 32%N | 9%N | 10%N | 13%N => true
  | _ => false
  end.

Fixpoint skipWs (s : JsString.t) : JsString.t :=
  match s with
  | u :: s' => if isWs u then skipWs s' else s
  | [] => s
  end.

Definition hexDigit (n : N) : N :=
  if (n <? 10)%N then (48 + n)%N else (87 + n)%N.

(** The text of a string literal up to its closing quote: a code unit from
    the space on stands for itself, a backslash starts an escape. *)
Fixpoint parseChars (s : JsString.t) : option (JsString.t * JsString.t) :=
  match s with
  | [] => None
  | u :: s' =>
      if (u =? 34)%N then Some ([], s')
      else if (u =? 92)%N then
        match s' with
        | e :: s'' =>
            let simple (x : N) :=
              r ← parseChars s''; Some (x :: fst r, snd r) in
            match e with
            | 34%N => simple 34%N
            | 92%N => simple 92%N
            | 47%N => simple 47%N
            | 98%N => simple 8%N
            | 102%N => simple 12%N
            | 110%N => simple 10%N
            | 114%N => simple 13%N
            | 116%N => simple 9%N
            | 117%N =>
                match s'' with
                | h1 :: h2 :: h3 :: h4 :: s3 =>
                    a ← JsString.digitValue 16 h1; b ← JsString.digitValue 16 h2;
                    x ← JsString.digitValue 16 h3; y ← JsString.digitValue 16 h4;
                    r ← parseChars s3;
                    Some (Z.to_N (4096 * a + 256 * b + 16 * x + y) :: fst r, snd r)
                | _ => None
                end
            | _ => None
            end
        | [] => None
        end
      else if (u <? 32)%N then None
      else r ← parseChars s'; Some (u :: fst r, snd r)
  end.

(** A number: [-]digits[.digits][(e|E)[+|-]digits], the whole part without
    a leading zero. *)
Definition parseNumber (s : JsString.t) : option (json * JsString.t) :=
  let '(neg, s1) :=
    match s with
    | 45%N :: s' => (true, s')
    | _ => (false, s)
    end in
  let '(int, n, s2) := JsString.readDigits 10 s1 0%Z 0%Z in
  if (n =? 0)%Z then None
  else if (1 <? n)%Z && (match s1 with 48%N :: _ => true | _ => false end)
  then None
  else
    let '(m, fe, s3) :=
      match s2 with
      | 46%N :: s' =>
          let '(frac, k, s'') := JsString.readDigits 10 s' int 0%Z in
          if (k =? 0)%Z then (int, None, s2)
          else (frac, Some (- k)%Z, s'')
      | _ => (int, Some 0%Z, s2)
      end in
    match fe with
    | None => None
    | Some fe =>
        match s3 with
        | u :: s' =>
            if (u =? 101)%N || (u =? 69)%N then
              let '(eneg, s'') :=
                match s' with
                | 45%N :: t => (true, t)
                | 43%N :: t => (false, t)
                | _ => (false, s')
                end in
              let '(ex, k, s4) := JsString.readDigits 10 s'' 0%Z 0%Z in
              if (k =? 0)%Z then None
              else
                Some (JNum (Number.ofDecimal neg m
                              (fe + (if eneg then - ex else ex))%Z), s4)
            else Some (JNum (Number.ofDecimal neg m fe), s3)
        | [] => Some (JNum (Number.ofDecimal neg m fe), s3)
        end
    end.

Fixpoint startsWith (p s : JsString.t) : option JsString.t :=
  match p, s with
  | [], _ => Some s
  | x :: p', y :: s' => if N.eqb x y then startsWith p' s' else None
  | _ :: _, [] => None
  end.

(** The array index that a property name is: the numeral, without a
    leading zero, of a whole number up to [2 ^ 32 - 2]. *)
Definition arrayIndex (key : JsString.t) : option Z :=
  let '(v, n, r) := JsString.readDigits 10 key 0%Z 0%Z in
  match r with
  | [] =>
      if (0 <? n)%Z && (n <=? 10)%Z && (v <? 2 ^ 32 - 1)%Z
         && JsString.eqb key (JsString.ofZ v)
      then Some v else None
  | _ => None
  end.

(** A member is defined on the object that is being built: a property
    that exists takes the new value, a new one is created. *)
Fixpoint define (key : JsString.t) (v : json) (l : list (JsString.t * json))
  : list (JsString.t * json) :=
  match l with
  | [] => [(key, v)]
  | kx :: l' =>
      if JsString.eqb (fst kx) key then (fst kx, v) :: l'
      else kx :: define key v l'
  end.

Fixpoint insertIndex (i : Z) (kv : JsString.t * json)
  (l : list (Z * (JsString.t * json))) : list (Z * (JsString.t * json)) :=
  match l with
  | [] => [(i, kv)]
  | jx :: l' =>
      if (i <? fst jx)%Z then (i, kv) :: jx :: l' else jx :: insertIndex i kv l'
  end.

(** The object with the given members in the order of the text.  It
    enumerates the properties whose names are array indices first, in
    ascending order, then the others in the order of their creation. *)
Definition object (members : list (JsString.t * json)) : json :=
  let created := fold_left (fun l kv => define (fst kv) (snd kv) l) members [] in
  let indices :=
    fold_left
      (fun acc kv =>
         match arrayIndex (fst kv) with
         | Some i => insertIndex i kv acc
         | None => acc
         end) created [] in
  JObj (map snd indices ++
        filter (fun kv => arrayIndex (fst kv) = None) created).

(** A value, and the rest of the input behind it. *)
Fixpoint parseValue (fuel : nat) (s : JsString.t) : option (json * JsString.t) :=
  match fuel with
  | 0 => None
  | S f =>
      match skipWs s with
      | [] => None
      | u :: s' =>
          match u with
          | 91%N =>
              match skipWs s' with
              | 93%N :: s'' => Some (JArr [], s'')
              | _ => r ← parseElements f s'; Some (JArr (fst r), snd r)
              end
          | 123%N =>
              match skipWs s' with
              | 125%N :: s'' => Some (JObj [], s'')
              | _ => r ← parseMembers f s'; Some (object (fst r), snd r)
              end
          | 34%N => r ← parseChars s'; Some (JStr (fst r), snd r)
          | 116%N => r ← startsWith "rue" s'; Some (JBool true, r)
          | 102%N => r ← startsWith "alse" s'; Some (JBool false, r)
          | 110%N => r ← startsWith "ull" s'; Some (JNull, r)
          | _ => parseNumber (u :: s')
          end
      end
  end
with parseElements (fuel : nat) (s : JsString.t) : option (list json * JsString.t) :=
  match fuel with
  | 0 => None
  | S f =>
      v ← parseValue f s;
      match skipWs (snd v) with
      | 44%N :: s' => r ← parseElements f s'; Some (fst v :: fst r, snd r)
      | 93%N :: s' => Some ([fst v], s')
      | _ => None
      end
  end
with parseMembers (fuel : nat) (s : JsString.t)
  : option (list (JsString.t * json) * JsString.t) :=
  match fuel with
  | 0 => None
  | S f =>
      match skipWs s with
      | 34%N :: s1 =>
          k ← parseChars s1;
          match skipWs (snd k) with
          | 58%N :: s2 =>
              v ← parseValue f s2;
              match skipWs (snd v) with
              | 44%N :: s' =>
                  r ← parseMembers f s'; Some ((fst k, fst v) :: fst r, snd r)
              | 125%N :: s' => Some ([(fst k, fst v)], s')
              | _ => None
              end
          | _ => None
          end
      | _ => None
      end
  end.

(** [JSON.parse(text)]: [None] stands for the SyntaxError.  Every descent
    into a value or into the rest of a list follows a code unit of the
    text, so twice the length of the text bounds the descent. *)
Definition parse (text : JsString.t) : option json :=
  r ← parseValue (2 * length text + 2) text;
  match skipWs (snd r) with
  | [] => Some (fst r)
  | _ => None
  end.

Definition isHighSurrogate (u : N) : bool := ((0xD800 <=? u) && (u <=? 0xDBFF))%N.
Definition isLowSurrogate (u : N) : bool := ((0xDC00 <=? u) && (u <=? 0xDFFF))%N.

Definition escapeUnit (u : N) : JsString.t :=
  [92; 117; hexDigit (u / 4096); hexDigit (u / 256 mod 16);
   hexDigit (u / 16 mod 16); hexDigit (u mod 16)]%N.

(** The text of a string between its quotes: the quote, the backslash and
    the control characters are escaped, and so is a surrogate that has no
    partner. *)
Fixpoint escape (s : JsString.t) : JsString.t :=
  match s with
  | [] => []
  | u :: s' =>
      match u with
      | 34%N => [92; 34]%N ++ escape s'
      | 92%N => [92; 92]%N ++ escape s'
      | 8%N => [92; 98]%N ++ escape s'
      | 12%N => [92; 102]%N ++ escape s'
      | 10%N => [92; 110]%N ++ escape s'
      | 13%N => [92; 114]%N ++ escape s'
      | 9%N => [92; 116]%N ++ escape s'
      | _ =>
          if (u <? 32)%N then escapeUnit u ++ escape s'
          else if isHighSurrogate u then
            match s' with
            | v :: s'' =>
                if isLowSurrogate v then u :: v :: escape s''
                else escapeUnit u ++ escape s'
            | [] => escapeUnit u
            end
          else if isLowSurrogate u then escapeUnit u ++ escape s'
          else u :: escape s'
      end
  end.

Definition quote (s : JsString.t) : JsString.t := 34%N :: escape s ++ [34%N].

(** [JSON.stringify(value)]: a number that is not finite is written as
    [null]. *)
Fixpoint stringify (v : json) : JsString.t :=
  match v with
  | JNull => "null"
  | JBool true => "true"
  | JBool false => "false"
  | JNum (Number.Finite m e) => Number.toString (Number.Finite m e)
  | JNum _ => "null"
  | JStr s => quote s
  | JArr l =>
      91%N ::
      (fix items (l : list json) : JsString.t :=
         match l with
         | [] => []
         | [x] => stringify x
         | x :: l' => stringify x ++ 44%N :: items l'
         end) l ++ [93%N]
  | JObj l =>
      123%N ::
      (fix members (l : list (JsString.t * json)) : JsString.t :=
         match l with
         | [] => []
         | [(k, x)] => quote k ++ 58%N :: stringify x
         | (k, x) :: l' => quote k ++ 58%N :: stringify x ++ 44%N :: members l'
         end) l ++ [125%N]
  end.

End JSON.

(** ** Platform: HTML of a single element *)

Module HTML.

(** What [innerHTML = markup] leaves as first child: a text node or an
    element.  The model reads the markup that [outerHTML] writes for an
    element of an ordinary kind without content, and markup that is plain
    text; for other markup it has no parser. *)
Inductive node :=
| HText (s : string)
| HElem (e : Element).

Definition lowerChar (c : ascii) : ascii :=
  let n := nat_of_ascii c in
  if (65 <=? n)%nat && (n <=? 90)%nat then ascii_of_nat (n + 32) else c.

Definition upperChar (c : ascii) : ascii :=
  let n := nat_of_ascii c in
  if (97 <=? n)%nat && (n <=? 122)%nat then ascii_of_nat (n - 32) else c.

Fixpoint mapString (f : ascii -> ascii) (s : string) : string :=
  match s with
  | EmptyString => ""
  | String c s' => String (f c) (mapString f s')
  end.

(** The double quote and the no-break space. *)
Definition dq : ascii := ascii_of_nat 34.
Definition nbsp : ascii := ascii_of_nat 160.

(** The value of an attribute as it is written between double quotes. *)
Fixpoint escapeAttr (s : string) : string :=
  match s with
  | EmptyString => ""
  | String c s' =>
      (if Ascii.eqb c "&" then "&amp;"
       else if Ascii.eqb c nbsp then "&nbsp;"
       else if Ascii.eqb c dq then "&quot;"
       else if Ascii.eqb c "<" then "&lt;"
       else if Ascii.eqb c ">" then "&gt;"
       else String c "") +:+ escapeAttr s'
  end.

Definition attribute (kv : string * string) : string :=
  " " +:+ fst kv +:+ "=" +:+ String dq (escapeAttr (snd kv) +:+ String dq "").

Definition styleOf (colour : string) : string :=
  "background-color: " +:+ colour +:+ ";".

(** The attributes in the order in which [createWrapper] and
    [doHighlight] set them: style, class, then the others. *)
Definition allAttributes (e : Element) : list (string * string) :=
  (if String.eqb (backgroundColor e) "" then []
   else [("style", styleOf (backgroundColor e))]) ++
  (if String.eqb (className e) "" then [] else [("class", className e)]) ++
  attributes e.

(** [el.outerHTML] of an element without children. *)
Definition outerHTML (e : Element) : string :=
  let tag := mapString lowerChar (tagName e) in
  "<" +:+ tag +:+ fold_right (fun kv acc => attribute kv +:+ acc) "" (allAttributes e)
  +:+ "></" +:+ tag +:+ ">".

Definition startsWith (p s : string) : option string :=
  if String.prefix p s
  then Some (String.substring (String.length p) (String.length s - String.length p) s)
  else None.

(** The colour that a style attribute of the form written by [styleOf]
    gives; no colour for another style. *)
Definition colourOfStyle (style : string) : string :=
  match startsWith "background-color: " style with
  | Some r =>
      let n := String.length r in
      if String.eqb (String.substring (n - 1) 1 r) ";"
      then String.substring 0 (n - 1) r else ""
  | None => ""
  end.

(** The kinds of element that the parser of the model reads: elements
    that the HTML parser creates as they stand wherever they are met, with
    the end tag they are written with. *)
Definition ordinaryTags : list string :=
  ["span"; "mark"; "div"; "p"; "b"; "i"; "u"; "s"; "em"; "strong"; "small";
   "code"; "a"].

Definition isLower (c : ascii) : bool :=
  let n := nat_of_ascii c in (97 <=? n)%nat && (n <=? 122)%nat.

Definition isNameChar (c : ascii) : bool :=
  let n := nat_of_ascii c in
  isLower c || ((48 <=? n)%nat && (n <=? 57)%nat) || Ascii.eqb c "-".

Fixpoint readName (s : string) : string * string :=
  match s with
  | String c s' =>
      if isNameChar c then let (n, r) := readName s' in (String c n, r)
      else ("", s)
  | EmptyString => ("", s)
  end.

(** An attribute value up to its closing quote, with the character
    references that [escapeAttr] writes resolved.  The carriage return and
    the null character, which the parser replaces, and an ampersand that
    starts another reference are not read. *)
Fixpoint readValue (fuel : nat) (s : string) : option (string * string) :=
  match fuel with
  | 0 => None
  | S f =>
      match s with
      | EmptyString => None
      | String c s' =>
          if Ascii.eqb c dq then Some ("", s')
          else if Ascii.eqb c "&" then
            let entity (name : string) (x : ascii) :=
              match startsWith name s' with
              | Some r => Some (v ← readValue f r; Some (String x (fst v), snd v))
              | None => None
              end in
            match entity "amp;" "&"%char, entity "nbsp;" nbsp,
                  entity "quot;" dq, entity "lt;" "<"%char, entity "gt;" ">"%char with
            | Some r, _, _, _, _ => r
            | _, Some r, _, _, _ => r
            | _, _, Some r, _, _ => r
            | _, _, _, Some r, _ => r
            | _, _, _, _, Some r => r
            | _, _, _, _, _ => None
            end
          else if (nat_of_ascii c =? 0)%nat || (nat_of_ascii c =? 13)%nat then None
          else v ← readValue f s'; Some (String c (fst v), snd v)
      end
  end.

Fixpoint readAttributes (fuel : nat) (s : string)
  : option (list (string * string) * string) :=
  match fuel with
  | 0 => None
  | S f =>
      match s with
      | String ">" s' => Some ([], s')
      | String " " s' =>
          let (k, r) := readName s' in
          match k, r with
          | String _ _, String "=" (String q r') =>
              if Ascii.eqb q dq then
                v ← readValue (S (String.length r')) r';
                rest ← readAttributes f (snd v);
                Some ((k, fst v) :: fst rest, snd rest)
              else None
          | _, _ => None
          end
      | _ => None
      end
  end.

Definition lookupAttr (k : string) (l : list (string * string)) : string :=
  match find (fun kv => String.eqb (fst kv) k) l with
  | Some kv => snd kv
  | None => ""
  end.

(** The element that the markup of one start tag and its end tag stands
    for.  The markup is read only if it is what [outerHTML] writes for that
    element: an ordinary tag, each attribute once, the style and the class
    in front, the style one that [styleOf] writes for a single value. *)
Definition parseElement (s : string) : option Element :=
  match s with
  | String "<" s1 =>
      let (tag, r) := readName s1 in
      a ← readAttributes (S (String.length r)) r;
      let e :=
        mkElement (mapString upperChar tag)
          (lookupAttr "class" (fst a))
          (colourOfStyle (lookupAttr "style" (fst a)))
          (filter (fun kv => negb (String.eqb (fst kv) "class")
                             && negb (String.eqb (fst kv) "style"))
                  (fst a)) in
      if existsb (String.eqb tag) ordinaryTags
         && bool_decide (NoDup (map fst (fst a)))
         && forallb (fun c => negb (Ascii.eqb c ";"))
              (list_ascii_of_string (backgroundColor e))
         && String.eqb (outerHTML e) s
      then Some e else None
  | _ => None
  end.

(** Text that the parser takes as it stands: no tag, no character
    reference, no carriage return and no null character. *)
Definition plainText (s : string) : bool :=
  forallb (fun c => negb (Ascii.eqb c "<" || Ascii.eqb c "&"
                          || (nat_of_ascii c =? 0)%nat || (nat_of_ascii c =? 13)%nat))
          (list_ascii_of_string s).

(** The child nodes that [innerHTML = markup] leaves; [None] for markup
    outside the model: markup that holds a code unit beyond those of the
    documents, or for which the model has no parser. *)
Definition parse (markup : JsString.t) : option (list node) :=
  s ← JsString.narrow markup;
  match s with
  | EmptyString => Some []
  | String "<" _ => e ← parseElement s; Some [HElem e]
  | _ => if plainText s then Some [HText s] else None
  end.

End HTML.

Declare Scope js_scope.
Delimit Scope js_scope with js.
Notation "x <- c ;; k" := (bind c (fun x => k))
  (at level 100, c at next level, right associativity) : js_scope.
Notation "c ;;; k" := (bind c (fun _ => k))
  (at level 100, right associativity) : js_scope.
Local Open Scope js_scope.

(** ** More of the platform *)

Module Platform.

(** [String.prototype.trim] on code units below 256: the white space and
    the line terminators there are tab, line feed, vertical tab, form feed,
    carriage return, space and the no-break space. *)
Definition isWhiteSpace (c : ascii) : bool :=
  let n := nat_of_ascii c in
  (Nat.leb 9 n && Nat.leb n 13) || Nat.eqb n 32 || Nat.eqb n 160.

Fixpoint trimStart (s : string) : string :=
  match s with
  | EmptyString => EmptyString
  | String c s' => if isWhiteSpace c then trimStart s' else s
  end.

Fixpoint trimEnd (s : string) : string :=
  match s with
  | EmptyString => EmptyString
  | String c s' =>
      match trimEnd s' with
      | EmptyString => if isWhiteSpace c then EmptyString else String c EmptyString
      | r => String c r
      end
  end.

Definition trim (s : string) : string := trimEnd (trimStart s).

(** The attribute list after [setAttribute(name, value)]: an attribute of
    that name takes the value where it stands, a new one goes last. *)
Fixpoint setAttr (name value : string) (l : list (string * string))
  : list (string * string) :=
  match l with
  | [] => [(name, value)]
  | kv :: l' =>
      if String.eqb (fst kv) name then (fst kv, value) :: l'
      else kv :: setAttr name value l'
  end.

(** [el.setAttribute(name, value)] in an HTML document: the name is taken
    in lower case; [class] and [style] are the attributes behind
    [className] and the style of the element. *)
Definition Element_setAttribute (r : nat) (name value : string) : M unit :=
  fun d =>
    match getElement d r with
    | None => (Throw (TypeError "setAttribute is not a function"), d)
    | Some e =>
        let name := HTML.mapString HTML.lowerChar name in
        let e' :=
          if String.eqb name "class"
          then mkElement (tagName e) value (backgroundColor e) (attributes e)
          else if String.eqb name "style"
          then mkElement (tagName e) (className e) (HTML.colourOfStyle value) (attributes e)
          else mkElement (tagName e) (className e) (backgroundColor e)
                 (setAttr name value (attributes e)) in
        (Ret tt, setData r (ElementData e') d)
    end.

(** [node.cloneNode(true)]: a copy of the node without a parent, with
    copies of its descendants; [fuel] bounds the depth of the copy. *)
Fixpoint Node_cloneNode (fuel : nat) (r : option nat) : M nat :=
  match fuel with
  | 0 => diverge
  | S f =>
      r' <- deref "cloneNode of null" r ;;
      x <- gets (fun d => getData d r') ;;
      x' <- deref "cloneNode of a reference without a node" x ;;
      c <- (fun d => let (c, d') := alloc x' d in (Ret c, d')) ;;
      cs <- gets (fun d => getChildren d r') ;;
      (fix copy (cs : list nat) : M unit :=
         match cs with
         | [] => ret tt
         | k :: cs' =>
             k' <- Node_cloneNode f (Some k) ;;
             Node_appendChild c k' ;;;
             copy cs'
         end) cs ;;;
      ret c
  end.

End Platform.

(** ** config.js *)

Module Config.

(** The constants as the compiled module has them
    ([dist/text-highlighter.js], the part behind the class): the marker
    attribute, the timestamp attribute and the two node types. *)
Definition DATA_ATTR : string := "data-highlighted".
Definition TIMESTAMP_ATTR : string := "data-timestamp".

Inductive NODE_TYPE := ELEMENT_NODE | TEXT_NODE.

Definition nodeType (d : Store) (r : nat) : option NODE_TYPE :=
  match getData d r with
  | Some (TextData _) => Some TEXT_NODE
  | Some (ElementData _) => Some ELEMENT_NODE
  | None => None
  end.

(** The tags whose content is not highlighted, in the upper case in which
    an HTML element gives its [tagName]. *)
Definition IGNORE_TAGS : list string :=
  ["SCRIPT"; "STYLE"; "SELECT"; "OPTION"; "BUTTON"; "OBJECT"; "APPLET";
   "VIDEO"; "AUDIO"; "CANVAS"; "EMBED"; "PARAM"; "METER"; "PROGRESS"].

(** [IGNORE_TAGS.indexOf(tagName) > -1]; [tagName] is [undefined] on a node
    that is not an element. *)
Definition ignored (tagName : option string) : bool :=
  match tagName with
  | Some t => existsb (String.eqb t) IGNORE_TAGS
  | None => false
  end.

End Config.

(** ** dom.js *)

Module DomUtil.

(** Modelled from the spec: [dom.js] is not among the sources.  The spec
    treats its helpers as tree primitives (node removal, sibling insertion,
    wrapping, unwrapping, absorbing children, coalescing adjacent text
    children, the colour of an element, the chain of parents); each helper
    below is the DOM call that its name and its use in the sources say. *)

(** [dom(el).color()]: the background colour of an element. *)
Definition color (el : nat) : M string :=
  e <- gets (fun d => getElement d el) ;;
  e' <- deref "style of a node that is not an element" e ;;
  ret (backgroundColor e').

(** [dom(el).parents()]: every ancestor of [el]. *)
Definition parents (d : Store) (el : nat) : list nat := ancestors d el.

(** [dom(el).insertBefore(refEl)]: [refEl.parentNode.insertBefore(el, refEl)]. *)
Definition insertBefore (el refEl : nat) : M nat :=
  p <- gets (fun d => getParent d refEl) ;;
  p' <- deref "insertBefore of null" p ;;
  Node_insertBefore p' el (Some refEl).

(** [dom(el).insertAfter(refEl)]:
    [refEl.parentNode.insertBefore(el, refEl.nextSibling)]. *)
Definition insertAfter (el refEl : nat) : M nat :=
  p <- gets (fun d => getParent d refEl) ;;
  p' <- deref "insertBefore of null" p ;;
  n <- gets (fun d => nextSibling d refEl) ;;
  Node_insertBefore p' el n.

(** [dom(el).remove()]: [el.parentNode.removeChild(el)]. *)
Definition remove (el : nat) : M unit :=
  p <- gets (fun d => getParent d el) ;;
  p' <- deref "removeChild of null" p ;;
  Node_removeChild p' el ;;; ret tt.

Fixpoint appendAll (el : nat) (ns : list nat) : M unit :=
  match ns with
  | [] => ret tt
  | n :: ns' => Node_appendChild el n ;;; appendAll el ns'
  end.

(** [dom(el).append(nodes)]: the nodes become the last children, in order. *)
Definition append (el : nat) (ns : list nat) : M unit := appendAll el ns.

Fixpoint insertAllBefore (parent : nat) (ref : option nat) (ns : list nat) : M unit :=
  match ns with
  | [] => ret tt
  | n :: ns' => Node_insertBefore parent n ref ;;; insertAllBefore parent ref ns'
  end.

(** [dom(el).prepend(nodes)]: the nodes become the first children, in order. *)
Definition prepend (el : nat) (ns : list nat) : M unit :=
  f <- gets (fun d => firstChild d el) ;;
  insertAllBefore el f ns.

(** [dom(el).wrap(wrapper)]: the wrapper takes the place of [el], and [el]
    becomes its child. *)
Definition wrap (el wrapper : nat) : M nat :=
  p <- gets (fun d => getParent d el) ;;
  match p with
  | Some p' => Node_insertBefore p' wrapper (Some el) ;;; ret tt
  | None => ret tt
  end ;;;
  Node_appendChild wrapper el ;;;
  ret wrapper.

(** [dom(el).unwrap()]: the children of [el] take its place, [el] is
    removed; the children are returned. *)
Definition unwrap (el : nat) : M (list nat) :=
  ns <- gets (fun d => getChildren d el) ;;
  p <- gets (fun d => getParent d el) ;;
  p' <- deref "insertBefore of null" p ;;
  insertAllBefore p' (Some el) ns ;;;
  remove el ;;;
  ret ns.

(** One run over the children: a text child absorbs the text children that
    follow it directly.  [cur] is the text child that is absorbing. *)
Fixpoint coalesce (cur : option nat) (cs : list nat) (d : Store) : Store :=
  match cs with
  | [] => d
  | c :: cs' =>
      match getNodeValue d c with
      | Some t =>
          match cur with
          | Some k =>
              let s := default "" (getNodeValue d k) in
              coalesce (Some k) cs' (detach c (setData k (TextData (s +:+ t)) d))
          | None => coalesce (Some c) cs' d
          end
      | None => coalesce None cs' d
      end
  end.

(** [dom(el).normalizeTextNodes()]: adjacent text children of [el] become
    one text node. *)
Definition normalizeTextNodes (el : nat) : M unit :=
  modify (fun d => coalesce None (getChildren d el) d).

Fixpoint appendParsed (div : nat) (l : list HTML.node) : M (list nat) :=
  match l with
  | [] => ret []
  | n :: l' =>
      r <- (fun d =>
              let (r, d') :=
                alloc (match n with
                       | HTML.HText s => TextData s
                       | HTML.HElem e => ElementData e
                       end) d in
              (Ret r, d')) ;;
      Node_appendChild div r ;;;
      rs <- appendParsed div l' ;;
      ret (r :: rs)
  end.

(** [dom().fromHTML(html)]: the markup becomes the content of a new [div];
    its child nodes are returned.  For markup that the model does not read
    the call has no outcome in the model. *)
Definition fromHTML (markup : JsString.t) : M (list nat) :=
  div <- createElement (mkElement "DIV" "" "" []) ;;
  match HTML.parse markup with
  | Some l => appendParsed div l
  | None => diverge
  end.

(** Modelled from the spec: [dom(el).contains(child)], [child] is inside
    [el] and is not [el] itself; the caller adds the case of [el]. *)
Definition contains (d : Store) (el child : nat) : bool :=
  negb (Nat.eqb el child) && Node_contains d el child.

End DomUtil.

(** ** utils.js *)

Module Range.

(** The selection range handed over by the platform. *)
Record t := mk {
  startContainer : nat;
  startOffset : nat;
  endContainer : nat;
  endOffset : nat;
  commonAncestorContainer : nat
}.

(** [range.collapsed]: the two boundary points are the same. *)
Definition collapsed (r : t) : bool :=
  Nat.eqb (startContainer r) (endContainer r) && Nat.eqb (startOffset r) (endOffset r).

End Range.

Module JsObject.

(** The objects that [utils.js] uses as maps.  A property of an object is
    an own property or one that every object inherits from
    [Object.prototype]; reading an inherited one gives a function (for
    [__proto__] the prototype), never [undefined]. *)
Definition prototypeKeys : list string :=
  ["constructor"; "__defineGetter__"; "__defineSetter__"; "hasOwnProperty";
   "__lookupGetter__"; "__lookupSetter__"; "isPrototypeOf";
   "propertyIsEnumerable"; "toString"; "valueOf"; "__proto__";
   "toLocaleString"].

Definition inherited (prop : string) : bool :=
  existsb (String.eqb prop) prototypeKeys.

(** The own properties by name; a property can hold [undefined], which is
    [None]. *)
Abbreviation t V := (gmap string (option V)) (only parsing).

(** [obj[prop] === void 0]. *)
Definition isUndefined {V} (obj : t V) (prop : string) : bool :=
  match obj !! prop with
  | Some (Some _) => false
  | Some None => true
  | None => negb (inherited prop)
  end.

End JsObject.

Module Utils.

(** [haveSameColor(a, b)]. *)
Definition haveSameColor (a b : nat) : M bool :=
  ca <- DomUtil.color a ;;
  cb <- DomUtil.color b ;;
  ret (String.eqb ca cb).

(** [unique(arr)]: an element stays where its first occurrence is. *)
Fixpoint uniqueFrom (seen arr : list nat) : list nat :=
  match arr with
  | [] => []
  | x :: arr' =>
      if inList x seen then uniqueFrom seen arr'
      else x :: uniqueFrom (x :: seen) arr'
  end.

Definition unique (arr : list nat) : list nat := uniqueFrom [] arr.

(** [Array.prototype.sort] with a comparator is stable: an element goes
    behind the elements that do not compare greater. *)
Fixpoint insertSorted {A} (cmp : A -> A -> Z) (x : A) (l : list A) : list A :=
  match l with
  | [] => [x]
  | y :: l' =>
      if (cmp y x <=? 0)%Z then y :: insertSorted cmp x l' else x :: y :: l'
  end.

Definition sort {A} (cmp : A -> A -> Z) (l : list A) : list A :=
  fold_left (fun acc x => insertSorted cmp x acc) l [].

Definition depth (d : Store) (r : nat) : Z :=
  Z.of_nat (length (DomUtil.parents d r)).

(** [sortByDepth(arr, descending)]; the sorted array is returned. *)
Definition sortByDepth (arr : list nat) (descending : bool) : M (list nat) :=
  gets (fun d =>
    sort (fun a b =>
      (depth d (if descending then b else a) - depth d (if descending then a else b))%Z)
      arr).

Record refined := mkRefined {
  startContainer : option nat;
  endContainer : option nat;
  goDeeper : bool
}.

(** The loop of the end boundary:
    [while (!endContainer.previousSibling && endContainer.parentNode !== ancestor)
       endContainer = endContainer.parentNode]. *)
Fixpoint walkUp (fuel : nat) (ancestor : nat) (endContainer : option nat)
  : M (option nat) :=
  match fuel with
  | 0 => diverge
  | S f =>
      e <- deref "previousSibling of null" endContainer ;;
      prev <- gets (fun d => previousSibling d e) ;;
      par <- gets (fun d => getParent d e) ;;
      if negb (bool_decide (is_Some prev)) && negb (optEqb par (Some ancestor))
      then walkUp f ancestor par
      else ret (Some e)
  end.

(** [refineRangeBoundaries(range)]; [fuel] bounds the loop of the end
    boundary. *)
Definition refineRangeBoundaries (fuel : nat) (range : Range.t) : M refined :=
  let startContainer := Range.startContainer range in
  let endContainer := Range.endContainer range in
  let ancestor := Range.commonAncestorContainer range in
  endContainer <-
    (if Nat.eqb (Range.endOffset range) 0 then
       e <- walkUp fuel ancestor (Some endContainer) ;;
       e' <- deref "previousSibling of null" e ;;
       gets (fun d => previousSibling d e')
     else
       ty <- gets (fun d => Config.nodeType d endContainer) ;;
       match ty with
       | Some Config.TEXT_NODE =>
           v <- gets (fun d => default "" (getNodeValue d endContainer)) ;;
           (if Nat.ltb (Range.endOffset range) (String.length v)
            then Text_splitText (Some endContainer) (Range.endOffset range) ;;; ret tt
            else ret tt) ;;;
           ret (Some endContainer)
       | _ =>
           gets (fun d => getChildren d endContainer !! (Range.endOffset range - 1))
       end) ;;
  ty <- gets (fun d => Config.nodeType d startContainer) ;;
  match ty with
  | Some Config.TEXT_NODE =>
      v <- gets (fun d => default "" (getNodeValue d startContainer)) ;;
      if Nat.eqb (Range.startOffset range) (String.length v) then
        ret (mkRefined (Some startContainer) endContainer false)
      else if Nat.ltb 0 (Range.startOffset range) then
        s <- Text_splitText (Some startContainer) (Range.startOffset range) ;;
        prev <- gets (fun d => previousSibling d s) ;;
        if optEqb endContainer prev
        then ret (mkRefined (Some s) (Some s) true)
        else ret (mkRefined (Some s) endContainer true)
      else ret (mkRefined (Some startContainer) endContainer true)
  | _ =>
      cs <- gets (fun d => getChildren d startContainer) ;;
      if Nat.ltb (Range.startOffset range) (length cs) then
        ret (mkRefined (cs !! Range.startOffset range) endContainer true)
      else
        n <- gets (fun d => nextSibling d startContainer) ;;
        ret (mkRefined n endContainer true)
  end.

(** [unique(arr)] as the source writes it,
    [arr.filter((value, idx, self) => self.indexOf(value) === idx)]. *)
Definition uniqueFilter (arr : list nat) : list nat :=
  snd <$> filter (fun iv => indexOf (snd iv) arr = Some (fst iv)) (imap pair arr).

(** [defaults(obj, source)]: [obj || {}], then the loop over the own
    properties of [source]. *)
Definition defaults {V} (obj : option (JsObject.t V)) (source : JsObject.t V)
  : JsObject.t V :=
  map_fold
    (fun prop v obj => if JsObject.isUndefined obj prop then <[prop := v]> obj else obj)
    (default ∅ obj) source.

(** One entry of the result of [groupHighlights]; [toString] is
    [groupToString]. *)
Record group := mkGroup {
  chunks : list nat;
  timestamp : option string
}.

(** The body of [highlights.forEach((hl) => ...)] in [groupHighlights].
    The timestamp is [null] without the attribute; as a property name
    [null] is the string of that name. *)
Definition groupStep (st : list (option string) * gmap string (list nat))
  (hl : nat) : M (list (option string) * gmap string (list nat)) :=
  e <- gets (fun d => getElement d hl) ;;
  e' <- deref "hl.getAttribute is not a function" e ;;
  let timestamp :=
    snd <$> find (fun kv => String.eqb (fst kv) Config.TIMESTAMP_ATTR) (attributes e') in
  let key := default "null" timestamp in
  match snd st !! key with
  | Some group => ret (fst st, <[key := group ++ [hl]]> (snd st))
  | None =>
      if JsObject.inherited key
      then throw (TypeError "chunks[timestamp].push is not a function")
      else ret (fst st ++ [timestamp], <[key := [hl]]> (snd st))
  end.

Fixpoint groupLoop (st : list (option string) * gmap string (list nat))
  (highlights : list nat) : M (list (option string) * gmap string (list nat)) :=
  match highlights with
  | [] => ret st
  | hl :: rest => st' <- groupStep st hl ;; groupLoop st' rest
  end.

(** [groupHighlights(highlights)]. *)
Definition groupHighlights (highlights : list nat) : M (list group) :=
  st <- groupLoop ([], ∅) highlights ;;
  ret (map (fun timestamp =>
              mkGroup (default [] (snd st !! default "null" timestamp)) timestamp)
           (fst st)).

(** The [toString] of a group:
    [group.map(h => h.textContent).join('')]. *)
Definition groupToString (d : Store) (g : group) : string :=
  String.concat "" (map (textContent d) (chunks g)).

End Utils.

(** ** text-highlighter.js *)

Module TextHighlighter.

(** The options of the constructor that the embedded methods read.  The
    veto callback is a function of the tree and the marker. *)
Record options := mkOptions {
  color : string;
  highlightedClass : string;
  onRemoveHighlight : Store -> nat -> bool
}.

(** The defaults of the constructor: the veto always answers [true]. *)
Definition defaultOptions : options :=
  mkOptions "#ffff7b" "highlighted" (fun _ _ => true).

(** [isHighlight(el)]. *)
Definition isHighlight (d : Store) (el : option nat) : bool :=
  match el with
  | Some e =>
      match Config.nodeType d e with
      | Some Config.ELEMENT_NODE => hasAttribute d e Config.DATA_ATTR
      | _ => false
      end
  | None => false
  end.

(** The body of [highlights.forEach((hl, i) => ...)] in [flattenOnce]; the
    result is the entry left at index [i] and whether [again] was set. *)
Definition flattenStep (hl : nat) : M (nat * bool) :=
  parent <- gets (fun d => parentElement d hl) ;;
  parent' <- deref "previousSibling of null" parent ;;
  parentPrev <- gets (fun d => previousSibling d parent') ;;
  parentNext <- gets (fun d => nextSibling d parent') ;;
  isHl <- gets (fun d => isHighlight d parent) ;;
  if isHl then
    same <- Utils.haveSameColor parent' hl ;;
    if negb same then
      next <- gets (fun d => nextSibling d hl) ;;
      again1 <-
        (match next with
         | None => DomUtil.insertBefore hl (default parent' parentNext) ;;; ret true
         | Some _ => ret false
         end) ;;
      prev <- gets (fun d => previousSibling d hl) ;;
      again2 <-
        (match prev with
         | None => DomUtil.insertAfter hl (default parent' parentPrev) ;;; ret true
         | Some _ => ret false
         end) ;;
      has <- gets (fun d => hasChildNodes d parent') ;;
      (if negb has then DomUtil.remove parent' else ret tt) ;;;
      ret (hl, again1 || again2)
    else
      f <- gets (fun d => firstChild d hl) ;;
      Node_replaceChild parent' f hl ;;;
      ret (parent', true)
  else ret (hl, false).

(** [flattenOnce()]: one run over the array. *)
Fixpoint flattenOnce (highlights : list nat) : M (list nat * bool) :=
  match highlights with
  | [] => ret ([], false)
  | hl :: rest =>
      r <- flattenStep hl ;;
      rs <- flattenOnce rest ;;
      ret (fst r :: fst rs, snd r || snd rs)
  end.

(** [do { again = flattenOnce(); } while (again)]. *)
Fixpoint flattenLoop (fuel : nat) (highlights : list nat) : M (list nat) :=
  match fuel with
  | 0 => diverge
  | S f =>
      r <- flattenOnce highlights ;;
      if snd r then flattenLoop f (fst r) else ret (fst r)
  end.

(** [flattenNestedHighlights(highlights)]; the array, changed in place by
    the source, is returned. *)
Definition flattenNestedHighlights (fuel : nat) (highlights : list nat)
  : M (list nat) :=
  hs <- Utils.sortByDepth highlights true ;;
  flattenLoop fuel hs.

(** [shouldMerge(current, node)]. *)
Definition shouldMerge (current : nat) (node : option nat) : M bool :=
  match node with
  | None => ret false
  | Some n =>
      ty <- gets (fun d => Config.nodeType d n) ;;
      match ty with
      | Some Config.ELEMENT_NODE =>
          same <- Utils.haveSameColor current n ;;
          if same then gets (fun d => isHighlight d node) else ret false
      | _ => ret false
      end
  end.

(** The body of [highlights.forEach(highlight => ...)] in
    [mergeSiblingHighlights]. *)
Definition mergeStep (highlight : nat) : M unit :=
  prev <- gets (fun d => previousSibling d highlight) ;;
  next <- gets (fun d => nextSibling d highlight) ;;
  mp <- shouldMerge highlight prev ;;
  (match mp, prev with
   | true, Some p =>
       cs <- gets (fun d => getChildren d p) ;;
       DomUtil.prepend highlight cs ;;;
       DomUtil.remove p
   | _, _ => ret tt
   end) ;;;
  mn <- shouldMerge highlight next ;;
  (match mn, next with
   | true, Some n =>
       cs <- gets (fun d => getChildren d n) ;;
       DomUtil.append highlight cs ;;;
       DomUtil.remove n
   | _, _ => ret tt
   end) ;;;
  DomUtil.normalizeTextNodes highlight.

(** [mergeSiblingHighlights(highlights)]. *)
Fixpoint mergeSiblingHighlights (highlights : list nat) : M unit :=
  match highlights with
  | [] => ret tt
  | highlight :: rest => mergeStep highlight ;;; mergeSiblingHighlights rest
  end.

(** [normalizeHighlights(highlights)].  The final sort compares rendered
    positions; [layout] gives a node its [offsetTop] and [offsetLeft]. *)
Definition normalizeHighlights (layout : Store -> nat -> Z * Z) (fuel : nat)
  (highlights : list nat) : M (list nat) :=
  hs <- flattenNestedHighlights fuel highlights ;;
  mergeSiblingHighlights hs ;;;
  gets (fun d =>
    let normalizedHighlights :=
      filter (fun hl => is_Some (parentElement d hl)) hs in
    let normalizedHighlights := Utils.unique normalizedHighlights in
    Utils.sort (fun a b =>
      let d1 := (fst (layout d a) - fst (layout d b))%Z in
      if (d1 =? 0)%Z then (snd (layout d a) - snd (layout d b))%Z else d1)
      normalizedHighlights).

(** [getHighlights({container, andSelf})] with [grouped] left [false]:
    [querySelectorAll] lists the marker descendants in tree order. *)
Definition getHighlights (container : nat) (andSelf : bool) : M (list nat) :=
  gets (fun d =>
    let nodeList :=
      filter (fun r => Is_true (hasAttribute d r Config.DATA_ATTR))
             (descendants d container) in
    if andSelf && hasAttribute d container Config.DATA_ATTR
    then nodeList ++ [container]
    else nodeList).

(** [textNode.nodeValue = v]: without effect on an element. *)
Definition setNodeValue (r : nat) (v : string) : M unit :=
  modify (fun d => if isText d r then setData r (TextData v) d else d).

(** The body of [textNodes.forEach(textNode => ...)] in [removeHighlights]. *)
Definition joinStep (textNode : nat) : M unit :=
  prev <- gets (fun d => previousSibling d textNode) ;;
  next <- gets (fun d => nextSibling d textNode) ;;
  (match prev with
   | Some p =>
       pv <- gets (fun d => getNodeValue d p) ;;
       match pv with
       | Some s =>
           v <- gets (fun d => default "null" (getNodeValue d textNode)) ;;
           setNodeValue textNode (s +:+ v) ;;;
           DomUtil.remove p
       | None => ret tt
       end
   | None => ret tt
   end) ;;;
  (match next with
   | Some n =>
       nv <- gets (fun d => getNodeValue d n) ;;
       match nv with
       | Some s =>
           v <- gets (fun d => default "null" (getNodeValue d textNode)) ;;
           setNodeValue textNode (v +:+ s) ;;;
           DomUtil.remove n
       | None => ret tt
       end
   | None => ret tt
   end).

Fixpoint joinAll (textNodes : list nat) : M unit :=
  match textNodes with
  | [] => ret tt
  | t :: rest => joinStep t ;;; joinAll rest
  end.

(** The body of [highlights.forEach(hl => ...)] in [removeHighlights]. *)
Definition removeStep (o : options) (hl : nat) : M unit :=
  ok <- gets (fun d => onRemoveHighlight o d hl) ;;
  if ok then
    textNodes <- DomUtil.unwrap hl ;;
    joinAll textNodes
  else ret tt.

Fixpoint removeAll (o : options) (highlights : list nat) : M unit :=
  match highlights with
  | [] => ret tt
  | hl :: rest => removeStep o hl ;;; removeAll o rest
  end.

(** [removeHighlights(element)]; [el] is the element of the highlighter. *)
Definition removeHighlights (el : nat) (o : options) (element : option nat)
  : M unit :=
  let container := default el element in
  highlights <- getHighlights container true ;;
  highlights <- Utils.sortByDepth highlights true ;;
  removeAll o highlights.

(** *** The codec *)

Import JSON.

Definition indexOfZ (r : nat) (l : list nat) : Z :=
  match indexOf r l with
  | Some i => Z.of_nat i
  | None => (-1)%Z
  end.

(** [getElementPath(el, refElement)]: the body of the do-while loop adds
    the index of [el] among the children of its parent in front of the
    path. *)
Fixpoint getElementPath (fuel : nat) (el : option nat) (refElement : nat)
  (path : list Z) : M (list Z) :=
  match fuel with
  | 0 => diverge
  | S f =>
      e <- deref "parentNode of null" el ;;
      parent <- gets (fun d => getParent d e) ;;
      parent' <- deref "childNodes of null" parent ;;
      childNodes <- gets (fun d => getChildren d parent') ;;
      let path := indexOfZ e childNodes :: path in
      if Nat.eqb parent' refElement then ret path
      else getElementPath f parent refElement path
  end.

(** [hlPath.join(':')]: each index is written as a number is. *)
Definition joinPath (hlPath : list Z) : JsString.t :=
  JsString.join ":"
    (map (fun i => JsString.ofString (Number.toString (Number.ofZ i))) hlPath).

(** The body of [highlights.forEach(function (highlight) ...)] in
    [serializeHighlights]: the descriptor of one marker.  The copy of the
    marker that is emptied to read its [outerHTML] is never attached and is
    not kept in the store. *)
Definition describe (fuel : nat) (refEl highlight : nat) : M json :=
  text <- gets (fun d => textContent d highlight) ;;
  hlPath <- getElementPath fuel (Some highlight) refEl [] ;;
  wrapper <- gets (fun d => getElement d highlight) ;;
  wrapper' <- deref "outerHTML of a node that is not an element" wrapper ;;
  prev <- gets (fun d => previousSibling d highlight) ;;
  offset <- gets (fun d =>
    match prev with
    | Some p =>
        match getNodeValue d p with
        | Some v => String.length v
        | None => 0
        end
    | None => 0
    end) ;;
  ret (JArr [JStr (HTML.outerHTML wrapper');
             JStr text;
             JStr (joinPath hlPath);
             JNum (Number.ofZ (Z.of_nat offset));
             JNum (Number.ofZ (Z.of_nat (String.length text)))]).

Fixpoint describeAll (fuel : nat) (refEl : nat) (highlights : list nat)
  : M (list json) :=
  match highlights with
  | [] => ret []
  | highlight :: rest =>
      x <- describe fuel refEl highlight ;;
      xs <- describeAll fuel refEl rest ;;
      ret (x :: xs)
  end.

(** [serializeHighlights()]; [el] is the element of the highlighter. *)
Definition serializeHighlights (fuel : nat) (el : nat) : M JsString.t :=
  highlights <- getHighlights el true ;;
  highlights <- Utils.sortByDepth highlights false ;;
  hlDescriptors <- describeAll fuel el highlights ;;
  ret (stringify (JArr hlDescriptors)).

(** [value[i]] on a value read from JSON; [None] is [undefined].  A string
    gives the code unit at the index as a string, an object its own
    property of that name. *)
Definition property (v : json) (i : nat) : option json :=
  match v with
  | JArr l => l !! i
  | JStr s => (fun u => JStr [u]) <$> s !! i
  | JObj l =>
      snd <$> find (fun kv => JsString.eqb (fst kv) (JsString.ofZ (Z.of_nat i))) l
  | _ => None
  end.

Definition jsIndex (v : json) (i : nat) : M (option json) :=
  match v with
  | JNull => throw (TypeError "Cannot read properties of null")
  | _ => ret (property v i)
  end.

(** [value.split(':')]: only a string has the method. *)
Definition jsSplit (v : option json) : M (list JsString.t) :=
  match v with
  | Some (JStr s) => ret (JsString.split 58 s)
  | _ => throw (TypeError "split is not a function")
  end.

Definition hasOwn (l : list (JsString.t * json)) (name : string) : bool :=
  existsb (fun kv => JsString.eqb (fst kv) name) l.

(** [String(value)]; [None] is the TypeError for an object that has no
    primitive value.  A value read from JSON holds no function, so an own
    property [toString] hides the method that every object inherits, and
    the conversion fails.  Inside an array [null] is the empty string. *)
Fixpoint toString (v : json) : option JsString.t :=
  match v with
  | JNull => Some (JsString.ofString "null")
  | JBool true => Some (JsString.ofString "true")
  | JBool false => Some (JsString.ofString "false")
  | JNum x => Some (JsString.ofString (Number.toString x))
  | JStr s => Some s
  | JArr l =>
      (fix items (l : list json) : option JsString.t :=
         match l with
         | [] => Some []
         | x :: l' =>
             s ← (match x with JNull => Some [] | _ => toString x end);
             match l' with
             | [] => Some s
             | _ => r ← items l'; Some (s ++ 44%N :: r)
             end
         end) l
  | JObj l =>
      if hasOwn l "toString" then None
      else Some (JsString.ofString "[object Object]")
  end.

(** [Number(value)], with [None] for the same TypeError. *)
Definition toNumber (v : option json) : option Number.t :=
  match v with
  | None => Some Number.NaN
  | Some JNull => Some Number.zero
  | Some (JBool b) => Some (if b then Number.ofZ 1 else Number.zero)
  | Some (JNum x) => Some x
  | Some (JStr s) => Some (Number.ofString s)
  | Some (JArr l) => Number.ofString <$> toString (JArr l)
  | Some (JObj l) => if hasOwn l "toString" then None else Some Number.NaN
  end.

(** The conversion of an argument to [unsigned long]: the whole part of
    the number, modulo 2^32; what is not finite counts as 0. *)
Definition toUnsignedLong (v : option json) : option Z :=
  x ← toNumber v;
  Some (match Number.truncate x with
        | Some z => (z mod 2 ^ 32)%Z
        | None => 0%Z
        end).

(** The text a value becomes when it is assigned to [innerHTML]: [null]
    is the empty string there. *)
Definition toMarkup (v : option json) : option JsString.t :=
  match v with
  | None => Some (JsString.ofString "undefined")
  | Some JNull => Some []
  | Some x => toString x
  end.

(** An index into [childNodes]: a string as read from the path, or a
    number once the source has subtracted from it. *)
Inductive index :=
| IdxStr (s : JsString.t)
| IdxNum (x : Number.t).

(** The child at an array index, if there is one. *)
Definition item (d : Store) (node : nat) (i : option Z) : option nat :=
  match i with
  | Some z =>
      if (0 <=? z)%Z && (z <? Z.of_nat (length (getChildren d node)))%Z
      then getChildren d node !! Z.to_nat z else None
  | None => None
  end.

(** [node.childNodes[i]]: a name that is not an array index gives
    [undefined] or a value that is not a node, and the next step of the
    source fails on either in the same way. *)
Definition childNodesAt (d : Store) (node : nat) (i : index) : option nat :=
  match i with
  | IdxStr s => item d node (arrayIndex s)
  | IdxNum x =>
      item d node
        (z ← Number.toInteger x; if (z <? 2 ^ 32 - 1)%Z then Some z else None)
  end.

(** [while ((idx = hl.path.shift())) node = node.childNodes[idx]]: the
    empty string ends the loop as the end of the path does. *)
Fixpoint walkPath (path : list JsString.t) (node : option nat) : M (option nat) :=
  match path with
  | [] => ret node
  | [] :: _ => ret node
  | idx :: rest =>
      n <- deref "childNodes of undefined" node ;;
      next <- gets (fun d => childNodesAt d n (IdxStr idx)) ;;
      walkPath rest next
  end.

(** A falsy [nodeValue]: [null] or the empty string. *)
Definition noValue (d : Store) (r : nat) : bool :=
  match getNodeValue d r with
  | Some EmptyString | None => true
  | Some _ => false
  end.

(** [node.splitText(offset)] with a value read from JSON: the method is
    looked up, the argument is converted, then the text is split. *)
Definition splitTextAt (node : option nat) (offset : option json) : M nat :=
  n <- deref "splitText of null" node ;;
  v <- gets (fun d => getNodeValue d n) ;;
  v' <- deref "splitText is not a function" v ;;
  off <- deref "Cannot convert object to primitive value" (toUnsignedLong offset) ;;
  if (Z.of_nat (String.length v') <? off)%Z
  then throw (DOMException "IndexSizeError")
  else Text_splitText (Some n) (Z.to_nat off).

(** [deserializationFn(hlDescriptor)]; the marker made is returned. *)
Definition deserializationFn (el : nat) (hlDescriptor : json) : M nat :=
  wrapper <- jsIndex hlDescriptor 0 ;;
  text <- jsIndex hlDescriptor 1 ;;
  p <- jsIndex hlDescriptor 2 ;;
  path <- jsSplit p ;;
  offset <- jsIndex hlDescriptor 3 ;;
  length <- jsIndex hlDescriptor 4 ;;
  let elIndex := List.last path [] in
  let path := removelast path in
  node <- walkPath path (Some el) ;;
  node' <- deref "childNodes of undefined" node ;;
  let less := IdxNum (Number.pred (Number.ofString elIndex)) in
  before <- gets (fun d => childNodesAt d node' less) ;;
  isText <- gets (fun d =>
    match before with
    | Some b => isText d b
    | None => false
    end) ;;
  let elIndex := if isText then less else IdxStr elIndex in
  node <- gets (fun d => childNodesAt d node' elIndex) ;;
  hlNode <- splitTextAt node offset ;;
  splitTextAt (Some hlNode) length ;;;
  next <- gets (fun d => nextSibling d hlNode) ;;
  (match next with
   | Some n =>
       empty <- gets (fun d => noValue d n) ;;
       if empty then DomUtil.remove n else ret tt
   | None => ret tt
   end) ;;;
  prev <- gets (fun d => previousSibling d hlNode) ;;
  (match prev with
   | Some n =>
       empty <- gets (fun d => noValue d n) ;;
       if empty then DomUtil.remove n else ret tt
   | None => ret tt
   end) ;;;
  markup <- deref "Cannot convert object to primitive value" (toMarkup wrapper) ;;
  made <- DomUtil.fromHTML markup ;;
  w <- deref "insertBefore: parameter 1 is not of type Node" (head made) ;;
  DomUtil.wrap hlNode w.

(** [hlDescriptors.forEach(...)] with its try/catch: the markers made, and
    the exceptions caught and passed to [console.warn]. *)
Fixpoint deserializeAll (el : nat) (hlDescriptors : list json)
  : M (list nat * list exn) :=
  match hlDescriptors with
  | [] => ret ([], [])
  | hlDescriptor :: rest =>
      r <- try (h <- deserializationFn el hlDescriptor ;; ret (inl h))
               (fun e => ret (inr e)) ;;
      rs <- deserializeAll el rest ;;
      ret (match r with
           | inl h => (h :: fst rs, snd rs)
           | inr e => (fst rs, e :: snd rs)
           end)
  end.

(** [deserializeHighlights(json)]: the array of markers, and next to it
    the warnings logged. *)
Definition deserializeHighlights (el : nat) (json : JsString.t)
  : M (list nat * list exn) :=
  match json with
  | [] => ret ([], [])
  | _ =>
      match parse json with
      | None => throw (Thrown "Can't parse JSON")
      | Some (JArr hlDescriptors) => deserializeAll el hlDescriptors
      | Some _ => throw (TypeError "hlDescriptors.forEach is not a function")
      end
  end.

(** *** Highlighting a range *)

(** [TextHighlighter.createWrapper(options)]. *)
Definition createWrapper (o : options) : M nat :=
  createElement (mkElement "SPAN" (highlightedClass o) (color o) []).

(** The variables of the loop of [highlightRange]. *)
Record walk := mkWalk {
  node : option nat;
  goDeeper : bool;
  done : bool;
  highlights : list nat
}.

(** [if (goDeeper && node.nodeType === NODE_TYPE.TEXT_NODE) { ... }]: the
    text node is wrapped into a copy of the wrapper. *)
Definition wrapText (fuel : nat) (el wrapper : nat) (w : walk) : M walk :=
  if goDeeper w then
    n <- deref "nodeType of null" (node w) ;;
    ty <- gets (fun d => Config.nodeType d n) ;;
    match ty with
    | Some Config.TEXT_NODE =>
        parent <- gets (fun d => getParent d n) ;;
        parent' <- deref "tagName of null" parent ;;
        tag <- gets (fun d => tagName <$> getElement d parent') ;;
        v <- gets (fun d => default "" (getNodeValue d n)) ;;
        hs <-
          (if negb (Config.ignored tag) && negb (String.eqb (Platform.trim v) "")
           then
             wrapperClone <- Platform.Node_cloneNode fuel (Some wrapper) ;;
             Platform.Element_setAttribute wrapperClone Config.DATA_ATTR "true" ;;;
             nodeParent <- gets (fun d => getParent d n) ;;
             inside <- gets (fun d =>
               match nodeParent with
               | Some np => DomUtil.contains d el np || Nat.eqb np el
               | None => false
               end) ;;
             if inside then
               highlight <- DomUtil.wrap n wrapperClone ;;
               ret (highlights w ++ [highlight])
             else ret (highlights w)
           else ret (highlights w)) ;;
        ret (mkWalk (node w) false (done w) hs)
    | _ => ret w
    end
  else ret w.

(** [if (node === endContainer && !(endContainer.hasChildNodes() && goDeeper))
       done = true]. *)
Definition atEnd (endContainer : option nat) (w : walk) : M walk :=
  if optEqb (node w) endContainer then
    e <- deref "hasChildNodes of null" endContainer ;;
    has <- gets (fun d => hasChildNodes d e) ;;
    if negb (has && goDeeper w)
    then ret (mkWalk (node w) (goDeeper w) true (highlights w))
    else ret w
  else ret w.

(** [if (node.tagName && IGNORE_TAGS.indexOf(node.tagName) > -1) { ... }]. *)
Definition skipIgnored (endContainer : option nat) (w : walk) : M walk :=
  n <- deref "tagName of null" (node w) ;;
  tag <- gets (fun d => tagName <$> getElement d n) ;;
  if match tag with
     | Some t => negb (String.eqb t "") && Config.ignored tag
     | None => false
     end
  then
    e <- deref "parentNode of null" endContainer ;;
    par <- gets (fun d => getParent d e) ;;
    ret (mkWalk (node w) false (done w || optEqb par (node w)) (highlights w))
  else ret w.

(** The step to the first child, to the next sibling or to the parent. *)
Definition advance (w : walk) : M walk :=
  n <- deref "hasChildNodes of null" (node w) ;;
  has <- gets (fun d => hasChildNodes d n) ;;
  if goDeeper w && has then
    f <- gets (fun d => firstChild d n) ;;
    ret (mkWalk f (goDeeper w) (done w) (highlights w))
  else
    next <- gets (fun d => nextSibling d n) ;;
    match next with
    | Some _ => ret (mkWalk next true (done w) (highlights w))
    | None =>
        par <- gets (fun d => getParent d n) ;;
        ret (mkWalk par false (done w) (highlights w))
    end.

(** The body of the loop of [highlightRange]. *)
Definition highlightStep (fuel : nat) (el wrapper : nat) (endContainer : option nat)
  (w : walk) : M walk :=
  w <- wrapText fuel el wrapper w ;;
  w <- atEnd endContainer w ;;
  w <- skipIgnored endContainer w ;;
  advance w.

(** [do { ... } while (!done)]; [fuel] bounds the number of rounds,
    [depth] the copies of the wrapper. *)
Fixpoint highlightLoop (fuel depth : nat) (el wrapper : nat)
  (endContainer : option nat) (w : walk) : M (list nat) :=
  match fuel with
  | 0 => diverge
  | S f =>
      w' <- highlightStep depth el wrapper endContainer w ;;
      if done w' then ret (highlights w')
      else highlightLoop f depth el wrapper endContainer w'
  end.

(** [highlightRange(range, wrapper)]; [el] is the element of the
    highlighter. *)
Definition highlightRange (fuel : nat) (el : nat) (range : option Range.t)
  (wrapper : nat) : M (list nat) :=
  match range with
  | None => ret []
  | Some range =>
      if Range.collapsed range then ret []
      else
        result <- Utils.refineRangeBoundaries fuel range ;;
        highlightLoop fuel fuel el wrapper (Utils.endContainer result)
          (mkWalk (Utils.startContainer result) (Utils.goDeeper result) false [])
  end.

End TextHighlighter.

(** ** Document fragments for the examples *)

Module Fixture.

(** A document written as a term; [build] allocates it in a store, parents
    before children and siblings in order. *)
#[local] Unset Elimination Schemes.
Inductive tree :=
| T (text : string)
| E (e : Element) (children : list tree).
#[local] Set Elimination Schemes.

Fixpoint build (t : tree) (parent : option nat) (d : Store) : nat * Store :=
  match t with
  | T s =>
      let (r, d1) := alloc (TextData s) d in
      (r, setParent r parent d1)
  | E e cs =>
      let (r, d1) := alloc (ElementData e) d in
      let d2 := setParent r parent d1 in
      let '(ids, d3) :=
        (fix go (cs : list tree) (d : Store) : list nat * Store :=
           match cs with
           | [] => ([], d)
           | c :: cs' =>
               let (i, d') := build c (Some r) d in
               let '(rs, d'') := go cs' d' in
               (i :: rs, d'')
           end) cs d2 in
      (r, setChildren r ids d3)
  end.

Definition empty : Store := mkStore ∅ 0.

(** The store that holds the document [t] alone; its root is node [0]. *)
Definition document (t : tree) : Store := snd (build t None empty).

(** The subtree below a node, read back from a store. *)
Fixpoint view (fuel : nat) (d : Store) (r : nat) : tree :=
  match fuel with
  | 0 => T ""
  | S f =>
      match getData d r with
      | Some (TextData s) => T s
      | Some (ElementData e) => E e (map (view f d) (getChildren d r))
      | None => T ""
      end
  end.

Definition viewAll (d : Store) (r : nat) : tree := view (S (fresh d)) d r.

Definition p : Element := mkElement "P" "" "" [].
Definition div : Element := mkElement "DIV" "" "" [].
Definition b : Element := mkElement "B" "" "" [].

(** A marker of the given colour, as [createWrapper] and [highlightRange]
    make it. *)
Definition marker (colour : string) : Element :=
  mkElement "SPAN" "highlighted" colour
    [("data-timestamp", "1"); ("data-highlighted", "true")].

Definition yellow : Element := marker "yellow".
Definition red : Element := marker "red".

End Fixture.

(** ** Predicates of the statements *)

Module Canonical.

Import TextHighlighter.

Definition colourOf (d : Store) (r : nat) : option string :=
  backgroundColor <$> getElement d r.

(** The flatten pass has nothing to do at [hl]: its parent element is not
    a marker, or it is a marker of another colour in which [hl] has a
    sibling on either side. *)
Definition flat (d : Store) (hl : nat) : Prop :=
  exists parent,
    parentElement d hl = Some parent /\
    (isHighlight d (Some parent) = false \/
     (exists cp ch,
        colourOf d parent = Some cp /\ colourOf d hl = Some ch /\ cp <> ch /\
        is_Some (nextSibling d hl) /\ is_Some (previousSibling d hl))).

(** [node] is a marker of the colour of [current]: what [shouldMerge] tests. *)
Definition mergeable (d : Store) (current : nat) (node : option nat) : bool :=
  match node with
  | Some n =>
      match colourOf d current, colourOf d n with
      | Some c1, Some c2 => String.eqb c1 c2 && isHighlight d node
      | _, _ => false
      end
  | None => false
  end.

(** No two text nodes follow each other directly in [cs]. *)
Fixpoint noAdjacentText (d : Store) (cs : list nat) : bool :=
  match cs with
  | [] => true
  | c :: cs' =>
      match cs' with
      | n :: _ => negb (isText d c && isText d n) && noAdjacentText d cs'
      | [] => true
      end
  end.

(** The merge pass has nothing to do at [hl]: an element, neither direct
    sibling a marker of its colour, its text children already coalesced. *)
Definition merged (d : Store) (hl : nat) : Prop :=
  is_Some (colourOf d hl) /\
  mergeable d hl (previousSibling d hl) = false /\
  mergeable d hl (nextSibling d hl) = false /\
  noAdjacentText d (getChildren d hl) = true.

(** The element carries the marker attribute. *)
Definition isMarker (e : Element) : bool :=
  existsb (fun kv => String.eqb (fst kv) Config.DATA_ATTR) (attributes e).


End Canonical.

(** ** The store as a tree *)

Module WellFormed.

(** What holds of every node of a document: it and its children were
    allocated, the children are distinct and point back to it, it is among
    the children of its parent, and a text node has no children. *)
Definition nodeOk (d : Store) (r : nat) (n : Node) : bool :=
  (r <? fresh d)%nat
  && forallb (fun c => (c <? fresh d)%nat && optEqb (getParent d c) (Some r))
       (childNodes n)
  && bool_decide (NoDup (childNodes n))
  && match parentNode n with
     | Some q => inList r (getChildren d q)
     | None => true
     end
  && match data n, childNodes n with
     | TextData _, _ :: _ => false
     | _, _ => true
     end.

Definition wellFormed (d : Store) : Prop :=
  forall r n, nodes d !! r = Some n -> nodeOk d r n = true.

(** The same, as a test that runs over the allocated nodes. *)
Definition wellFormedb (d : Store) : bool :=
  forallb (fun rn => nodeOk d (fst rn) (snd rn)) (map_to_list (nodes d)).

End WellFormed.

Module Boundary.

(** The walk of the end boundary as a relation: from [e], [n] steps up
    through nodes that have no preceding sibling and whose parent is not the
    common ancestor, ending at the first node [x] that has a preceding
    sibling or lies directly below the common ancestor. *)
Inductive WalkUp (d : Store) (ancestor : nat) : nat -> nat -> nat -> Prop :=
| WalkUp_stop e :
    is_Some (previousSibling d e) \/ getParent d e = Some ancestor ->
    WalkUp d ancestor 0 e e
| WalkUp_step n e q x :
    previousSibling d e = None ->
    getParent d e = Some q -> q <> ancestor ->
    WalkUp d ancestor n q x ->
    WalkUp d ancestor (S n) e x.

(** The start boundary can be refined: an offset into a text node lies
    within its text, and that text node is in the tree. *)
Definition startOk (d : Store) (range : Range.t) : Prop :=
  match getNodeValue d (Range.startContainer range) with
  | Some v =>
      Range.startOffset range <= String.length v /\
      is_Some (getParent d (Range.startContainer range))
  | None => True
  end.

(** The start boundary splits its container: a text node, with the start
    offset strictly inside its text. *)
Definition startSplits (d : Store) (range : Range.t) : bool :=
  match getNodeValue d (Range.startContainer range) with
  | Some v =>
      negb (Nat.eqb (Range.startOffset range) (String.length v))
      && Nat.ltb 0 (Range.startOffset range)
  | None => false
  end.

(** The preceding sibling, read off the list of children. *)
Fixpoint prevOf (acc : option nat) (x : nat) (l : list nat) : option nat :=
  match l with
  | [] => None
  | y :: l' => if Nat.eqb y x then acc else prevOf (Some y) x l'
  end.

End Boundary.

Module Halting.

(** The computation never runs out of fuel: it returns or it throws. *)
Definition total {A} (c : M A) : Prop :=
  forall d, fst (c d) <> OutOfFuel.

End Halting.

Module Codec.

Import TextHighlighter.


End Codec.

Module Tree.

Definition allocated (d : Store) (r : nat) : Prop := is_Some (nodes d !! r).

(** The tree invariant of a document, in terms of what the DOM lets one
    read: allocated references are below the counter, a child points back to
    its parent, the children of a node are distinct, a node is among the
    children of its parent, and a text node has no children. *)
Record WF (d : Store) : Prop := mkWF {
  wf_alloc : forall r, allocated d r -> r < fresh d;
  wf_up : forall r c, c ∈ getChildren d r -> getParent d c = Some r;
  wf_nodup : forall r, NoDup (getChildren d r);
  wf_down : forall r q, getParent d r = Some q -> r ∈ getChildren d q;
  wf_leaf : forall r, isText d r = true -> getChildren d r = []
}.

(** The text of the children [cs], with the fuel [fuel] for each. *)
Definition texts (fuel : nat) (d : Store) (cs : list nat) : option string :=
  fold_right
    (fun c acc => s ← textContentFrom fuel d c; a ← acc; Some (s +:+ a))
    (Some "") cs.

(** The DOM's "insert" step on a node without a parent: [x] becomes the
    child of [q] in front of [ref]. *)
Definition attach (x q : nat) (ref : option nat) (d : Store) : Store :=
  setParent x (Some q) (setChildren q (insertRef x ref (getChildren d q)) d).

(** What the merging of text siblings below [q] keeps from [D] to [D']:
    kinds and the bound stay, a node keeps its parent unless it is a text
    node that left the tree, the lists of children stay but for the one of
    [q], which loses nodes only and not all of them, and every element
    keeps its text. *)
Record Joined (q : nat) (D D' : Store) : Prop := mkJoined {
  joined_wf : WF D';
  joined_fresh : fresh D' = fresh D;
  joined_text : forall y, isText D' y = isText D y;
  joined_elem : forall y, isElement D' y = isElement D y;
  joined_parent : forall y,
    getParent D' y = getParent D y \/ (isText D y = true /\ getParent D' y = None);
  joined_children : forall y, y <> q -> getChildren D' y = getChildren D y;
  joined_below : forall x, x ∈ getChildren D' q -> x ∈ getChildren D q;
  joined_some : getChildren D q <> [] -> getChildren D' q <> [];
  joined_content : forall g y r,
    isElement D y = true ->
    textContentFrom g D y = Some r -> textContentFrom g D' y = Some r }.

(** A marker as the removal loop can take it at its turn: an element in the
    tree whose children, at least one, are text nodes or markers of the list
    [L] that lie deeper by [dep], hence come before it in the loop. *)
Definition holdsText (d : Store) (dep : nat -> Z) (L : list nat) (h : nat) : Prop :=
  isElement d h = true /\ is_Some (getParent d h) /\ getChildren d h <> [] /\
  forall x, x ∈ getChildren d h -> isText d x = true \/ (x ∈ L /\ (dep h < dep x)%Z).

(** Below [c] the store is a tree within the bounds of the walks: the walk
    of the descendants meets no node twice, the walk of [textContent]
    reaches the leaves, and the chain of parents of each descendant ends. *)
Definition treeBelow (d : Store) (c : nat) : Prop :=
  NoDup (descendants d c) /\
  is_Some (textContentFrom (S (fresh d)) d c) /\
  forall x, x ∈ descendants d c -> length (ancestors d x) < fresh d.

(** The order of the removal loop: no entry lies deeper by [dep] than an
    entry before it. *)
Fixpoint deepestFirst (dep : nat -> Z) (L : list nat) : Prop :=
  match L with
  | [] => True
  | h :: L' => (forall x, x ∈ L' -> (dep x <= dep h)%Z) /\ deepestFirst dep L'
  end.

(** A marker as highlighting and normalising leave it: it has children, and
    each of them is a text node or a marker. *)
Definition textOrMarkers (d : Store) (hl : nat) : Prop :=
  getChildren d hl <> [] /\
  forall x, x ∈ getChildren d hl ->
    isText d x = true \/ hasAttribute d x Config.DATA_ATTR = true.

(** What the removal of the markers [L] keeps from one marker to the next,
    [d0] being the tree at the start: the tree is well formed, the markers
    still to be removed hold text and deeper markers only, the container is
    an element, and what a walk of [textContent] read below the container in
    [d0] it reads now, within the same bound. *)
Record Good (container : nat) (d0 : Store) (dep : nat -> Z) (L : list nat)
  (d : Store) : Prop := mkGood {
  good_wf : WF d;
  good_markers : forall h, h ∈ L -> holdsText d dep L h;
  good_container : isElement d container = true;
  good_text : forall g r,
    textContentFrom g d0 container = Some r -> textContentFrom g d container = Some r;
  good_fresh : fresh d = fresh d0 }.

End Tree.

Module Grouping.

(** The timestamp of a marker, [null] without the attribute, and its name
    as a property of the object that collects the groups. *)
Definition stampOf (d : Store) (hl : nat) : option string :=
  getAttribute d hl Config.TIMESTAMP_ATTR.

Definition keyOf (d : Store) (hl : nat) : string := default "null" (stampOf d hl).

(** The timestamps in the order in which their names occur first. *)
Fixpoint firstStamps (d : Store) (seen : list string) (hs : list nat)
  : list (option string) :=
  match hs with
  | [] => []
  | h :: hs' =>
      if bool_decide (keyOf d h ∈ seen) then firstStamps d seen hs'
      else stampOf d h :: firstStamps d (keyOf d h :: seen) hs'
  end.

(** The markers of one name, in the order of the array. *)
Definition sameKey (d : Store) (k : string) (hs : list nat) : list nat :=
  filter (fun h => keyOf d h = k) hs.

End Grouping.

(** ** The marker made from a wrapper *)

Module Marking.

(** The element a copy of the wrapper [e] is after
    [setAttribute(DATA_ATTR, true)]. *)
Definition marked (e : Element) : Element :=
  mkElement (tagName e) (className e) (backgroundColor e)
    (Platform.setAttr Config.DATA_ATTR "true" (attributes e)).

(** From [d] to [d'] the text node [t] below [q] was cut into pieces: the
    nodes of [d] are still there, with their parents; but for [t] they keep
    their data and their text, and but for [q] their children. *)
Record Cut (d d' : Store) (t q : nat) : Prop := mkCut {
  cut_wf : Tree.WF d';
  cut_fresh : fresh d <= fresh d';
  cut_alloc : forall y, Tree.allocated d y -> Tree.allocated d' y;
  cut_data : forall y,
    y <> t -> Tree.allocated d y -> getData d' y = getData d y;
  cut_parent : forall y, Tree.allocated d y -> getParent d' y = getParent d y;
  cut_children : forall y,
    y <> q -> Tree.allocated d y -> getChildren d' y = getChildren d y;
  cut_text : forall g y v,
    y <> t -> Tree.allocated d y ->
    textContentFrom g d y = Some v -> textContentFrom g d' y = Some v }.

(** From [d] to [d'] the text node [n], a child of [q] between [pre] and
    [post], went into the new marker [h], a copy of the wrapper [e], which
    stands in its place; every other node is as before, and a node of [d]
    keeps its text, one level deeper. *)
Record Wrapped (d d' : Store) (n h q : nat) (pre post : list nat) (e : Element)
  : Prop := mkWrapped {
  wr_wf : Tree.WF d';
  wr_fresh : fresh d' = S (fresh d);
  wr_data : forall y,
    getData d' y =
    if decide (y = h) then Some (ElementData (marked e)) else getData d y;
  wr_parent : forall y,
    getParent d' y =
    if decide (y = n) then Some h
    else if decide (y = h) then Some q else getParent d y;
  wr_children : forall y,
    getChildren d' y =
    if decide (y = h) then [n]
    else if decide (y = q) then pre ++ h :: post else getChildren d y;
  wr_text : forall g y s,
    y <> h -> textContentFrom g d y = Some s ->
    textContentFrom (1 + g) d' y = Some s }.

(** What the walk over the text nodes [ts], children of [q] between [pre]
    and [post], leaves from [D] to [D']: one new marker for each of them, a
    copy of the wrapper [e], in their order and in their places; the other
    nodes are as before. *)
Definition wrappedRun (e : Element) (q : nat) (post : list nat) (D D' : Store)
  (pre ts : list nat) : Prop :=
  Tree.WF D' /\ fresh D' = fresh D + length ts /\
  getChildren D' q = pre ++ seq (fresh D) (length ts) ++ post /\
  (forall i t, ts !! i = Some t ->
     getChildren D' (fresh D + i) = [t] /\ getParent D' t = Some (fresh D + i) /\
     getData D' (fresh D + i) = Some (ElementData (marked e)) /\
     getParent D' (fresh D + i) = Some q) /\
  (forall y, Tree.allocated D y -> getData D' y = getData D y) /\
  (forall y, Tree.allocated D y -> y ∉ ts -> getParent D' y = getParent D y) /\
  (forall y, Tree.allocated D y -> y <> q -> getChildren D' y = getChildren D y).

(** What [highlightRange] keeps from [d] to [d']: the tree stays
    well-formed, no node is freed, an element keeps its data, a text node
    stays a text node, the wrapper [w] stays without children, and every
    element of [d] keeps its text, the walk that collects it going as much
    deeper as there are new nodes. *)
Record Kept (d d' : Store) (w : nat) : Prop := mkKept {
  kept_wf : Tree.WF d';
  kept_fresh : fresh d <= fresh d';
  kept_element : forall y e,
    getData d y = Some (ElementData e) -> getData d' y = Some (ElementData e);
  kept_textnode : forall y, isText d y = true -> isText d' y = true;
  kept_wrapper : getChildren d' w = [];
  kept_text : forall g y s,
    isElement d y = true -> textContentFrom g d y = Some s ->
    textContentFrom ((fresh d' - fresh d) + g) d' y = Some s }.

End Marking.

(** ** Runs and what holds after them *)

Module Wp.

(** [post c d Q]: the outcome and the store of the run of [c] from [d]
    satisfy [Q]. *)
Definition post {A} (c : M A) (d : Store) (Q : outcome A -> Store -> Prop) : Prop :=
  Q (fst (c d)) (snd (c d)).

End Wp.

(** ** The nodes below a node *)

Module Reach.

(** [Below d c x]: [x] is a child of [c] or of a node below [c]. *)
Inductive Below (d : Store) (c : nat) : nat -> Prop :=
| below_child x : x ∈ getChildren d c -> Below d c x
| below_down p x : Below d c p -> x ∈ getChildren d p -> Below d c x.

(** What the merging of text nodes does to the data: a node that is not a
    text node keeps its data, and the kinds stay. *)
Definition sameElements (D D' : Store) : Prop :=
  (forall y, isText D y = false -> getData D' y = getData D y) /\
  (forall y, isText D' y = isText D y).

End Reach.

(** ** The round trip of the codec on document trees *)

Module RoundTrip.

Import TextHighlighter JSON Fixture.

(** The subtree at a path of child indices, and the tree with another
    subtree in that place. *)
Fixpoint subtree (t : tree) (p : list nat) : option tree :=
  match p with
  | [] => Some t
  | i :: p' =>
      match t with
      | E _ cs => cs !! i ≫= fun c => subtree c p'
      | T _ => None
      end
  end.

Fixpoint replace (t : tree) (p : list nat) (x : tree) : tree :=
  match p with
  | [] => x
  | i :: p' =>
      match t with
      | E e cs =>
          E e (match cs !! i with
               | Some c => <[i := replace c p' x]> cs
               | None => cs
               end)
      | T _ => t
      end
  end.

(** The node at a path of child indices below [r]. *)
Fixpoint nodeAt (d : Store) (r : nat) (p : list nat) : option nat :=
  match p with
  | [] => Some r
  | i :: p' => getChildren d r !! i ≫= fun c => nodeAt d c p'
  end.

(** The store holds the tree [t] at the node [r]: the data of the nodes
    and the order of the children. *)
#[local] Unset Elimination Schemes.
Inductive Repr (d : Store) : nat -> tree -> Prop :=
| Repr_T r s : getData d r = Some (TextData s) -> Repr d r (T s)
| Repr_E r e ts :
    getData d r = Some (ElementData e) ->
    Forall2 (Repr d) (getChildren d r) ts ->
    Repr d r (E e ts).
#[local] Set Elimination Schemes.

Definition isTextT (t : tree) : bool :=
  match t with
  | T _ => true
  | E _ _ => false
  end.

(** [node.textContent] of a tree. *)
Fixpoint textOf (t : tree) : string :=
  match t with
  | T s => s
  | E _ cs => fold_right (fun c acc => textOf c +:+ acc) "" cs
  end.

(** The text of a list of children, and whether the last or the first of
    them is a text node. *)
Abbreviation textsOf cs := (fold_right (fun c acc => textOf c +:+ acc) "" cs).
Abbreviation lastText l := (from_option isTextT false (last l)).
Abbreviation headText l := (from_option isTextT false (head l)).

(** The number of nodes and characters of a tree, which bounds every index
    and every length in it. *)
Fixpoint size (t : tree) : nat :=
  match t with
  | T s => S (String.length s)
  | E _ cs => S (fold_right (fun c n => size c + n) 0 cs)
  end.

(** No two text nodes follow each other directly in [cs]. *)
Fixpoint spaced (cs : list tree) : bool :=
  match cs with
  | [] => true
  | c :: cs' =>
      match cs' with
      | n :: _ => negb (isTextT c && isTextT n) && spaced cs'
      | [] => true
      end
  end.

Definition textOrMarker (t : tree) : bool :=
  match t with
  | T _ => true
  | E e _ => Canonical.isMarker e
  end.

(** A tree as highlighting leaves a document whose text was not split
    before: no text node is empty, no two text nodes are neighbours, and
    a marker holds text nodes and markers only, at least one. *)
Fixpoint codable (t : tree) : bool :=
  match t with
  | T s => negb (String.eqb s "")
  | E e cs =>
      spaced cs && forallb codable cs &&
      (negb (Canonical.isMarker e)
       || (match cs with [] => false | _ => true end) && forallb textOrMarker cs)
  end.

(** Neighbouring text nodes become one. *)
Fixpoint merge (cs : list tree) : list tree :=
  match cs with
  | [] => []
  | c :: cs' =>
      match c, merge cs' with
      | T a, T b :: r => T (a +:+ b) :: r
      | _, r => c :: r
      end
  end.

(** The document without its markers, as a reload of the page builds it:
    the text of a marker stands in its place, and neighbouring texts are
    one text node. *)
Fixpoint plain (t : tree) : tree :=
  match t with
  | T s => T s
  | E e cs =>
      if Canonical.isMarker e then T (textOf (E e cs))
      else E e (merge (map plain cs))
  end.

(** A text node for a text that is not empty. *)
Definition textPart (s : string) : list tree :=
  match s with
  | EmptyString => []
  | _ => [T s]
  end.

(** What [serializeHighlights] records of a marker: its path from the
    anchor, its element, its text, and the length of the text node in front
    of it. *)
Record entry := mkEntry {
  en_path : list nat;
  en_wrapper : Element;
  en_text : string;
  en_offset : nat
}.

Definition under (i : nat) (en : entry) : entry :=
  mkEntry (i :: en_path en) (en_wrapper en) (en_text en) (en_offset en).

Definition offsetOf (prev : option tree) : nat :=
  match prev with
  | Some (T s) => String.length s
  | _ => 0
  end.

Definition own (prev : option tree) (i : nat) (c : tree) : list entry :=
  match c with
  | E e _ =>
      if Canonical.isMarker e then [mkEntry [i] e (textOf c) (offsetOf prev)]
      else []
  | T _ => []
  end.

Fixpoint entriesList (f : tree -> list entry) (prev : option tree) (i : nat)
  (cs : list tree) : list entry :=
  match cs with
  | [] => []
  | c :: cs' =>
      own prev i c ++ map (under i) (f c) ++ entriesList f (Some c) (S i) cs'
  end.

(** The markers below the root of a tree in document order. *)
Fixpoint entries (t : tree) : list entry :=
  match t with
  | T _ => []
  | E _ cs => entriesList entries None 0 cs
  end.

Definition byDepth (a b : entry) : Z :=
  (Z.of_nat (length (en_path a)) - Z.of_nat (length (en_path b)))%Z.

(** The markers in the order in which they are written: by depth, markers
    of one depth in document order. *)
Definition sorted (t : tree) : list entry := Utils.sort byDepth (entries t).

(** The descriptor that [serializeHighlights] writes for a marker. *)
Definition descriptor (en : entry) : json :=
  JArr [JStr (HTML.outerHTML (en_wrapper en));
        JStr (en_text en);
        JStr (joinPath (map Z.of_nat (en_path en)));
        JNum (Number.ofZ (Z.of_nat (en_offset en)));
        JNum (Number.ofZ (Z.of_nat (String.length (en_text en))))].

Definition descriptors (t : tree) : list json := map descriptor (sorted t).

End RoundTrip.

(** ** Documents used in the examples *)

Module Examples.

Import Fixture.

(** Rendering is left out of the model: every node reports the same
    position, so the final sort of [normalizeHighlights] keeps the order. *)
Definition sameSpot : Store -> nat -> Z * Z := fun _ _ => (0%Z, 0%Z).

(** Three markers of one colour side by side:
    node 0 is the paragraph, 1, 3 and 5 the markers, 2, 4 and 6 their text. *)
Definition chain3 : Store :=
  document (E p [E yellow [T "a"]; E yellow [T "b"]; E yellow [T "c"]]).


(** A red marker 1 before a yellow marker 3 that holds two red markers 4
    and 6 and the text 8. *)
Definition redInYellow : Store :=
  document (E p [E red [T "x"];
                 E yellow [E red [T "ef"]; E red [T "cd"]; T "ab"]]).

(** Two fresh markers 3 and 5 inside the marker 2, itself inside the marker
    1, all of one colour. *)
Definition nestedSame : Store :=
  document (E p [E yellow [E yellow [E yellow [T "a"]; E yellow [T "b"]]]]).

(** A marker 2 between two text nodes. *)
Definition oneMarker : Store :=
  document (E p [T "x"; E yellow [T "abc"]; T "y"]).

(** A marker 2 between two text nodes that wraps the element 3, not a text
    node. *)
Definition markerAroundElement : Store :=
  document (E p [T "a"; E yellow [E b [T "x"]]; T "c"]).

(** A red marker 3 strictly inside the yellow marker 1. *)
Definition redInside : Store :=
  document (E p [E yellow [T "ab"; E red [T "cd"]; T "ef"]]).

(** A paragraph 0 with the text node 1 and the element 2, which holds the
    text node 3; the selection runs from inside node 1 to the very start
    of node 3. *)
Definition hello : Store := document (E p [T "hello"; E b [T "x"]]).

Definition helloRange : Range.t := Range.mk 1 2 3 0 0.

(** The sentence of the spec's scenarios in one text node. *)
Definition fox : Store := document (E p [T "The quick brown fox"]).

(** The same sentence after the selection of its first blank has split the
    text (a blank is not wrapped), with the word after it highlighted:
    marker 3 follows the text nodes 1 and 2. *)
Definition foxSplit : Store :=
  document (E p [T "The"; T " "; E yellow [T "quick"]; T " brown fox"]).

(** [foxSplit] without its marker, the text nodes left as they were. *)
Definition foxSplitPlain : Store :=
  document (E p [T "The"; T " "; T "quick brown fox"]).

(** Three markers of two highlighting operations: 1 and 5 carry the
    timestamp 1, the marker 3 between them the timestamp 2. *)
Definition stamped (ts : string) : Element :=
  mkElement "SPAN" "highlighted" "yellow"
    [("data-timestamp", ts); ("data-highlighted", "true")].

Definition twoGroups : Store :=
  document (E p [E (stamped "1") [T "a"]; E (stamped "2") [T "b"];
                 E (stamped "1") [T "c"]]).

(** A yellow marker 4 at the end of the red marker 2, which is the last
    child of the paragraph, behind the text node 1. *)
Definition nestedAtEnd : Store :=
  document (E p [T "x"; E red [T "a"; E yellow [T "b"]]]).

End Examples.

(** * Properties *)

(** ** Strings *)

Module StringFacts.

Lemma append_cons c s t : String c s +:+ t = String c (s +:+ t).
Proof. reflexivity. Qed.

Lemma append_nil_r s : s +:+ "" = s.
Proof.
  induction s as [| c s IH]; [reflexivity |].
  rewrite ?append_cons; simpl; rewrite IH; reflexivity.
Qed.

Lemma append_assoc s t u : (s +:+ t) +:+ u = s +:+ (t +:+ u).
Proof.
  induction s as [| c s IH]; [reflexivity |].
  rewrite ?append_cons; simpl; rewrite IH; reflexivity.
Qed.

Lemma length_append s t :
  String.length (s +:+ t) = String.length s + String.length t.
Proof.
  induction s as [| c s IH]; [reflexivity |].
  rewrite ?append_cons; simpl; rewrite IH; reflexivity.
Qed.

Lemma substring_all s : String.substring 0 (String.length s) s = s.
Proof.
  induction s as [| c s IH]; [reflexivity |].
  rewrite ?append_cons; simpl; rewrite IH; reflexivity.
Qed.

(** Splitting at the seam of a concatenation gives the two parts back. *)
Lemma strTake_append s t : strTake (String.length s) (s +:+ t) = s.
Proof.
  unfold strTake. induction s as [| c s IH].
  - destruct t; reflexivity.
  - rewrite append_cons. simpl. rewrite IH. reflexivity.
Qed.

Lemma strDrop_append s t : strDrop (String.length s) (s +:+ t) = t.
Proof.
  unfold strDrop. rewrite length_append.
  replace (String.length s + String.length t - String.length s)
    with (String.length t) by lia.
  induction s as [| c s IH].
  - apply substring_all.
  - rewrite append_cons. simpl. exact IH.
Qed.

End StringFacts.



(** ** The monad *)

Section Monad.

Context {A B : Type}.

Lemma bind_ret (a : A) (k : A -> M B) d : bind (ret a) k d = k a d.
Proof. reflexivity. Qed.

Lemma bind_gets (f : Store -> A) (k : A -> M B) d : bind (gets f) k d = k (f d) d.
Proof. reflexivity. Qed.

Lemma bind_Ret_inv (c : M A) (k : A -> M B) d b d' :
  bind c k d = (Ret b, d') ->
  exists a d1, c d = (Ret a, d1) /\ k a d1 = (Ret b, d').
Proof.
  unfold bind. destruct (c d) as [[a | e |] d1]; intros H; try discriminate.
  eauto.
Qed.

End Monad.

(** ** Normalisation *)

Module NormalizeFacts.

Import TextHighlighter Canonical.

Lemma color_Ret el c d d' :
  DomUtil.color el d = (Ret c, d') -> d' = d /\ colourOf d el = Some c.
Proof.
  unfold DomUtil.color, colourOf. rewrite bind_gets.
  destruct (getElement d el) as [e |]; cbn; intros H; inversion H; auto.
Qed.

Lemma haveSameColor_Ret a b r d d' :
  Utils.haveSameColor a b d = (Ret r, d') ->
  d' = d /\ exists ca cb,
    colourOf d a = Some ca /\ colourOf d b = Some cb /\ r = String.eqb ca cb.
Proof.
  unfold Utils.haveSameColor. intros H.
  apply bind_Ret_inv in H as (ca & d1 & Ha & H).
  apply color_Ret in Ha as [-> Ha].
  apply bind_Ret_inv in H as (cb & d2 & Hb & H).
  apply color_Ret in Hb as [-> Hb].
  inversion H; subst. eauto 10.
Qed.

Lemma haveSameColor_eval a b ca cb d :
  colourOf d a = Some ca -> colourOf d b = Some cb ->
  Utils.haveSameColor a b d = (Ret (String.eqb ca cb), d).
Proof.
  unfold Utils.haveSameColor, DomUtil.color, colourOf, bind, gets.
  cbn beta.
  destruct (getElement d a) as [ea |]; [| discriminate]. cbn.
  destruct (getElement d b) as [eb |]; [| discriminate]. cbn.
  intros Ha Hb. inversion Ha; inversion Hb; subst. reflexivity.
Qed.

(** A step of the flatten run that does not set [again] has left the tree
    and the entry as they were, and found nothing to flatten. *)
Lemma flattenStep_quiet hl hl' d d' :
  flattenStep hl d = (Ret (hl', false), d') ->
  d' = d /\ hl' = hl /\ flat d hl.
Proof.
  unfold flattenStep. rewrite bind_gets.
  destruct (parentElement d hl) as [parent |] eqn:Hp; [| discriminate].
  cbn [deref]. rewrite bind_ret, !bind_gets.
  destruct (isHighlight d (Some parent)) eqn:Hh.
  - intros H. apply bind_Ret_inv in H as (same & d1 & Hs & H).
    apply haveSameColor_Ret in Hs as (-> & cp & ch & Hcp & Hch & ->).
    destruct (String.eqb cp ch) eqn:Hc; cbn [negb] in H.
    + rewrite bind_gets in H.
      apply bind_Ret_inv in H as (x & d2 & _ & H). inversion H.
    + rewrite bind_gets in H.
      destruct (nextSibling d hl) as [n |] eqn:Hn.
      * rewrite bind_ret, bind_gets in H.
        destruct (previousSibling d hl) as [q |] eqn:Hq.
        -- rewrite bind_ret, bind_gets in H.
           assert (Hhas : hasChildNodes d parent = true).
           { unfold nextSibling in Hn. unfold parentElement in Hp.
             destruct (getParent d hl) as [pp |]; [| discriminate].
             cbn in Hp, Hn. destruct (isElement d pp); inversion Hp; subst.
             unfold hasChildNodes.
             destruct (getChildren d parent); [discriminate | reflexivity]. }
           rewrite Hhas in H. cbn in H. inversion H; subst.
           split; [reflexivity | split; [reflexivity |]].
           exists parent. split; [assumption |]. right.
           exists cp, ch. repeat split; eauto.
           intros ->. rewrite String.eqb_refl in Hc. discriminate.
        -- apply bind_Ret_inv in H as (a2 & d2 & H2 & H).
           apply bind_Ret_inv in H2 as (? & ? & _ & H2). inversion H2; subst.
           rewrite bind_gets in H.
           apply bind_Ret_inv in H as (? & ? & _ & H). inversion H.
      * apply bind_Ret_inv in H as (a1 & d1 & H1 & H).
        apply bind_Ret_inv in H1 as (? & ? & _ & H1). inversion H1; subst.
        rewrite bind_gets in H.
        apply bind_Ret_inv in H as (a2 & d2 & _ & H).
        rewrite bind_gets in H.
        apply bind_Ret_inv in H as (? & ? & _ & H). inversion H.
  - intros H. inversion H; subst.
    split; [reflexivity | split; [reflexivity |]].
    exists parent. auto.
Qed.

Lemma flattenOnce_quiet hs hs' d d' :
  flattenOnce hs d = (Ret (hs', false), d') ->
  d' = d /\ hs' = hs /\ Forall (flat d) hs.
Proof.
  revert hs' d'. induction hs as [| hl rest IH]; intros hs' d' H.
  - inversion H; subst. auto.
  - cbn [flattenOnce] in H.
    apply bind_Ret_inv in H as ([hl1 a1] & d1 & H1 & H).
    apply bind_Ret_inv in H as ([rs a2] & d2 & H2 & H).
    inversion H; subst. cbn [fst snd] in *.
    apply orb_false_iff in H4 as [-> ->].
    apply flattenStep_quiet in H1 as (-> & -> & Hf).
    apply IH in H2 as (-> & -> & Hr).
    auto.
Qed.

Lemma flattenLoop_Ret fuel hs hs' d d' :
  flattenLoop fuel hs d = (Ret hs', d') -> Forall (flat d') hs'.
Proof.
  revert hs d. induction fuel as [| f IH]; intros hs d H; [discriminate |].
  cbn [flattenLoop] in H.
  apply bind_Ret_inv in H as ([hs1 again] & d1 & H1 & H).
  cbn [fst snd] in H. destruct again.
  - eapply IH; eassumption.
  - inversion H; subst.
    apply flattenOnce_quiet in H1 as (-> & -> & Hf). assumption.
Qed.

(** The converse: where nothing is to flatten, the step is quiet. *)
Lemma flat_flattenStep hl d :
  flat d hl -> flattenStep hl d = (Ret (hl, false), d).
Proof.
  intros (parent & Hp & H). unfold flattenStep.
  rewrite bind_gets, Hp. cbn [deref]. rewrite bind_ret, !bind_gets.
  destruct H as [Hh | (cp & ch & Hcp & Hch & Hne & [n Hn] & [q Hq])].
  - rewrite Hh. reflexivity.
  - destruct (isHighlight d (Some parent)); [| reflexivity].
    unfold bind at 1. rewrite (haveSameColor_eval _ _ _ _ _ Hcp Hch).
    rewrite (proj2 (String.eqb_neq _ _) Hne). cbn [negb].
    assert (Hhas : hasChildNodes d parent = true).
    { unfold nextSibling in Hn. unfold parentElement in Hp.
      destruct (getParent d hl) as [pp |]; [| discriminate].
      cbn in Hp, Hn. destruct (isElement d pp); inversion Hp; subst.
      unfold hasChildNodes.
      destruct (getChildren d parent); [discriminate | reflexivity]. }
    rewrite bind_gets, Hn, bind_ret, bind_gets, Hq, bind_ret, bind_gets, Hhas.
    reflexivity.
Qed.

Lemma flat_flattenOnce hs d :
  Forall (flat d) hs -> flattenOnce hs d = (Ret (hs, false), d).
Proof.
  induction 1 as [| hl rest Hhl _ IH]; [reflexivity |].
  cbn [flattenOnce]. unfold bind at 1. rewrite (flat_flattenStep _ _ Hhl).
  unfold bind at 1. rewrite IH. reflexivity.
Qed.

Lemma isText_getNodeValue d c :
  isText d c = bool_decide (is_Some (getNodeValue d c)).
Proof.
  unfold isText, getNodeValue.
  destruct (getData d c) as [[s | e] |]; cbn; try reflexivity.
Qed.

Lemma coalesce_quiet d cs cur :
  noAdjacentText d cs = true ->
  match cur, cs with
  | Some _, c :: _ => isText d c = false
  | _, _ => True
  end ->
  DomUtil.coalesce cur cs d = d.
Proof.
  revert cur. induction cs as [| c cs' IH]; intros cur Hn Hc; [reflexivity |].
  cbn [DomUtil.coalesce].
  destruct (getNodeValue d c) as [t |] eqn:Hv.
  - assert (Ht : isText d c = true)
      by (rewrite isText_getNodeValue, Hv; reflexivity).
    destruct cur as [k |]; [congruence |].
    apply IH.
    + cbn in Hn. destruct cs'; [reflexivity |].
      apply andb_true_iff in Hn as [_ Hn]. exact Hn.
    + cbn in Hn. destruct cs' as [| n cs'']; [exact I |].
      apply andb_true_iff in Hn as [Hn _]. rewrite Ht in Hn.
      cbn in Hn. destruct (isText d n); [discriminate | reflexivity].
  - apply IH; [| exact I].
    cbn in Hn. destruct cs'; [reflexivity |].
    apply andb_true_iff in Hn as [_ Hn]. exact Hn.
Qed.

Lemma shouldMerge_mergeable hl node d :
  is_Some (colourOf d hl) ->
  shouldMerge hl node d = (Ret (mergeable d hl node), d).
Proof.
  intros [c Hc]. unfold shouldMerge, mergeable.
  destruct node as [n |]; [| reflexivity].
  rewrite bind_gets, Hc.
  destruct (colourOf d n) as [cn |] eqn:Hn.
  - assert (Ht : Config.nodeType d n = Some Config.ELEMENT_NODE).
    { unfold colourOf, getElement, Config.nodeType in *.
      destruct (getData d n) as [[s | e] |]; try discriminate. reflexivity. }
    rewrite Ht. unfold bind at 1. rewrite (haveSameColor_eval _ _ _ _ _ Hc Hn).
    destruct (String.eqb c cn); reflexivity.
  - unfold colourOf, getElement, Config.nodeType in *.
    destruct (getData d n) as [[s | e] |]; try discriminate; reflexivity.
Qed.

Lemma merged_mergeStep hl d :
  merged d hl -> mergeStep hl d = (Ret tt, d).
Proof.
  intros (Hc & Hp & Hn & Ht). unfold mergeStep.
  rewrite !bind_gets. unfold bind at 1.
  rewrite (shouldMerge_mergeable _ _ _ Hc), Hp.
  unfold bind at 1. cbn [ret]. unfold bind at 1.
  rewrite (shouldMerge_mergeable _ _ _ Hc), Hn.
  unfold bind at 1. cbn [ret].
  unfold DomUtil.normalizeTextNodes, modify.
  rewrite coalesce_quiet; [reflexivity | assumption | exact I].
Qed.

Lemma merged_mergeSiblingHighlights hs d :
  Forall (merged d) hs -> mergeSiblingHighlights hs d = (Ret tt, d).
Proof.
  induction 1 as [| hl rest Hhl _ IH]; [reflexivity |].
  cbn [mergeSiblingHighlights]. unfold bind.
  rewrite (merged_mergeStep _ _ Hhl). exact IH.
Qed.

(** Sorting, de-duplicating and filtering keep the members. *)
Lemma elem_of_insertSorted {A} (cmp : A -> A -> Z) x y l :
  y ∈ Utils.insertSorted cmp x l <-> y = x \/ y ∈ l.
Proof.
  induction l as [| z l IH]; cbn.
  - rewrite list_elem_of_singleton. set_solver.
  - destruct (cmp z x <=? 0)%Z; set_solver.
Qed.

Lemma elem_of_sort {A} (cmp : A -> A -> Z) y l :
  y ∈ Utils.sort cmp l <-> y ∈ l.
Proof.
  unfold Utils.sort.
  assert (H : forall acc, y ∈ fold_left (fun acc x => Utils.insertSorted cmp x acc) l acc
                          <-> y ∈ acc \/ y ∈ l).
  { induction l as [| x l IH]; intros acc; cbn.
    - set_solver.
    - rewrite IH, elem_of_insertSorted. set_solver. }
  rewrite H. set_solver.
Qed.

Lemma inList_elem_of x l : inList x l = true <-> x ∈ l.
Proof.
  unfold inList. rewrite existsb_exists. split.
  - intros (y & Hy & He). apply Nat.eqb_eq in He. subst.
    apply list_elem_of_In. assumption.
  - intros H. exists x. split; [apply list_elem_of_In; assumption |].
    apply Nat.eqb_refl.
Qed.

Lemma elem_of_uniqueFrom y seen l :
  y ∈ Utils.uniqueFrom seen l <-> y ∈ l /\ y ∉ seen.
Proof.
  revert seen. induction l as [| x l IH]; intros seen; cbn.
  - set_solver.
  - destruct (inList x seen) eqn:Hx.
    + apply inList_elem_of in Hx. rewrite IH. set_solver.
    + assert (x ∉ seen) by (intros Hin; apply inList_elem_of in Hin; congruence).
      rewrite elem_of_cons, IH.
      destruct (decide (y = x)); set_solver.
Qed.

Lemma elem_of_unique y l : y ∈ Utils.unique l <-> y ∈ l.
Proof. unfold Utils.unique. rewrite elem_of_uniqueFrom. set_solver. Qed.

Lemma Forall_sort {A} (P : A -> Prop) (cmp : A -> A -> Z) l :
  Forall P l -> Forall P (Utils.sort cmp l).
Proof.
  rewrite !Forall_forall. intros H y Hy. apply H.
  apply elem_of_sort in Hy. assumption.
Qed.

End NormalizeFacts.

(** ** The store under its setters *)

Module StoreFacts.

Lemma nodes_setParent r p d x :
  nodes (setParent r p d) !! x =
  if decide (r = x)
  then (fun n => mkNode (data n) p (childNodes n)) <$> nodes d !! r
  else nodes d !! x.
Proof. unfold setParent. cbn [nodes]. apply lookup_alter. Qed.

Lemma nodes_setChildren r cs d x :
  nodes (setChildren r cs d) !! x =
  if decide (r = x)
  then (fun n => mkNode (data n) (parentNode n) cs) <$> nodes d !! r
  else nodes d !! x.
Proof. unfold setChildren. cbn [nodes]. apply lookup_alter. Qed.

Lemma nodes_setData r v d x :
  nodes (setData r v d) !! x =
  if decide (r = x)
  then (fun n => mkNode v (parentNode n) (childNodes n)) <$> nodes d !! r
  else nodes d !! x.
Proof. unfold setData. cbn [nodes]. apply lookup_alter. Qed.

Lemma fresh_setParent r p d : fresh (setParent r p d) = fresh d.
Proof. reflexivity. Qed.
Lemma fresh_setChildren r cs d : fresh (setChildren r cs d) = fresh d.
Proof. reflexivity. Qed.
Lemma fresh_setData r v d : fresh (setData r v d) = fresh d.
Proof. reflexivity. Qed.


Lemma detach_detached d r :
  getParent d r = None -> detach r d = d.
Proof. intros H. unfold detach. rewrite H. reflexivity. Qed.

Lemma indexOf_app r pre l :
  r ∉ pre -> indexOf r (pre ++ r :: l) = Some (length pre).
Proof.
  induction pre as [| x pre IH]; intros H; cbn.
  - rewrite Nat.eqb_refl. reflexivity.
  - apply not_elem_of_cons in H as [Hx H].
    destruct (Nat.eqb_spec x r); [congruence |].
    rewrite IH by assumption. reflexivity.
Qed.

Lemma removeRef_app r pre l :
  r ∉ pre -> removeRef r (pre ++ r :: l) = pre ++ l.
Proof.
  induction pre as [| x pre IH]; intros H; cbn.
  - rewrite Nat.eqb_refl. reflexivity.
  - apply not_elem_of_cons in H as [Hx H].
    destruct (Nat.eqb_spec x r); [congruence |].
    rewrite IH by assumption. reflexivity.
Qed.

Lemma insertRef_end new l : insertRef new None l = l ++ [new].
Proof. induction l as [| x l IH]; cbn; [reflexivity | rewrite IH; reflexivity]. Qed.

Lemma insertRef_app new r pre l :
  r ∉ pre -> insertRef new (Some r) (pre ++ r :: l) = pre ++ new :: r :: l.
Proof.
  induction pre as [| x pre IH]; intros H; cbn.
  - rewrite Nat.eqb_refl. reflexivity.
  - apply not_elem_of_cons in H as [Hx H].
    destruct (Nat.eqb_spec x r); [congruence |].
    rewrite IH by assumption. reflexivity.
Qed.




Lemma nextSibling_in d r p pre l :
  getParent d r = Some p -> getChildren d p = pre ++ r :: l -> r ∉ pre ->
  nextSibling d r = head l.
Proof.
  intros Hp Hc Hn. unfold nextSibling. rewrite Hp. cbn [mbind option_bind].
  rewrite Hc, indexOf_app by assumption. cbn [mbind option_bind].
  rewrite lookup_app_r by lia.
  replace (S (length pre) - length pre) with 1 by lia.
  destruct l; reflexivity.
Qed.

Lemma previousSibling_in d r p pre l :
  getParent d r = Some p -> getChildren d p = pre ++ r :: l -> r ∉ pre ->
  previousSibling d r = last pre.
Proof.
  intros Hp Hc Hn. unfold previousSibling. rewrite Hp. cbn [mbind option_bind].
  rewrite Hc, indexOf_app by assumption. cbn [mbind option_bind].
  rewrite last_lookup.
  destruct (length pre) as [| j] eqn:Hl; cbn [Nat.pred].
  - destruct pre; [reflexivity | discriminate].
  - apply lookup_app_l. lia.
Qed.

Lemma getData_setParent r p d x : getData (setParent r p d) x = getData d x.
Proof.
  unfold getData. rewrite nodes_setParent.
  destruct (decide (r = x)) as [-> |]; [| reflexivity].
  destruct (nodes d !! x); reflexivity.
Qed.

Lemma getData_setChildren r cs d x : getData (setChildren r cs d) x = getData d x.
Proof.
  unfold getData. rewrite nodes_setChildren.
  destruct (decide (r = x)) as [-> |]; [| reflexivity].
  destruct (nodes d !! x); reflexivity.
Qed.

End StoreFacts.



(** ** Merging two neighbours *)

Section MergePair.

Import TextHighlighter Canonical StoreFacts NormalizeFacts.

Variables (d : Store) (p a b ta tb : nat).
Variables (ep ea eb : Element) (gp : option nat) (pre post : list nat).
Variables (va vb : string).

(** [a] and [b] are neighbours under [p]; each wraps one text node. *)
Hypothesis Hp :
  nodes d !! p = Some (mkNode (ElementData ep) gp (pre ++ a :: b :: post)).
Hypothesis Ha : nodes d !! a = Some (mkNode (ElementData ea) (Some p) [ta]).
Hypothesis Hb : nodes d !! b = Some (mkNode (ElementData eb) (Some p) [tb]).
Hypothesis Hta : nodes d !! ta = Some (mkNode (TextData va) (Some a) []).
Hypothesis Htb : nodes d !! tb = Some (mkNode (TextData vb) (Some b) []).
Hypothesis Hdup : NoDup (pre ++ a :: b :: post).
Hypothesis Hfresh : 0 < fresh d.
(** Both are markers, of one colour. *)
Hypothesis Hma : isMarker ea = true.
Hypothesis Hmb : isMarker eb = true.
Hypothesis Hcol : backgroundColor ea = backgroundColor eb.












End MergePair.

(** ** Well-formed stores *)

Module WellFormedFacts.

Import WellFormed StoreFacts.

Lemma wellFormedb_wellFormed d : wellFormedb d = true -> wellFormed d.
Proof.
  unfold wellFormedb, wellFormed. rewrite forallb_forall. intros H r n Hr.
  apply (H (r, n)). apply list_elem_of_In, elem_of_map_to_list. exact Hr.
Qed.

Section Node.

Variables (d : Store) (r : nat) (n : Node).
Hypothesis Hwf : wellFormed d.
Hypothesis Hr : nodes d !! r = Some n.

Local Lemma ok : nodeOk d r n = true.
Proof. apply Hwf, Hr. Qed.

Lemma wf_allocated : r < fresh d.
Proof.
  pose proof ok as H. unfold nodeOk in H.
  repeat (apply andb_true_iff in H as [H ?]). apply Nat.ltb_lt. assumption.
Qed.

Lemma wf_NoDup : NoDup (childNodes n).
Proof.
  pose proof ok as H. unfold nodeOk in H.
  repeat (apply andb_true_iff in H as [H ?]).
  match goal with
  | Hd : bool_decide _ = true |- _ =>
      apply bool_decide_eq_true_1 in Hd; exact Hd
  end.
Qed.

Lemma wf_child c : c ∈ childNodes n -> getParent d c = Some r /\ c < fresh d.
Proof.
  intros Hc. pose proof ok as H. unfold nodeOk in H.
  repeat (apply andb_true_iff in H as [H ?]).
  match goal with
  | Hf : forallb _ _ = true |- _ =>
      rewrite forallb_forall in Hf;
      specialize (Hf c (proj1 (list_elem_of_In _ _) Hc));
      apply andb_true_iff in Hf as [Hlt Hp]
  end.
  split; [| apply Nat.ltb_lt; assumption].
  destruct (getParent d c) as [q |]; [| discriminate].
  cbn in Hp. apply Nat.eqb_eq in Hp. congruence.
Qed.

Lemma wf_parent q : parentNode n = Some q -> r ∈ getChildren d q.
Proof.
  intros Hq. pose proof ok as H. unfold nodeOk in H.
  repeat (apply andb_true_iff in H as [H ?]).
  match goal with
  | Hp : match parentNode n with _ => _ end = true |- _ =>
      rewrite Hq in Hp; apply NormalizeFacts.inList_elem_of in Hp; exact Hp
  end.
Qed.

Lemma wf_text v : data n = TextData v -> childNodes n = [].
Proof.
  intros Hv. pose proof ok as H. unfold nodeOk in H.
  repeat (apply andb_true_iff in H as [H ?]).
  match goal with
  | Hp : match data n with _ => _ end = true |- _ =>
      rewrite Hv in Hp; destruct (childNodes n); [reflexivity | discriminate]
  end.
Qed.

End Node.

Lemma wf_fresh_free d : wellFormed d -> nodes d !! fresh d = None.
Proof.
  intros Hwf. destruct (nodes d !! fresh d) as [n |] eqn:H; [| reflexivity].
  pose proof (wf_allocated d _ n Hwf H). lia.
Qed.

Lemma wf_children_of_parent d c q :
  wellFormed d -> getParent d c = Some q -> c ∈ getChildren d q.
Proof.
  intros Hwf H. unfold getParent in H.
  destruct (nodes d !! c) as [n |] eqn:Hc; [| discriminate].
  cbn in H. eapply wf_parent; eassumption.
Qed.

Lemma wf_children_NoDup d q : wellFormed d -> NoDup (getChildren d q).
Proof.
  intros Hwf. unfold getChildren.
  destruct (nodes d !! q) as [n |] eqn:Hq; [| apply NoDup_nil_2].
  eapply wf_NoDup; eassumption.
Qed.

Lemma wf_parent_of_child d c q :
  wellFormed d -> c ∈ getChildren d q -> getParent d c = Some q /\ c < fresh d.
Proof.
  intros Hwf H. unfold getChildren in H.
  destruct (nodes d !! q) as [n |] eqn:Hq; [| set_solver].
  eapply wf_child; eassumption.
Qed.

End WellFormedFacts.

(** ** The end boundary *)

Module RefineFacts.

Import Boundary WellFormed WellFormedFacts StoreFacts Utils.

Lemma walkUp_eval d anc n e x fuel :
  WalkUp d anc n e x -> n < fuel ->
  walkUp fuel anc (Some e) d = (Ret (Some x), d).
Proof.
  intros H. revert fuel.
  induction H as [e [[p Hp] | Hq] | n e q x Hprev Hpar Hne _ IH];
    intros fuel Hf; (destruct fuel as [| fuel]; [lia |]);
    cbn [walkUp deref]; rewrite bind_ret, !bind_gets.
  - rewrite Hp. reflexivity.
  - rewrite Hq. cbn [optEqb]. rewrite Nat.eqb_refl, andb_false_r. reflexivity.
  - rewrite Hprev, Hpar. cbn [optEqb].
    destruct (Nat.eqb_spec q anc); [contradiction |]. cbn.
    apply IH. lia.
Qed.

(** The end boundary at offset 0: the walk, then one step to the left. *)
Lemma endBoundary_eval d anc n e x fuel :
  WalkUp d anc n e x -> n < fuel ->
  (e0 <- walkUp fuel anc (Some e) ;;
   e' <- deref "previousSibling of null" e0 ;;
   gets (fun d => previousSibling d e'))%js d
  = (Ret (previousSibling d x), d).
Proof.
  intros H Hf. unfold bind at 1. rewrite (walkUp_eval _ _ _ _ _ _ H Hf).
  reflexivity.
Qed.

(** The node a walk ends at is a node of the store. *)
Lemma WalkUp_end_allocated d anc n e x :
  WalkUp d anc n e x -> is_Some (nodes d !! x).
Proof.
  induction 1 as [e [[p Hp] | Hq] | ]; [| | assumption].
  - unfold previousSibling, getParent in Hp.
    destruct (nodes d !! e); [eauto | discriminate].
  - unfold getParent in Hq. destruct (nodes d !! e); [eauto | discriminate].
Qed.

Lemma prevOf_indexOf acc x l :
  prevOf acc x l =
  match indexOf x l with
  | None => None
  | Some 0 => acc
  | Some (S j) => l !! j
  end.
Proof.
  revert acc. induction l as [| y l IH]; intros acc; [reflexivity |].
  cbn [prevOf indexOf]. destruct (Nat.eqb y x); [reflexivity |].
  rewrite IH. destruct (indexOf x l) as [[| j] |]; reflexivity.
Qed.

Lemma previousSibling_prevOf d x :
  previousSibling d x = getParent d x ≫= fun p => prevOf None x (getChildren d p).
Proof.
  unfold previousSibling. destruct (getParent d x) as [p |]; [| reflexivity].
  cbn [mbind option_bind]. rewrite prevOf_indexOf.
  destruct (indexOf x (getChildren d p)) as [[| j] |]; reflexivity.
Qed.

Lemma prevOf_elem acc x l y :
  prevOf acc x l = Some y -> acc = Some y \/ y ∈ l.
Proof.
  revert acc. induction l as [| z l IH]; intros acc; cbn; [discriminate |].
  destruct (Nat.eqb z x); [auto |].
  intros H. apply IH in H as [H | H]; [| set_solver].
  inversion H; subst. set_solver.
Qed.

(** A new node put directly behind [sc] becomes the preceding sibling of
    the node that followed [sc]; every other node keeps its own. *)
Lemma prevOf_insert acc x pre sc n post :
  NoDup (pre ++ sc :: post) -> n ∉ pre ++ sc :: post -> x <> n ->
  acc <> Some sc ->
  prevOf acc x (pre ++ sc :: n :: post) =
  if decide (prevOf acc x (pre ++ sc :: post) = Some sc)
  then Some n else prevOf acc x (pre ++ sc :: post).
Proof.
  revert acc. induction pre as [| y pre IH]; intros acc Hd Hn Hx Hacc.
  - cbn [app prevOf]. destruct (Nat.eqb sc x) eqn:Hs.
    + rewrite decide_False by assumption. reflexivity.
    + destruct (Nat.eqb_spec n x); [congruence |].
      apply NoDup_cons in Hd as [Hsc _].
      destruct post as [| z post]; cbn [prevOf].
      * rewrite decide_False by discriminate. reflexivity.
      * destruct (Nat.eqb z x).
        -- rewrite decide_True by reflexivity. reflexivity.
        -- rewrite decide_False; [reflexivity |].
           intros H. apply prevOf_elem in H as [H | H]; [| set_solver].
           inversion H; subst. set_solver.
  - cbn [app prevOf]. destruct (Nat.eqb y x).
    + rewrite decide_False by assumption. reflexivity.
    + apply IH.
      * cbn in Hd. apply NoDup_cons in Hd as [_ Hd]. exact Hd.
      * set_solver.
      * exact Hx.
      * cbn in Hd. apply NoDup_cons in Hd as [Hy _].
        intros H. inversion H; subst. set_solver.
Qed.

(** [splitText] on a text node of the tree: the new node is the next
    unused reference, it follows the split node under the same parent, and
    nothing else moves. *)
Lemma splitText_attached d sc v q off :
  wellFormed d ->
  getNodeValue d sc = Some v -> getParent d sc = Some q ->
  off <= String.length v ->
  exists d' pre post,
    Text_splitText (Some sc) off d = (Ret (fresh d), d') /\
    (forall x, x <> fresh d -> getParent d' x = getParent d x) /\
    getParent d' (fresh d) = Some q /\
    (forall p, p <> q -> getChildren d' p = getChildren d p) /\
    getChildren d q = pre ++ sc :: post /\
    getChildren d' q = pre ++ sc :: fresh d :: post.
Proof.
  intros Hwf Hv Hq Hoff.
  pose proof (wf_children_of_parent _ _ _ Hwf Hq) as Hin.
  pose proof (wf_children_NoDup d q Hwf) as Hdup.
  apply list_elem_of_split in Hin as (pre & post & Hcs).
  rewrite Hcs in Hdup.
  assert (Hscpre : sc ∉ pre).
  { apply NoDup_app in Hdup as (_ & Hd & _). intros H. apply (Hd sc H). left. }
  assert (Hfree : nodes d !! fresh d = None) by (apply wf_fresh_free, Hwf).
  assert (Hscn : sc <> fresh d).
  { intros ->. unfold getParent in Hq. rewrite Hfree in Hq. discriminate. }
  assert (Hqn : q <> fresh d).
  { intros ->. unfold getChildren in Hcs. rewrite Hfree in Hcs.
    destruct pre; discriminate. }
  assert (Hqsc : q <> sc).
  { intros ->. unfold getNodeValue, getData in Hv. unfold getChildren in Hcs.
    destruct (nodes d !! sc) as [m |] eqn:Hm; [| discriminate].
    destruct m as [[s | e] par cs]; cbn in Hv, Hcs; [| discriminate].
    pose proof (wf_text d sc _ Hwf Hm s eq_refl) as Ht. cbn in Ht.
    subst. destruct pre; discriminate. }
  set (n := fresh d) in *.
  set (d1 := mkStore (<[n := mkNode (TextData (strDrop off v)) None []]> (nodes d))
                     (S n)).
  assert (H1 : forall x, x <> n -> nodes d1 !! x = nodes d !! x).
  { intros x Hx. unfold d1. cbn [nodes]. apply lookup_insert_ne. congruence. }
  assert (Hpost : nextSibling d1 sc = head post).
  { apply (nextSibling_in d1 sc q pre post); [| | exact Hscpre].
    - unfold getParent. rewrite H1 by assumption. exact Hq.
    - unfold getChildren. rewrite H1 by assumption. exact Hcs. }
  assert (Hins : insertRef n (head post) (pre ++ sc :: post) = pre ++ sc :: n :: post).
  { destruct post as [| z post]; cbn [head].
    - rewrite insertRef_end, <- app_assoc. reflexivity.
    - replace (pre ++ sc :: z :: post) with ((pre ++ [sc]) ++ z :: post)
        by (rewrite <- app_assoc; reflexivity).
      rewrite insertRef_app.
      + rewrite <- app_assoc. reflexivity.
      + intros H. apply NoDup_app in Hdup as (_ & _ & Hd).
        apply NoDup_cons in Hd as [Hsc Hd]. apply NoDup_cons in Hd as [Hz _].
        apply elem_of_app in H as [H | H].
        * pose proof (wf_children_NoDup d q Hwf) as Hd'. rewrite Hcs in Hd'.
          apply NoDup_app in Hd' as (_ & Hd' & _). apply (Hd' z H). set_solver.
        * apply list_elem_of_singleton in H. subst. set_solver. }
  set (d' := setData sc (TextData (strTake off v))
               (setParent n (Some q)
                  (setChildren q (pre ++ sc :: n :: post) d1))).
  exists d', pre, post.
  assert (Hn' : forall x, nodes d' !! x =
    if decide (x = sc)
    then (fun m => mkNode (TextData (strTake off v)) (parentNode m) (childNodes m))
           <$> nodes d !! sc
    else if decide (x = n) then Some (mkNode (TextData (strDrop off v)) (Some q) [])
    else if decide (x = q)
    then (fun m => mkNode (data m) (parentNode m) (pre ++ sc :: n :: post))
           <$> nodes d !! q
    else nodes d !! x).
  { intros x. unfold d'. rewrite nodes_setData.
    destruct (decide (sc = x)) as [<- | Hx].
    - rewrite decide_True by reflexivity.
      rewrite nodes_setParent, decide_False by congruence.
      rewrite nodes_setChildren, decide_False by congruence.
      rewrite H1 by assumption. reflexivity.
    - rewrite decide_False by congruence. rewrite nodes_setParent.
      destruct (decide (n = x)) as [<- | Hx'].
      + rewrite decide_True by reflexivity.
        rewrite nodes_setChildren, decide_False by congruence.
        unfold d1. cbn [nodes]. rewrite lookup_insert_eq. reflexivity.
      + rewrite decide_False by congruence. rewrite nodes_setChildren.
        destruct (decide (q = x)) as [<- | Hx''].
        * rewrite decide_True by reflexivity. rewrite H1 by assumption.
          reflexivity.
        * rewrite decide_False by congruence. apply H1. congruence. }
  split; [| split; [| split; [| split; [| split]]]].
  - unfold Text_splitText. rewrite Hv.
    destruct (Nat.ltb_spec (String.length v) off); [lia |].
    unfold alloc. fold n. fold d1.
    assert (Hq1 : getParent d1 sc = Some q).
    { unfold getParent. rewrite H1 by assumption. exact Hq. }
    rewrite Hq1, Hpost.
    assert (Hc1 : getChildren d1 q = pre ++ sc :: post).
    { unfold getChildren. rewrite H1 by assumption. exact Hcs. }
    rewrite Hc1, Hins. reflexivity.
  - intros x Hx. unfold getParent. rewrite Hn'.
    destruct (decide (x = sc)) as [-> |].
    + destruct (nodes d !! sc); reflexivity.
    + rewrite decide_False by assumption.
      destruct (decide (x = q)) as [-> |]; [| reflexivity].
      destruct (nodes d !! q); reflexivity.
  - unfold getParent. rewrite Hn'.
    rewrite decide_False by congruence. rewrite decide_True by reflexivity.
    reflexivity.
  - intros p Hp. unfold getChildren. rewrite Hn'.
    destruct (decide (p = sc)) as [-> |].
    + destruct (nodes d !! sc); reflexivity.
    + destruct (decide (p = n)) as [-> |].
      * rewrite Hfree. reflexivity.
      * rewrite decide_False by assumption. reflexivity.
  - exact Hcs.
  - unfold getChildren. rewrite Hn'.
    rewrite decide_False by congruence. rewrite decide_False by assumption.
    rewrite decide_True by reflexivity.
    unfold getChildren in Hcs. destruct (nodes d !! q); [reflexivity |].
    destruct pre; discriminate.
Qed.

Lemma prevOf_behind acc x y pre l :
  x ∉ pre -> y <> x -> prevOf acc x (pre ++ y :: x :: l) = Some y.
Proof.
  revert acc. induction pre as [| z pre IH]; intros acc Hx Hy; cbn [app prevOf].
  - destruct (Nat.eqb_spec y x); [congruence |]. rewrite Nat.eqb_refl.
    reflexivity.
  - apply not_elem_of_cons in Hx as [Hz Hx].
    destruct (Nat.eqb_spec z x); [congruence |]. apply IH; assumption.
Qed.

Lemma optEqb_eq a b : optEqb a b = true <-> a = b.
Proof.
  destruct a as [x |], b as [y |]; cbn; try (split; congruence).
  rewrite Nat.eqb_eq. split; congruence.
Qed.

(** The preceding sibling of [x] after a split of [sc]. *)
Lemma previousSibling_after_split d d' sc q pre post x :
  wellFormed d ->
  is_Some (nodes d !! x) ->
  getParent d sc = Some q ->
  (forall y, y <> fresh d -> getParent d' y = getParent d y) ->
  (forall p, p <> q -> getChildren d' p = getChildren d p) ->
  getChildren d q = pre ++ sc :: post ->
  getChildren d' q = pre ++ sc :: fresh d :: post ->
  previousSibling d' x =
  if optEqb (previousSibling d x) (Some sc) then Some (fresh d)
  else previousSibling d x.
Proof.
  intros Hwf [m Hm] Hq Hpar Hch Hcs Hcs'.
  assert (Hxn : x <> fresh d).
  { pose proof (wf_allocated d x m Hwf Hm). lia. }
  rewrite !previousSibling_prevOf, Hpar by assumption.
  destruct (getParent d x) as [px |] eqn:Hpx; cbn [mbind option_bind];
    [| reflexivity].
  destruct (decide (px = q)) as [-> | Hne].
  - rewrite Hcs, Hcs'.
    pose proof (wf_children_NoDup d q Hwf) as Hdup. rewrite Hcs in Hdup.
    assert (Hn : fresh d ∉ pre ++ sc :: post).
    { rewrite <- Hcs. intros Hin.
      apply (wf_parent_of_child d _ _ Hwf) in Hin as [_ Hlt]. lia. }
    rewrite prevOf_insert by (try assumption; discriminate).
    destruct (decide (prevOf None x (pre ++ sc :: post) = Some sc)) as [He | He].
    + rewrite He. cbn [optEqb]. rewrite Nat.eqb_refl. reflexivity.
    + destruct (optEqb _ _) eqn:Ho; [| reflexivity].
      apply optEqb_eq in Ho. contradiction.
  - rewrite Hch by assumption.
    destruct (optEqb _ _) eqn:Ho; [| reflexivity].
    apply optEqb_eq in Ho. apply prevOf_elem in Ho as [Ho | Ho]; [discriminate |].
    apply (wf_parent_of_child d _ _ Hwf) in Ho as [Ho _]. congruence.
Qed.

End RefineFacts.

(** ** Trees under unlinking, linking and rewriting of text *)

Module TreeFacts.

Import Tree WellFormed WellFormedFacts StoreFacts.

Lemma wellFormed_WF d : wellFormed d -> WF d.
Proof.
  intros Hwf. split.
  - intros r [n Hn]. eapply wf_allocated; eassumption.
  - intros r c Hc. apply (wf_parent_of_child d c r Hwf Hc).
  - intros r. apply wf_children_NoDup, Hwf.
  - intros r q Hq. apply wf_children_of_parent; assumption.
  - intros r Ht. unfold isText, getData, getChildren in *.
    destruct (nodes d !! r) as [n |] eqn:Hn; [| reflexivity].
    destruct n as [[s | e] par cs]; cbn in Ht; [| discriminate].
    apply (wf_text d r _ Hwf Hn s eq_refl).
Qed.

(** *** The accessors under the setters *)

Lemma allocated_setParent r p d y : allocated (setParent r p d) y <-> allocated d y.
Proof.
  unfold allocated. rewrite nodes_setParent.
  destruct (decide (r = y)) as [-> |]; [| reflexivity].
  destruct (nodes d !! y); cbn; split; intros [? ?]; eauto; discriminate.
Qed.

Lemma allocated_setChildren r cs d y :
  allocated (setChildren r cs d) y <-> allocated d y.
Proof.
  unfold allocated. rewrite nodes_setChildren.
  destruct (decide (r = y)) as [-> |]; [| reflexivity].
  destruct (nodes d !! y); cbn; split; intros [? ?]; eauto; discriminate.
Qed.

Lemma allocated_setData r v d y : allocated (setData r v d) y <-> allocated d y.
Proof.
  unfold allocated. rewrite nodes_setData.
  destruct (decide (r = y)) as [-> |]; [| reflexivity].
  destruct (nodes d !! y); cbn; split; intros [? ?]; eauto; discriminate.
Qed.

Lemma getParent_setParent r p d y :
  allocated d r ->
  getParent (setParent r p d) y = if decide (y = r) then p else getParent d y.
Proof.
  intros [n Hn]. unfold getParent. rewrite nodes_setParent.
  destruct (decide (r = y)) as [-> |].
  - rewrite decide_True by reflexivity. rewrite Hn. reflexivity.
  - rewrite decide_False by congruence. reflexivity.
Qed.

Lemma getChildren_setParent r p d y :
  getChildren (setParent r p d) y = getChildren d y.
Proof.
  unfold getChildren. rewrite nodes_setParent.
  destruct (decide (r = y)) as [-> |]; [| reflexivity].
  destruct (nodes d !! y); reflexivity.
Qed.

Lemma getParent_setChildren r cs d y :
  getParent (setChildren r cs d) y = getParent d y.
Proof.
  unfold getParent. rewrite nodes_setChildren.
  destruct (decide (r = y)) as [-> |]; [| reflexivity].
  destruct (nodes d !! y); reflexivity.
Qed.

Lemma getChildren_setChildren r cs d y :
  allocated d r ->
  getChildren (setChildren r cs d) y = if decide (y = r) then cs else getChildren d y.
Proof.
  intros [n Hn]. unfold getChildren. rewrite nodes_setChildren.
  destruct (decide (r = y)) as [-> |].
  - rewrite decide_True by reflexivity. rewrite Hn. reflexivity.
  - rewrite decide_False by congruence. reflexivity.
Qed.

Lemma getParent_setData r v d y : getParent (setData r v d) y = getParent d y.
Proof.
  unfold getParent. rewrite nodes_setData.
  destruct (decide (r = y)) as [-> |]; [| reflexivity].
  destruct (nodes d !! y); reflexivity.
Qed.

Lemma getChildren_setData r v d y : getChildren (setData r v d) y = getChildren d y.
Proof.
  unfold getChildren. rewrite nodes_setData.
  destruct (decide (r = y)) as [-> |]; [| reflexivity].
  destruct (nodes d !! y); reflexivity.
Qed.

Lemma getData_setData r v d y :
  allocated d r ->
  getData (setData r v d) y = if decide (y = r) then Some v else getData d y.
Proof.
  intros [n Hn]. unfold getData. rewrite nodes_setData.
  destruct (decide (r = y)) as [-> |].
  - rewrite decide_True by reflexivity. rewrite Hn. reflexivity.
  - rewrite decide_False by congruence. reflexivity.
Qed.

Lemma allocated_of_parent d x p : getParent d x = Some p -> allocated d x.
Proof.
  unfold getParent, allocated. destruct (nodes d !! x); [eauto | discriminate].
Qed.

Lemma allocated_of_child d x c : c ∈ getChildren d x -> allocated d x.
Proof.
  unfold getChildren, allocated. destruct (nodes d !! x); [eauto | set_solver].
Qed.

Lemma allocated_of_data d x v : getData d x = Some v -> allocated d x.
Proof.
  unfold getData, allocated. destruct (nodes d !! x); [eauto | discriminate].
Qed.

(** *** Text content *)

Lemma textContentFrom_S f d r :
  textContentFrom (S f) d r =
  match getData d r with
  | Some (TextData s) => Some s
  | Some (ElementData _) => texts f d (getChildren d r)
  | None => Some ""
  end.
Proof.
  cbn [textContentFrom]. unfold getData, getChildren, texts.
  destruct (nodes d !! r) as [[[s | e] par cs] |]; reflexivity.
Qed.

Lemma texts_cons f d c cs :
  texts f d (c :: cs) =
  s ← textContentFrom f d c; a ← texts f d cs; Some (s +:+ a).
Proof. reflexivity. Qed.

Lemma texts_app f d l1 l2 :
  texts f d (l1 ++ l2) =
  s1 ← texts f d l1; s2 ← texts f d l2; Some (s1 +:+ s2).
Proof.
  induction l1 as [| c l1 IH].
  - change ([] ++ l2) with l2. destruct (texts f d l2); reflexivity.
  - change ((c :: l1) ++ l2) with (c :: (l1 ++ l2)). rewrite !texts_cons, IH.
    destruct (textContentFrom f d c) as [s |]; [| reflexivity].
    cbn [mbind option_bind].
    destruct (texts f d l1) as [s1 |]; [| reflexivity].
    cbn [mbind option_bind].
    destruct (texts f d l2) as [s2 |]; [| reflexivity].
    cbn [mbind option_bind]. rewrite StringFacts.append_assoc. reflexivity.
Qed.

(** Same fuel, same text: the form in which a change of the tree is shown
    to keep the text of a node. *)
Lemma texts_keep f d d' cs s :
  texts f d cs = Some s ->
  (forall c s', c ∈ cs -> textContentFrom f d c = Some s' ->
                textContentFrom f d' c = Some s') ->
  texts f d' cs = Some s.
Proof.
  revert s. induction cs as [| c cs IH]; intros s H Hc; [exact H |].
  rewrite texts_cons in *.
  destruct (textContentFrom f d c) as [sc |] eqn:Hsc; [| discriminate].
  rewrite (Hc c sc ltac:(left) Hsc). cbn [mbind option_bind] in *.
  destruct (texts f d cs) as [a |] eqn:Ha; [| discriminate].
  rewrite (IH a eq_refl); [exact H |].
  intros c' s' Hin. apply Hc. right. exact Hin.
Qed.

(** *** Lists of children *)

Lemma elem_of_removeRef x c l :
  NoDup l -> c ∈ removeRef x l <-> c ∈ l /\ c <> x.
Proof.
  induction l as [| y l IH]; intros Hnd; cbn [removeRef].
  - split; [intros H | intros [H _]]; inversion H.
  - apply NoDup_cons in Hnd as [Hy Hnd].
    destruct (Nat.eqb_spec y x) as [-> | Hne].
    + split.
      * intros H. split; [right; exact H |]. intros ->. contradiction.
      * intros [H Hc]. apply elem_of_cons in H as [-> | H]; [contradiction | exact H].
    + rewrite !elem_of_cons, (IH Hnd). split.
      * intros [-> | [H Hc]]; [split; [left; reflexivity | exact Hne] |].
        split; [right; exact H | exact Hc].
      * intros [[-> | H] Hc]; [left; reflexivity | right; split; assumption].
Qed.

Lemma NoDup_removeRef x l : NoDup l -> NoDup (removeRef x l).
Proof.
  induction l as [| y l IH]; intros Hnd; cbn [removeRef]; [exact Hnd |].
  pose proof Hnd as Hnd'. apply NoDup_cons in Hnd' as [Hy Hl].
  destruct (Nat.eqb_spec y x); [exact Hl |].
  apply NoDup_cons. split; [| exact (IH Hl)].
  rewrite (elem_of_removeRef _ _ _ Hl). intros [H _]. contradiction.
Qed.

Lemma elem_of_insertRef x ref c l :
  c ∈ insertRef x ref l <-> c = x \/ c ∈ l.
Proof.
  induction l as [| y l IH]; cbn [insertRef].
  - rewrite list_elem_of_singleton. split; [intros ->; left; reflexivity |].
    intros [-> | H]; [reflexivity | inversion H].
  - destruct (match ref with Some r => Nat.eqb y r | None => false end).
    + rewrite elem_of_cons. reflexivity.
    + rewrite !elem_of_cons, IH. tauto.
Qed.

Lemma NoDup_insertRef x ref l : NoDup l -> x ∉ l -> NoDup (insertRef x ref l).
Proof.
  induction l as [| y l IH]; intros Hnd Hx; cbn [insertRef].
  - apply NoDup_singleton.
  - destruct (match ref with Some r => Nat.eqb y r | None => false end).
    + apply NoDup_cons. split; assumption.
    + apply NoDup_cons in Hnd as [Hy Hl]. apply not_elem_of_cons in Hx as [Hxy Hx].
      apply NoDup_cons. split; [| exact (IH Hl Hx)].
      rewrite elem_of_insertRef. intros [-> | H]; [apply Hxy; reflexivity | contradiction].
Qed.

(** *** Unlinking *)

Section Detach.

Variables (d : Store) (x p : nat).
Hypothesis Hwf : WF d.
Hypothesis Hp : getParent d x = Some p.

Lemma detach_child : x ∈ getChildren d p.
Proof. apply wf_down; assumption. Qed.

Lemma detach_eq :
  detach x d = setParent x None (setChildren p (removeRef x (getChildren d p)) d).
Proof. unfold detach. rewrite Hp. reflexivity. Qed.

Lemma fresh_detach : fresh (detach x d) = fresh d.
Proof. rewrite detach_eq. reflexivity. Qed.

Lemma allocated_detach y : allocated (detach x d) y <-> allocated d y.
Proof. rewrite detach_eq, allocated_setParent, allocated_setChildren. reflexivity. Qed.

Lemma getData_detach y : getData (detach x d) y = getData d y.
Proof. rewrite detach_eq, getData_setParent, getData_setChildren. reflexivity. Qed.

Lemma getParent_detach y :
  getParent (detach x d) y = if decide (y = x) then None else getParent d y.
Proof.
  rewrite detach_eq, getParent_setParent.
  - destruct (decide (y = x)); [reflexivity | apply getParent_setChildren].
  - apply allocated_setChildren. eapply allocated_of_parent, Hp.
Qed.

Lemma getChildren_detach y :
  getChildren (detach x d) y =
  if decide (y = p) then removeRef x (getChildren d p) else getChildren d y.
Proof.
  rewrite detach_eq, getChildren_setParent. apply getChildren_setChildren.
  eapply allocated_of_child, detach_child.
Qed.

Lemma WF_detach : WF (detach x d).
Proof.
  split.
  - intros r Hr. rewrite fresh_detach. apply (wf_alloc d Hwf), allocated_detach, Hr.
  - intros r c. rewrite getChildren_detach, getParent_detach.
    destruct (decide (r = p)) as [-> | Hrp].
    + rewrite elem_of_removeRef by apply (wf_nodup d Hwf). intros [Hc Hcx].
      rewrite decide_False by exact Hcx. apply (wf_up d Hwf), Hc.
    + intros Hc. pose proof (wf_up d Hwf _ _ Hc) as Hpc.
      destruct (decide (c = x)) as [-> |]; [congruence | exact Hpc].
  - intros r. rewrite getChildren_detach.
    destruct (decide (r = p)); [apply NoDup_removeRef |]; apply (wf_nodup d Hwf).
  - intros r q. rewrite getParent_detach, getChildren_detach.
    destruct (decide (r = x)) as [-> | Hrx]; [discriminate |]. intros Hq.
    pose proof (wf_down d Hwf _ _ Hq) as Hin.
    destruct (decide (q = p)) as [-> |]; [| exact Hin].
    apply elem_of_removeRef; [apply (wf_nodup d Hwf) | split; assumption].
  - intros r. unfold isText. rewrite getData_detach, getChildren_detach. intros Ht.
    pose proof (wf_leaf d Hwf r Ht) as Hnil.
    destruct (decide (r = p)) as [-> |]; [| exact Hnil].
    rewrite Hnil. reflexivity.
Qed.

End Detach.

(** *** Linking *)

Section Attach.

Variables (d : Store) (x q : nat) (ref : option nat).
Hypothesis Hwf : WF d.
Hypothesis Hx : allocated d x.
Hypothesis Hq : allocated d q.

Lemma fresh_attach : fresh (attach x q ref d) = fresh d.
Proof. reflexivity. Qed.

Lemma allocated_attach y : allocated (attach x q ref d) y <-> allocated d y.
Proof. unfold attach. rewrite allocated_setParent, allocated_setChildren. reflexivity. Qed.

Lemma getData_attach y : getData (attach x q ref d) y = getData d y.
Proof. unfold attach. rewrite getData_setParent, getData_setChildren. reflexivity. Qed.

Lemma getParent_attach y :
  getParent (attach x q ref d) y = if decide (y = x) then Some q else getParent d y.
Proof.
  unfold attach. rewrite getParent_setParent.
  - destruct (decide (y = x)); [reflexivity | apply getParent_setChildren].
  - apply allocated_setChildren, Hx.
Qed.

Lemma getChildren_attach y :
  getChildren (attach x q ref d) y =
  if decide (y = q) then insertRef x ref (getChildren d q) else getChildren d y.
Proof.
  unfold attach. rewrite getChildren_setParent. apply getChildren_setChildren, Hq.
Qed.

Hypothesis Hfree : getParent d x = None.
Hypothesis Hnt : isText d q = false.

Lemma attach_not_child r : x ∉ getChildren d r.
Proof. intros Hin. rewrite (wf_up d Hwf _ _ Hin) in Hfree. discriminate. Qed.

Lemma WF_attach : WF (attach x q ref d).
Proof.
  split.
  - intros r Hr. rewrite fresh_attach. apply (wf_alloc d Hwf), allocated_attach, Hr.
  - intros r c. rewrite getChildren_attach, getParent_attach.
    destruct (decide (r = q)) as [-> | Hrq].
    + rewrite elem_of_insertRef. intros [-> | Hc].
      * rewrite decide_True by reflexivity. reflexivity.
      * destruct (decide (c = x)) as [-> |]; [reflexivity |].
        apply (wf_up d Hwf), Hc.
    + intros Hc. destruct (decide (c = x)) as [-> |].
      * exfalso. exact (attach_not_child _ Hc).
      * apply (wf_up d Hwf), Hc.
  - intros r. rewrite getChildren_attach.
    destruct (decide (r = q)); [| apply (wf_nodup d Hwf)].
    apply NoDup_insertRef; [apply (wf_nodup d Hwf) | apply attach_not_child].
  - intros r q'. rewrite getParent_attach, getChildren_attach.
    destruct (decide (r = x)) as [-> | Hrx].
    + intros [= <-]. rewrite decide_True by reflexivity.
      apply elem_of_insertRef. left. reflexivity.
    + intros Hq'. pose proof (wf_down d Hwf _ _ Hq') as Hin.
      destruct (decide (q' = q)) as [-> |]; [| exact Hin].
      apply elem_of_insertRef. right. exact Hin.
  - intros r. unfold isText. rewrite getData_attach, getChildren_attach. intros Ht.
    destruct (decide (r = q)) as [-> |]; [| apply (wf_leaf d Hwf r Ht)].
    unfold isText in Hnt. rewrite Hnt in Ht. discriminate.
Qed.

End Attach.

(** *** Rewriting a text node *)

Lemma isText_setData d t v y :
  isText d t = true -> isText (setData t (TextData v) d) y = isText d y.
Proof.
  intros Ht. unfold isText in *.
  destruct (getData d t) as [dt |] eqn:Hdt; [| discriminate].
  rewrite getData_setData by (eapply allocated_of_data, Hdt).
  destruct (decide (y = t)) as [-> |]; [| reflexivity].
  rewrite Hdt. destruct dt; [reflexivity | discriminate].
Qed.

Lemma WF_setData d t v : WF d -> isText d t = true -> WF (setData t (TextData v) d).
Proof.
  intros Hwf Ht. split.
  - intros r Hr. apply allocated_setData in Hr. apply (wf_alloc d Hwf), Hr.
  - intros r c. rewrite getChildren_setData, getParent_setData. apply (wf_up d Hwf).
  - intros r. rewrite getChildren_setData. apply (wf_nodup d Hwf).
  - intros r q. rewrite getParent_setData, getChildren_setData. apply (wf_down d Hwf).
  - intros r. rewrite isText_setData, getChildren_setData by exact Ht.
    apply (wf_leaf d Hwf).
Qed.

(** *** Keeping the text across a change of one list of children

    From [d] to [d'] the children [mid] of [q] are replaced by [mid'], which
    carry the same text; the node [b] is the one whose own text may have
    changed, and it is below [q] only.  Then every other node keeps its
    text, with the same bound on the walk. *)

Section Splice.

Variables (d d' : Store) (b q : nat) (pre mid mid' post : list nat).
Hypothesis Hrest : forall y, y <> b -> y <> q ->
  getData d' y = getData d y /\ getChildren d' y = getChildren d y.
Hypothesis Hb : forall y, y <> q -> b ∉ getChildren d y.
Hypothesis Hdata : getData d' q = getData d q.
Hypothesis Hcs : getChildren d q = pre ++ mid ++ post.
Hypothesis Hcs' : getChildren d' q = pre ++ mid' ++ post.
Hypothesis Hpre : b ∉ pre.
Hypothesis Hpost : b ∉ post.
Hypothesis Hmid : forall f sm, texts f d mid = Some sm -> texts f d' mid' = Some sm.

Lemma text_splice f y s :
  y <> b -> textContentFrom f d y = Some s -> textContentFrom f d' y = Some s.
Proof.
  revert y s. induction f as [| f IH]; intros y s Hy H; [discriminate |].
  rewrite textContentFrom_S in *.
  destruct (decide (y = q)) as [-> | Hyq].
  - rewrite Hdata. destruct (getData d q) as [[v | e] |]; try exact H.
    rewrite Hcs in H. rewrite Hcs'. rewrite !texts_app in *.
    destruct (texts f d pre) as [s1 |] eqn:H1; [| discriminate].
    cbn [mbind option_bind] in H.
    destruct (texts f d mid) as [s2 |] eqn:H2; [| discriminate].
    cbn [mbind option_bind] in H.
    destruct (texts f d post) as [s3 |] eqn:H3; [| discriminate].
    rewrite (texts_keep f d d' pre s1 H1).
    2:{ intros c s' Hc. apply IH. intros ->. contradiction. }
    cbn [mbind option_bind]. rewrite (Hmid f s2 H2). cbn [mbind option_bind].
    rewrite (texts_keep f d d' post s3 H3).
    2:{ intros c s' Hc. apply IH. intros ->. contradiction. }
    exact H.
  - destruct (Hrest y Hy Hyq) as [-> ->].
    destruct (getData d y) as [[v | e] |]; try exact H.
    apply (texts_keep f d d' _ s H).
    intros c s' Hc. apply IH. intros ->. exact (Hb y Hyq Hc).
Qed.

End Splice.

Lemma texts_text f d t v cs :
  getData d t = Some (TextData v) ->
  texts (S f) d (t :: cs) = a ← texts (S f) d cs; Some (v +:+ a).
Proof. intros H. rewrite texts_cons, textContentFrom_S, H. reflexivity. Qed.

Lemma texts_nil f d : texts f d [] = Some "".
Proof. reflexivity. Qed.

End TreeFacts.

(** ** [removeHighlights] keeps the text *)

Module RemoveFacts.

Import Tree TreeFacts StoreFacts TextHighlighter.

Lemma isText_getData d t : isText d t = true -> exists v, getData d t = Some (TextData v).
Proof.
  unfold isText. destruct (getData d t) as [[v | e] |]; try discriminate. eauto.
Qed.

Lemma getData_isText d t v : getData d t = Some (TextData v) -> isText d t = true.
Proof. unfold isText. intros ->. reflexivity. Qed.

Lemma isText_not_isElement d t : isText d t = true -> isElement d t = false.
Proof.
  unfold isText, isElement. destruct (getData d t) as [[v | e] |]; congruence.
Qed.

Lemma isText_not_isElement_conv d t : isElement d t = true -> isText d t = false.
Proof.
  unfold isText, isElement. destruct (getData d t) as [[v | e] |]; congruence.
Qed.

Section Absorb.

(** The text node [t] takes over the text of the text sibling [x] next to
    it, and [x] leaves the tree: [mid] is the pair of them in the order of
    the tree, [w] their text in that order. *)

Variables (D : Store) (t x q : nat) (pre mid post : list nat) (w vx : string).
Hypothesis Hwf : WF D.
Hypothesis Ht : isText D t = true.
Hypothesis Hp : getParent D t = Some q.
Hypothesis Hcs : getChildren D q = pre ++ mid ++ post.
Hypothesis Htm : t ∈ mid.
Hypothesis Hxm : x ∈ mid.
Hypothesis Hxt : x <> t.
Hypothesis Hx : getData D x = Some (TextData vx).
Hypothesis Hrm : removeRef x (pre ++ mid ++ post) = pre ++ [t] ++ post.
Hypothesis Hmid : forall g sm, texts g D mid = Some sm -> g <> 0 /\ sm = w.

Let D1 := setData t (TextData w) D.
Let D2 := detach x D1.

Lemma absorb_WF1 : WF D1.
Proof. apply WF_setData; [apply Hwf | exact Ht]. Qed.

Lemma absorb_parent_x : getParent D1 x = Some q.
Proof.
  unfold D1. rewrite getParent_setData.
  apply (wf_up D Hwf). rewrite Hcs.
  apply elem_of_app. right. apply elem_of_app. left. exact Hxm.
Qed.

Lemma absorb_data y :
  getData D2 y = if decide (y = t) then Some (TextData w) else getData D y.
Proof.
  unfold D2. rewrite (getData_detach D1 x q absorb_parent_x).
  unfold D1. apply getData_setData.
  destruct (isText_getData _ _ Ht) as [v Hv]. eapply allocated_of_data, Hv.
Qed.

Lemma absorb_isText y : isText D2 y = isText D y.
Proof.
  unfold isText. rewrite absorb_data.
  destruct (decide (y = t)) as [-> |]; [| reflexivity].
  destruct (isText_getData _ _ Ht) as [v ->]. reflexivity.
Qed.

Lemma absorb_children y :
  getChildren D2 y = if decide (y = q) then pre ++ [t] ++ post else getChildren D y.
Proof.
  unfold D2. rewrite (getChildren_detach D1 x q absorb_WF1 absorb_parent_x).
  unfold D1. rewrite !getChildren_setData, Hcs, Hrm. reflexivity.
Qed.

Lemma absorb_parent y :
  getParent D2 y = if decide (y = x) then None else getParent D y.
Proof.
  unfold D2. rewrite (getParent_detach D1 x q absorb_parent_x).
  unfold D1. rewrite getParent_setData. reflexivity.
Qed.

Lemma absorb_q_not_t : q <> t.
Proof.
  intros ->. pose proof (wf_leaf D Hwf t Ht) as Hnil.
  rewrite Hcs in Hnil. destruct pre; [destruct mid |]; try discriminate.
  inversion Htm.
Qed.

Lemma absorb_split : (t ∉ pre) /\ (t ∉ post).
Proof.
  pose proof (wf_nodup D Hwf q) as Hnd. rewrite Hcs in Hnd.
  apply NoDup_app in Hnd as (_ & Hpre & Hnd).
  apply NoDup_app in Hnd as (_ & Hmp & _). split.
  - intros Hin. apply (Hpre t Hin). apply elem_of_app. left. exact Htm.
  - apply Hmp, Htm.
Qed.

Lemma absorb_text g y r :
  y <> t -> textContentFrom g D y = Some r -> textContentFrom g D2 y = Some r.
Proof.
  destruct absorb_split as [Hpre Hpost].
  apply (text_splice D D2 t q pre mid [t] post).
  - intros z Hzt Hzq. rewrite absorb_data, absorb_children.
    rewrite !decide_False by assumption. split; reflexivity.
  - intros z Hzq Hin.
    rewrite (wf_up D Hwf _ _ Hin) in Hp. congruence.
  - rewrite absorb_data. rewrite decide_False by exact absorb_q_not_t. reflexivity.
  - exact Hcs.
  - rewrite absorb_children, decide_True by reflexivity. reflexivity.
  - exact Hpre.
  - exact Hpost.
  - intros g' sm Hsm. destruct (Hmid g' sm Hsm) as [Hg ->].
    destruct g' as [| g']; [congruence |].
    rewrite (texts_text g' D2 t w []).
    + rewrite texts_nil. cbn [mbind option_bind].
      rewrite StringFacts.append_nil_r. reflexivity.
    + rewrite absorb_data, decide_True by reflexivity. reflexivity.
Qed.

Lemma absorb_isElement y : isElement D2 y = isElement D y.
Proof.
  unfold isElement. rewrite absorb_data.
  destruct (decide (y = t)) as [-> |]; [| reflexivity].
  destruct (isText_getData _ _ Ht) as [v ->]. reflexivity.
Qed.

Lemma absorb_Joined : Joined q D D2.
Proof.
  split.
  - apply (WF_detach D1 x q absorb_WF1 absorb_parent_x).
  - unfold D2. rewrite (fresh_detach D1 x q absorb_parent_x). reflexivity.
  - exact absorb_isText.
  - exact absorb_isElement.
  - intros y. rewrite absorb_parent. destruct (decide (y = x)) as [-> |]; [| left; reflexivity].
    right. split; [eapply getData_isText, Hx | reflexivity].
  - intros y Hy. rewrite absorb_children, decide_False by exact Hy. reflexivity.
  - intros z. rewrite absorb_children, decide_True, Hcs by reflexivity.
    rewrite !elem_of_app, list_elem_of_singleton.
    intros [H | [-> | H]]; [left; exact H | right; left; exact Htm | right; right; exact H].
  - intros _. rewrite absorb_children, decide_True by reflexivity.
    destruct pre; discriminate.
  - intros g y r Hy. apply absorb_text. intros ->.
    rewrite (isText_not_isElement _ _ Ht) in Hy. discriminate.
Qed.

Lemma absorb_ok :
  Joined q D D2 /\ getParent D2 t = Some q /\ getChildren D2 q = pre ++ [t] ++ post.
Proof.
  split; [exact absorb_Joined |]. split.
  - rewrite absorb_parent, decide_False by congruence. exact Hp.
  - rewrite absorb_children, decide_True by reflexivity. reflexivity.
Qed.

End Absorb.

Lemma getNodeValue_getData d r v :
  getNodeValue d r = Some v -> getData d r = Some (TextData v).
Proof.
  unfold getNodeValue. destruct (getData d r) as [[u | e] |]; congruence.
Qed.

Lemma remove_eval D x q :
  getParent D x = Some q -> DomUtil.remove x D = (Ret tt, detach x D).
Proof.
  intros H. unfold DomUtil.remove. rewrite bind_gets, H. cbn [deref].
  rewrite bind_ret. unfold bind, Node_removeChild. rewrite H.
  cbn [optEqb]. rewrite Nat.eqb_refl. reflexivity.
Qed.

Lemma absorb_eval D t w x q :
  isText D t = true -> getParent D x = Some q ->
  (setNodeValue t w ;;; DomUtil.remove x)%js D
  = (Ret tt, detach x (setData t (TextData w) D)).
Proof.
  intros Ht Hp. unfold bind at 1. unfold setNodeValue, modify. rewrite Ht.
  apply (remove_eval _ x q). rewrite getParent_setData. exact Hp.
Qed.

Lemma texts_pair g D a b va vb sm :
  getData D a = Some (TextData va) -> getData D b = Some (TextData vb) ->
  texts g D [a; b] = Some sm -> g <> 0 /\ sm = va +:+ vb.
Proof.
  intros Ha Hb H. destruct g as [| g]; [discriminate |].
  rewrite (texts_text g D a va _ Ha), (texts_text g D b vb _ Hb), texts_nil in H.
  cbn [mbind option_bind] in H. rewrite StringFacts.append_nil_r in H.
  split; [discriminate | congruence].
Qed.

Lemma Joined_refl q D : WF D -> Joined q D D.
Proof. intros Hwf. split; auto. Qed.

Lemma Joined_trans q D1 D2 D3 : Joined q D1 D2 -> Joined q D2 D3 -> Joined q D1 D3.
Proof.
  intros H12 H23. split.
  - apply (joined_wf _ _ _ H23).
  - rewrite (joined_fresh _ _ _ H23). apply (joined_fresh _ _ _ H12).
  - intros y. rewrite (joined_text _ _ _ H23). apply (joined_text _ _ _ H12).
  - intros y. rewrite (joined_elem _ _ _ H23). apply (joined_elem _ _ _ H12).
  - intros y. destruct (joined_parent _ _ _ H23 y) as [-> | [Ht ->]].
    + apply (joined_parent _ _ _ H12).
    + right. split; [| reflexivity]. rewrite <- (joined_text _ _ _ H12). exact Ht.
  - intros y Hy. rewrite (joined_children _ _ _ H23 y Hy).
    apply (joined_children _ _ _ H12 y Hy).
  - intros x Hx. apply (joined_below _ _ _ H12), (joined_below _ _ _ H23), Hx.
  - intros H. apply (joined_some _ _ _ H23), (joined_some _ _ _ H12), H.
  - intros g y r Hy H. apply (joined_content _ _ _ H23).
    + rewrite (joined_elem _ _ _ H12). exact Hy.
    + apply (joined_content _ _ _ H12); assumption.
Qed.

Section Join.

Variables (t q : nat).

(** The first half of the body of [joinStep]: the preceding sibling. *)
Lemma joinPrev_ok D pre post :
  WF D -> isText D t = true -> getParent D t = Some q ->
  getChildren D q = pre ++ t :: post ->
  exists D1 pre1,
    (match last pre with
     | Some p =>
         pv <- gets (fun d => getNodeValue d p) ;;
         match pv with
         | Some sp =>
             v <- gets (fun d => default "null" (getNodeValue d t)) ;;
             setNodeValue t (sp +:+ v) ;;;
             DomUtil.remove p
         | None => ret tt
         end
     | None => ret tt
     end) D = (Ret tt, D1) /\
    Joined q D D1 /\ getParent D1 t = Some q /\
    getChildren D1 q = pre1 ++ t :: post.
Proof.
  intros Hwf Ht Hp Hcs.
  destruct (last pre) as [p |] eqn:Hlast;
    [| exists D, pre; auto using Joined_refl].
  rewrite bind_gets.
  destruct (getNodeValue D p) as [sp |] eqn:Hsp;
    [| exists D, pre; auto using Joined_refl].
  apply last_Some in Hlast as [pre1 ->].
  rewrite bind_gets. destruct (isText_getData _ _ Ht) as [vt Hvt].
  assert (Hv : getNodeValue D t = Some vt) by (unfold getNodeValue; rewrite Hvt; reflexivity).
  rewrite Hv. cbn [default from_option id].
  pose proof (getNodeValue_getData _ _ _ Hsp) as Hdp.
  assert (Hcs2 : getChildren D q = pre1 ++ [p; t] ++ post).
  { rewrite Hcs, <- app_assoc. reflexivity. }
  pose proof (wf_nodup D Hwf q) as Hnd. rewrite Hcs2 in Hnd.
  assert (Hpt : p <> t).
  { apply NoDup_app in Hnd as (_ & _ & Hnd'). cbn in Hnd'.
    apply NoDup_cons in Hnd' as [Hnot _]. intros ->. apply Hnot. left. }
  assert (Hppre : p ∉ pre1).
  { apply NoDup_app in Hnd as (_ & Hd & _). intros Hin. apply (Hd p Hin). left. }
  assert (Hpq : getParent D p = Some q).
  { apply (wf_up D Hwf). rewrite Hcs2. apply elem_of_app. right. left. }
  rewrite (absorb_eval D t (sp +:+ vt) p q Ht Hpq).
  exists (detach p (setData t (TextData (sp +:+ vt)) D)), pre1.
  split; [reflexivity |].
  apply (absorb_ok D t p q pre1 [p; t] post (sp +:+ vt) sp Hwf Ht Hp Hcs2).
  - right. left.
  - left.
  - exact Hpt.
  - exact Hdp.
  - apply (removeRef_app p pre1 (t :: post) Hppre).
  - intros g sm. apply texts_pair; assumption.
Qed.

(** The second half: the following sibling, read before the first half ran. *)
Lemma joinNext_ok D pre post :
  WF D -> isText D t = true -> getParent D t = Some q ->
  getChildren D q = pre ++ t :: post ->
  exists D1,
    (match head post with
     | Some n =>
         nv <- gets (fun d => getNodeValue d n) ;;
         match nv with
         | Some sn =>
             v <- gets (fun d => default "null" (getNodeValue d t)) ;;
             setNodeValue t (v +:+ sn) ;;;
             DomUtil.remove n
         | None => ret tt
         end
     | None => ret tt
     end) D = (Ret tt, D1) /\
    Joined q D D1.
Proof.
  intros Hwf Ht Hp Hcs.
  destruct post as [| n post1]; [exists D; auto using Joined_refl |]. cbn [head].
  rewrite bind_gets.
  destruct (getNodeValue D n) as [sn |] eqn:Hsn; [| exists D; auto using Joined_refl].
  rewrite bind_gets. destruct (isText_getData _ _ Ht) as [vt Hvt].
  assert (Hv : getNodeValue D t = Some vt) by (unfold getNodeValue; rewrite Hvt; reflexivity).
  rewrite Hv. cbn [default from_option id].
  pose proof (getNodeValue_getData _ _ _ Hsn) as Hdn.
  assert (Hcs2 : getChildren D q = pre ++ [t; n] ++ post1) by exact Hcs.
  pose proof (wf_nodup D Hwf q) as Hnd. rewrite Hcs2 in Hnd.
  assert (Hnt : n <> t).
  { apply NoDup_app in Hnd as (_ & _ & Hnd'). cbn in Hnd'.
    apply NoDup_cons in Hnd' as [Hnot _]. intros ->. apply Hnot. left. }
  assert (Hnpre : n ∉ pre ++ [t]).
  { apply NoDup_app in Hnd as (_ & Hd & _). intros Hin.
    apply elem_of_app in Hin as [Hin | Hin].
    - apply (Hd n Hin). right. left.
    - apply list_elem_of_singleton in Hin. contradiction. }
  assert (Hnq : getParent D n = Some q).
  { apply (wf_up D Hwf). rewrite Hcs2. apply elem_of_app. right. right. left. }
  rewrite (absorb_eval D t (vt +:+ sn) n q Ht Hnq).
  exists (detach n (setData t (TextData (vt +:+ sn)) D)).
  split; [reflexivity |].
  apply (absorb_ok D t n q pre [t; n] post1 (vt +:+ sn) sn Hwf Ht Hp Hcs2).
  - left.
  - right. left.
  - exact Hnt.
  - exact Hdn.
  - pose proof (removeRef_app n (pre ++ [t]) post1 Hnpre) as Hr.
    rewrite <- !app_assoc in Hr. exact Hr.
  - intros g sm. apply texts_pair; assumption.
Qed.

Lemma joinStep_ok D :
  WF D -> isText D t = true ->
  getParent D t = Some q \/ getParent D t = None ->
  exists D', joinStep t D = (Ret tt, D') /\ Joined q D D'.
Proof.
  intros Hwf Ht [Hp | Hp].
  - destruct (list_elem_of_split _ _ (wf_down D Hwf t q Hp)) as (pre & post & Hcs).
    assert (Hpre : t ∉ pre).
    { pose proof (wf_nodup D Hwf q) as Hnd. rewrite Hcs in Hnd.
      apply NoDup_app in Hnd as (_ & Hd & _). intros Hin. apply (Hd t Hin). left. }
    unfold joinStep. rewrite !bind_gets.
    rewrite (previousSibling_in D t q pre post Hp Hcs Hpre).
    rewrite (nextSibling_in D t q pre post Hp Hcs Hpre).
    destruct (joinPrev_ok D pre post Hwf Ht Hp Hcs)
      as (D1 & pre1 & Heq & HJ1 & Hp1 & Hcs1).
    unfold bind at 1. rewrite Heq.
    destruct (joinNext_ok D1 pre1 post (joined_wf _ _ _ HJ1)) as (D2 & Heq2 & HJ2);
      [rewrite (joined_text _ _ _ HJ1); exact Ht | exact Hp1 | exact Hcs1 |].
    exists D2. split; [exact Heq2 | exact (Joined_trans _ _ _ _ HJ1 HJ2)].
  - exists D. split; [| apply Joined_refl, Hwf].
    unfold joinStep. rewrite !bind_gets.
    unfold previousSibling, nextSibling. rewrite Hp. reflexivity.
Qed.

End Join.

Lemma joinAll_ok q ts :
  forall D, WF D ->
    (forall t, t ∈ ts ->
       isText D t = true /\ (getParent D t = Some q \/ getParent D t = None)) ->
    exists D', joinAll ts D = (Ret tt, D') /\ Joined q D D'.
Proof.
  induction ts as [| t ts IH]; intros D Hwf Hts; cbn [joinAll].
  - exists D. split; [reflexivity | apply Joined_refl, Hwf].
  - destruct (Hts t) as [Ht Hp]; [left |].
    destruct (joinStep_ok t q D Hwf Ht Hp) as (D1 & Heq & HJ1).
    destruct (IH D1 (joined_wf _ _ _ HJ1)) as (D2 & Heq2 & HJ2).
    { intros t' Hin. destruct (Hts t') as [Ht' Hp']; [right; exact Hin |].
      rewrite (joined_text _ _ _ HJ1). split; [exact Ht' |].
      destruct (joined_parent _ _ _ HJ1 t') as [-> | [_ ->]]; [exact Hp' | right; reflexivity]. }
    exists D2. split; [| exact (Joined_trans _ _ _ _ HJ1 HJ2)].
    unfold bind. rewrite Heq. exact Heq2.
Qed.

Lemma ancestorsFrom_parent fuel d y x :
  x ∈ ancestorsFrom fuel d y -> exists z, getParent d z = Some x.
Proof.
  revert y. induction fuel as [| fuel IH]; intros y; cbn [ancestorsFrom].
  - intros H. inversion H.
  - destruct (getParent d y) as [p |] eqn:Hp; [| intros H; inversion H].
    intros H. apply elem_of_cons in H as [-> | H]; [eauto | apply (IH p H)].
Qed.

(** A text node contains itself only. *)
Lemma text_contains d t y :
  WF d -> isText d t = true -> t <> y -> Node_contains d t y = false.
Proof.
  intros Hwf Ht Hne. unfold Node_contains.
  destruct (Nat.eqb_spec t y) as [-> | _]; [contradiction |]. cbn [orb].
  destruct (inList t (ancestors d y)) eqn:Hin; [| reflexivity].
  apply NormalizeFacts.inList_elem_of, ancestorsFrom_parent in Hin as [z Hz].
  pose proof (wf_down d Hwf _ _ Hz) as Hc.
  rewrite (wf_leaf d Hwf t Ht) in Hc. inversion Hc.
Qed.

(** [parent.insertBefore(new, ref)] where nothing stands in its way. *)
Lemma insertBefore_eval d q x r p :
  isElement d q = true -> Node_contains d x q = false ->
  getParent d r = Some q -> r <> x -> getParent d x = Some p ->
  Node_insertBefore q x (Some r) d = (Ret x, attach x q (Some r) (detach x d)).
Proof.
  intros He Hc Hr Hne Hp. unfold Node_insertBefore.
  rewrite He, Hc, Hr. cbn [negb optEqb]. rewrite Nat.eqb_refl. cbn [negb].
  destruct (Nat.eqb_spec r x) as [-> | _]; [contradiction |]. reflexivity.
Qed.

Lemma allocated_getData d r : allocated d r -> exists v, getData d r = Some v.
Proof.
  unfold allocated, getData. intros [n ->]. cbn. eauto.
Qed.


(** The text of text nodes depends on their data only. *)
Lemma texts_same g d d' l :
  (forall x, x ∈ l -> isText d x = true /\ getData d' x = getData d x) ->
  texts g d' l = texts g d l.
Proof.
  induction l as [| x l IH]; intros H; [reflexivity |].
  rewrite !texts_cons, IH by (intros z Hz; apply H; right; exact Hz).
  destruct (H x) as [Ht Hd]; [left |].
  destruct g as [| g]; [reflexivity |].
  rewrite !textContentFrom_S, Hd. destruct (isText_getData _ _ Ht) as [v ->].
  reflexivity.
Qed.

Section Move.

(** The first child [t] of the marker [hl], a text node, moves in front of
    [hl] below [q]: one round of the loop in [dom(hl).unwrap()]. *)

Variables (D : Store) (hl t q : nat) (pre post rest : list nat).
Hypothesis Hwf : WF D.
Hypothesis Hch : getChildren D hl = t :: rest.
Hypothesis Ht : isText D t = true.
Hypothesis Hrest : forall x, x ∈ rest -> isText D x = true.
Hypothesis He : isElement D hl = true.
Hypothesis Hpar : getParent D hl = Some q.
Hypothesis Hcs : getChildren D q = pre ++ hl :: post.

Let d1 := detach t D.
Let d2 := attach t q (Some hl) d1.

Lemma move_pt : getParent D t = Some hl.
Proof. apply (wf_up D Hwf). rewrite Hch. left. Qed.

Lemma move_t_hl : t <> hl.
Proof. intros ->. rewrite (isText_not_isElement _ _ Ht) in He. discriminate. Qed.

Lemma move_q_hl : q <> hl.
Proof.
  intros Heq. pose proof (wf_down D Hwf _ _ Hpar) as Hin.
  rewrite Heq, Hch in Hin. apply elem_of_cons in Hin as [Hin | Hin].
  - symmetry in Hin. exact (move_t_hl Hin).
  - rewrite (isText_not_isElement _ _ (Hrest _ Hin)) in He. discriminate.
Qed.

Lemma move_q_t : q <> t.
Proof.
  intros Heq. pose proof (wf_leaf D Hwf t Ht) as Hnil.
  rewrite <- Heq, Hcs in Hnil. destruct pre; discriminate.
Qed.

Lemma move_q_text : isText D q = false.
Proof.
  destruct (isText D q) eqn:Hq; [| reflexivity].
  pose proof (wf_leaf D Hwf q Hq) as Hnil.
  rewrite Hcs in Hnil. destruct pre; discriminate.
Qed.

Lemma move_q_alloc : allocated D q.
Proof. apply (allocated_of_child D q hl). rewrite Hcs. apply elem_of_app. right. left. Qed.

Lemma move_q_elem : isElement D q = true.
Proof.
  pose proof move_q_text as Hq. destruct (allocated_getData _ _ move_q_alloc) as [v Hv].
  unfold isText, isElement in *. rewrite Hv in *. destruct v; congruence.
Qed.

Lemma move_hl_pre : hl ∉ pre.
Proof.
  pose proof (wf_nodup D Hwf q) as Hnd. rewrite Hcs in Hnd.
  apply NoDup_app in Hnd as (_ & Hd & _). intros Hin. apply (Hd hl Hin). left.
Qed.

Lemma move_wf1 : WF d1.
Proof. apply (WF_detach D t hl Hwf move_pt). Qed.

Lemma move_parent1 y :
  getParent d1 y = if decide (y = t) then None else getParent D y.
Proof. apply (getParent_detach D t hl move_pt). Qed.

Lemma move_children1 y :
  getChildren d1 y = if decide (y = hl) then rest else getChildren D y.
Proof.
  unfold d1. rewrite (getChildren_detach D t hl Hwf move_pt), Hch.
  cbn [removeRef]. rewrite Nat.eqb_refl. reflexivity.
Qed.

Lemma move_alloc1 y : allocated d1 y <-> allocated D y.
Proof. apply (allocated_detach D t hl move_pt). Qed.

Lemma move_data1 y : getData d1 y = getData D y.
Proof. apply (getData_detach D t hl move_pt). Qed.

Lemma move_t_alloc1 : allocated d1 t.
Proof. apply move_alloc1. eapply allocated_of_parent, move_pt. Qed.

Lemma move_q_alloc1 : allocated d1 q.
Proof. apply move_alloc1, move_q_alloc. Qed.

Lemma move_wf : WF d2.
Proof.
  apply (WF_attach d1 t q (Some hl) move_wf1 move_t_alloc1 move_q_alloc1).
  - rewrite move_parent1, decide_True by reflexivity. reflexivity.
  - unfold isText. rewrite move_data1. exact move_q_text.
Qed.

Lemma move_data y : getData d2 y = getData D y.
Proof. unfold d2. rewrite getData_attach. apply move_data1. Qed.

Lemma move_parent y :
  getParent d2 y = if decide (y = t) then Some q else getParent D y.
Proof.
  unfold d2. rewrite (getParent_attach d1 t q (Some hl) move_t_alloc1), move_parent1.
  destruct (decide (y = t)); reflexivity.
Qed.

Lemma move_children y :
  getChildren d2 y =
  if decide (y = q) then (pre ++ [t]) ++ hl :: post
  else if decide (y = hl) then rest else getChildren D y.
Proof.
  unfold d2. rewrite (getChildren_attach d1 t q (Some hl) move_q_alloc1), !move_children1.
  rewrite (decide_False (P := q = hl)) by exact move_q_hl.
  rewrite Hcs, (insertRef_app t hl pre post move_hl_pre), <- app_assoc. reflexivity.
Qed.

Lemma move_text g y r :
  y <> hl -> textContentFrom g D y = Some r -> textContentFrom g d2 y = Some r.
Proof.
  assert (Hpost : hl ∉ post).
  { pose proof (wf_nodup D Hwf q) as Hnd. rewrite Hcs in Hnd.
    apply NoDup_app in Hnd as (_ & _ & Hnd). apply NoDup_cons in Hnd as [Hnd _].
    exact Hnd. }
  apply (text_splice D d2 hl q pre [hl] [t; hl] post).
  - intros z Hz Hzq. rewrite move_data, move_children.
    rewrite !decide_False by assumption. split; reflexivity.
  - intros z Hzq Hin. rewrite (wf_up D Hwf _ _ Hin) in Hpar. congruence.
  - apply move_data.
  - exact Hcs.
  - rewrite move_children, decide_True, <- app_assoc by reflexivity. reflexivity.
  - exact move_hl_pre.
  - exact Hpost.
  - intros g' sm H. destruct (isText_getData _ _ Ht) as [v Hv].
    destruct g' as [| g1]; [discriminate |].
    rewrite texts_cons, textContentFrom_S, Hch in H.
    pose proof He as Hel. unfold isElement in Hel.
    destruct (getData D hl) as [[? | e] |] eqn:Hdhl; try discriminate.
    destruct g1 as [| g2]; [discriminate |].
    rewrite (texts_text g2 D t v rest Hv), texts_nil in H.
    destruct (texts (S g2) D rest) as [a |] eqn:Ha; [| discriminate].
    cbn [mbind option_bind] in H.
    rewrite (texts_text (S g2) d2 t v [hl]) by (rewrite move_data; exact Hv).
    rewrite texts_cons, textContentFrom_S, move_data, Hdhl.
    rewrite move_children.
    rewrite decide_False by (intros Heq; symmetry in Heq; exact (move_q_hl Heq)).
    rewrite decide_True by reflexivity.
    rewrite (texts_same (S g2) D d2 rest), Ha.
    2:{ intros z Hz. split; [exact (Hrest z Hz) | apply move_data]. }
    rewrite texts_nil. cbn [mbind option_bind].
    rewrite <- H, !StringFacts.append_nil_r. reflexivity.
Qed.

Lemma move_ok :
  q <> hl /\ t <> hl /\
  Node_insertBefore q t (Some hl) D = (Ret t, d2) /\ WF d2 /\ fresh d2 = fresh D /\
  (forall y, getData d2 y = getData D y) /\
  (forall y, getParent d2 y = if decide (y = t) then Some q else getParent D y) /\
  (forall y, getChildren d2 y =
             if decide (y = q) then (pre ++ [t]) ++ hl :: post
             else if decide (y = hl) then rest else getChildren D y) /\
  (forall g y r, y <> hl ->
     textContentFrom g D y = Some r -> textContentFrom g d2 y = Some r).
Proof.
  split; [exact move_q_hl |]. split; [exact move_t_hl |]. split.
  { apply (insertBefore_eval D q t hl hl move_q_elem).
    - apply text_contains; [exact Hwf | exact Ht |].
      intros Heq. symmetry in Heq. exact (move_q_t Heq).
    - exact Hpar.
    - intros Heq. symmetry in Heq. exact (move_t_hl Heq).
    - exact move_pt. }
  split; [exact move_wf |]. split.
  { unfold d2. rewrite fresh_attach. apply (fresh_detach D t hl move_pt). }
  split; [exact move_data |]. split; [exact move_parent |].
  split; [exact move_children | exact move_text].
Qed.

End Move.

(** The loop of [dom(hl).unwrap()] over the children [ts] of the marker. *)
Lemma moveAll_ok hl q post :
  forall ts D pre,
    WF D -> getChildren D hl = ts -> (forall x, x ∈ ts -> isText D x = true) ->
    isElement D hl = true -> getParent D hl = Some q ->
    getChildren D q = pre ++ hl :: post ->
    exists D',
      DomUtil.insertAllBefore q (Some hl) ts D = (Ret tt, D') /\ WF D' /\
      fresh D' = fresh D /\
      (forall y, getData D' y = getData D y) /\
      (forall y, getParent D' y = if decide (y ∈ ts) then Some q else getParent D y) /\
      (forall y, getChildren D' y =
                 if decide (y = q) then pre ++ ts ++ hl :: post
                 else if decide (y = hl) then [] else getChildren D y) /\
      (forall g y r, y <> hl ->
         textContentFrom g D y = Some r -> textContentFrom g D' y = Some r).
Proof.
  induction ts as [| t ts IH]; intros D pre Hwf Hch Hts He Hpar Hcs.
  - exists D. split; [reflexivity |]. split; [exact Hwf |]. split; [reflexivity |].
    split; [reflexivity |]. split; [| split; [| auto]].
    + intros y. rewrite decide_False by apply not_elem_of_nil. reflexivity.
    + intros y. destruct (decide (y = q)) as [-> |]; [exact Hcs |].
      destruct (decide (y = hl)) as [-> |]; [exact Hch | reflexivity].
  - destruct (move_ok D hl t q pre post ts Hwf Hch (Hts t ltac:(left))
                (fun x Hx => Hts x ltac:(right; exact Hx)) He Hpar Hcs)
      as (Hqhl & Hthl & Hev & Hwf2 & Hf2 & Hd2 & Hp2 & Hc2 & Ht2).
    set (D2 := attach t q (Some hl) (detach t D)) in *.
    destruct (IH D2 (pre ++ [t]) Hwf2) as (D' & Hev' & Hwf' & Hf' & Hd' & Hp' & Hc' & Ht').
    { rewrite Hc2, decide_False, decide_True by congruence. reflexivity. }
    { intros x Hx. unfold isText. rewrite Hd2. apply Hts. right. exact Hx. }
    { unfold isElement. rewrite Hd2. exact He. }
    { rewrite Hp2, decide_False by congruence. exact Hpar. }
    { rewrite Hc2, decide_True by reflexivity. reflexivity. }
    exists D'. split.
    { cbn [DomUtil.insertAllBefore]. unfold bind. rewrite Hev. exact Hev'. }
    split; [exact Hwf' |]. split; [congruence |].
    split; [intros y; rewrite Hd'; apply Hd2 |]. split; [| split].
    + intros y. rewrite Hp', Hp2.
      destruct (decide (y ∈ ts)) as [Hin | Hin].
      * rewrite decide_True by (right; exact Hin). reflexivity.
      * destruct (decide (y = t)) as [-> | Hne].
        -- rewrite decide_True by left. reflexivity.
        -- rewrite decide_False; [reflexivity |].
           intros H. apply elem_of_cons in H as [H | H]; contradiction.
    + intros y. rewrite Hc', Hc2.
      destruct (decide (y = q)); [rewrite <- app_assoc; reflexivity |].
      destruct (decide (y = hl)); reflexivity.
    + intros g y r Hy H. apply Ht', Ht2; assumption.
Qed.

(** [dom(hl).unwrap()] on a marker whose children [ts] are text nodes: they
    take the place of [hl] below [q], and [hl] leaves the tree. *)
Lemma unwrap_ok D hl q ts pre post :
  WF D -> getChildren D hl = ts -> (forall x, x ∈ ts -> isText D x = true) ->
  isElement D hl = true -> getParent D hl = Some q ->
  getChildren D q = pre ++ hl :: post ->
  exists D',
    DomUtil.unwrap hl D = (Ret ts, D') /\ WF D' /\ fresh D' = fresh D /\
    (forall y, getData D' y = getData D y) /\
    (forall y, getParent D' y =
               if decide (y = hl) then None
               else if decide (y ∈ ts) then Some q else getParent D y) /\
    (forall y, getChildren D' y =
               if decide (y = q) then pre ++ ts ++ post
               else if decide (y = hl) then [] else getChildren D y) /\
    (forall g y r, y <> hl ->
       textContentFrom g D y = Some r -> textContentFrom g D' y = Some r).
Proof.
  intros Hwf Hch Hts He Hpar Hcs.
  destruct (moveAll_ok hl q post ts D pre Hwf Hch Hts He Hpar Hcs)
    as (D1 & Hev & Hwf1 & Hf1 & Hd1 & Hp1 & Hc1 & Ht1).
  assert (Hhlts : hl ∉ ts).
  { intros Hin. rewrite (isText_not_isElement _ _ (Hts hl Hin)) in He. discriminate. }
  assert (Hqhl : q <> hl).
  { intros Heq. pose proof (wf_down D Hwf _ _ Hpar) as Hin.
    rewrite Heq, Hch in Hin. contradiction. }
  pose proof (wf_nodup D Hwf q) as Hnd. rewrite Hcs in Hnd.
  apply NoDup_app in Hnd as (_ & Hpre & Hnd). apply NoDup_cons in Hnd as [Hpost _].
  assert (Hhlpre : hl ∉ pre) by (intros Hin; apply (Hpre hl Hin); left).
  assert (Hpar1 : getParent D1 hl = Some q).
  { rewrite Hp1, decide_False by exact Hhlts. exact Hpar. }
  assert (Hrm : removeRef hl (pre ++ ts ++ hl :: post) = pre ++ ts ++ post).
  { rewrite !app_assoc. apply removeRef_app. intros Hin.
    apply elem_of_app in Hin as [Hin | Hin]; contradiction. }
  exists (detach hl D1). split.
  { unfold DomUtil.unwrap. rewrite !bind_gets, Hch, Hpar. cbn [deref].
    rewrite bind_ret. unfold bind. rewrite Hev.
    rewrite (remove_eval D1 hl q Hpar1). reflexivity. }
  split; [apply (WF_detach D1 hl q Hwf1 Hpar1) |].
  split; [rewrite (fresh_detach D1 hl q Hpar1); exact Hf1 |].
  assert (Hd : forall y, getData (detach hl D1) y = getData D y).
  { intros y. rewrite (getData_detach D1 hl q Hpar1). apply Hd1. }
  assert (Hc : forall y, getChildren (detach hl D1) y =
                         if decide (y = q) then pre ++ ts ++ post
                         else if decide (y = hl) then [] else getChildren D y).
  { intros y. rewrite (getChildren_detach D1 hl q Hwf1 Hpar1), !Hc1.
    rewrite (decide_True (P := q = q)) by reflexivity.
    destruct (decide (y = q)); [exact Hrm | reflexivity]. }
  split; [exact Hd |]. split; [| split; [exact Hc |]].
  - intros y. rewrite (getParent_detach D1 hl q Hpar1), Hp1. reflexivity.
  - intros g y r Hy H. apply Ht1 in H; [| exact Hy]. revert g y r Hy H.
    apply (text_splice D1 (detach hl D1) hl q (pre ++ ts) [hl] [] post).
    + intros z Hz Hzq. rewrite Hd, Hd1, Hc, Hc1.
      rewrite !decide_False by assumption. split; reflexivity.
    + intros z Hzq Hin. rewrite (wf_up D1 Hwf1 _ _ Hin) in Hpar1. congruence.
    + rewrite Hd, Hd1. reflexivity.
    + rewrite Hc1, decide_True, <- app_assoc by reflexivity. reflexivity.
    + rewrite Hc, decide_True, <- app_assoc by reflexivity. reflexivity.
    + intros Hin. apply elem_of_app in Hin as [Hin | Hin]; contradiction.
    + exact Hpost.
    + intros g sm H. destruct g as [| g1]; [discriminate |].
      rewrite texts_cons, textContentFrom_S, Hd1 in H.
      rewrite Hc1, decide_False, decide_True in H by congruence.
      pose proof He as Hel. unfold isElement in Hel.
      destruct (getData D hl) as [[? | e] |]; try discriminate.
      rewrite !texts_nil in *. exact H.
Qed.

(** One turn of the loop of [removeHighlights]: the markers of the list are
    ordered by [dep], the deepest first, so the marker at the head holds
    text nodes only. *)
Lemma removeStep_ok container d0 dep hl L D :
  Good container d0 dep (hl :: L) D -> hl ∉ L -> container <> hl ->
  (forall x, x ∈ L -> (dep x <= dep hl)%Z) ->
  exists D', removeStep defaultOptions hl D = (Ret tt, D') /\
             Good container d0 dep L D'.
Proof.
  intros HG HhlL Hc Hsorted. pose proof (good_wf _ _ _ _ _ HG) as Hwf.
  destruct (good_markers _ _ _ _ _ HG hl) as (He & [q Hpar] & Hne & Hkids); [left |].
  assert (Hts : forall x, x ∈ getChildren D hl -> isText D x = true).
  { intros x Hx. destruct (Hkids x Hx) as [Ht | [Hin Hd]]; [exact Ht |].
    apply elem_of_cons in Hin as [-> | Hin]; [lia |].
    specialize (Hsorted x Hin). lia. }
  destruct (list_elem_of_split _ _ (wf_down D Hwf hl q Hpar)) as (pre & post & Hcs).
  destruct (unwrap_ok D hl q (getChildren D hl) pre post Hwf eq_refl Hts He Hpar Hcs)
    as (D1 & Hev & Hwf1 & Hf1 & Hd1 & Hp1 & Hc1 & Ht1).
  assert (Htx1 : forall y, isText D1 y = isText D y)
    by (intros y; unfold isText; rewrite Hd1; reflexivity).
  assert (Hel1 : forall y, isElement D1 y = isElement D y)
    by (intros y; unfold isElement; rewrite Hd1; reflexivity).
  destruct (joinAll_ok q (getChildren D hl) D1 Hwf1) as (D2 & Hj & HJ).
  { intros t Hin. rewrite Htx1. split; [exact (Hts t Hin) |]. left.
    rewrite Hp1, decide_False, decide_True; [reflexivity | exact Hin |].
    intros ->. rewrite (isText_not_isElement _ _ (Hts hl Hin)) in He. discriminate. }
  exists D2. split.
  { unfold removeStep. rewrite bind_gets. cbn [onRemoveHighlight defaultOptions].
    unfold bind. rewrite Hev. exact Hj. }
  pose proof (wf_nodup D Hwf q) as Hnd. rewrite Hcs in Hnd.
  apply NoDup_app in Hnd as (_ & Hpre & Hnd). apply NoDup_cons in Hnd as [Hpost _].
  assert (Hhlpre : hl ∉ pre) by (intros Hin; apply (Hpre hl Hin); left).
  split.
  - apply (joined_wf _ _ _ HJ).
  - intros h Hh.
    destruct (good_markers _ _ _ _ _ HG h) as (Heh & Hph & Hnh & Hkh); [right; exact Hh |].
    assert (Hhhl : h <> hl) by (intros ->; contradiction).
    assert (Hdeeper : forall x, x ∈ getChildren D h -> x <> hl ->
              isText D2 x = true \/ (x ∈ L /\ (dep h < dep x)%Z)).
    { intros x Hx Hxhl. rewrite (joined_text _ _ _ HJ), Htx1.
      destruct (Hkh x Hx) as [Ht | [Hin Hd]]; [left; exact Ht |].
      right. split; [| exact Hd].
      apply elem_of_cons in Hin as [-> | Hin]; [contradiction | exact Hin]. }
    split; [rewrite (joined_elem _ _ _ HJ), Hel1; exact Heh |]. split.
    { destruct (joined_parent _ _ _ HJ h) as [-> | [Ht _]].
      - rewrite Hp1, decide_False by exact Hhhl.
        destruct (decide (h ∈ getChildren D hl)); [eauto | exact Hph].
      - rewrite Htx1, (isText_not_isElement_conv _ _ Heh) in Ht. discriminate. }
    destruct (decide (h = q)) as [-> | Hhq].
    + split.
      * apply (joined_some _ _ _ HJ). rewrite Hc1, decide_True by reflexivity.
        destruct pre; [| discriminate]. destruct (getChildren D hl); [contradiction | discriminate].
      * intros x Hx. apply (joined_below _ _ _ HJ) in Hx.
        rewrite Hc1, decide_True in Hx by reflexivity.
        apply elem_of_app in Hx as [Hx | Hx]; [| apply elem_of_app in Hx as [Hx | Hx]].
        -- apply Hdeeper; [rewrite Hcs; apply elem_of_app; left; exact Hx |].
           intros ->. contradiction.
        -- left. rewrite (joined_text _ _ _ HJ), Htx1. exact (Hts x Hx).
        -- apply Hdeeper; [rewrite Hcs; apply elem_of_app; right; right; exact Hx |].
           intros ->. contradiction.
    + assert (Hsame : getChildren D2 h = getChildren D h).
      { rewrite (joined_children _ _ _ HJ h Hhq), Hc1.
        rewrite !decide_False by assumption. reflexivity. }
      rewrite Hsame. split; [exact Hnh |].
      intros x Hx. apply Hdeeper; [exact Hx |]. intros ->.
      rewrite (wf_up D Hwf _ _ Hx) in Hpar. congruence.
  - rewrite (joined_elem _ _ _ HJ), Hel1. apply (good_container _ _ _ _ _ HG).
  - intros g r H. apply (joined_content _ _ _ HJ).
    + rewrite Hel1. apply (good_container _ _ _ _ _ HG).
    + apply Ht1; [exact Hc |]. apply (good_text _ _ _ _ _ HG), H.
  - rewrite (joined_fresh _ _ _ HJ), Hf1. apply (good_fresh _ _ _ _ _ HG).
Qed.

Lemma Good_nil container d0 dep D L :
  Good container d0 dep L D -> Good container d0 dep [] D.
Proof.
  intros [H1 H2 H3 H4 H5]. split; try assumption.
  intros h Hh. inversion Hh.
Qed.

Lemma removeAll_ok container d0 dep L :
  forall D, Good container d0 dep L D -> NoDup L -> container ∉ L ->
    deepestFirst dep L ->
    exists D', removeAll defaultOptions L D = (Ret tt, D') /\
               Good container d0 dep [] D'.
Proof.
  induction L as [| hl L IH]; intros D HG Hnd Hc Hs; cbn [removeAll].
  - exists D. split; [reflexivity | exact HG].
  - apply NoDup_cons in Hnd as [HhlL Hnd]. apply not_elem_of_cons in Hc as [Hne Hc].
    destruct Hs as [Hhd Hs].
    destruct (removeStep_ok container d0 dep hl L D HG HhlL Hne Hhd) as (D1 & Hs1 & HG1).
    destruct (IH D1 HG1 Hnd Hc Hs) as (D' & Hr & HG').
    exists D'. split; [| exact HG']. unfold bind. rewrite Hs1. exact Hr.
Qed.

(** The sort moves the entries and neither adds nor drops one. *)
Lemma insertSorted_Permutation {A} (cmp : A -> A -> Z) x l :
  Utils.insertSorted cmp x l ≡ₚ x :: l.
Proof.
  induction l as [| y l IH]; cbn [Utils.insertSorted]; [reflexivity |].
  destruct (cmp y x <=? 0)%Z; [| reflexivity].
  rewrite IH. apply Permutation_swap.
Qed.

Lemma sort_Permutation {A} (cmp : A -> A -> Z) l : Utils.sort cmp l ≡ₚ l.
Proof.
  unfold Utils.sort.
  assert (H : forall acc,
             fold_left (fun acc x => Utils.insertSorted cmp x acc) l acc ≡ₚ l ++ acc).
  { induction l as [| x l IH]; intros acc; cbn [fold_left]; [reflexivity |].
    rewrite IH, insertSorted_Permutation. cbn [app].
    symmetry. apply Permutation_middle. }
  rewrite H, app_nil_r. reflexivity.
Qed.

(** Sorted by descending depth, the deepest entries come first. *)
Lemma insertSorted_deepestFirst dep x l :
  deepestFirst dep l ->
  deepestFirst dep (Utils.insertSorted (fun a b => (dep b - dep a)%Z) x l).
Proof.
  induction l as [| y l IH]; intros Hs; cbn [Utils.insertSorted].
  - split; [| exact I]. intros z Hz. inversion Hz.
  - destruct Hs as [Hy Hs]. destruct (Z.leb_spec (dep x - dep y) 0) as [Hle | Hgt].
    + split; [| exact (IH Hs)]. intros z Hz.
      apply NormalizeFacts.elem_of_insertSorted in Hz as [-> | Hz]; [lia | exact (Hy z Hz)].
    + split; [| split; assumption]. intros z Hz.
      apply elem_of_cons in Hz as [-> | Hz]; [lia |]. specialize (Hy z Hz). lia.
Qed.

Lemma sort_deepestFirst dep l :
  deepestFirst dep (Utils.sort (fun a b => (dep b - dep a)%Z) l).
Proof.
  unfold Utils.sort.
  assert (H : forall acc, deepestFirst dep acc ->
             deepestFirst dep
               (fold_left (fun acc x =>
                  Utils.insertSorted (fun a b => (dep b - dep a)%Z) x acc) l acc)).
  { induction l as [| x l IH]; intros acc Hacc; cbn [fold_left]; [exact Hacc |].
    apply IH, insertSorted_deepestFirst, Hacc. }
  apply H. exact I.
Qed.

(** A chain of parents that ends within the bound is the same under a
    larger bound, so a child lies deeper than its parent. *)
Lemma ancestorsFrom_complete f d h :
  length (ancestorsFrom f d h) < f -> ancestorsFrom (S f) d h = ancestorsFrom f d h.
Proof.
  revert h. induction f as [| f IH]; intros h Hlen; [cbn in Hlen; lia |].
  cbn [ancestorsFrom] in *. destruct (getParent d h) as [p |]; [| reflexivity].
  cbn [length] in Hlen. f_equal. apply IH. lia.
Qed.

Lemma depth_child d x h :
  getParent d x = Some h -> length (DomUtil.parents d x) < fresh d ->
  (Utils.depth d h < Utils.depth d x)%Z.
Proof.
  unfold Utils.depth, DomUtil.parents, ancestors. intros Hp Hlen.
  destruct (fresh d) as [| f]; [lia |].
  cbn [ancestorsFrom] in Hlen. rewrite Hp in Hlen. cbn [length] in Hlen.
  rewrite (ancestorsFrom_complete f d h) by lia.
  cbn [ancestorsFrom]. rewrite Hp. cbn [length]. lia.
Qed.

(** The walk of the descendants. *)
Lemma descendantsFrom_child f d r x :
  x ∈ descendantsFrom f d r -> exists p, x ∈ getChildren d p.
Proof.
  revert r. induction f as [| f IH]; intros r; cbn [descendantsFrom].
  - intros H. inversion H.
  - rewrite list_elem_of_In, in_flat_map. intros (c & Hc & Hx).
    destruct Hx as [<- | Hx].
    + exists r. apply list_elem_of_In. exact Hc.
    + apply (IH c). apply list_elem_of_In. exact Hx.
Qed.

Lemma texts_is_Some g d l s c :
  texts g d l = Some s -> c ∈ l -> is_Some (textContentFrom g d c).
Proof.
  revert s. induction l as [| y l IH]; intros s H Hc; [inversion Hc |].
  rewrite texts_cons in H.
  destruct (textContentFrom g d y) as [sy |] eqn:Hy; [| discriminate].
  cbn [mbind option_bind] in H.
  destruct (texts g d l) as [a |] eqn:Ha; [| discriminate].
  apply elem_of_cons in Hc as [-> | Hc]; [rewrite Hy; eauto | exact (IH a eq_refl Hc)].
Qed.

(** Where the walk of [textContent] reaches the leaves, a node with a child
    is an element, and the walk reaches the leaves below each child. *)
Lemma textContentFrom_child g d r x :
  WF d -> is_Some (textContentFrom (S g) d r) -> x ∈ getChildren d r ->
  is_Some (textContentFrom g d x).
Proof.
  intros Hwf [s Hs] Hx. rewrite textContentFrom_S in Hs.
  destruct (getData d r) as [[v | e] |] eqn:Hd.
  - rewrite (wf_leaf d Hwf r (getData_isText _ _ _ Hd)) in Hx. inversion Hx.
  - exact (texts_is_Some _ _ _ _ _ Hs Hx).
  - destruct (allocated_getData d r (allocated_of_child _ _ _ Hx)) as [v Hv]. congruence.
Qed.

Lemma descendantsFrom_head f d r x :
  x ∈ getChildren d r -> x ∈ descendantsFrom (S f) d r.
Proof.
  intros Hx. cbn [descendantsFrom]. apply list_elem_of_In, in_flat_map.
  exists x. split; [apply list_elem_of_In, Hx | left; reflexivity].
Qed.

(** A child of a listed descendant is listed. *)
Lemma descendantsFrom_closed f d :
  WF d -> forall r h x,
    is_Some (textContentFrom (S f) d r) ->
    h ∈ descendantsFrom f d r -> x ∈ getChildren d h -> x ∈ descendantsFrom f d r.
Proof.
  intros Hwf. induction f as [| f IH]; intros r h x Hsome Hh Hx; [inversion Hh |].
  cbn [descendantsFrom] in Hh. apply list_elem_of_In, in_flat_map in Hh as (c & Hc & Hh).
  apply list_elem_of_In in Hc.
  pose proof (textContentFrom_child _ _ _ _ Hwf Hsome Hc) as Hsc.
  cbn [descendantsFrom]. apply list_elem_of_In, in_flat_map.
  exists c. split; [apply list_elem_of_In, Hc |]. right. apply list_elem_of_In.
  destruct Hh as [<- | Hh].
  - destruct f as [| f].
    + pose proof (textContentFrom_child _ _ _ _ Hwf Hsc Hx) as [s Hs]. discriminate.
    + apply descendantsFrom_head, Hx.
  - apply (IH c h x Hsc); [apply list_elem_of_In, Hh | exact Hx].
Qed.

Lemma marker_isElement d r : hasAttribute d r Config.DATA_ATTR = true -> isElement d r = true.
Proof.
  unfold hasAttribute, getElement, isElement.
  destruct (getData d r) as [[v | e] |]; congruence.
Qed.

End RemoveFacts.

(** ** The codec *)

Module CodecFacts.

Import TextHighlighter Halting JSON.







Lemma total_try {A} (c : M A) h :
  total c -> (forall e, total (h e)) -> total (try c h).
Proof.
  intros Hc Hh d. unfold try. specialize (Hc d).
  destruct (c d) as [[a | e |] d1]; cbn in *; [discriminate | apply Hh | congruence].
Qed.




















End CodecFacts.
(** ** Trees under allocation, splitting and wrapping *)

Module HighlightFacts.

Import Tree TreeFacts StoreFacts RemoveFacts TextHighlighter.

(** *** A new node *)

Section Alloc.

Variables (d : Store) (x : NodeData).
Hypothesis Hwf : WF d.

Let n := fresh d.
Let d' := snd (alloc x d).

Lemma alloc_free : nodes d !! n = None.
Proof.
  destruct (nodes d !! n) as [m |] eqn:Hm; [| reflexivity].
  assert (Ha : allocated d n) by (unfold allocated; rewrite Hm; eauto).
  apply (wf_alloc d Hwf) in Ha. unfold n in Ha. lia.
Qed.

Lemma fresh_alloc : fresh d' = S (fresh d).
Proof. reflexivity. Qed.

Lemma nodes_alloc y :
  nodes d' !! y = if decide (y = n) then Some (mkNode x None []) else nodes d !! y.
Proof.
  unfold d', alloc. cbn [snd nodes]. destruct (decide (y = n)) as [-> |].
  - apply lookup_insert_eq.
  - apply lookup_insert_ne. unfold n in *. congruence.
Qed.

Lemma getData_alloc y :
  getData d' y = if decide (y = n) then Some x else getData d y.
Proof. unfold getData. rewrite nodes_alloc. destruct (decide (y = n)); reflexivity. Qed.

Lemma getParent_alloc y : getParent d' y = getParent d y.
Proof.
  unfold getParent. rewrite nodes_alloc. destruct (decide (y = n)) as [-> |]; [| reflexivity].
  rewrite alloc_free. reflexivity.
Qed.

Lemma getChildren_alloc y : getChildren d' y = getChildren d y.
Proof.
  unfold getChildren. rewrite nodes_alloc. destruct (decide (y = n)) as [-> |]; [| reflexivity].
  rewrite alloc_free. reflexivity.
Qed.

Lemma allocated_alloc y : allocated d' y <-> y = n \/ allocated d y.
Proof.
  unfold allocated. rewrite nodes_alloc. destruct (decide (y = n)) as [-> |].
  - split; eauto.
  - split; [auto | intros [? | ?]; [contradiction | assumption]].
Qed.

Lemma WF_alloc : WF d'.
Proof.
  split.
  - intros r Hr. apply allocated_alloc in Hr as [-> | Hr]; [unfold n; cbn; lia |].
    apply (wf_alloc d Hwf) in Hr. cbn. lia.
  - intros r c. rewrite getChildren_alloc, getParent_alloc. apply (wf_up d Hwf).
  - intros r. rewrite getChildren_alloc. apply (wf_nodup d Hwf).
  - intros r q. rewrite getParent_alloc, getChildren_alloc. apply (wf_down d Hwf).
  - intros r. unfold isText. rewrite getData_alloc, getChildren_alloc.
    destruct (decide (r = n)) as [-> |]; [| apply (wf_leaf d Hwf)].
    intros _. unfold getChildren. rewrite alloc_free. reflexivity.
Qed.

End Alloc.

(** *** The text across a change below one node, with deeper leaves *)

Lemma textContentFrom_mono f d r s :
  textContentFrom f d r = Some s -> textContentFrom (S f) d r = Some s.
Proof.
  revert r s. induction f as [| f IH]; intros r s H; [discriminate |].
  rewrite textContentFrom_S in *.
  destruct (getData d r) as [[v | e] |]; try assumption.
  revert s H. induction (getChildren d r) as [| c cs IHcs]; intros s H;
    [assumption |].
  rewrite texts_cons in *.
  destruct (textContentFrom f d c) as [sc |] eqn:Hc; [| discriminate].
  rewrite (IH _ _ Hc). cbn [mbind option_bind] in *.
  destruct (texts f d cs) as [a |] eqn:Ha; [| discriminate].
  rewrite (IHcs _ eq_refl). exact H.
Qed.

Lemma textContentFrom_le f f' d r s :
  f <= f' -> textContentFrom f d r = Some s -> textContentFrom f' d r = Some s.
Proof.
  induction 1 as [| f' _ IH]; [auto |].
  intros H. apply textContentFrom_mono, IH, H.
Qed.

Lemma texts_shift k f d d' cs s :
  texts f d cs = Some s ->
  (forall c s', c ∈ cs -> textContentFrom f d c = Some s' ->
                textContentFrom (k + f) d' c = Some s') ->
  texts (k + f) d' cs = Some s.
Proof.
  revert s. induction cs as [| c cs IH]; intros s H Hc; [exact H |].
  rewrite texts_cons in *.
  destruct (textContentFrom f d c) as [sc |] eqn:Hsc; [| discriminate].
  rewrite (Hc c sc ltac:(left) Hsc). cbn [mbind option_bind] in *.
  destruct (texts f d cs) as [a |] eqn:Ha; [| discriminate].
  rewrite (IH a eq_refl); [exact H |].
  intros c' s' Hin. apply Hc. right. exact Hin.
Qed.

Section Shift.

(** From [d] to [d'] the children [mid] of [q] are replaced by [mid'], which
    carry the same text [k] levels deeper; [bad] holds of the nodes whose
    own text may have changed, none of which is a child of a node other
    than [q].  Then every other node keeps its text under a bound that is
    larger by [k]. *)

Variables (d d' : Store) (k : nat) (bad : nat -> Prop) (q : nat)
  (pre mid mid' post : list nat).
Hypothesis Hrest : forall y, ~ bad y -> y <> q ->
  getData d' y = getData d y /\ getChildren d' y = getChildren d y.
Hypothesis Hb : forall y c, y <> q -> c ∈ getChildren d y -> ~ bad c.
Hypothesis Hdata : getData d' q = getData d q.
Hypothesis Hcs : getChildren d q = pre ++ mid ++ post.
Hypothesis Hcs' : getChildren d' q = pre ++ mid' ++ post.
Hypothesis Hpre : forall c, c ∈ pre -> ~ bad c.
Hypothesis Hpost : forall c, c ∈ post -> ~ bad c.
Hypothesis Hmid : forall f sm,
  texts f d mid = Some sm -> texts (k + f) d' mid' = Some sm.

Lemma text_splice_shift f y s :
  ~ bad y -> textContentFrom f d y = Some s -> textContentFrom (k + f) d' y = Some s.
Proof.
  revert y s. induction f as [| f IH]; intros y s Hy H; [discriminate |].
  rewrite Nat.add_succ_r. rewrite textContentFrom_S in *.
  destruct (decide (y = q)) as [-> | Hyq].
  - rewrite Hdata. destruct (getData d q) as [[v | e] |]; try exact H.
    rewrite Hcs in H. rewrite Hcs'. rewrite !texts_app in *.
    destruct (texts f d pre) as [s1 |] eqn:H1; [| discriminate].
    cbn [mbind option_bind] in H.
    destruct (texts f d mid) as [s2 |] eqn:H2; [| discriminate].
    cbn [mbind option_bind] in H.
    destruct (texts f d post) as [s3 |] eqn:H3; [| discriminate].
    rewrite (texts_shift k f d d' pre s1 H1).
    2:{ intros c s' Hc. apply IH, Hpre, Hc. }
    cbn [mbind option_bind]. rewrite (Hmid f s2 H2). cbn [mbind option_bind].
    rewrite (texts_shift k f d d' post s3 H3).
    2:{ intros c s' Hc. apply IH, Hpost, Hc. }
    exact H.
  - destruct (Hrest y Hy Hyq) as [-> ->].
    destruct (getData d y) as [[v | e] |]; try exact H.
    apply (texts_shift k f d d' _ s H).
    intros c s' Hc. apply IH. exact (Hb y c Hyq Hc).
Qed.

End Shift.

(** *** Splitting a text node *)

Lemma strTake_strDrop off s :
  off <= String.length s -> strTake off s +:+ strDrop off s = s.
Proof.
  unfold strTake, strDrop. revert off. induction s as [| c s IH]; intros off Hoff.
  - cbn in Hoff. replace off with 0 by lia. reflexivity.
  - destruct off as [| off].
    + cbn [String.substring]. rewrite Nat.sub_0_r.
      change (String.substring 0 (String.length (String c s)) (String c s) = String c s).
      apply StringFacts.substring_all.
    + cbn [String.substring String.length]. rewrite StringFacts.append_cons.
      f_equal. apply IH. cbn in Hoff. lia.
Qed.

Lemma insertRef_behind n r pre post :
  NoDup (pre ++ r :: post) ->
  insertRef n (head post) (pre ++ r :: post) = pre ++ r :: n :: post.
Proof.
  intros Hnd. destruct post as [| z post]; cbn [head].
  - rewrite insertRef_end, <- app_assoc. reflexivity.
  - assert (Hz : z ∉ pre ++ [r]).
    { apply NoDup_app in Hnd as (_ & Hd & Hnd). apply NoDup_cons in Hnd as [Hr _].
      intros Hin. apply elem_of_app in Hin as [Hin | Hin].
      - apply (Hd z Hin). right. left.
      - apply list_elem_of_singleton in Hin as ->. apply Hr. left. }
    pose proof (insertRef_app n z (pre ++ [r]) post Hz) as H.
    rewrite <- !app_assoc in H. exact H.
Qed.

Section Split.

Variables (d : Store) (r p off : nat) (s : string) (pre post : list nat).
Hypothesis Hwf : WF d.
Hypothesis Hd : getData d r = Some (TextData s).
Hypothesis Hp : getParent d r = Some p.
Hypothesis Hoff : off <= String.length s.
Hypothesis Hcs : getChildren d p = pre ++ r :: post.

Let n := fresh d.
Let d1 := snd (alloc (TextData (strDrop off s)) d).
Let d2 := attach n p (nextSibling d1 r) d1.
Let d3 := setData r (TextData (strTake off s)) d2.

Lemma split_parent1 y : getParent d1 y = getParent d y.
Proof. exact (getParent_alloc d _ Hwf y). Qed.

Lemma split_children1 y : getChildren d1 y = getChildren d y.
Proof. exact (getChildren_alloc d _ Hwf y). Qed.

Lemma split_data1 y :
  getData d1 y = if decide (y = n) then Some (TextData (strDrop off s)) else getData d y.
Proof. exact (getData_alloc d _ y). Qed.

Lemma split_eval : Text_splitText (Some r) off d = (Ret n, d3).
Proof.
  unfold Text_splitText, getNodeValue. rewrite Hd.
  destruct (Nat.ltb_spec (String.length s) off) as [Hlt | _]; [lia |].
  assert (H1 : getParent d1 r = Some p).
  { rewrite split_parent1. exact Hp. }
  change ((Ret n, setData r (TextData (strTake off s))
                    (match getParent d1 r with
                     | Some p0 => attach n p0 (nextSibling d1 r) d1
                     | None => d1
                     end)) = (Ret n, d3)).
  rewrite H1. reflexivity.
Qed.

Lemma split_wf1 : WF d1.
Proof. exact (WF_alloc d _ Hwf). Qed.

Lemma split_n_r : n <> r.
Proof.
  intros Heq. pose proof (alloc_free d Hwf) as Hf. fold n in Hf. rewrite Heq in Hf.
  unfold getData in Hd. rewrite Hf in Hd. discriminate.
Qed.

Lemma split_p_text : isText d p = false.
Proof.
  destruct (isText d p) eqn:Ht; [| reflexivity].
  pose proof (wf_leaf d Hwf p Ht) as Hnil. rewrite Hcs in Hnil.
  destruct pre; discriminate.
Qed.

Lemma split_p_r : p <> r.
Proof.
  intros Heq. pose proof split_p_text as Ht. unfold isText in Ht.
  rewrite Heq, Hd in Ht. discriminate.
Qed.

Lemma split_p_alloc : allocated d p.
Proof. apply (allocated_of_child d p r). rewrite Hcs. apply elem_of_app. right. left. Qed.

Lemma split_n_p : n <> p.
Proof.
  intros Heq. destruct split_p_alloc as [m Hm].
  pose proof (alloc_free d Hwf) as Hf. fold n in Hf. rewrite Heq in Hf. congruence.
Qed.

Lemma split_nodup : NoDup (pre ++ r :: post).
Proof. rewrite <- Hcs. apply (wf_nodup d Hwf). Qed.

Lemma split_next : nextSibling d1 r = head post.
Proof.
  apply (nextSibling_in d1 r p pre post).
  - rewrite split_parent1. exact Hp.
  - rewrite split_children1. exact Hcs.
  - pose proof split_nodup as Hnd. apply NoDup_app in Hnd as (_ & Hdis & _).
    intros Hin. apply (Hdis r Hin). left.
Qed.

Lemma split_n_alloc1 : allocated d1 n.
Proof. apply (proj2 (allocated_alloc d _ n)). left. reflexivity. Qed.

Lemma split_p_alloc1 : allocated d1 p.
Proof. apply (proj2 (allocated_alloc d _ p)). right. exact split_p_alloc. Qed.

Lemma split_wf2 : WF d2.
Proof.
  apply (WF_attach d1 n p _ split_wf1 split_n_alloc1 split_p_alloc1).
  - rewrite split_parent1. unfold getParent, n.
    rewrite (alloc_free d Hwf). reflexivity.
  - unfold isText. rewrite split_data1.
    rewrite decide_False by (intros Heq; symmetry in Heq; exact (split_n_p Heq)).
    exact split_p_text.
Qed.

Lemma split_r_text2 : isText d2 r = true.
Proof.
  unfold isText, d2. rewrite getData_attach, split_data1.
  rewrite decide_False by (intros Heq; symmetry in Heq; exact (split_n_r Heq)).
  rewrite Hd. reflexivity.
Qed.

Lemma split_wf : WF d3.
Proof. apply WF_setData; [exact split_wf2 | exact split_r_text2]. Qed.

Lemma split_fresh : fresh d3 = S (fresh d).
Proof. reflexivity. Qed.

Lemma split_data y :
  getData d3 y =
  if decide (y = r) then Some (TextData (strTake off s))
  else if decide (y = n) then Some (TextData (strDrop off s)) else getData d y.
Proof.
  unfold d3. rewrite getData_setData.
  - destruct (decide (y = r)); [reflexivity |].
    unfold d2. rewrite getData_attach. apply split_data1.
  - pose proof split_r_text2 as Ht. unfold isText in Ht.
    destruct (getData d2 r) eqn:Hd2; [| discriminate].
    eapply allocated_of_data, Hd2.
Qed.

Lemma split_parent y :
  getParent d3 y = if decide (y = n) then Some p else getParent d y.
Proof.
  unfold d3, d2. rewrite getParent_setData, (getParent_attach d1 n p _ split_n_alloc1).
  destruct (decide (y = n)); [reflexivity |]. apply split_parent1.
Qed.

Lemma split_children y :
  getChildren d3 y =
  if decide (y = p) then pre ++ r :: n :: post else getChildren d y.
Proof.
  unfold d3, d2. rewrite getChildren_setData, (getChildren_attach d1 n p _ split_p_alloc1).
  rewrite !split_children1, split_next, Hcs.
  rewrite (insertRef_behind n r pre post split_nodup). reflexivity.
Qed.

Lemma split_text g y v :
  y <> r -> y <> n ->
  textContentFrom g d y = Some v -> textContentFrom g d3 y = Some v.
Proof.
  intros Hyr Hyn.
  assert (Hnchild : forall z, n ∉ getChildren d z).
  { intros z Hin. apply (wf_up d Hwf) in Hin. unfold getParent in Hin.
    unfold n in Hin. rewrite (alloc_free d Hwf) in Hin. discriminate. }
  pose proof split_nodup as Hnd.
  apply NoDup_app in Hnd as (_ & Hdis & Hnd). apply NoDup_cons in Hnd as [Hrpost _].
  apply (text_splice_shift d d3 0 (fun z => z = r \/ z = n) p pre [r] [r; n] post).
  - intros z Hz Hzp. rewrite split_data, split_children.
    rewrite !decide_False by tauto. split; reflexivity.
  - intros z c Hzp Hc [-> | ->].
    + rewrite (wf_up d Hwf _ _ Hc) in Hp. congruence.
    + exact (Hnchild z Hc).
  - rewrite split_data. rewrite !decide_False; [reflexivity | |].
    + intros Heq. symmetry in Heq. exact (split_n_p Heq).
    + exact split_p_r.
  - exact Hcs.
  - rewrite split_children, decide_True by reflexivity. reflexivity.
  - intros c Hc [-> | ->].
    + apply (Hdis r Hc). left.
    + apply (Hnchild p). rewrite Hcs. apply elem_of_app. left. exact Hc.
  - intros c Hc [-> | ->].
    + contradiction.
    + apply (Hnchild p). rewrite Hcs. apply elem_of_app. right. right. exact Hc.
  - intros f sm H. cbn [Nat.add]. destruct f as [| f]; [discriminate |].
    rewrite (texts_text f d r s [] Hd), texts_nil in H. cbn [mbind option_bind] in H.
    rewrite (texts_text f d3 r (strTake off s) [n]).
    2:{ rewrite split_data, decide_True by reflexivity. reflexivity. }
    rewrite (texts_text f d3 n (strDrop off s) []).
    2:{ rewrite split_data, decide_False, decide_True by (exact split_n_r || reflexivity).
        reflexivity. }
    rewrite texts_nil. cbn [mbind option_bind].
    rewrite StringFacts.append_nil_r in *.
    rewrite (strTake_strDrop off s Hoff). exact H.
  - tauto.
Qed.

Lemma split_ok :
  exists d',
    Text_splitText (Some r) off d = (Ret (fresh d), d') /\ WF d' /\
    fresh d' = S (fresh d) /\
    (forall y, getData d' y =
               if decide (y = r) then Some (TextData (strTake off s))
               else if decide (y = fresh d) then Some (TextData (strDrop off s))
               else getData d y) /\
    (forall y, getParent d' y = if decide (y = fresh d) then Some p else getParent d y) /\
    (forall y, getChildren d' y =
               if decide (y = p) then pre ++ r :: fresh d :: post else getChildren d y) /\
    (forall g y v, y <> r -> y <> fresh d ->
       textContentFrom g d y = Some v -> textContentFrom g d' y = Some v).
Proof.
  exists d3. split; [exact split_eval |]. split; [exact split_wf |].
  split; [exact split_fresh |]. split; [exact split_data |].
  split; [exact split_parent |]. split; [exact split_children | exact split_text].
Qed.

End Split.

(** *** Wrapping a text node *)

(** A node without children contains itself only. *)
Lemma childless_contains d h y :
  WF d -> getChildren d h = [] -> h <> y -> Node_contains d h y = false.
Proof.
  intros Hwf Hc Hne. unfold Node_contains.
  destruct (Nat.eqb_spec h y) as [-> | _]; [contradiction |]. cbn [orb].
  destruct (inList h (ancestors d y)) eqn:Hin; [| reflexivity].
  apply NormalizeFacts.inList_elem_of, ancestorsFrom_parent in Hin as [z Hz].
  pose proof (wf_down d Hwf _ _ Hz) as Hd. rewrite Hc in Hd. inversion Hd.
Qed.

(** [parent.insertBefore(new, ref)] for a node that has no parent. *)
Lemma insertBefore_free d q x r :
  isElement d q = true -> Node_contains d x q = false ->
  getParent d r = Some q -> r <> x -> getParent d x = None ->
  Node_insertBefore q x (Some r) d = (Ret x, attach x q (Some r) d).
Proof.
  intros He Hc Hr Hne Hp. unfold Node_insertBefore.
  rewrite He, Hc, Hr. cbn [negb optEqb]. rewrite Nat.eqb_refl. cbn [negb].
  destruct (Nat.eqb_spec r x) as [-> | _]; [contradiction |].
  rewrite (detach_detached d x Hp). reflexivity.
Qed.

(** [parent.appendChild(new)] for a node that has a parent. *)
Lemma appendChild_eval d q x p :
  isElement d q = true -> Node_contains d x q = false -> getParent d x = Some p ->
  Node_appendChild q x d = (Ret x, attach x q None (detach x d)).
Proof.
  intros He Hc Hp. unfold Node_appendChild, Node_insertBefore.
  rewrite He, Hc. reflexivity.
Qed.

Section Wrap.

(** [dom(n).wrap(h)]: [h], a new element without children and without a
    parent, takes the place of the text node [n] below [q], and [n] becomes
    its child. *)

Variables (d : Store) (n h q : nat) (pre post : list nat).
Hypothesis Hwf : WF d.
Hypothesis Hn : isText d n = true.
Hypothesis Hq : getParent d n = Some q.
Hypothesis Hcs : getChildren d q = pre ++ n :: post.
Hypothesis Hh : isElement d h = true.
Hypothesis Hhc : getChildren d h = [].
Hypothesis Hhp : getParent d h = None.

Let d1 := attach h q (Some n) d.
Let d2 := detach n d1.
Let d3 := attach n h None d2.

Lemma wrap_n_h : n <> h.
Proof. intros Heq. rewrite Heq, (isText_not_isElement_conv _ _ Hh) in Hn. discriminate. Qed.

Lemma wrap_q_h : q <> h.
Proof. intros Heq. rewrite Heq, Hhc in Hcs. destruct pre; discriminate. Qed.

Lemma wrap_q_n : q <> n.
Proof.
  intros Heq. pose proof (wf_leaf d Hwf n Hn) as Hnil. rewrite <- Heq, Hcs in Hnil.
  destruct pre; discriminate.
Qed.

Lemma wrap_q_text : isText d q = false.
Proof.
  destruct (isText d q) eqn:Ht; [| reflexivity].
  pose proof (wf_leaf d Hwf q Ht) as Hnil. rewrite Hcs in Hnil. destruct pre; discriminate.
Qed.

Lemma wrap_q_alloc : allocated d q.
Proof. apply (allocated_of_child d q n). rewrite Hcs. apply elem_of_app. right. left. Qed.

Lemma wrap_q_elem : isElement d q = true.
Proof.
  pose proof wrap_q_text as Ht. destruct (allocated_getData _ _ wrap_q_alloc) as [v Hv].
  unfold isText, isElement in *. rewrite Hv in *. destruct v; congruence.
Qed.

Lemma wrap_h_alloc : allocated d h.
Proof.
  unfold isElement in Hh. destruct (getData d h) eqn:Hd; [| discriminate].
  eapply allocated_of_data, Hd.
Qed.

Lemma wrap_nodup : NoDup (pre ++ n :: post).
Proof. rewrite <- Hcs. apply (wf_nodup d Hwf). Qed.

Lemma wrap_n_pre : n ∉ pre.
Proof.
  pose proof wrap_nodup as Hnd. apply NoDup_app in Hnd as (_ & Hdis & _).
  intros Hin. apply (Hdis n Hin). left.
Qed.

Lemma wrap_wf1 : WF d1.
Proof.
  apply (WF_attach d h q (Some n) Hwf wrap_h_alloc wrap_q_alloc Hhp wrap_q_text).
Qed.

Lemma wrap_parent1 y : getParent d1 y = if decide (y = h) then Some q else getParent d y.
Proof. apply (getParent_attach d h q (Some n) wrap_h_alloc). Qed.

Lemma wrap_children1 y :
  getChildren d1 y = if decide (y = q) then pre ++ h :: n :: post else getChildren d y.
Proof.
  unfold d1. rewrite (getChildren_attach d h q (Some n) wrap_q_alloc), Hcs.
  rewrite (insertRef_app h n pre post wrap_n_pre). reflexivity.
Qed.

Lemma wrap_data1 y : getData d1 y = getData d y.
Proof. apply getData_attach. Qed.

Lemma wrap_n1 : getParent d1 n = Some q.
Proof. rewrite wrap_parent1, decide_False by exact wrap_n_h. exact Hq. Qed.

Lemma wrap_wf2 : WF d2.
Proof. apply (WF_detach d1 n q wrap_wf1 wrap_n1). Qed.

Lemma wrap_parent2 y :
  getParent d2 y =
  if decide (y = n) then None else if decide (y = h) then Some q else getParent d y.
Proof.
  unfold d2. rewrite (getParent_detach d1 n q wrap_n1), wrap_parent1. reflexivity.
Qed.

Lemma wrap_children2 y :
  getChildren d2 y = if decide (y = q) then pre ++ h :: post else getChildren d y.
Proof.
  unfold d2. rewrite (getChildren_detach d1 n q wrap_wf1 wrap_n1), !wrap_children1.
  rewrite (decide_True (P := q = q)) by reflexivity.
  destruct (decide (y = q)); [| reflexivity].
  assert (Hnot : n ∉ pre ++ [h]).
  { intros Hin. apply elem_of_app in Hin as [Hin | Hin]; [exact (wrap_n_pre Hin) |].
    apply list_elem_of_singleton in Hin. exact (wrap_n_h Hin). }
  pose proof (removeRef_app n (pre ++ [h]) post Hnot) as Hr.
  rewrite <- !app_assoc in Hr. exact Hr.
Qed.

Lemma wrap_data2 y : getData d2 y = getData d y.
Proof. unfold d2. rewrite (getData_detach d1 n q wrap_n1). apply wrap_data1. Qed.

Lemma wrap_alloc2 y : allocated d2 y <-> allocated d y.
Proof.
  unfold d2. rewrite (allocated_detach d1 n q wrap_n1). unfold d1.
  apply allocated_attach.
Qed.

Lemma wrap_n_alloc2 : allocated d2 n.
Proof. apply wrap_alloc2. eapply allocated_of_parent, Hq. Qed.

Lemma wrap_h_alloc2 : allocated d2 h.
Proof. apply wrap_alloc2, wrap_h_alloc. Qed.

Lemma wrap_wf : WF d3.
Proof.
  apply (WF_attach d2 n h None wrap_wf2 wrap_n_alloc2 wrap_h_alloc2).
  - rewrite wrap_parent2, decide_True by reflexivity. reflexivity.
  - unfold isText. rewrite wrap_data2. apply isText_not_isElement_conv, Hh.
Qed.

Lemma wrap_data y : getData d3 y = getData d y.
Proof. unfold d3. rewrite getData_attach. apply wrap_data2. Qed.

Lemma wrap_parent y :
  getParent d3 y =
  if decide (y = n) then Some h else if decide (y = h) then Some q else getParent d y.
Proof.
  unfold d3. rewrite (getParent_attach d2 n h None wrap_n_alloc2), wrap_parent2.
  destruct (decide (y = n)); reflexivity.
Qed.

Lemma wrap_children y :
  getChildren d3 y =
  if decide (y = h) then [n]
  else if decide (y = q) then pre ++ h :: post else getChildren d y.
Proof.
  unfold d3. rewrite (getChildren_attach d2 n h None wrap_h_alloc2), !wrap_children2.
  rewrite (decide_False (P := h = q)) by (intros Heq; symmetry in Heq; exact (wrap_q_h Heq)).
  rewrite Hhc. reflexivity.
Qed.

Lemma wrap_eval : DomUtil.wrap n h d = (Ret h, d3).
Proof.
  unfold DomUtil.wrap. rewrite bind_gets, Hq. unfold bind.
  rewrite (insertBefore_free d q h n wrap_q_elem).
  - fold d1. cbv beta iota. unfold ret at 1.
    rewrite (appendChild_eval d1 h n q).
    + reflexivity.
    + unfold isElement. rewrite wrap_data1. exact Hh.
    + apply text_contains; [exact wrap_wf1 | | exact wrap_n_h].
      unfold isText. rewrite wrap_data1. exact Hn.
    + exact wrap_n1.
  - apply childless_contains; [exact Hwf | exact Hhc |].
    intros Heq. symmetry in Heq. exact (wrap_q_h Heq).
  - exact Hq.
  - exact wrap_n_h.
  - exact Hhp.
Qed.

Lemma wrap_text g y v :
  y <> h -> textContentFrom g d y = Some v -> textContentFrom (1 + g) d3 y = Some v.
Proof.
  intros Hy.
  assert (Hhchild : forall z, h ∉ getChildren d z).
  { intros z Hin. apply (wf_up d Hwf) in Hin. congruence. }
  apply (text_splice_shift d d3 1 (fun z => z = h) q pre [n] [h] post).
  - intros z Hz Hzq. rewrite wrap_data, wrap_children.
    rewrite !decide_False by assumption. split; reflexivity.
  - intros z c Hzq Hc ->. exact (Hhchild z Hc).
  - apply wrap_data.
  - exact Hcs.
  - rewrite wrap_children, decide_False, decide_True by (exact wrap_q_h || reflexivity).
    reflexivity.
  - intros c Hc ->. apply (Hhchild q). rewrite Hcs. apply elem_of_app. left. exact Hc.
  - intros c Hc ->. apply (Hhchild q). rewrite Hcs. apply elem_of_app. right. right. exact Hc.
  - intros f sm H. cbn [Nat.add]. rewrite texts_cons, textContentFrom_S.
    rewrite wrap_data, wrap_children, decide_True by reflexivity.
    pose proof Hh as Hel. unfold isElement in Hel.
    destruct (getData d h) as [[? | e] |]; try discriminate.
    rewrite (texts_same f d d3 [n]), H.
    + cbn [mbind option_bind]. rewrite texts_nil. cbn [mbind option_bind].
      rewrite StringFacts.append_nil_r. reflexivity.
    + intros z Hz. apply list_elem_of_singleton in Hz as ->.
      split; [exact Hn | apply wrap_data].
  - exact Hy.
Qed.

Lemma wrap_fresh : fresh d3 = fresh d.
Proof.
  unfold d3. rewrite fresh_attach. unfold d2.
  rewrite (fresh_detach d1 n q wrap_n1). unfold d1. apply fresh_attach.
Qed.

Lemma wrap_ok :
  exists d',
    DomUtil.wrap n h d = (Ret h, d') /\ WF d' /\ fresh d' = fresh d /\
    (forall y, getData d' y = getData d y) /\
    (forall y, getParent d' y =
               if decide (y = n) then Some h
               else if decide (y = h) then Some q else getParent d y) /\
    (forall y, getChildren d' y =
               if decide (y = h) then [n]
               else if decide (y = q) then pre ++ h :: post else getChildren d y) /\
    (forall g y v, y <> h ->
       textContentFrom g d y = Some v -> textContentFrom (1 + g) d' y = Some v).
Proof.
  exists d3. split; [exact wrap_eval |]. split; [exact wrap_wf |].
  split; [exact wrap_fresh |]. split; [exact wrap_data |].
  split; [exact wrap_parent |]. split; [exact wrap_children | exact wrap_text].
Qed.

End Wrap.

(** *** The copy of the wrapper *)

Lemma WF_setData_element d t e :
  WF d -> isText d t = false -> WF (setData t (ElementData e) d).
Proof.
  intros Hwf Ht. split.
  - intros r Hr. apply allocated_setData in Hr. apply (wf_alloc d Hwf), Hr.
  - intros r c. rewrite getChildren_setData, getParent_setData. apply (wf_up d Hwf).
  - intros r. rewrite getChildren_setData. apply (wf_nodup d Hwf).
  - intros r q. rewrite getParent_setData, getChildren_setData. apply (wf_down d Hwf).
  - intros r Hr. rewrite getChildren_setData. apply (wf_leaf d Hwf).
    unfold isText in *. destruct (decide (allocated d t)) as [Ha | Ha].
    + rewrite (getData_setData t _ d r Ha) in Hr.
      destruct (decide (r = t)) as [-> |]; [discriminate | exact Hr].
    + assert (Hsame : setData t (ElementData e) d = d).
      { unfold setData. destruct d as [ns fr]. cbn. f_equal.
        apply map_eq. intros i. destruct (decide (t = i)) as [<- |].
        - rewrite lookup_alter_eq. unfold allocated in Ha. cbn in Ha.
          destruct (ns !! t); [exfalso; apply Ha; eauto | reflexivity].
        - rewrite lookup_alter_ne by assumption. reflexivity. }
      rewrite Hsame in Hr. exact Hr.
Qed.

(** [wrapper.cloneNode(true)] for a wrapper without children. *)
Lemma cloneNode_leaf f d w x :
  getData d w = Some x -> getChildren d w = [] ->
  Platform.Node_cloneNode (S f) (Some w) d = (Ret (fresh d), snd (alloc x d)).
Proof.
  intros Hx Hc. cbn [Platform.Node_cloneNode deref]. rewrite bind_ret, bind_gets, Hx.
  cbn [deref]. rewrite bind_ret. unfold bind at 1. cbn [alloc].
  rewrite bind_gets.
  replace (getChildren _ w) with (getChildren d w).
  - rewrite Hc. reflexivity.
  - unfold getChildren. cbn [nodes]. destruct (decide (fresh d = w)) as [<- |].
    + rewrite lookup_insert_eq. unfold getData in Hx. unfold getChildren in Hc.
      destruct (nodes d !! fresh d); [| discriminate].
      cbn in Hc |- *. exact Hc.
    + rewrite lookup_insert_ne by assumption. reflexivity.
Qed.

Section Marker.

(** The copy of the wrapper [w] with the marker attribute set: a new
    element without a parent and without children. *)

Variables (d : Store) (w : nat) (e : Element).
Hypothesis Hwf : WF d.
Hypothesis Hw : getData d w = Some (ElementData e).
Hypothesis Hwc : getChildren d w = [].

Let h := fresh d.
Let d1 := snd (alloc (ElementData e) d).
Let d2 := setData h (ElementData (Marking.marked e)) d1.

Lemma marker_alloc1 : allocated d1 h.
Proof. apply allocated_alloc. left. reflexivity. Qed.

Lemma marker_data1 : getData d1 h = Some (ElementData e).
Proof.
  unfold d1. rewrite getData_alloc. unfold h. rewrite decide_True by reflexivity.
  reflexivity.
Qed.

Lemma marker_eval {B} f (k : nat -> M B) :
  (wrapperClone <- Platform.Node_cloneNode (S f) (Some w) ;;
   Platform.Element_setAttribute wrapperClone Config.DATA_ATTR "true" ;;;
   k wrapperClone) d = k h d2.
Proof.
  unfold bind at 1. rewrite (cloneNode_leaf f d w _ Hw Hwc). fold d1 h.
  unfold bind, Platform.Element_setAttribute, getElement.
  rewrite marker_data1. reflexivity.
Qed.

Lemma marker_fresh : fresh d2 = S (fresh d).
Proof. reflexivity. Qed.

Lemma marker_wf : WF d2.
Proof.
  apply WF_setData_element; [apply (WF_alloc d _ Hwf) |].
  unfold isText. fold d1. rewrite marker_data1. reflexivity.
Qed.

Lemma marker_data y :
  getData d2 y = if decide (y = h) then Some (ElementData (Marking.marked e)) else getData d y.
Proof.
  unfold d2. rewrite (getData_setData h _ d1 y marker_alloc1).
  destruct (decide (y = h)); [reflexivity |].
  unfold d1. rewrite getData_alloc. fold h. rewrite decide_False by assumption.
  reflexivity.
Qed.

Lemma marker_parent y : getParent d2 y = getParent d y.
Proof. unfold d2. rewrite getParent_setData. apply (getParent_alloc d _ Hwf). Qed.

Lemma marker_children y : getChildren d2 y = getChildren d y.
Proof. unfold d2. rewrite getChildren_setData. apply (getChildren_alloc d _ Hwf). Qed.

Lemma marker_new : ~ allocated d h.
Proof. intros Ha. apply (wf_alloc d Hwf) in Ha. unfold h in Ha. lia. Qed.

Lemma marker_new_parent : getParent d h = None.
Proof.
  destruct (getParent d h) eqn:Hp; [| reflexivity].
  exfalso. apply marker_new. eapply allocated_of_parent, Hp.
Qed.

Lemma marker_new_children : getChildren d h = [].
Proof.
  destruct (getChildren d h) as [| c cs] eqn:Hc; [reflexivity |].
  exfalso. apply marker_new. apply (allocated_of_child d h c). rewrite Hc. left.
Qed.

Lemma marker_new_data : getData d h = None.
Proof.
  destruct (getData d h) eqn:Hd; [| reflexivity].
  exfalso. apply marker_new. eapply allocated_of_data, Hd.
Qed.

End Marker.

(** *** One text node of the walk *)

Lemma ancestorsFrom_mono d d' x :
  (forall y, getParent d' y = getParent d y) ->
  forall f f' y, f <= f' -> x ∈ ancestorsFrom f d y -> x ∈ ancestorsFrom f' d' y.
Proof.
  intros Hp. induction f as [| f IH]; intros f' y Hle Hin; [inversion Hin |].
  destruct f' as [| f']; [lia |]. cbn [ancestorsFrom] in *. rewrite Hp.
  destruct (getParent d y) as [p |]; [| inversion Hin].
  apply elem_of_cons in Hin as [-> | Hin]; [left |].
  right. apply IH; [lia | exact Hin].
Qed.

Lemma contains_inside d d' el q :
  (forall y, getParent d' y = getParent d y) -> fresh d <= fresh d' ->
  Node_contains d el q = true ->
  DomUtil.contains d' el q || Nat.eqb q el = true.
Proof.
  intros Hp Hle Hc. unfold DomUtil.contains, Node_contains in *.
  destruct (Nat.eqb_spec el q) as [-> | Hne].
  - rewrite Nat.eqb_refl. apply orb_true_r.
  - cbn [negb andb orb] in *. apply orb_true_intro. left.
    apply NormalizeFacts.inList_elem_of. apply NormalizeFacts.inList_elem_of in Hc.
    unfold ancestors in *. eapply ancestorsFrom_mono; [exact Hp | exact Hle | exact Hc].
Qed.

(** A text node keeps its text when the copy of the wrapper is made. *)
Lemma marker_text d e :
  WF d ->
  forall g y s, y <> fresh d ->
    textContentFrom g d y = Some s ->
    textContentFrom g
      (setData (fresh d) (ElementData (Marking.marked e)) (snd (alloc (ElementData e) d)))
      y = Some s.
Proof.
  intros Hwf. induction g as [| g IH]; intros y s Hy Hs; [discriminate |].
  rewrite textContentFrom_S in *. rewrite (marker_data d e), decide_False by exact Hy.
  destruct (getData d y) as [[t | e0] |]; try exact Hs.
  rewrite (marker_children d e Hwf).
  apply (texts_keep g d _ (getChildren d y) s Hs).
  intros c r Hc Hr. apply IH; [| exact Hr].
  intros Heq. apply (wf_up d Hwf) in Hc. rewrite Heq in Hc.
  rewrite (marker_new_parent d Hwf) in Hc. discriminate.
Qed.

(** The copy of the wrapper, made and marked, wraps the text node [n]. *)
Lemma mark_wrap e d n q pre post :
  WF d -> isText d n = true -> getParent d n = Some q ->
  getChildren d q = pre ++ n :: post ->
  exists d',
    DomUtil.wrap n (fresh d)
      (setData (fresh d) (ElementData (Marking.marked e)) (snd (alloc (ElementData e) d)))
    = (Ret (fresh d), d') /\
    Marking.Wrapped d d' n (fresh d) q pre post e.
Proof.
  intros Hwf Hn Hq Hcs.
  set (h := fresh d).
  set (d2 := setData h (ElementData (Marking.marked e)) (snd (alloc (ElementData e) d))).
  assert (Hnh : n <> h).
  { intros Heq. rewrite Heq in Hn. unfold h, isText in Hn.
    rewrite (marker_new_data d Hwf) in Hn. discriminate. }
  assert (Hqh : q <> h).
  { intros Heq. rewrite Heq in Hcs. unfold h in Hcs.
    rewrite (marker_new_children d Hwf) in Hcs. destruct pre; discriminate. }
  assert (Hn2 : isText d2 n = true).
  { unfold isText, d2. rewrite (marker_data d e), decide_False by exact Hnh. exact Hn. }
  assert (Hq2 : getParent d2 n = Some q).
  { unfold d2. rewrite (marker_parent d e Hwf). exact Hq. }
  assert (Hcs2 : getChildren d2 q = pre ++ n :: post).
  { unfold d2. rewrite (marker_children d e Hwf). exact Hcs. }
  assert (Hh2 : isElement d2 h = true).
  { unfold isElement, d2. rewrite (marker_data d e), decide_True by reflexivity.
    reflexivity. }
  assert (Hhc2 : getChildren d2 h = []).
  { unfold d2. rewrite (marker_children d e Hwf). apply (marker_new_children d Hwf). }
  assert (Hhp2 : getParent d2 h = None).
  { unfold d2. rewrite (marker_parent d e Hwf). apply (marker_new_parent d Hwf). }
  destruct (wrap_ok d2 n h q pre post (marker_wf d e Hwf) Hn2 Hq2 Hcs2 Hh2 Hhc2 Hhp2)
    as (d' & Hev & Hwf' & Hfr & Hdata & Hpar & Hch & Htext).
  exists d'. split; [exact Hev |]. split.
  - exact Hwf'.
  - rewrite Hfr. reflexivity.
  - intros y. rewrite Hdata. unfold d2. apply (marker_data d e).
  - intros y. rewrite Hpar. unfold d2. rewrite (marker_parent d e Hwf). reflexivity.
  - intros y. rewrite Hch. unfold d2. rewrite (marker_children d e Hwf). reflexivity.
  - intros g y s Hy Hs. apply Htext; [exact Hy |].
    apply (marker_text d e Hwf); assumption.
Qed.

Lemma wrapText_wraps f el w e d n q pre post dn hs v :
  WF d -> getData d n = Some (TextData v) -> getParent d n = Some q ->
  getChildren d q = pre ++ n :: post ->
  Config.ignored (tagName <$> getElement d q) = false -> Platform.trim v <> "" ->
  getData d w = Some (ElementData e) -> getChildren d w = [] ->
  Node_contains d el q = true ->
  exists d',
    wrapText (S f) el w (mkWalk (Some n) true dn hs) d
    = (Ret (mkWalk (Some n) false dn (hs ++ [fresh d])), d') /\
    Marking.Wrapped d d' n (fresh d) q pre post e.
Proof.
  intros Hwf Hn Hq Hcs Hig Htrim Hw Hwc Hin.
  assert (Hnt : isText d n = true) by (unfold isText; rewrite Hn; reflexivity).
  destruct (mark_wrap e d n q pre post Hwf Hnt Hq Hcs) as (d' & Hev & HW).
  exists d'. split; [| exact HW].
  set (h := fresh d) in *.
  set (d2 := setData h (ElementData (Marking.marked e)) (snd (alloc (ElementData e) d)))
    in *.
  assert (Hq2 : getParent d2 n = Some q).
  { unfold d2. rewrite (marker_parent d e Hwf). exact Hq. }
  unfold wrapText. cbn [goDeeper node deref]. rewrite bind_ret, bind_gets.
  unfold Config.nodeType at 1. rewrite Hn. rewrite bind_gets, Hq. cbn [deref].
  rewrite bind_ret, bind_gets, bind_gets. unfold getNodeValue. rewrite Hn.
  cbn [default from_option id]. rewrite Hig.
  destruct (String.eqb_spec (Platform.trim v) "") as [Heq | _]; [contradiction |].
  cbn [negb andb]. unfold bind at 1.
  rewrite (marker_eval d w e Hw Hwc f). fold h d2.
  rewrite bind_gets, Hq2, bind_gets.
  rewrite (contains_inside d d2 el q); [| | | exact Hin].
  - unfold bind at 1. rewrite Hev. reflexivity.
  - intros y. unfold d2. apply (marker_parent d e Hwf).
  - unfold d2. cbn. lia.
Qed.

(** *** The boundaries of a selection inside one text node *)

Lemma Cut_refl d t q : WF d -> Marking.Cut d d t q.
Proof. intros Hwf. split; auto. Qed.

Lemma Cut_trans d d1 d2 t q :
  Marking.Cut d d1 t q -> Marking.Cut d1 d2 t q -> Marking.Cut d d2 t q.
Proof.
  intros H1 H2. split.
  - apply H2.
  - pose proof (Marking.cut_fresh _ _ _ _ H1). pose proof (Marking.cut_fresh _ _ _ _ H2).
    lia.
  - intros y Hy. apply H2, H1, Hy.
  - intros y Hne Hy. rewrite (Marking.cut_data _ _ _ _ H2) by (try apply H1; assumption).
    apply H1; assumption.
  - intros y Hy. rewrite (Marking.cut_parent _ _ _ _ H2) by (apply H1; assumption).
    apply H1; assumption.
  - intros y Hne Hy.
    rewrite (Marking.cut_children _ _ _ _ H2) by (try apply H1; assumption).
    apply H1; assumption.
  - intros g y v Hne Hy Hv. apply (Marking.cut_text _ _ _ _ H2); [assumption | |].
    + apply H1, Hy.
    + apply (Marking.cut_text _ _ _ _ H1); assumption.
Qed.

Lemma allocated_below d y : WF d -> allocated d y -> y <> fresh d.
Proof. intros Hwf Hy Heq. apply (wf_alloc d Hwf) in Hy. lia. Qed.

(** [t.splitText(length u)] on the text [u ++ b] of an attached node. *)
Lemma split_tail d t q l1 l2 u b :
  WF d -> getData d t = Some (TextData (u +:+ b)) -> getParent d t = Some q ->
  getChildren d q = l1 ++ t :: l2 ->
  exists d1,
    Text_splitText (Some t) (String.length u) d = (Ret (fresh d), d1) /\
    Marking.Cut d d1 t q /\
    getData d1 t = Some (TextData u) /\ getData d1 (fresh d) = Some (TextData b) /\
    getParent d1 (fresh d) = Some q /\
    getChildren d1 q = l1 ++ t :: fresh d :: l2 /\
    fresh d1 = S (fresh d).
Proof.
  intros Hwf Hd Hp Hcs.
  assert (Hoff : String.length u <= String.length (u +:+ b)).
  { rewrite StringFacts.length_append. lia. }
  destruct (split_ok d t q _ _ l1 l2 Hwf Hd Hp Hoff Hcs)
    as (d1 & Hev & Hwf1 & Hfr & Hdata & Hpar & Hch & Htext).
  assert (Hta : allocated d t) by (eapply allocated_of_data, Hd).
  assert (Htn : t <> fresh d) by (apply allocated_below; assumption).
  exists d1. split; [exact Hev |]. split; [split |].
  - exact Hwf1.
  - lia.
  - intros y Hy. destruct (allocated_getData _ _ Hy) as [v Hv].
    specialize (Hdata y). rewrite Hv in Hdata.
    destruct (decide (y = t)); [eapply allocated_of_data, Hdata |].
    destruct (decide (y = fresh d)); eapply allocated_of_data, Hdata.
  - intros y Hne Hy. rewrite Hdata, decide_False by exact Hne.
    rewrite decide_False by (apply allocated_below; assumption). reflexivity.
  - intros y Hy. rewrite Hpar.
    rewrite decide_False by (apply allocated_below; assumption). reflexivity.
  - intros y Hne Hy. rewrite Hch, decide_False by exact Hne. reflexivity.
  - intros g y v Hne Hy. apply Htext; [exact Hne | apply allocated_below; assumption].
  - rewrite !Hdata, Hpar, Hch. rewrite !decide_True by reflexivity.
    rewrite (decide_False (P := fresh d = t)) by (intros Heq; symmetry in Heq; contradiction).
    rewrite StringFacts.strTake_append, StringFacts.strDrop_append.
    rewrite !decide_True by reflexivity. auto 10.
Qed.

Lemma length_pos (m : string) : m <> "" -> 0 < String.length m.
Proof. destruct m; [congruence | cbn; lia]. Qed.

(** The boundaries when the selection ends where the text of [t] ends. *)
Lemma refine_head fuel d t q pre post a m anc :
  WF d -> getData d t = Some (TextData (a +:+ m)) -> m <> "" ->
  getParent d t = Some q -> getChildren d q = pre ++ t :: post ->
  exists x d' before,
    Utils.refineRangeBoundaries fuel
      (Range.mk t (String.length a) t (String.length a + String.length m) anc) d
    = (Ret (Utils.mkRefined (Some x) (Some x) true), d') /\
    Marking.Cut d d' t q /\
    getData d' x = Some (TextData m) /\ getParent d' x = Some q /\
    getChildren d' q = (pre ++ before) ++ x :: post /\
    (x = t \/ ~ allocated d x) /\
    (forall f, texts (S f) d' before = Some a) /\
    (forall c, c ∈ before -> isText d' c = true) /\
    (a <> "" ->
     x = fresh d /\ before = [t] /\ getData d' t = Some (TextData a) /\
     fresh d' = S (fresh d)).
Proof.
  intros Hwf Hd Hm Hp Hcs. pose proof (length_pos m Hm) as Hlen.
  assert (Hnd : NoDup (pre ++ t :: post)) by (rewrite <- Hcs; apply (wf_nodup d Hwf)).
  unfold Utils.refineRangeBoundaries.
  cbn [Range.startContainer Range.endContainer Range.startOffset Range.endOffset
       Range.commonAncestorContainer].
  destruct (Nat.eqb_spec (String.length a + String.length m) 0) as [? | _]; [lia |].
  unfold bind at 1. rewrite bind_gets. unfold Config.nodeType at 1. rewrite Hd.
  rewrite bind_gets. unfold getNodeValue at 1. rewrite Hd. cbn [default from_option id].
  rewrite StringFacts.length_append, Nat.ltb_irrefl.
  unfold bind at 1. unfold ret at 1 2.
  rewrite bind_gets. unfold Config.nodeType at 1. rewrite Hd.
  rewrite bind_gets. unfold getNodeValue at 1. rewrite Hd. cbn [default from_option id].
  rewrite StringFacts.length_append.
  destruct (Nat.eqb_spec (String.length a) (String.length a + String.length m))
    as [? | _]; [lia |].
  destruct (decide (a = "")) as [-> | Ha].
  - cbn [String.length Nat.ltb Nat.leb].
    exists t, d, []. split; [reflexivity |]. split; [apply Cut_refl, Hwf |].
    rewrite app_nil_r. repeat split; auto; try contradiction.
    intros c Hc. inversion Hc.
  - destruct (split_tail d t q pre post a m Hwf Hd Hp Hcs)
      as (d1 & Hev & Hcut & Ht & Hn & Hpn & Hch & Hfr1).
    replace (Nat.ltb 0 (String.length a)) with true
      by (symmetry; apply Nat.ltb_lt, length_pos, Ha).
    unfold bind at 1. rewrite Hev. rewrite bind_gets.
    assert (Hnd1 : NoDup (pre ++ t :: fresh d :: post)).
    { rewrite <- Hch. apply (wf_nodup d1), Hcut. }
    rewrite (previousSibling_in d1 (fresh d) q (pre ++ [t]) post Hpn).
    + rewrite last_snoc. cbn [optEqb]. rewrite Nat.eqb_refl.
      exists (fresh d), d1, [t]. split; [reflexivity |]. split; [exact Hcut |].
      split; [exact Hn |]. split; [exact Hpn |]. split.
      { rewrite Hch, <- app_assoc. reflexivity. }
      split.
      { right. intros Hal. apply (wf_alloc d Hwf) in Hal. lia. }
      split.
      { intros f. rewrite (texts_text f d1 t _ [] Ht), texts_nil.
        cbn [mbind option_bind]. rewrite StringFacts.append_nil_r. reflexivity. }
      split.
      { intros x Hx. apply list_elem_of_singleton in Hx as ->.
        unfold isText. rewrite Ht. reflexivity. }
      intros _. auto.
    + rewrite Hch, <- app_assoc. reflexivity.
    + replace (pre ++ t :: fresh d :: post) with ((pre ++ [t]) ++ fresh d :: post) in Hnd1
        by (rewrite <- app_assoc; reflexivity).
      apply NoDup_app in Hnd1 as (_ & Hdis & _).
      intros Hin. apply (Hdis _ Hin). left.
Qed.

(** When the selection ends inside the text of [t], the text is split
    there first. *)
Lemma refine_tail fuel d d1 t so eo anc v :
  getData d t = Some (TextData v) -> eo < String.length v ->
  Text_splitText (Some t) eo d = (Ret (fresh d), d1) ->
  getData d1 t = Some (TextData (strTake eo v)) -> eo <> 0 ->
  Utils.refineRangeBoundaries fuel (Range.mk t so t eo anc) d
  = Utils.refineRangeBoundaries fuel (Range.mk t so t eo anc) d1.
Proof.
  intros Hd Hlt Hev Hd1 H0. unfold Utils.refineRangeBoundaries.
  cbn [Range.startContainer Range.endContainer Range.startOffset Range.endOffset
       Range.commonAncestorContainer].
  destruct (Nat.eqb_spec eo 0) as [? | _]; [contradiction |].
  unfold bind at 1. symmetry. unfold bind at 1. symmetry.
  rewrite !bind_gets. unfold Config.nodeType at 1 3. rewrite Hd, Hd1.
  rewrite !bind_gets. unfold getNodeValue at 1 3. rewrite Hd, Hd1.
  cbn [default from_option id].
  replace (Nat.ltb eo (String.length v)) with true
    by (symmetry; apply Nat.ltb_lt; exact Hlt).
  assert (Hlen : String.length (strTake eo v) = eo).
  { pose proof (strTake_strDrop eo v ltac:(lia)) as Hv.
    clear - Hlt. unfold strTake. revert eo Hlt.
    induction v as [| c v IH]; intros eo Hlt; [cbn in Hlt; lia |].
    destruct eo as [| eo]; [reflexivity |]. cbn in *. rewrite IH by lia. reflexivity. }
  rewrite Hlen, Nat.ltb_irrefl.
  unfold bind at 1. unfold bind at 1. rewrite Hev. reflexivity.
Qed.

(** The boundaries of a selection of the part [m] of the text
    [a ++ m ++ b] of the node [t]: the text is cut in front of [m] and
    behind it, and both boundaries are the node that holds [m]. *)
Lemma refine_in_text fuel d t q l1 l2 a m b anc :
  WF d -> getData d t = Some (TextData (a +:+ m +:+ b)) -> m <> "" ->
  getParent d t = Some q -> getChildren d q = l1 ++ t :: l2 ->
  exists x d' before after,
    Utils.refineRangeBoundaries fuel
      (Range.mk t (String.length a) t (String.length a + String.length m) anc) d
    = (Ret (Utils.mkRefined (Some x) (Some x) true), d') /\
    Marking.Cut d d' t q /\
    getData d' x = Some (TextData m) /\ getParent d' x = Some q /\
    getChildren d' q = (l1 ++ before) ++ x :: (after ++ l2) /\
    (forall f, texts (S f) d' before = Some a) /\
    (forall f, texts (S f) d' after = Some b) /\
    (forall c, c ∈ before ++ after -> isText d' c = true) /\
    (a <> "" -> b <> "" ->
     x = S (fresh d) /\ before = [t] /\ after = [fresh d] /\
     getData d' t = Some (TextData a) /\ getData d' (fresh d) = Some (TextData b) /\
     fresh d' = S (S (fresh d))).
Proof.
  intros Hwf Hd Hm Hp Hcs.
  destruct (decide (b = "")) as [-> | Hb].
  - rewrite StringFacts.append_nil_r in Hd.
    destruct (refine_head fuel d t q l1 l2 a m anc Hwf Hd Hm Hp Hcs)
      as (x & d' & before & Hev & Hcut & Hx & Hpx & Hch & _ & Hbefore & Hin & _).
    exists x, d', before, []. split; [exact Hev |]. split; [exact Hcut |].
    split; [exact Hx |]. split; [exact Hpx |]. split; [exact Hch |].
    split; [exact Hbefore |]. split; [intros f; apply texts_nil |].
    split; [| intros _ Hb; contradiction].
    intros c Hc. rewrite app_nil_r in Hc. apply Hin, Hc.
  - rewrite <- StringFacts.append_assoc in Hd.
    destruct (split_tail d t q l1 l2 (a +:+ m) b Hwf Hd Hp Hcs)
      as (d1 & Hev1 & Hcut1 & Ht1 & Hn1 & Hpn1 & Hch1 & Hfr1).
    rewrite StringFacts.length_append in Hev1.
    assert (Hp1 : getParent d1 t = Some q).
    { rewrite (Marking.cut_parent _ _ _ _ Hcut1); [exact Hp |].
      eapply allocated_of_data, Hd. }
    destruct (refine_head fuel d1 t q l1 (fresh d :: l2) a m anc
                (Marking.cut_wf _ _ _ _ Hcut1) Ht1 Hm Hp1 Hch1)
      as (x & d' & before & Hev & Hcut & Hx & Hpx & Hch & Hnew & Hbefore & Hin & Hexact).
    assert (Hfa : allocated d1 (fresh d)) by (eapply allocated_of_data, Hn1).
    assert (Hft : fresh d <> t).
    { intros Heq. apply (allocated_below d t Hwf); [| symmetry; exact Heq].
      eapply allocated_of_data, Hd. }
    assert (Hn' : getData d' (fresh d) = Some (TextData b)).
    { rewrite (Marking.cut_data _ _ _ _ Hcut); assumption. }
    exists x, d', before, [fresh d]. split.
    { rewrite (refine_tail fuel d d1 t _ _ anc _ Hd).
      - exact Hev.
      - rewrite !StringFacts.length_append. apply length_pos in Hb. lia.
      - exact Hev1.
      - rewrite <- StringFacts.length_append, StringFacts.strTake_append. exact Ht1.
      - apply length_pos in Hm. lia. }
    split; [exact (Cut_trans _ _ _ _ _ Hcut1 Hcut) |].
    split; [exact Hx |]. split; [exact Hpx |]. split; [exact Hch |].
    split; [exact Hbefore |]. split.
    { intros f. rewrite (texts_text f d' _ _ [] Hn'), texts_nil.
      cbn [mbind option_bind]. rewrite StringFacts.append_nil_r. reflexivity. }
    split.
    { intros c Hc. apply elem_of_app in Hc as [Hc | Hc].
      + apply Hin, Hc.
      + apply list_elem_of_singleton in Hc as ->. unfold isText. rewrite Hn'.
        reflexivity. }
    intros Ha _. destruct (Hexact Ha) as (-> & -> & Hta & Hfr').
    rewrite Hfr1. rewrite Hfr1 in Hfr'. auto 10.
Qed.

Lemma ancestorsFrom_cut d d' x :
  WF d -> (forall y, allocated d y -> getParent d' y = getParent d y) ->
  forall f f' y, f <= f' -> allocated d y ->
    x ∈ ancestorsFrom f d y -> x ∈ ancestorsFrom f' d' y.
Proof.
  intros Hwf Hp. induction f as [| f IH]; intros f' y Hle Hy Hin; [inversion Hin |].
  destruct f' as [| f']; [lia |]. cbn [ancestorsFrom] in *. rewrite Hp by exact Hy.
  destruct (getParent d y) as [p |] eqn:Hpy; [| inversion Hin].
  apply elem_of_cons in Hin as [-> | Hin]; [left |].
  right. apply IH; [lia | | exact Hin].
  apply (allocated_of_child d p y), (wf_down d Hwf), Hpy.
Qed.

Lemma contains_cut d d' t q el y :
  WF d -> Marking.Cut d d' t q -> allocated d y ->
  Node_contains d el y = true -> Node_contains d' el y = true.
Proof.
  intros Hwf Hcut Hy Hc. unfold Node_contains in *.
  destruct (Nat.eqb el y); [reflexivity |]. cbn [orb] in *.
  apply NormalizeFacts.inList_elem_of. apply NormalizeFacts.inList_elem_of in Hc.
  unfold ancestors in *.
  exact (ancestorsFrom_cut d d' el Hwf (Marking.cut_parent _ _ _ _ Hcut)
           (fresh d) (fresh d') y (Marking.cut_fresh _ _ _ _ Hcut) Hy Hc).
Qed.

(** The loop of [highlightRange] when both boundaries are one text node:
    one round, which wraps the node. *)
Lemma highlightLoop_one f el w e d x q pre post v :
  WF d -> getData d x = Some (TextData v) -> getParent d x = Some q ->
  getChildren d q = pre ++ x :: post ->
  Config.ignored (tagName <$> getElement d q) = false -> Platform.trim v <> "" ->
  getData d w = Some (ElementData e) -> getChildren d w = [] ->
  Node_contains d el q = true ->
  exists d',
    highlightLoop (S f) (S f) el w (Some x) (mkWalk (Some x) true false []) d
    = (Ret [fresh d], d') /\
    Marking.Wrapped d d' x (fresh d) q pre post e.
Proof.
  intros Hwf Hx Hq Hcs Hig Htrim Hw Hwc Hin.
  destruct (wrapText_wraps f el w e d x q pre post false [] v
              Hwf Hx Hq Hcs Hig Htrim Hw Hwc Hin) as (d' & Hev & HW).
  exists d'. split; [| exact HW].
  assert (Hxh : x <> fresh d).
  { intros Heq. rewrite Heq, (marker_new_data d Hwf) in Hx. discriminate. }
  assert (Hxq : x <> q).
  { intros Heq. pose proof (wf_leaf d Hwf x) as Hl. unfold isText in Hl.
    rewrite Hx in Hl. specialize (Hl eq_refl). rewrite Heq, Hcs in Hl.
    destruct pre; discriminate. }
  assert (Hxc : getChildren d' x = []).
  { rewrite (Marking.wr_children _ _ _ _ _ _ _ _ HW), !decide_False by assumption.
    apply (wf_leaf d Hwf). unfold isText. rewrite Hx. reflexivity. }
  assert (Hxd : getData d' x = Some (TextData v)).
  { rewrite (Marking.wr_data _ _ _ _ _ _ _ _ HW), decide_False by assumption. exact Hx. }
  assert (Hxp : getParent d' x = Some (fresh d)).
  { rewrite (Marking.wr_parent _ _ _ _ _ _ _ _ HW), decide_True by reflexivity.
    reflexivity. }
  assert (Hhc : getChildren d' (fresh d) = [x]).
  { rewrite (Marking.wr_children _ _ _ _ _ _ _ _ HW), decide_True by reflexivity.
    reflexivity. }
  assert (H1 : atEnd (Some x) (mkWalk (Some x) false false ([] ++ [fresh d])) d'
               = (Ret (mkWalk (Some x) false true [fresh d]), d')).
  { unfold atEnd. cbn [node goDeeper done highlights optEqb].
    rewrite Nat.eqb_refl. cbn [deref]. rewrite bind_ret, bind_gets.
    unfold hasChildNodes. rewrite Hxc. reflexivity. }
  assert (H2 : skipIgnored (Some x) (mkWalk (Some x) false true [fresh d]) d'
               = (Ret (mkWalk (Some x) false true [fresh d]), d')).
  { unfold skipIgnored. cbn [node goDeeper done highlights deref].
    rewrite bind_ret, bind_gets. unfold getElement. rewrite Hxd. reflexivity. }
  assert (H3 : advance (mkWalk (Some x) false true [fresh d]) d'
               = (Ret (mkWalk (Some (fresh d)) false true [fresh d]), d')).
  { unfold advance. cbn [node goDeeper done highlights deref andb].
    rewrite bind_ret, bind_gets, bind_gets.
    rewrite (nextSibling_in d' x (fresh d) [] [] Hxp Hhc) by (intros Hn; inversion Hn).
    cbn [head]. rewrite bind_gets, Hxp. reflexivity. }
  cbn [highlightLoop]. unfold bind at 1. unfold highlightStep. unfold bind at 1.
  rewrite Hev. unfold bind at 1. rewrite H1. unfold bind at 1. rewrite H2, H3.
  reflexivity.
Qed.

Lemma setAttr_has name value l :
  existsb (fun kv => String.eqb (fst kv) name) (Platform.setAttr name value l) = true.
Proof.
  induction l as [| kv l IH]; cbn.
  - rewrite String.eqb_refl. reflexivity.
  - destruct (String.eqb (fst kv) name) eqn:Hk; cbn; rewrite ?Hk, ?IH; auto using orb_true_r.
Qed.

Lemma trim_nonempty m : Platform.trim m <> "" -> m <> "".
Proof. intros H ->. apply H. reflexivity. Qed.

(** The loop of [highlightRange] when both boundaries are one text node
    that is white space only or stands below an element of an ignored tag:
    one round, and no marker. *)
Lemma highlightLoop_skip f el w d x q v :
  WF d -> getData d x = Some (TextData v) -> getParent d x = Some q ->
  Config.ignored (tagName <$> getElement d q) = true \/ Platform.trim v = "" ->
  highlightLoop (S f) (S f) el w (Some x) (mkWalk (Some x) true false []) d
  = (Ret [], d).
Proof.
  intros Hwf Hx Hq Hskip.
  assert (Hxc : getChildren d x = []).
  { apply (wf_leaf d Hwf). unfold isText. rewrite Hx. reflexivity. }
  assert (H0 : wrapText (S f) el w (mkWalk (Some x) true false []) d
               = (Ret (mkWalk (Some x) false false []), d)).
  { unfold wrapText. cbn [goDeeper node deref]. rewrite bind_ret, bind_gets.
    unfold Config.nodeType at 1. rewrite Hx. rewrite bind_gets, Hq. cbn [deref].
    rewrite bind_ret, bind_gets, bind_gets. unfold getNodeValue. rewrite Hx.
    cbn [default from_option id].
    replace (negb (Config.ignored (tagName <$> getElement d q)) &&
             negb (String.eqb (Platform.trim v) "")) with false; [reflexivity |].
    destruct Hskip as [-> | ->]; [reflexivity |].
    rewrite String.eqb_refl. symmetry. apply andb_false_r. }
  assert (H1 : atEnd (Some x) (mkWalk (Some x) false false []) d
               = (Ret (mkWalk (Some x) false true []), d)).
  { unfold atEnd. cbn [node goDeeper done highlights optEqb].
    rewrite Nat.eqb_refl. cbn [deref]. rewrite bind_ret, bind_gets.
    unfold hasChildNodes. rewrite Hxc. reflexivity. }
  assert (H2 : skipIgnored (Some x) (mkWalk (Some x) false true []) d
               = (Ret (mkWalk (Some x) false true []), d)).
  { unfold skipIgnored. cbn [node goDeeper done highlights deref].
    rewrite bind_ret, bind_gets. unfold getElement. rewrite Hx. reflexivity. }
  assert (H3 : exists nx, advance (mkWalk (Some x) false true []) d
               = (Ret (mkWalk nx (bool_decide (is_Some (nextSibling d x))) true []), d)).
  { unfold advance. cbn [node goDeeper done highlights deref andb].
    rewrite bind_ret, bind_gets, bind_gets.
    destruct (nextSibling d x) as [nx |]; [exists (Some nx) | exists (Some q)].
    - reflexivity.
    - rewrite bind_gets, Hq. reflexivity. }
  destruct H3 as [nx H3].
  cbn [highlightLoop]. unfold bind at 1. unfold highlightStep. unfold bind at 1.
  rewrite H0. unfold bind at 1. rewrite H1. unfold bind at 1. rewrite H2, H3.
  reflexivity.
Qed.

(** *** What every run of [highlightRange] keeps *)

Import Wp.

Lemma post_bind {A B} (c : M A) (k : A -> M B) d (Q : outcome B -> Store -> Prop) :
  post c d (fun o d1 =>
    match o with
    | Ret a => post (k a) d1 Q
    | Throw e => Q (Throw e) d1
    | OutOfFuel => Q OutOfFuel d1
    end) ->
  post (bind c k) d Q.
Proof. unfold post, bind. destruct (c d) as [[a | e |] d1]; cbn; auto. Qed.

Lemma post_mono {A} (c : M A) d (Q Q' : outcome A -> Store -> Prop) :
  post c d Q -> (forall o d', Q o d' -> Q' o d') -> post c d Q'.
Proof. unfold post. auto. Qed.

Lemma post_eq {A} (c : M A) d o d' (Q : outcome A -> Store -> Prop) :
  c d = (o, d') -> Q o d' -> post c d Q.
Proof. unfold post. intros ->. auto. Qed.

Lemma post_deref {A} what (x : option A) d (Q : outcome A -> Store -> Prop) :
  (forall a, x = Some a -> Q (Ret a) d) ->
  Q (Throw (TypeError what)) d ->
  post (deref what x) d Q.
Proof. intros H1 H2. destruct x; cbn; unfold post; cbn; auto. Qed.

Lemma isElement_allocated d y : isElement d y = true -> allocated d y.
Proof.
  unfold isElement. destruct (getData d y) eqn:Hd; [| discriminate].
  intros _. eapply allocated_of_data, Hd.
Qed.

Lemma isElement_getData d y : isElement d y = true -> exists e, getData d y = Some (ElementData e).
Proof.
  unfold isElement. destruct (getData d y) as [[? | e] |]; try discriminate. eauto.
Qed.

Lemma Kept_refl d w : WF d -> getChildren d w = [] -> Marking.Kept d d w.
Proof.
  intros Hwf Hw. split; auto.
  intros g y s _ H. rewrite Nat.sub_diag. exact H.
Qed.

Lemma Kept_trans d d1 d2 w :
  Marking.Kept d d1 w -> Marking.Kept d1 d2 w -> Marking.Kept d d2 w.
Proof.
  intros H1 H2.
  pose proof (Marking.kept_fresh _ _ _ H1). pose proof (Marking.kept_fresh _ _ _ H2).
  split.
  - exact (Marking.kept_wf _ _ _ H2).
  - lia.
  - intros y e Hy.
    exact (Marking.kept_element _ _ _ H2 y e (Marking.kept_element _ _ _ H1 y e Hy)).
  - intros y Hy.
    exact (Marking.kept_textnode _ _ _ H2 y (Marking.kept_textnode _ _ _ H1 y Hy)).
  - exact (Marking.kept_wrapper _ _ _ H2).
  - intros g y s Hy Hs. destruct (isElement_getData d y Hy) as [e He].
    apply (Marking.kept_text _ _ _ H1) in Hs; [| exact Hy].
    apply (Marking.kept_text _ _ _ H2) in Hs.
    + replace (fresh d2 - fresh d + g)
        with (fresh d2 - fresh d1 + (fresh d1 - fresh d + g)) by lia.
      exact Hs.
    + unfold isElement. rewrite (Marking.kept_element _ _ _ H1 y e He). reflexivity.
Qed.

(** [t.splitText(off)] on a text node without a parent. *)
Lemma split_free d r off s :
  WF d -> getData d r = Some (TextData s) -> getParent d r = None ->
  off <= String.length s ->
  exists d',
    Text_splitText (Some r) off d = (Ret (fresh d), d') /\ WF d' /\
    fresh d' = S (fresh d) /\
    (forall y, getData d' y =
               if decide (y = r) then Some (TextData (strTake off s))
               else if decide (y = fresh d) then Some (TextData (strDrop off s))
               else getData d y) /\
    (forall y, getParent d' y = getParent d y) /\
    (forall y, getChildren d' y = getChildren d y).
Proof.
  intros Hwf Hd Hp Hoff.
  set (d1 := snd (alloc (TextData (strDrop off s)) d)).
  assert (Hr1 : getData d1 r = Some (TextData s)).
  { unfold d1. rewrite getData_alloc. rewrite decide_False; [exact Hd |].
    apply allocated_below; [exact Hwf | eapply allocated_of_data, Hd]. }
  assert (Ha1 : allocated d1 r) by (eapply allocated_of_data, Hr1).
  exists (setData r (TextData (strTake off s)) d1). split.
  { unfold Text_splitText, getNodeValue. rewrite Hd.
    destruct (Nat.ltb_spec (String.length s) off) as [Hlt | _]; [lia |].
    assert (H1 : getParent d1 r = None).
    { unfold d1. rewrite (getParent_alloc d _ Hwf). exact Hp. }
    change ((Ret (fresh d), setData r (TextData (strTake off s))
                      (match getParent d1 r with
                       | Some p0 => attach (fresh d) p0 (nextSibling d1 r) d1
                       | None => d1
                       end)) = (Ret (fresh d), setData r (TextData (strTake off s)) d1)).
    rewrite H1. reflexivity. }
  split.
  { apply WF_setData; [apply (WF_alloc d _ Hwf) |]. fold d1. unfold isText.
    rewrite Hr1. reflexivity. }
  split; [reflexivity |]. split.
  { intros y. rewrite (getData_setData r _ d1 y Ha1).
    destruct (decide (y = r)); [reflexivity |]. unfold d1. apply getData_alloc. }
  split.
  - intros y. rewrite getParent_setData. apply (getParent_alloc d _ Hwf).
  - intros y. rewrite getChildren_setData. apply (getChildren_alloc d _ Hwf).
Qed.

Lemma text_free d d' r :
  WF d -> getParent d r = None ->
  (forall y, y <> r -> y <> fresh d -> getData d' y = getData d y) ->
  (forall y, getChildren d' y = getChildren d y) ->
  forall g y s, y <> r -> y <> fresh d ->
    textContentFrom g d y = Some s -> textContentFrom g d' y = Some s.
Proof.
  intros Hwf Hp Hdata Hch. induction g as [| g IH]; intros y s Hy Hn Hs; [discriminate |].
  rewrite textContentFrom_S in *. rewrite Hdata, Hch by assumption.
  destruct (getData d y) as [[t | e] |]; try exact Hs.
  apply (texts_keep g d d' _ s Hs). intros c r' Hc Hr'.
  apply (wf_up d Hwf) in Hc. apply IH; [| | exact Hr'].
  - intros ->. congruence.
  - intros ->. rewrite (marker_new_parent d Hwf) in Hc. discriminate.
Qed.

Lemma splitText_kept w r off d :
  WF d -> getChildren d w = [] ->
  post (Text_splitText r off) d (fun _ d' => Marking.Kept d d' w).
Proof.
  intros Hwf Hw. pose proof (Kept_refl d w Hwf Hw) as Hrefl.
  destruct r as [r |]; [| exact Hrefl].
  destruct (getNodeValue d r) as [s |] eqn:Hv;
    [| unfold post, Text_splitText; rewrite Hv; exact Hrefl].
  destruct (Nat.ltb_spec (String.length s) off) as [Hlt | Hle].
  { unfold post, Text_splitText. rewrite Hv.
    destruct (Nat.ltb_spec (String.length s) off); [exact Hrefl | lia]. }
  assert (Hd : getData d r = Some (TextData s)).
  { unfold getNodeValue in Hv. destruct (getData d r) as [[? | ?] |]; congruence. }
  assert (Hra : allocated d r) by (eapply allocated_of_data, Hd).
  pose proof (allocated_below d r Hwf Hra) as Hrf.
  assert (Hgen : forall d',
    WF d' -> fresh d' = S (fresh d) ->
    (forall y, getData d' y =
               if decide (y = r) then Some (TextData (strTake off s))
               else if decide (y = fresh d) then Some (TextData (strDrop off s))
               else getData d y) ->
    getChildren d' w = [] ->
    (forall g y v, y <> r -> y <> fresh d ->
       textContentFrom g d y = Some v -> textContentFrom g d' y = Some v) ->
    Marking.Kept d d' w).
  { intros d' Hwf' Hfr Hdata Hw' Htext. split.
    - exact Hwf'.
    - lia.
    - intros y e Hy. rewrite Hdata, !decide_False; [exact Hy | |].
      + apply allocated_below; [exact Hwf | eapply allocated_of_data, Hy].
      + intros ->. congruence.
    - intros y Hy. unfold isText in *. rewrite Hdata.
      destruct (decide (y = r)); [reflexivity |].
      rewrite decide_False; [exact Hy |].
      apply allocated_below; [exact Hwf |].
      destruct (getData d y) eqn:Hdy; [| discriminate]. eapply allocated_of_data, Hdy.
    - exact Hw'.
    - intros g y v Hy Hv'. replace (fresh d' - fresh d) with 1 by lia.
      apply textContentFrom_mono, Htext; [| | exact Hv'].
      + intros ->. unfold isElement in Hy. rewrite Hd in Hy. discriminate.
      + apply allocated_below; [exact Hwf | apply isElement_allocated, Hy]. }
  destruct (getParent d r) as [p |] eqn:Hp.
  - pose proof (wf_down d Hwf r p Hp) as Hin.
    apply list_elem_of_split in Hin as (pre & post' & Hcs).
    destruct (split_ok d r p off s pre post' Hwf Hd Hp Hle Hcs)
      as (d' & Hev & Hwf' & Hfr & Hdata & Hpar & Hch & Htext).
    apply (post_eq _ _ _ _ _ Hev). apply Hgen; try assumption.
    rewrite Hch, decide_False; [exact Hw |].
    intros ->. rewrite Hcs in Hw. destruct pre; discriminate.
  - destruct (split_free d r off s Hwf Hd Hp Hle)
      as (d' & Hev & Hwf' & Hfr & Hdata & Hpar & Hch).
    apply (post_eq _ _ _ _ _ Hev). apply Hgen; try assumption.
    + rewrite Hch. exact Hw.
    + apply (text_free d d' r Hwf Hp); [| exact Hch].
      intros y Hy Hn. rewrite Hdata, !decide_False by assumption. reflexivity.
Qed.

Lemma post_gets {A} (f : Store -> A) d (Q : outcome A -> Store -> Prop) :
  Q (Ret (f d)) d -> post (gets f) d Q.
Proof. auto. Qed.

Lemma post_ret {A} (a : A) d (Q : outcome A -> Store -> Prop) :
  Q (Ret a) d -> post (ret a) d Q.
Proof. auto. Qed.

Ltac wp :=
  repeat first
    [ apply post_bind
    | apply post_gets
    | apply post_ret
    | apply post_deref; [intros ? ? |]
    | match goal with
      | |- post (if ?b then _ else _) _ _ => destruct b eqn:?
      | |- post (match ?x with _ => _ end) _ _ => destruct x eqn:?
      end ].

Lemma walkUp_keeps (P : Store -> Prop) fuel ancestor :
  forall endContainer d, P d ->
    post (Utils.walkUp fuel ancestor endContainer) d (fun _ d' => P d').
Proof.
  induction fuel as [| fuel IH]; intros ec d HP; [exact HP |].
  cbn [Utils.walkUp]. wp; auto.
Qed.

Lemma refine_kept fuel range w d :
  WF d -> getChildren d w = [] ->
  post (Utils.refineRangeBoundaries fuel range) d (fun _ d' => Marking.Kept d d' w).
Proof.
  intros Hwf Hw. pose proof (Kept_refl d w Hwf Hw) as Hrefl.
  assert (Hsplit : forall r off d1 (Q : outcome nat -> Store -> Prop),
            Marking.Kept d d1 w ->
            (forall o d2, Marking.Kept d d2 w -> Q o d2) ->
            post (Text_splitText r off) d1 Q).
  { intros r off d1 Q H1 HQ.
    apply (post_mono _ _ _ _
             (splitText_kept w r off d1 (Marking.kept_wf _ _ _ H1)
                (Marking.kept_wrapper _ _ _ H1))).
    intros o d2 H2. apply HQ, (Kept_trans _ _ _ _ H1 H2). }
  assert (Hstart : forall ec d1, Marking.Kept d d1 w ->
    post (ty <- gets (fun d => Config.nodeType d (Range.startContainer range)) ;;
          match ty with
          | Some Config.TEXT_NODE =>
              v <- gets (fun d => default "" (getNodeValue d (Range.startContainer range))) ;;
              if Nat.eqb (Range.startOffset range) (String.length v) then
                ret (Utils.mkRefined (Some (Range.startContainer range)) ec false)
              else if Nat.ltb 0 (Range.startOffset range) then
                s <- Text_splitText (Some (Range.startContainer range))
                       (Range.startOffset range) ;;
                prev <- gets (fun d => previousSibling d s) ;;
                if optEqb ec prev
                then ret (Utils.mkRefined (Some s) (Some s) true)
                else ret (Utils.mkRefined (Some s) ec true)
              else ret (Utils.mkRefined (Some (Range.startContainer range)) ec true)
          | _ =>
              cs <- gets (fun d => getChildren d (Range.startContainer range)) ;;
              if Nat.ltb (Range.startOffset range) (length cs) then
                ret (Utils.mkRefined (cs !! Range.startOffset range) ec true)
              else
                n <- gets (fun d => nextSibling d (Range.startContainer range)) ;;
                ret (Utils.mkRefined n ec true)
          end) d1 (fun _ d' => Marking.Kept d d' w)).
  { intros ec d1 H1.
    apply post_bind, post_gets.
    destruct (Config.nodeType d1 (Range.startContainer range)) as [[|] |];
      try (wp; exact H1).
    apply post_bind, post_gets.
    destruct (Nat.eqb _ _); [exact H1 |].
    destruct (Nat.ltb _ _); [| exact H1].
    apply post_bind, Hsplit; [exact H1 |].
    intros [a | e |] d2 H2; try exact H2. wp; exact H2. }
  unfold Utils.refineRangeBoundaries. cbv zeta. apply post_bind.
  destruct (Nat.eqb (Range.endOffset range) 0).
  - apply post_bind.
    apply (post_mono _ _ _ _
             (walkUp_keeps (fun d' => d' = d) fuel _ _ d eq_refl)).
    intros o d1 ->. destruct o as [e | |]; try exact Hrefl.
    apply post_bind, post_deref; [intros a _ | exact Hrefl].
    apply post_gets. apply Hstart, Hrefl.
  - apply post_bind, post_gets.
    destruct (Config.nodeType d (Range.endContainer range)) as [[|] |];
      try (apply post_gets, Hstart, Hrefl).
    apply post_bind, post_gets, post_bind.
    destruct (Nat.ltb (Range.endOffset range) _).
    + apply post_bind, Hsplit; [exact Hrefl |].
      intros [a | e |] d2 H2; try exact H2.
      apply post_ret. apply post_ret. apply Hstart, H2.
    + apply post_ret. apply post_ret. apply Hstart, Hrefl.
Qed.

Lemma marker_kept d w e :
  WF d -> getChildren d w = [] ->
  Marking.Kept d
    (setData (fresh d) (ElementData (Marking.marked e)) (snd (alloc (ElementData e) d))) w.
Proof.
  intros Hwf Hw. split.
  - apply (marker_wf d e Hwf).
  - cbn. lia.
  - intros y e0 Hy. rewrite (marker_data d e), decide_False; [exact Hy |].
    apply allocated_below; [exact Hwf | eapply allocated_of_data, Hy].
  - intros y Hy. unfold isText in *. rewrite (marker_data d e), decide_False; [exact Hy |].
    intros ->. rewrite (marker_new_data d Hwf) in Hy. discriminate.
  - rewrite (marker_children d e Hwf). exact Hw.
  - intros g y s Hy Hs. cbn [fresh setData alloc snd].
    replace (S (fresh d) - fresh d) with 1 by lia.
    apply textContentFrom_mono, (marker_text d e Hwf); [| exact Hs].
    apply allocated_below; [exact Hwf | apply isElement_allocated, Hy].
Qed.

Lemma Wrapped_kept d0 d d' w n q pre post e :
  Marking.Kept d0 d w -> allocated d w ->
  getChildren d q = pre ++ n :: post ->
  Marking.Wrapped d d' n (fresh d) q pre post e ->
  Marking.Kept d0 d' w.
Proof.
  intros HK Hwa Hcs HW.
  pose proof (Marking.kept_wf _ _ _ HK) as Hwf.
  pose proof (Marking.kept_fresh _ _ _ HK) as Hfr.
  pose proof (Marking.wr_fresh _ _ _ _ _ _ _ _ HW) as Hfr'.
  split.
  - exact (Marking.wr_wf _ _ _ _ _ _ _ _ HW).
  - lia.
  - intros y e0 Hy. apply (Marking.kept_element _ _ _ HK) in Hy.
    rewrite (Marking.wr_data _ _ _ _ _ _ _ _ HW), decide_False; [exact Hy |].
    apply allocated_below; [exact Hwf | eapply allocated_of_data, Hy].
  - intros y Hy. apply (Marking.kept_textnode _ _ _ HK) in Hy. unfold isText in *.
    rewrite (Marking.wr_data _ _ _ _ _ _ _ _ HW), decide_False; [exact Hy |].
    intros ->. rewrite (marker_new_data d Hwf) in Hy. discriminate.
  - rewrite (Marking.wr_children _ _ _ _ _ _ _ _ HW), !decide_False.
    + exact (Marking.kept_wrapper _ _ _ HK).
    + intros ->. rewrite (Marking.kept_wrapper _ _ _ HK) in Hcs.
      destruct pre; discriminate.
    + apply allocated_below; assumption.
  - intros g y s Hy Hs. destruct (isElement_getData d0 y Hy) as [e0 He0].
    apply (Marking.kept_text _ _ _ HK) in Hs; [| exact Hy].
    apply (Marking.wr_text _ _ _ _ _ _ _ _ HW) in Hs.
    + replace (fresh d' - fresh d0 + g) with (1 + (fresh d - fresh d0 + g)) by lia.
      exact Hs.
    + apply allocated_below; [exact Hwf |].
      eapply allocated_of_data, (Marking.kept_element _ _ _ HK), He0.
Qed.

Lemma post_marker {B} d w e f (k : nat -> M B) (Q : outcome B -> Store -> Prop) :
  getData d w = Some (ElementData e) -> getChildren d w = [] ->
  post (k (fresh d))
    (setData (fresh d) (ElementData (Marking.marked e)) (snd (alloc (ElementData e) d))) Q ->
  post (wrapperClone <- Platform.Node_cloneNode (S f) (Some w) ;;
        Platform.Element_setAttribute wrapperClone Config.DATA_ATTR "true" ;;;
        k wrapperClone) d Q.
Proof.
  intros Hw Hwc H. unfold post. rewrite (marker_eval d w e Hw Hwc f). exact H.
Qed.

(** What one text node of the walk changes: nothing, or a copy of the
    wrapper is made, which may take the node in. *)
Lemma wrapText_post depth el w e w0 d0 d :
  Marking.Kept d0 d w -> getData d w = Some (ElementData e) ->
  post (wrapText depth el w w0) d (fun o d' =>
    Marking.Kept d0 d' w /\ fresh d <= fresh d' /\
    (forall y, allocated d y -> getData d' y = getData d y) /\
    forall w1, o = Ret w1 ->
      highlights w1 = highlights w0 \/
      highlights w1 = highlights w0 ++ [fresh d] /\ fresh d < fresh d' /\
      getData d' (fresh d) = Some (ElementData (Marking.marked e))).
Proof.
  intros HK Hw.
  pose proof (Marking.kept_wf _ _ _ HK) as Hwf.
  pose proof (Marking.kept_wrapper _ _ _ HK) as Hwc.
  assert (Hsame : forall (o : outcome walk),
            (forall w1, o = Ret w1 -> highlights w1 = highlights w0) ->
            Marking.Kept d0 d w /\ fresh d <= fresh d /\
            (forall y, allocated d y -> getData d y = getData d y) /\
            forall w1, o = Ret w1 ->
              highlights w1 = highlights w0 \/
              highlights w1 = highlights w0 ++ [fresh d] /\ fresh d < fresh d /\
              getData d (fresh d) = Some (ElementData (Marking.marked e))).
  { intros o Ho. split; [exact HK |]. split; [lia |]. split; [reflexivity |].
    intros w1 H1. left. apply Ho, H1. }
  unfold wrapText. destruct (goDeeper w0);
    [| apply post_ret, Hsame; intros w1 [= <-]; reflexivity].
  apply post_bind, post_deref; [intros n Hn | apply Hsame; discriminate].
  apply post_bind, post_gets.
  destruct (Config.nodeType d n) as [[|] |] eqn:Hty;
    try (apply post_ret, Hsame; intros w1 [= <-]; reflexivity).
  apply post_bind, post_gets, post_bind.
  apply post_deref; [intros q Hq | apply Hsame; discriminate].
  apply post_bind, post_gets, post_bind, post_gets, post_bind.
  destruct (negb _ && negb _);
    [| apply post_ret, post_ret, Hsame; intros w1 [= <-]; reflexivity].
  destruct depth as [| f]; [apply Hsame; discriminate |].
  apply (post_marker d w e f _ _ Hw Hwc).
  set (d2 := setData (fresh d) (ElementData (Marking.marked e))
               (snd (alloc (ElementData e) d))).
  pose proof (marker_kept d w e Hwf Hwc) as HK2. fold d2 in HK2.
  assert (Hdata2 : forall y, allocated d y -> getData d2 y = getData d y).
  { intros y Hy. unfold d2. rewrite (marker_data d e), decide_False; [reflexivity |].
    apply allocated_below; assumption. }
  assert (Hh2 : getData d2 (fresh d) = Some (ElementData (Marking.marked e))).
  { unfold d2. rewrite (marker_data d e), decide_True by reflexivity. reflexivity. }
  apply post_bind, post_gets, post_bind, post_gets.
  destruct (match getParent d2 n with Some np => _ | None => false end).
  - assert (Hnt : isText d n = true).
    { unfold Config.nodeType in Hty. unfold isText.
      destruct (getData d n) as [[? | ?] |]; congruence. }
    pose proof (wf_down d Hwf n q Hq) as Hin.
    apply list_elem_of_split in Hin as (pre & post' & Hcs).
    destruct (mark_wrap e d n q pre post' Hwf Hnt Hq Hcs) as (d' & Hev & HW).
    fold d2 in Hev. apply post_bind. apply (post_eq _ _ _ _ _ Hev).
    apply post_ret, post_ret. split.
    { apply (Wrapped_kept d0 d d' w n q pre post' e HK); try assumption.
      eapply allocated_of_data, Hw. }
    split; [rewrite (Marking.wr_fresh _ _ _ _ _ _ _ _ HW); lia |].
    split.
    { intros y Hy. rewrite (Marking.wr_data _ _ _ _ _ _ _ _ HW), decide_False;
        [reflexivity | apply allocated_below; assumption]. }
    intros w1 [= <-]. right. cbn [highlights]. split; [reflexivity |].
    rewrite (Marking.wr_fresh _ _ _ _ _ _ _ _ HW).
    rewrite (Marking.wr_data _ _ _ _ _ _ _ _ HW), decide_True by reflexivity.
    split; [lia | reflexivity].
  - apply post_ret, post_ret. split; [exact (Kept_trans _ _ _ _ HK HK2) |].
    split; [unfold d2; cbn; lia |].
    split; [exact Hdata2 |].
    intros w1 [= <-]. left. reflexivity.
Qed.

Lemma atEnd_post endContainer w0 d :
  post (atEnd endContainer w0) d (fun o d' =>
    d' = d /\ forall w1, o = Ret w1 -> highlights w1 = highlights w0).
Proof.
  unfold atEnd. wp; (split; [reflexivity |]); intros w1 [= <-]; reflexivity.
Qed.

Lemma skipIgnored_post endContainer w0 d :
  post (skipIgnored endContainer w0) d (fun o d' =>
    d' = d /\ forall w1, o = Ret w1 -> highlights w1 = highlights w0).
Proof.
  unfold skipIgnored. wp; (split; [reflexivity |]); intros w1 [= <-]; reflexivity.
Qed.

Lemma advance_post w0 d :
  post (advance w0) d (fun o d' =>
    d' = d /\ forall w1, o = Ret w1 -> highlights w1 = highlights w0).
Proof.
  unfold advance. wp; (split; [reflexivity |]); intros w1 [= <-]; reflexivity.
Qed.

Lemma highlightStep_post depth el w e endContainer w0 d0 d :
  Marking.Kept d0 d w -> getData d w = Some (ElementData e) ->
  post (highlightStep depth el w endContainer w0) d (fun o d' =>
    Marking.Kept d0 d' w /\ fresh d <= fresh d' /\
    (forall y, allocated d y -> getData d' y = getData d y) /\
    forall w1, o = Ret w1 ->
      highlights w1 = highlights w0 \/
      highlights w1 = highlights w0 ++ [fresh d] /\ fresh d < fresh d' /\
      getData d' (fresh d) = Some (ElementData (Marking.marked e))).
Proof.
  intros HK Hw. unfold highlightStep. apply post_bind.
  apply (post_mono _ _ _ _ (wrapText_post depth el w e w0 d0 d HK Hw)).
  intros o d1 (HK1 & Hfr & Hdata & Hhs).
  assert (Hfail : forall o' : outcome walk, (forall w1, o' <> Ret w1) ->
            Marking.Kept d0 d1 w /\ fresh d <= fresh d1 /\
            (forall y, allocated d y -> getData d1 y = getData d y) /\
            forall w1, o' = Ret w1 ->
              highlights w1 = highlights w0 \/
              highlights w1 = highlights w0 ++ [fresh d] /\ fresh d < fresh d1 /\
              getData d1 (fresh d) = Some (ElementData (Marking.marked e))).
  { intros o' Ho'. repeat (split; [assumption |]). intros w1 H1. destruct (Ho' _ H1). }
  destruct o as [w1 | ex |]; [| apply Hfail; discriminate | apply Hfail; discriminate].
  specialize (Hhs w1 eq_refl). apply post_bind.
  apply (post_mono _ _ _ _ (atEnd_post endContainer w1 d1)).
  intros o d2 [-> H2].
  destruct o as [w2 | ex |]; [| apply Hfail; discriminate | apply Hfail; discriminate].
  specialize (H2 w2 eq_refl). apply post_bind.
  apply (post_mono _ _ _ _ (skipIgnored_post endContainer w2 d1)).
  intros o d2 [-> H3].
  destruct o as [w3 | ex |]; [| apply Hfail; discriminate | apply Hfail; discriminate].
  specialize (H3 w3 eq_refl).
  apply (post_mono _ _ _ _ (advance_post w3 d1)).
  intros o d2 [-> H4]. repeat (split; [assumption |]).
  intros w4 ->. specialize (H4 w4 eq_refl). rewrite H4, H3, H2. exact Hhs.
Qed.

(** The loop of [highlightRange], whatever its outcome: the tree keeps
    what the splitting and the wrapping keep, and the markers it returns
    besides those it started with are new elements, copies of the wrapper
    with the marker attribute, each returned once. *)
Lemma highlightLoop_post fuel depth el w e endContainer d0 :
  getData d0 w = Some (ElementData e) ->
  forall w0 d, Marking.Kept d0 d w ->
  post (highlightLoop fuel depth el w endContainer w0) d (fun o d' =>
    Marking.Kept d0 d' w /\ fresh d <= fresh d' /\
    (forall y, allocated d y -> getData d' y = getData d y) /\
    forall hs, o = Ret hs ->
      exists new, hs = highlights w0 ++ new /\ NoDup new /\
        forall h, h ∈ new ->
          fresh d <= h < fresh d' /\
          getData d' h = Some (ElementData (Marking.marked e))).
Proof.
  intros Hw0. induction fuel as [| fuel IH]; intros w0 d HK.
  { cbn [highlightLoop]. unfold post, diverge. cbn [fst snd].
    split; [exact HK |]. split; [lia |]. split; [reflexivity | discriminate]. }
  cbn [highlightLoop]. apply post_bind.
  pose proof (Marking.kept_element _ _ _ HK w e Hw0) as Hw.
  apply (post_mono _ _ _ _ (highlightStep_post depth el w e endContainer w0 d0 d HK Hw)).
  intros o d1 (HK1 & Hfr & Hdata & Hhs).
  destruct o as [w1 | ex |];
    [| split; [exact HK1 |]; split; [exact Hfr |]; split; [exact Hdata | discriminate]
     | split; [exact HK1 |]; split; [exact Hfr |]; split; [exact Hdata | discriminate]].
  specialize (Hhs w1 eq_refl).
  assert (Hnew : exists new1, highlights w1 = highlights w0 ++ new1 /\ NoDup new1 /\
            forall h, h ∈ new1 ->
              fresh d <= h < fresh d1 /\
              getData d1 h = Some (ElementData (Marking.marked e))).
  { destruct Hhs as [Hhs | (Hhs & Hlt & Hh)].
    - exists []. rewrite app_nil_r. split; [exact Hhs |]. split; [constructor |].
      intros h Hh. inversion Hh.
    - exists [fresh d]. split; [exact Hhs |]. split; [apply NoDup_singleton |].
      intros h Hin. apply list_elem_of_singleton in Hin as ->. split; [lia | exact Hh]. }
  destruct Hnew as (new1 & Hhs1 & Hnd1 & Hin1).
  destruct (done w1).
  - apply post_ret. split; [exact HK1 |]. split; [exact Hfr |]. split; [exact Hdata |].
    intros hs [= <-]. exists new1. auto.
  - apply (post_mono _ _ _ _ (IH w1 d1 HK1)).
    intros o d2 (HK2 & Hfr2 & Hdata2 & Hhs2).
    split; [exact HK2 |]. split; [lia |]. split.
    { intros y Hy. rewrite Hdata2, Hdata; [reflexivity | exact Hy |].
      destruct (allocated_getData _ _ Hy) as [v Hv].
      eapply allocated_of_data. rewrite Hdata; [exact Hv | exact Hy]. }
    intros hs ->. destruct (Hhs2 hs eq_refl) as (new2 & Heq & Hnd2 & Hin2).
    exists (new1 ++ new2). split; [rewrite Heq, Hhs1, app_assoc; reflexivity |].
    split.
    + apply NoDup_app. split; [exact Hnd1 |]. split; [| exact Hnd2].
      intros h H1 H2. apply Hin1 in H1 as [H1 _]. apply Hin2 in H2 as [H2 _]. lia.
    + intros h Hin. apply elem_of_app in Hin as [Hin | Hin].
      * destruct (Hin1 h Hin) as [Hb Hd]. split; [lia |].
        rewrite Hdata2; [exact Hd | eapply allocated_of_data, Hd].
      * destruct (Hin2 h Hin) as [Hb Hd]. split; [lia | exact Hd].
Qed.

End HighlightFacts.

(** ** [removeHighlights] leaves no marker *)

Module ClearFacts.

Import Tree TreeFacts StoreFacts RemoveFacts TextHighlighter Wp HighlightFacts Reach.

Lemma Below_under d c k x : k ∈ getChildren d c -> Below d k x -> Below d c x.
Proof.
  intros Hk. induction 1 as [x Hx | p x _ IH Hx].
  - apply (below_down d c k x); [apply below_child, Hk | exact Hx].
  - apply (below_down d c p x); [exact IH | exact Hx].
Qed.

Lemma descendantsFrom_Below f d c x : x ∈ descendantsFrom f d c -> Below d c x.
Proof.
  revert c. induction f as [| f IH]; intros c; cbn [descendantsFrom].
  - intros H. inversion H.
  - rewrite list_elem_of_In, in_flat_map. intros (k & Hk & Hx).
    apply list_elem_of_In in Hk. destruct Hx as [<- | Hx].
    + apply below_child, Hk.
    + apply (Below_under d c k x Hk), IH, list_elem_of_In, Hx.
Qed.

Lemma Below_descendants d c x :
  WF d -> is_Some (textContentFrom (S (fresh d)) d c) ->
  Below d c x -> x ∈ descendants d c.
Proof.
  intros Hwf Hsome. unfold descendants. induction 1 as [x Hx | p x _ IH Hx].
  - destruct (fresh d) as [| f] eqn:Hf.
    + pose proof (wf_alloc d Hwf c (allocated_of_child d c x Hx)). lia.
    + apply descendantsFrom_head, Hx.
  - apply (descendantsFrom_closed (fresh d) d Hwf c p x Hsome IH Hx).
Qed.

Lemma sameElements_refl D : sameElements D D.
Proof. split; reflexivity. Qed.

Lemma sameElements_trans D D1 D2 :
  sameElements D D1 -> sameElements D1 D2 -> sameElements D D2.
Proof.
  intros [H1 K1] [H2 K2]. split.
  - intros y Hy. rewrite H2, H1; [reflexivity | exact Hy |]. rewrite K1. exact Hy.
  - intros y. rewrite K2, K1. reflexivity.
Qed.

Lemma setNodeValue_data r v D : sameElements D (snd (setNodeValue r v D)).
Proof.
  unfold setNodeValue, modify. cbn [snd].
  destruct (isText D r) eqn:Ht; [| apply sameElements_refl].
  destruct (isText_getData _ _ Ht) as [s Hs].
  assert (Ha : allocated D r) by (eapply allocated_of_data, Hs).
  split.
  - intros y Hy. rewrite (getData_setData r _ D y Ha), decide_False; [reflexivity |].
    intros ->. congruence.
  - intros y. apply isText_setData, Ht.
Qed.

Lemma remove_data x D : sameElements D (snd (DomUtil.remove x D)).
Proof.
  unfold DomUtil.remove. rewrite bind_gets.
  destruct (getParent D x) as [p |] eqn:Hp; cbn [deref]; [| apply sameElements_refl].
  rewrite bind_ret. unfold bind, Node_removeChild. rewrite Hp. cbn [optEqb].
  rewrite Nat.eqb_refl. cbn [snd].
  split; intros y; [intros _ |]; unfold isText; rewrite (getData_detach D x p Hp);
    reflexivity.
Qed.

Lemma absorb_data_kept D0 t w x D :
  sameElements D0 D ->
  post (setNodeValue t w ;;; DomUtil.remove x)%js D (fun _ D' => sameElements D0 D').
Proof.
  intros H0. apply post_bind. unfold post at 1.
  pose proof (setNodeValue_data t w D) as H1.
  unfold setNodeValue at 1, modify. cbn [fst].
  unfold post. eapply sameElements_trans; [exact H0 |].
  eapply sameElements_trans; [exact H1 |]. apply remove_data.
Qed.

Lemma joinStep_data D0 t D :
  sameElements D0 D -> post (joinStep t) D (fun _ D' => sameElements D0 D').
Proof.
  intros H0. unfold joinStep.
  apply post_bind, post_gets, post_bind, post_gets, post_bind.
  assert (Hnext : forall D1, sameElements D0 D1 ->
            post (match nextSibling D t with
                  | Some n =>
                      nv <- gets (fun d => getNodeValue d n) ;;
                      match nv with
                      | Some s =>
                          v <- gets (fun d => default "null" (getNodeValue d t)) ;;
                          setNodeValue t (v +:+ s) ;;;
                          DomUtil.remove n
                      | None => ret tt
                      end
                  | None => ret tt
                  end)%js D1 (fun _ D' => sameElements D0 D')).
  { intros D1 H1. destruct (nextSibling D t) as [n |]; [| exact H1].
    apply post_bind, post_gets. destruct (getNodeValue D1 n); [| exact H1].
    apply post_bind, post_gets. apply absorb_data_kept, H1. }
  destruct (previousSibling D t) as [p |]; [| apply post_ret, Hnext, H0].
  apply post_bind, post_gets. destruct (getNodeValue D p); [| apply post_ret, Hnext, H0].
  apply post_bind, post_gets.
  apply (post_mono _ _ _ _ (absorb_data_kept D0 t _ p D H0)).
  intros o D1 H1. destruct o; [apply Hnext, H1 | exact H1 | exact H1].
Qed.

Lemma joinAll_data D0 ts :
  forall D, sameElements D0 D -> post (joinAll ts) D (fun _ D' => sameElements D0 D').
Proof.
  induction ts as [| t ts IH]; intros D H0; cbn [joinAll]; [exact H0 |].
  apply post_bind. apply (post_mono _ _ _ _ (joinStep_data D0 t D H0)).
  intros o D1 H1. destruct o; [apply IH, H1 | exact H1 | exact H1].
Qed.

Lemma hasAttribute_same D D' name y :
  getData D' y = getData D y -> hasAttribute D' y name = hasAttribute D y name.
Proof. intros H. unfold hasAttribute, getElement. rewrite H. reflexivity. Qed.

Lemma hasAttribute_text D y name : isText D y = true -> hasAttribute D y name = false.
Proof.
  intros H. destruct (isText_getData _ _ H) as [v Hv].
  unfold hasAttribute, getElement. rewrite Hv. reflexivity.
Qed.

(** The removal of one marker [hl] below [q], seen from the tree: [hl]
    leaves the tree, a child of a node was its child before or was a child
    of [hl] and is now one of [q], and the attributes stay. *)
Lemma removeStep_shape hl D q :
  WF D -> isElement D hl = true -> getParent D hl = Some q ->
  (forall x, x ∈ getChildren D hl -> isText D x = true) ->
  exists D',
    removeStep defaultOptions hl D = (Ret tt, D') /\
    getParent D' hl = None /\ WF D' /\
    (forall p x, x ∈ getChildren D' p ->
       x ∈ getChildren D p \/ (p = q /\ x ∈ getChildren D hl)) /\
    (forall y name, hasAttribute D' y name = hasAttribute D y name).
Proof.
  intros Hwf He Hpar Hts.
  destruct (list_elem_of_split _ _ (wf_down D Hwf hl q Hpar)) as (pre & post' & Hcs).
  destruct (unwrap_ok D hl q (getChildren D hl) pre post' Hwf eq_refl Hts He Hpar Hcs)
    as (D1 & Hev & Hwf1 & Hf1 & Hd1 & Hp1 & Hc1 & Ht1).
  assert (Htx1 : forall y, isText D1 y = isText D y)
    by (intros y; unfold isText; rewrite Hd1; reflexivity).
  destruct (joinAll_ok q (getChildren D hl) D1 Hwf1) as (D2 & Hj & HJ).
  { intros t Hin. rewrite Htx1. split; [exact (Hts t Hin) |]. left.
    rewrite Hp1, decide_False, decide_True; [reflexivity | exact Hin |].
    intros ->. rewrite (isText_not_isElement _ _ (Hts hl Hin)) in He. discriminate. }
  pose proof (joinAll_data D1 (getChildren D hl) D1 (sameElements_refl D1)) as Hsame.
  unfold post in Hsame. rewrite Hj in Hsame. cbn [snd] in Hsame.
  destruct Hsame as [Hdata2 Hkind2].
  assert (Hqhl : q <> hl).
  { intros Heq. pose proof (wf_down D Hwf _ _ Hpar) as Hin. rewrite Heq in Hin.
    apply (wf_up D Hwf) in Hin. rewrite Heq in Hpar.
    pose proof (wf_nodup D Hwf hl) as Hnd.
    pose proof (Hts hl (wf_down D Hwf _ _ Hpar)) as Hthl.
    rewrite (isText_not_isElement _ _ Hthl) in He. discriminate. }
  exists D2. split.
  { unfold removeStep. rewrite bind_gets. cbn [onRemoveHighlight defaultOptions].
    unfold bind. rewrite Hev. exact Hj. }
  split.
  { destruct (joined_parent _ _ _ HJ hl) as [Hp | [_ Hp]]; [| exact Hp].
    rewrite Hp, Hp1, decide_True by reflexivity. reflexivity. }
  split; [exact (joined_wf _ _ _ HJ) |].
  split.
  { intros p x Hx. destruct (decide (p = q)) as [-> | Hpq].
    - apply (joined_below _ _ _ HJ) in Hx.
      rewrite Hc1, decide_True in Hx by reflexivity.
      apply elem_of_app in Hx as [Hx | Hx].
      + left. rewrite Hcs. apply elem_of_app. left. exact Hx.
      + apply elem_of_app in Hx as [Hx | Hx]; [right; split; [reflexivity | exact Hx] |].
        left. rewrite Hcs. apply elem_of_app. right. right. exact Hx.
    - rewrite (joined_children _ _ _ HJ p Hpq), Hc1, decide_False in Hx by exact Hpq.
      destruct (decide (p = hl)); [inversion Hx | left; exact Hx]. }
  intros y name. destruct (isText D1 y) eqn:Hty.
  - rewrite (hasAttribute_text D2 y), (hasAttribute_text D y); [reflexivity | |].
    + rewrite <- Htx1. exact Hty.
    + rewrite Hkind2. exact Hty.
  - rewrite (hasAttribute_same D1 D2 name y (Hdata2 y Hty)).
    apply hasAttribute_same, Hd1.
Qed.

Lemma Below_back D D' c q hl :
  (forall p x, x ∈ getChildren D' p ->
     x ∈ getChildren D p \/ (p = q /\ x ∈ getChildren D hl)) ->
  hl ∈ getChildren D q ->
  forall x, Below D' c x -> Below D c x.
Proof.
  intros Hch Hhl x. induction 1 as [x Hx | p x _ IH Hx].
  - destruct (Hch c x Hx) as [H | [-> H]].
    + apply below_child, H.
    + apply (below_down D q hl x); [apply below_child, Hhl | exact H].
  - destruct (Hch p x Hx) as [H | [-> H]].
    + apply (below_down D c p x IH H).
    + apply (below_down D c hl x); [| exact H].
      apply (below_down D c q hl IH Hhl).
Qed.

Lemma Below_parent D c x : WF D -> Below D c x -> is_Some (getParent D x).
Proof.
  intros Hwf. destruct 1 as [x Hx | p x _ Hx]; rewrite (wf_up D Hwf _ _ Hx); eauto.
Qed.

(** The removal loop over the markers below the container: it ends, and no
    marker is below the container any more. *)
Lemma removeAll_clears container d0 dep L :
  forall D, Good container d0 dep L D ->
    (forall x, Below D container x ->
               hasAttribute D x Config.DATA_ATTR = true -> x ∈ L) ->
    NoDup L -> container ∉ L -> deepestFirst dep L ->
    exists D', removeAll defaultOptions L D = (Ret tt, D') /\
               Good container d0 dep [] D' /\
               (forall x, Below D' container x ->
                          hasAttribute D' x Config.DATA_ATTR = false) /\
               (forall y name, hasAttribute D' y name = hasAttribute D y name).
Proof.
  induction L as [| hl L IH]; intros D HG Hall Hnd Hc Hs; cbn [removeAll].
  - exists D. split; [reflexivity |]. split; [exact HG |]. split; [| reflexivity].
    intros x Hx. destruct (hasAttribute D x Config.DATA_ATTR) eqn:Hm; [| reflexivity].
    pose proof (Hall x Hx Hm) as Hin. inversion Hin.
  - apply NoDup_cons in Hnd as [HhlL Hnd]. apply not_elem_of_cons in Hc as [Hne Hc].
    destruct Hs as [Hhd Hs].
    destruct (removeStep_ok container d0 dep hl L D HG HhlL Hne Hhd) as (D1 & Hs1 & HG1).
    pose proof (good_wf _ _ _ _ _ HG) as Hwf.
    destruct (good_markers _ _ _ _ _ HG hl) as (He & [q Hpar] & _ & Hkids); [left |].
    assert (Hts : forall x, x ∈ getChildren D hl -> isText D x = true).
    { intros x Hx. destruct (Hkids x Hx) as [Ht | [Hin Hd]]; [exact Ht |].
      apply elem_of_cons in Hin as [-> | Hin]; [lia |].
      specialize (Hhd x Hin). lia. }
    destruct (removeStep_shape hl D q Hwf He Hpar Hts)
      as (D1' & Hs1' & Hgone & Hwf1 & Hch & Hattr).
    rewrite Hs1 in Hs1'. injection Hs1' as <-.
    destruct (IH D1 HG1) as (D' & Hr & HG' & Hclear & Hattr'); try assumption.
    { intros x Hx Hm.
      pose proof (Below_back D D1 container q hl Hch (wf_down D Hwf _ _ Hpar) x Hx) as Hb.
      rewrite Hattr in Hm. pose proof (Hall x Hb Hm) as Hin.
      apply elem_of_cons in Hin as [-> | Hin]; [| exact Hin].
      destruct (Below_parent D1 container hl Hwf1 Hx) as [p Hp]. congruence. }
    exists D'. split; [unfold bind; rewrite Hs1; exact Hr |].
    split; [exact HG' |]. split; [exact Hclear |].
    intros y name. rewrite Hattr', Hattr. reflexivity.
Qed.

End ClearFacts.

(** ** The flatten pass and the order of the text *)

Module FlattenFacts.

Import Tree TreeFacts StoreFacts RemoveFacts TextHighlighter Canonical HighlightFacts.

Section MoveFront.

(** The marker [hl] is the last child of the marker [P] of another colour,
    behind the children [cs]; [P] is the last child of [G], behind [z]. *)

Variables (d : Store) (hl P G z : nat) (pre cs : list nat) (cP ch : string).
Hypothesis Hwf : WF d.
Hypothesis Hhl : getParent d hl = Some P.
Hypothesis HP : getParent d P = Some G.
Hypothesis HG : getChildren d G = pre ++ [z; P].
Hypothesis HPc : getChildren d P = cs ++ [hl].
Hypothesis Hcs : cs <> [].
Hypothesis Hmark : isHighlight d (Some P) = true.
Hypothesis HcP : colourOf d P = Some cP.
Hypothesis Hch : colourOf d hl = Some ch.
Hypothesis Hdiff : cP <> ch.
Hypothesis HGe : isElement d G = true.
Hypothesis Hfree : Node_contains d hl G = false.

Let d1 := detach hl d.
Let d2 := attach hl G (Some P) d1.

Lemma front_P_elem : isElement d P = true.
Proof.
  unfold isHighlight, Config.nodeType in Hmark. unfold isElement.
  destruct (getData d P) as [[? | ?] |]; congruence.
Qed.

Lemma front_hl_G : hl <> G.
Proof.
  intros Heq. unfold Node_contains in Hfree. rewrite Heq, Nat.eqb_refl in Hfree.
  discriminate.
Qed.

Lemma front_P_hl : P <> hl.
Proof.
  intros Heq. unfold Node_contains, ancestors in Hfree.
  assert (Hin : hl ∈ ancestorsFrom (fresh d) d G); [| apply NormalizeFacts.inList_elem_of in Hin;
    rewrite Hin, orb_true_r in Hfree; discriminate].
  assert (Ha : allocated d G) by (apply isElement_allocated, HGe).
  apply (wf_alloc d Hwf) in Ha. destruct (fresh d) as [| f]; [lia |].
  cbn [ancestorsFrom].
  assert (HGp : getParent d G = Some P).
  { apply (wf_up d Hwf). rewrite HPc. apply elem_of_app. right.
    rewrite <- Heq.
    assert (HPG : P ∈ getChildren d G) by (apply (wf_down d Hwf), HP).
    rewrite Heq in HPG. rewrite Heq in HP, Hhl. congruence. }
  rewrite HGp, Heq. left.
Qed.

Lemma front_P_G : P <> G.
Proof.
  intros Heq. unfold Node_contains, ancestors in Hfree.
  assert (Ha : allocated d hl) by (eapply allocated_of_parent, Hhl).
  assert (HGG : getParent d G = Some G) by (rewrite <- Heq at 1; exact HP).
  assert (Hin : hl ∈ getChildren d G).
  { rewrite <- Heq, HPc. apply elem_of_app. right. left. }
  rewrite HG in Hin. apply elem_of_app in Hin as [Hin | Hin].
  - assert (Hnd : NoDup (cs ++ [hl])) by (rewrite <- HPc; apply (wf_nodup d Hwf)).
    rewrite <- HPc, Heq, HG in Hnd.
    assert (Hlast : last (getChildren d P) = Some hl) by (rewrite HPc; apply last_snoc).
    rewrite Heq, HG in Hlast.
    replace (pre ++ [z; P]) with ((pre ++ [z]) ++ [P]) in Hlast
      by (rewrite <- app_assoc; reflexivity).
    rewrite last_snoc in Hlast. injection Hlast as Hlast. exact (front_P_hl Hlast).
  - assert (Hlast : last (getChildren d P) = Some hl) by (rewrite HPc; apply last_snoc).
    rewrite Heq, HG in Hlast.
    replace (pre ++ [z; P]) with ((pre ++ [z]) ++ [P]) in Hlast
      by (rewrite <- app_assoc; reflexivity).
    rewrite last_snoc in Hlast. injection Hlast as Hlast. exact (front_P_hl Hlast).
Qed.

Lemma front_hl_cs : hl ∉ cs.
Proof.
  assert (Hnd : NoDup (cs ++ [hl])) by (rewrite <- HPc; apply (wf_nodup d Hwf)).
  apply NoDup_app in Hnd as (_ & Hdis & _). intros Hin. apply (Hdis hl Hin). left.
Qed.

Lemma front_P_pre : P ∉ pre ++ [z].
Proof.
  assert (Hnd : NoDup ((pre ++ [z]) ++ [P])).
  { rewrite <- app_assoc. cbn [app]. rewrite <- HG. apply (wf_nodup d Hwf). }
  apply NoDup_app in Hnd as (_ & Hdis & _). intros Hin. apply (Hdis P Hin). left.
Qed.

Lemma front_hl_pre : hl ∉ pre ++ [z].
Proof.
  intros Hin.
  assert (HinG : hl ∈ getChildren d G).
  { rewrite HG. replace (pre ++ [z; P]) with ((pre ++ [z]) ++ [P])
      by (rewrite <- app_assoc; reflexivity).
    apply elem_of_app. left. exact Hin. }
  apply (wf_up d Hwf) in HinG. rewrite Hhl in HinG. injection HinG as HinG.
  exact (front_P_G HinG).
Qed.

Lemma front_wf1 : WF d1.
Proof. apply (WF_detach d hl P Hwf Hhl). Qed.

Lemma front_parent1 y : getParent d1 y = if decide (y = hl) then None else getParent d y.
Proof. apply (getParent_detach d hl P Hhl). Qed.

Lemma front_children1 y :
  getChildren d1 y = if decide (y = P) then cs else getChildren d y.
Proof.
  unfold d1. rewrite (getChildren_detach d hl P Hwf Hhl), HPc.
  rewrite (removeRef_app hl cs [] front_hl_cs), app_nil_r. reflexivity.
Qed.

Lemma front_alloc1 y : allocated d1 y <-> allocated d y.
Proof. apply (allocated_detach d hl P Hhl). Qed.

Lemma front_hl_alloc1 : allocated d1 hl.
Proof. apply front_alloc1. eapply allocated_of_parent, Hhl. Qed.

Lemma front_G_alloc1 : allocated d1 G.
Proof. apply front_alloc1, isElement_allocated, HGe. Qed.

Lemma front_data y : getData d2 y = getData d y.
Proof. unfold d2. rewrite getData_attach. apply (getData_detach d hl P Hhl). Qed.

Lemma front_parent y : getParent d2 y = if decide (y = hl) then Some G else getParent d y.
Proof.
  unfold d2. rewrite (getParent_attach d1 hl G (Some P) front_hl_alloc1), front_parent1.
  destruct (decide (y = hl)); reflexivity.
Qed.

Lemma front_children y :
  getChildren d2 y =
  if decide (y = G) then pre ++ [z; hl; P]
  else if decide (y = P) then cs else getChildren d y.
Proof.
  unfold d2. rewrite (getChildren_attach d1 hl G (Some P) front_G_alloc1), !front_children1.
  rewrite (decide_False (P := G = P))
    by (intros Heq; symmetry in Heq; exact (front_P_G Heq)).
  destruct (decide (y = G)); [| reflexivity].
  rewrite HG. replace (pre ++ [z; P]) with ((pre ++ [z]) ++ P :: [])
    by (rewrite <- app_assoc; reflexivity).
  rewrite (insertRef_app hl P (pre ++ [z]) [] front_P_pre), <- app_assoc. reflexivity.
Qed.

Lemma front_wf : WF d2.
Proof.
  apply (WF_attach d1 hl G (Some P) front_wf1 front_hl_alloc1 front_G_alloc1).
  - rewrite front_parent1, decide_True by reflexivity. reflexivity.
  - unfold isText, d1. rewrite (getData_detach d hl P Hhl).
    apply isText_not_isElement_conv, HGe.
Qed.

Lemma front_eval : flattenStep hl d = (Ret (hl, true), d2).
Proof.
  pose proof front_P_elem as HPe.
  unfold flattenStep. rewrite bind_gets. unfold parentElement. rewrite Hhl.
  cbn [mbind option_bind]. rewrite HPe. cbn [deref]. rewrite bind_ret.
  rewrite bind_gets, bind_gets, bind_gets, Hmark.
  unfold bind at 1. rewrite (NormalizeFacts.haveSameColor_eval P hl cP ch d HcP Hch).
  destruct (String.eqb_spec cP ch) as [? | _]; [contradiction |]. cbn [negb].
  rewrite bind_gets.
  rewrite (nextSibling_in d hl P cs [] Hhl HPc front_hl_cs). cbn [head].
  replace (nextSibling d P) with (@None nat).
  2: { symmetry. pose proof HG as HG'.
       replace (pre ++ [z; P]) with ((pre ++ [z]) ++ P :: []) in HG'
         by (rewrite <- app_assoc; reflexivity).
       apply (nextSibling_in d P G (pre ++ [z]) [] HP HG' front_P_pre). }
  cbn [default from_option id].
  assert (Hins : DomUtil.insertBefore hl P d = (Ret hl, d2)).
  { unfold DomUtil.insertBefore. rewrite bind_gets, HP. cbn [deref]. rewrite bind_ret.
    apply (insertBefore_eval d G hl P P HGe Hfree HP front_P_hl Hhl). }
  unfold bind at 1. unfold bind at 1. rewrite Hins. unfold ret at 1.
  rewrite bind_gets.
  assert (Hprev : previousSibling d2 hl = Some z).
  { rewrite (previousSibling_in d2 hl G (pre ++ [z]) [P]).
    - apply last_snoc.
    - rewrite front_parent, decide_True by reflexivity. reflexivity.
    - rewrite front_children, decide_True by reflexivity.
      rewrite <- app_assoc. reflexivity.
    - exact front_hl_pre. }
  rewrite Hprev. rewrite bind_ret, bind_gets. unfold hasChildNodes.
  rewrite front_children, decide_False, decide_True by (exact front_P_G || reflexivity).
  destruct cs as [| c0 cs0]; [contradiction |]. reflexivity.
Qed.

End MoveFront.

Lemma texts_of_text d l :
  (forall x, x ∈ l -> isText d x = true) -> exists s, forall g, texts (S g) d l = Some s.
Proof.
  induction l as [| x l IH]; intros Hl.
  - exists "". intros g. apply texts_nil.
  - destruct IH as [s Hs]; [intros y Hy; apply Hl; right; exact Hy |].
    destruct (isText_getData d x (Hl x ltac:(left))) as [v Hv].
    exists (v +:+ s). intros g. rewrite (texts_text g d x v l Hv), Hs. reflexivity.
Qed.

Lemma textContent_from d y s g :
  g <= S (fresh d) -> textContentFrom g d y = Some s -> textContent d y = s.
Proof.
  intros Hle H. unfold textContent.
  rewrite (textContentFrom_le g (S (fresh d)) d y s Hle H). reflexivity.
Qed.

End FlattenFacts.

(** ** Highlighting and removing again *)

Module RoundFacts.

Import Tree TreeFacts StoreFacts RemoveFacts TextHighlighter HighlightFacts.




Lemma descendantsFrom_leaf f D x : getChildren D x = [] -> descendantsFrom f D x = [].
Proof. intros H. destruct f; cbn [descendantsFrom]; [| rewrite H]; reflexivity. Qed.


(** *** Finding the markers again *)

Lemma descendantsFrom_mono d c x :
  forall f f', f <= f' -> x ∈ descendantsFrom f d c -> x ∈ descendantsFrom f' d c.
Proof.
  intros f. revert c. induction f as [| f IH]; intros c f' Hle Hx; [inversion Hx |].
  destruct f' as [| f']; [lia |]. cbn [descendantsFrom] in *.
  apply list_elem_of_In, in_flat_map in Hx as (k & Hk & Hx).
  apply list_elem_of_In, in_flat_map. exists k. split; [exact Hk |].
  destruct Hx as [<- | Hx]; [left; reflexivity | right].
  apply list_elem_of_In, (IH k f'); [lia | apply list_elem_of_In, Hx].
Qed.

Lemma descendantsFrom_step d c p x :
  forall f, p ∈ descendantsFrom f d c -> x ∈ getChildren d p ->
    x ∈ descendantsFrom (S f) d c.
Proof.
  intros f. revert c. induction f as [| f IH]; intros c Hp Hx; [inversion Hp |].
  cbn [descendantsFrom] in Hp. apply list_elem_of_In, in_flat_map in Hp as (k & Hk & Hp).
  change (descendantsFrom (S (S f)) d c)
    with (flat_map (fun c0 => c0 :: descendantsFrom (S f) d c0) (getChildren d c)).
  apply list_elem_of_In, in_flat_map. exists k. split; [exact Hk |].
  right. apply list_elem_of_In. destruct Hp as [<- | Hp].
  - apply descendantsFrom_head, Hx.
  - apply (IH k); [apply list_elem_of_In, Hp | exact Hx].
Qed.

Lemma ancestors_descendants d c :
  WF d -> forall f x, c ∈ ancestorsFrom f d x -> x ∈ descendantsFrom f d c.
Proof.
  intros Hwf. induction f as [| f IH]; intros x Hc; [inversion Hc |].
  cbn [ancestorsFrom] in Hc. destruct (getParent d x) as [p |] eqn:Hp; [| inversion Hc].
  pose proof (wf_down d Hwf x p Hp) as Hx.
  apply elem_of_cons in Hc as [-> | Hc].
  - apply descendantsFrom_head, Hx.
  - apply (descendantsFrom_step d c p x f (IH p Hc) Hx).
Qed.

(** A descendant other than the text node [t] stays one when the children
    of a node stay its children but for [t]. *)
Lemma descendantsFrom_keep d d' t :
  getChildren d t = [] ->
  (forall z k, k ∈ getChildren d z -> k <> t -> k ∈ getChildren d' z) ->
  forall f c y, y <> t -> y ∈ descendantsFrom f d c -> y ∈ descendantsFrom f d' c.
Proof.
  intros Ht Hch. induction f as [| f IH]; intros c y Hy Hin; [inversion Hin |].
  cbn [descendantsFrom] in *.
  apply list_elem_of_In, in_flat_map in Hin as (k & Hk & Hin).
  apply list_elem_of_In in Hk.
  assert (Hkt : k <> t).
  { intros ->. destruct Hin as [<- | Hin]; [contradiction |].
    rewrite (descendantsFrom_leaf f d t Ht) in Hin. inversion Hin. }
  apply list_elem_of_In, in_flat_map. exists k.
  split; [apply list_elem_of_In, Hch; assumption |].
  destruct Hin as [<- | Hin]; [left; reflexivity | right].
  apply list_elem_of_In, IH; [exact Hy | apply list_elem_of_In, Hin].
Qed.

(** The chain of ancestors of a node with children stays when the nodes
    with children keep their parents. *)
Lemma ancestorsFrom_keep d d' x :
  WF d -> (forall y, getChildren d y <> [] -> getParent d' y = getParent d y) ->
  forall f f' y, f <= f' -> getChildren d y <> [] ->
    x ∈ ancestorsFrom f d y -> x ∈ ancestorsFrom f' d' y.
Proof.
  intros Hwf Hp. induction f as [| f IH]; intros f' y Hle Hy Hin; [inversion Hin |].
  destruct f' as [| f']; [lia |]. cbn [ancestorsFrom] in *. rewrite Hp by exact Hy.
  destruct (getParent d y) as [p |] eqn:Hpy; [| inversion Hin].
  apply elem_of_cons in Hin as [-> | Hin]; [left |].
  right. apply IH; [lia | | exact Hin].
  intros Hnil. pose proof (wf_down d Hwf y p Hpy) as Hc. rewrite Hnil in Hc. inversion Hc.
Qed.

End RoundFacts.

(** ** [serializeHighlights] on an element that is a marker *)

Module SerializeFacts.

Import Tree TreeFacts StoreFacts RemoveFacts TextHighlighter.

(** In a chain of ancestors that ends within the bound, an ancestor has a
    shorter chain. *)
Lemma ancestor_shorter d :
  forall f z z', length (ancestorsFrom f d z) < f -> z' ∈ ancestorsFrom f d z ->
    length (ancestorsFrom f d z') < length (ancestorsFrom f d z).
Proof.
  induction f as [| f IH]; intros z z' Hlen Hin; [inversion Hin |].
  cbn [ancestorsFrom] in Hlen, Hin |- *.
  destruct (getParent d z) as [p |] eqn:Hp; [| inversion Hin].
  cbn [length] in Hlen |- *.
  assert (Hp' : length (ancestorsFrom f d p) < f) by lia.
  apply elem_of_cons in Hin as [-> | Hin].
  - pose proof (ancestorsFrom_complete f d p Hp') as Heq. cbn [ancestorsFrom] in Heq.
    rewrite Heq. lia.
  - pose proof (IH p z' Hp' Hin) as Hlt.
    assert (Hz' : length (ancestorsFrom f d z') < f) by lia.
    pose proof (ancestorsFrom_complete f d z' Hz') as Heq. cbn [ancestorsFrom] in Heq.
    rewrite Heq. lia.
Qed.

Lemma ancestors_acyclic d f y :
  length (ancestorsFrom f d y) < f -> y ∉ ancestorsFrom f d y.
Proof. intros Hlen Hin. pose proof (ancestor_shorter d f y y Hlen Hin). lia. Qed.

(** A chain that ends within one bound is the same within any bound that
    it does not reach. *)
Lemma ancestorsFrom_stable d :
  forall f f' y, length (ancestorsFrom f d y) < f -> length (ancestorsFrom f d y) < f' ->
    ancestorsFrom f' d y = ancestorsFrom f d y.
Proof.
  induction f as [| f IH]; intros f' y Hlen Hlen'; [lia |].
  destruct f' as [| f']; [lia |]. cbn [ancestorsFrom] in *.
  destruct (getParent d y) as [p |]; [| reflexivity].
  cbn [length] in *. f_equal. apply IH; lia.
Qed.

(** The path of a node whose chain of ancestors ends without meeting the
    reference element: the loop runs into the parent of the root. *)
Lemma getElementPath_off d refElement :
  forall fuel e path,
    length (ancestorsFrom fuel d e) < fuel -> refElement ∉ ancestorsFrom fuel d e ->
    getElementPath fuel (Some e) refElement path d
    = (Throw (TypeError "childNodes of null"), d).
Proof.
  induction fuel as [| fuel IH]; intros e path Hlen Hnot; [lia |].
  cbn [getElementPath ancestorsFrom deref] in *. rewrite bind_ret, bind_gets.
  destruct (getParent d e) as [p |] eqn:Hp; cbn [deref]; [| reflexivity].
  rewrite bind_ret, bind_gets. cbn [length] in Hlen.
  apply not_elem_of_cons in Hnot as [Hne Hnot].
  destruct (Nat.eqb_spec p refElement) as [-> | _]; [contradiction |].
  apply IH; [lia | exact Hnot].
Qed.

(** A descendant lies deeper than the node it descends from. *)
Lemma descendant_deeper d :
  WF d -> forall f c y,
    (forall x, x ∈ descendantsFrom f d c -> length (ancestors d x) < fresh d) ->
    y ∈ descendantsFrom f d c -> (Utils.depth d c < Utils.depth d y)%Z.
Proof.
  intros Hwf. induction f as [| f IH]; intros c y Hb Hy; [inversion Hy |].
  cbn [descendantsFrom] in Hy.
  apply list_elem_of_In, in_flat_map in Hy as (k & Hk & Hy).
  apply list_elem_of_In in Hk.
  assert (Hck : (Utils.depth d c < Utils.depth d k)%Z).
  { apply depth_child; [apply (wf_up d Hwf _ _ Hk) |].
    apply Hb, descendantsFrom_head, Hk. }
  destruct Hy as [<- | Hy]; [exact Hck |].
  apply list_elem_of_In in Hy.
  assert (Hky : (Utils.depth d k < Utils.depth d y)%Z); [| lia].
  apply (IH k y); [| exact Hy].
  intros x Hx. apply Hb. cbn [descendantsFrom].
  apply list_elem_of_In, in_flat_map. exists k.
  split; [apply list_elem_of_In, Hk | right; apply list_elem_of_In, Hx].
Qed.

(** The sort by ascending depth puts a last entry that is less deep than
    all the others first. *)
Lemma sort_last_first (dep : nat -> Z) l x :
  (forall y, y ∈ l -> (dep x < dep y)%Z) ->
  exists rest, Utils.sort (fun a b => (dep a - dep b)%Z) (l ++ [x]) = x :: rest.
Proof.
  intros Hl. unfold Utils.sort. rewrite fold_left_app. cbn [fold_left].
  fold (Utils.sort (fun a b => (dep a - dep b)%Z) l).
  destruct (Utils.sort (fun a b => (dep a - dep b)%Z) l) as [| y rest] eqn:Hs.
  - exists []. reflexivity.
  - assert (Hy : y ∈ l).
    { apply (NormalizeFacts.elem_of_sort (fun a b => (dep a - dep b)%Z)). rewrite Hs. left. }
    specialize (Hl y Hy). cbn [Utils.insertSorted].
    destruct (Z.leb_spec (dep y - dep x) 0); [lia |]. eauto.
Qed.

End SerializeFacts.

(** ** The order of the result of [normalizeHighlights] *)

Module SortFacts.

Import Utils.

Section Sorted.

(** The sort with a comparator that is total and transitive. *)

Context {A : Type} (cmp : A -> A -> Z).
Hypothesis Htotal : forall a b, (cmp a b <= 0)%Z \/ (cmp b a <= 0)%Z.
Hypothesis Htrans : forall a b c, (cmp a b <= 0)%Z -> (cmp b c <= 0)%Z -> (cmp a c <= 0)%Z.

Lemma insertSorted_sorted x l :
  StronglySorted (fun a b => (cmp a b <= 0)%Z) l ->
  StronglySorted (fun a b => (cmp a b <= 0)%Z) (insertSorted cmp x l).
Proof.
  induction l as [| y l IH]; intros Hs; cbn [insertSorted].
  - repeat constructor.
  - apply StronglySorted_inv in Hs as [Hs Hy].
    destruct (Z.leb_spec (cmp y x) 0) as [Hle | Hgt].
    + constructor; [apply IH, Hs |].
      rewrite Forall_forall in *. intros z Hz.
      apply NormalizeFacts.elem_of_insertSorted in Hz as [-> | Hz]; [exact Hle | auto].
    + assert (Hxy : (cmp x y <= 0)%Z) by (destruct (Htotal x y); [assumption | lia]).
      constructor; [constructor; assumption |].
      constructor; [exact Hxy |].
      rewrite Forall_forall in *. intros z Hz. apply (Htrans x y z Hxy), Hy, Hz.
Qed.

Lemma sort_sorted l : StronglySorted (fun a b => (cmp a b <= 0)%Z) (sort cmp l).
Proof.
  unfold sort.
  assert (H : forall acc, StronglySorted (fun a b => (cmp a b <= 0)%Z) acc ->
            StronglySorted (fun a b => (cmp a b <= 0)%Z)
              (fold_left (fun acc x => insertSorted cmp x acc) l acc)).
  { induction l as [| x l IH]; intros acc Hacc; cbn [fold_left]; [exact Hacc |].
    apply IH, insertSorted_sorted, Hacc. }
  apply H. constructor.
Qed.

End Sorted.

Lemma StronglySorted_impl {A} (R R' : A -> A -> Prop) l :
  (forall a b, R a b -> R' a b) -> StronglySorted R l -> StronglySorted R' l.
Proof.
  intros H. induction 1 as [| a l _ IH Hall]; constructor; [exact IH |].
  rewrite Forall_forall in *. auto.
Qed.

End SortFacts.

(** ** The walk of [highlightRange] over a run of text siblings *)

Module WalkFacts.

Import Tree TreeFacts StoreFacts RemoveFacts TextHighlighter HighlightFacts.

Lemma contains_wrapped D D1 el t q pre post e :
  WF D -> Marking.Wrapped D D1 t (fresh D) q pre post e ->
  isText D t = true -> getChildren D q = pre ++ t :: post ->
  Node_contains D el q = true -> Node_contains D1 el q = true.
Proof.
  intros Hwf HW Ht Hcs Hc. unfold Node_contains in *.
  destruct (Nat.eqb el q); [reflexivity |]. cbn [orb] in *.
  apply NormalizeFacts.inList_elem_of. apply NormalizeFacts.inList_elem_of in Hc.
  unfold ancestors in *. rewrite (Marking.wr_fresh _ _ _ _ _ _ _ _ HW).
  assert (Hpar : forall y, getChildren D y <> [] -> getParent D1 y = getParent D y).
  { intros y Hy. rewrite (Marking.wr_parent _ _ _ _ _ _ _ _ HW), !decide_False;
      [reflexivity | |].
    - intros ->. apply Hy, (marker_new_children D Hwf).
    - intros ->. apply Hy, (wf_leaf D Hwf t Ht). }
  apply (RoundFacts.ancestorsFrom_keep D D1 el Hwf Hpar (fresh D) (S (fresh D)) q);
    [lia | | exact Hc].
  rewrite Hcs. destruct pre; discriminate.
Qed.

Lemma allocated_wrapped D D1 t h q pre post e y :
  Marking.Wrapped D D1 t h q pre post e -> allocated D y -> y <> h -> allocated D1 y.
Proof.
  intros HW Hy Hne. destruct (allocated_getData _ _ Hy) as [v Hv].
  apply (allocated_of_data D1 y v).
  rewrite (Marking.wr_data _ _ _ _ _ _ _ _ HW), decide_False by exact Hne. exact Hv.
Qed.

Section Siblings.

Variables (f el w : nat) (e : Element) (q : nat) (post : list nat) (tlast : nat).
Hypothesis Htag : Config.ignored (Some (tagName e)) = false.

Lemma walk_siblings :
  forall ts pre hs0 fuel D t0,
    WF D -> getChildren D q = pre ++ ts ++ post ->
    head ts = Some t0 -> last ts = Some tlast ->
    (forall t, t ∈ ts -> exists v, getData D t = Some (TextData v) /\ Platform.trim v <> "") ->
    Config.ignored (tagName <$> getElement D q) = false ->
    getData D w = Some (ElementData e) -> getChildren D w = [] ->
    Node_contains D el q = true ->
    2 * length ts <= S fuel ->
    exists D',
      highlightLoop fuel (S f) el w (Some tlast) (mkWalk (Some t0) true false hs0) D
      = (Ret (hs0 ++ seq (fresh D) (length ts)), D') /\
      Marking.wrappedRun e q post D D' pre ts.
Proof.
  induction ts as [| t ts IH]; intros pre hs0 fuel D t0 Hwf Hcs Hhead Hlast Htexts Hig Hw Hwc
    Hin Hfuel; [discriminate |].
  cbn [head] in Hhead. injection Hhead as <-.
  destruct (Htexts t ltac:(left)) as (v & Hv & Htrim).
  assert (Hcs' : getChildren D q = pre ++ t :: (ts ++ post)) by exact Hcs.
  assert (Hq : getParent D t = Some q).
  { apply (wf_up D Hwf). rewrite Hcs'. apply elem_of_app. right. left. }
  assert (Htt : isText D t = true) by (unfold isText; rewrite Hv; reflexivity).
  destruct (wrapText_wraps f el w e D t q pre (ts ++ post) false hs0 v
              Hwf Hv Hq Hcs' Hig Htrim Hw Hwc Hin) as (D1 & Hev & HW).
  set (h := fresh D) in *.
  pose proof (Marking.wr_wf _ _ _ _ _ _ _ _ HW) as Hwf1.
  pose proof (Marking.wr_fresh _ _ _ _ _ _ _ _ HW) as Hfr1.
  assert (Hnd : NoDup (pre ++ t :: ts ++ post)) by (rewrite <- Hcs'; apply (wf_nodup D Hwf)).
  apply NoDup_app in Hnd as (_ & _ & Hnd). apply NoDup_cons in Hnd as [Htts _].
  assert (Htts' : t ∉ ts) by (intros Hx; apply Htts, elem_of_app; left; exact Hx).
  assert (Hth : t <> h).
  { intros Heq. rewrite Heq in Hv. unfold h in Hv.
    rewrite (marker_new_data D Hwf) in Hv. discriminate. }
  assert (Hqa : allocated D q).
  { apply (allocated_of_child D q t). rewrite Hcs'. apply elem_of_app. right. left. }
  assert (Hqh : q <> h) by (apply allocated_below; assumption).
  assert (Htq : t <> q).
  { intros Heq. pose proof (wf_leaf D Hwf t Htt) as Hl. rewrite Heq, Hcs' in Hl.
    destruct pre; discriminate. }
  assert (Htc1 : getChildren D1 t = []).
  { rewrite (Marking.wr_children _ _ _ _ _ _ _ _ HW), !decide_False by assumption.
    apply (wf_leaf D Hwf t Htt). }
  assert (Htd1 : getData D1 t = Some (TextData v)).
  { rewrite (Marking.wr_data _ _ _ _ _ _ _ _ HW), decide_False by assumption. exact Hv. }
  assert (Htp1 : getParent D1 t = Some h).
  { rewrite (Marking.wr_parent _ _ _ _ _ _ _ _ HW), decide_True by reflexivity.
    reflexivity. }
  assert (Hhc1 : getChildren D1 h = [t]).
  { rewrite (Marking.wr_children _ _ _ _ _ _ _ _ HW), decide_True by reflexivity.
    reflexivity. }
  assert (Hhd1 : getData D1 h = Some (ElementData (Marking.marked e))).
  { rewrite (Marking.wr_data _ _ _ _ _ _ _ _ HW), decide_True by reflexivity.
    reflexivity. }
  assert (Hhp1 : getParent D1 h = Some q).
  { rewrite (Marking.wr_parent _ _ _ _ _ _ _ _ HW), decide_False, decide_True
      by (auto; intros Heq; symmetry in Heq; contradiction).
    reflexivity. }
  assert (Hqc1 : getChildren D1 q = pre ++ h :: ts ++ post).
  { rewrite (Marking.wr_children _ _ _ _ _ _ _ _ HW), decide_False, decide_True
      by (exact Hqh || reflexivity).
    reflexivity. }
  assert (H2 : forall dn hs, skipIgnored (Some tlast) (mkWalk (Some t) false dn hs) D1
               = (Ret (mkWalk (Some t) false dn hs), D1)).
  { intros dn hs. unfold skipIgnored. cbn [node goDeeper done highlights deref].
    rewrite bind_ret, bind_gets. unfold getElement. rewrite Htd1. reflexivity. }
  assert (H3 : forall dn hs, advance (mkWalk (Some t) false dn hs) D1
               = (Ret (mkWalk (Some h) false dn hs), D1)).
  { intros dn hs. unfold advance. cbn [node goDeeper done highlights deref andb].
    rewrite bind_ret, bind_gets, bind_gets.
    rewrite (nextSibling_in D1 t h [] [] Htp1 Hhc1) by (intros Hn; inversion Hn).
    cbn [head]. rewrite bind_gets, Htp1. reflexivity. }
  assert (Hrun1 : forall y, allocated D y -> y <> h).
  { intros y Hy. apply allocated_below; assumption. }
  destruct ts as [| t2 ts'].
  - (* the last text node of the run *)
    cbn [last] in Hlast. injection Hlast as <-.
    assert (H1 : atEnd (Some t) (mkWalk (Some t) false false (hs0 ++ [h])) D1
                 = (Ret (mkWalk (Some t) false true (hs0 ++ [h])), D1)).
    { unfold atEnd. cbn [node goDeeper done highlights optEqb].
      rewrite Nat.eqb_refl. cbn [deref]. rewrite bind_ret, bind_gets.
      unfold hasChildNodes. rewrite Htc1. reflexivity. }
    exists D1. split.
    { destruct fuel as [| fuel]; [cbn in Hfuel; lia |].
      cbn [highlightLoop]. unfold bind at 1. unfold highlightStep. unfold bind at 1.
      rewrite Hev. unfold bind at 1. rewrite H1. unfold bind at 1. rewrite H2, H3.
      reflexivity. }
    split; [exact Hwf1 |]. split; [cbn [length]; lia |]. split; [exact Hqc1 |].
    split.
    { intros i t' Hi. destruct i as [| i]; [| destruct i; discriminate].
      injection Hi as <-. rewrite Nat.add_0_r. fold h. auto. }
    split.
    { intros y Hy. rewrite (Marking.wr_data _ _ _ _ _ _ _ _ HW), decide_False
        by (apply Hrun1, Hy). reflexivity. }
    split.
    { intros y Hy Hyt. rewrite (Marking.wr_parent _ _ _ _ _ _ _ _ HW), !decide_False;
        [reflexivity | apply Hrun1, Hy |].
      intros ->. apply Hyt. left. }
    intros y Hy Hyq. rewrite (Marking.wr_children _ _ _ _ _ _ _ _ HW), !decide_False;
      [reflexivity | exact Hyq | apply Hrun1, Hy].
  - (* a text node with text nodes behind it *)
    assert (Hlast' : last (t2 :: ts') = Some tlast) by exact Hlast.
    assert (Htl : tlast ∈ t2 :: ts').
    { apply list_elem_of_lookup. rewrite last_lookup in Hlast'. eauto. }
    assert (Htlast : t <> tlast) by (intros ->; contradiction).
    assert (Hhlast : h <> tlast).
    { intros Heq. destruct (Htexts tlast) as (v' & Hv' & _); [right; exact Htl |].
      rewrite <- Heq in Hv'. unfold h in Hv'. rewrite (marker_new_data D Hwf) in Hv'.
      discriminate. }
    assert (H1 : atEnd (Some tlast) (mkWalk (Some t) false false (hs0 ++ [h])) D1
                 = (Ret (mkWalk (Some t) false false (hs0 ++ [h])), D1)).
    { unfold atEnd. cbn [node goDeeper done highlights optEqb].
      destruct (Nat.eqb_spec t tlast); [contradiction | reflexivity]. }
    assert (H1' : atEnd (Some tlast) (mkWalk (Some h) false false (hs0 ++ [h])) D1
                  = (Ret (mkWalk (Some h) false false (hs0 ++ [h])), D1)).
    { unfold atEnd. cbn [node goDeeper done highlights optEqb].
      destruct (Nat.eqb_spec h tlast); [contradiction | reflexivity]. }
    assert (H2' : skipIgnored (Some tlast) (mkWalk (Some h) false false (hs0 ++ [h])) D1
                  = (Ret (mkWalk (Some h) false false (hs0 ++ [h])), D1)).
    { unfold skipIgnored. cbn [node goDeeper done highlights deref].
      rewrite bind_ret, bind_gets. unfold getElement. rewrite Hhd1.
      cbn [fmap option_fmap option_map Marking.marked tagName]. rewrite Htag.
      rewrite andb_false_r. reflexivity. }
    assert (H3' : advance (mkWalk (Some h) false false (hs0 ++ [h])) D1
                  = (Ret (mkWalk (Some t2) true false (hs0 ++ [h])), D1)).
    { unfold advance. cbn [node goDeeper done highlights deref andb].
      rewrite bind_ret, bind_gets, bind_gets.
      rewrite (nextSibling_in D1 h q pre ((t2 :: ts') ++ post) Hhp1 Hqc1).
      - reflexivity.
      - intros Hx. apply (Hrun1 h); [| reflexivity].
        apply (allocated_of_parent D h q). apply (wf_up D Hwf). rewrite Hcs'.
        apply elem_of_app. left. exact Hx. }
    destruct (IH (pre ++ [h]) (hs0 ++ [h]) (Nat.pred (Nat.pred fuel)) D1 t2 Hwf1)
      as (D' & Hloop & HR).
    { rewrite Hqc1, <- app_assoc. reflexivity. }
    { reflexivity. }
    { exact Hlast'. }
    { intros t' Ht'. destruct (Htexts t' ltac:(right; exact Ht')) as (v' & Hv' & Htr').
      exists v'. split; [| exact Htr'].
      rewrite (Marking.wr_data _ _ _ _ _ _ _ _ HW), decide_False; [exact Hv' |].
      apply Hrun1. eapply allocated_of_data, Hv'. }
    { unfold getElement. rewrite (Marking.wr_data _ _ _ _ _ _ _ _ HW), decide_False
        by exact Hqh. exact Hig. }
    { rewrite (Marking.wr_data _ _ _ _ _ _ _ _ HW), decide_False; [exact Hw |].
      apply Hrun1. eapply allocated_of_data, Hw. }
    { rewrite (Marking.wr_children _ _ _ _ _ _ _ _ HW), !decide_False; [exact Hwc | |].
      - intros ->. rewrite Hcs' in Hwc. destruct pre; discriminate.
      - apply Hrun1. eapply allocated_of_data, Hw. }
    { apply (contains_wrapped D D1 el t q pre ((t2 :: ts') ++ post) e); assumption. }
    { cbn [length] in Hfuel |- *. lia. }
    destruct HR as (HwfR & HfrR & HqR & HiR & HdR & HpR & HcR).
    assert (Hha1 : allocated D1 h) by (eapply allocated_of_data, Hhd1).
    assert (Hta1 : allocated D1 t) by (eapply allocated_of_data, Htd1).
    exists D'. split.
    { destruct fuel as [| [| fuel]]; [cbn in Hfuel; lia | cbn in Hfuel; lia |].
      cbn [Nat.pred] in Hloop.
      cbn [highlightLoop]. unfold bind at 1. unfold highlightStep. unfold bind at 1.
      rewrite Hev. unfold bind at 1. rewrite H1. unfold bind at 1. rewrite H2, H3.
      cbn [done]. unfold bind at 1. unfold bind at 1.
      cbn [wrapText goDeeper]. unfold ret at 1. unfold bind at 1. rewrite H1'.
      unfold bind at 1. rewrite H2', H3'. cbn [done].
      rewrite Hloop. rewrite Hfr1, <- app_assoc. reflexivity. }
    split; [exact HwfR |]. split; [rewrite HfrR, Hfr1; cbn [length]; lia |].
    split.
    { rewrite HqR, Hfr1, <- app_assoc. reflexivity. }
    split.
    { intros i t' Hi. destruct i as [| i].
      - injection Hi as <-. rewrite Nat.add_0_r. fold h.
        rewrite (HcR h Hha1) by (intros Heq; symmetry in Heq; contradiction).
        rewrite (HpR t Hta1 Htts'), (HdR h Hha1), (HpR h Hha1).
        + auto.
        + intros Hx. apply (Hrun1 h); [| reflexivity].
          destruct (Htexts h ltac:(right; exact Hx)) as (v' & Hv' & _).
          eapply allocated_of_data, Hv'.
      - cbn [lookup list_lookup] in Hi. specialize (HiR i t' Hi).
        rewrite Hfr1 in HiR.
        replace (fresh D + S i) with (S (fresh D) + i) by lia. exact HiR. }
    split.
    { intros y Hy. rewrite HdR by (apply (allocated_wrapped _ _ _ _ _ _ _ _ _ HW Hy), Hrun1, Hy).
      rewrite (Marking.wr_data _ _ _ _ _ _ _ _ HW), decide_False by (apply Hrun1, Hy).
      reflexivity. }
    split.
    { intros y Hy Hyt. apply not_elem_of_cons in Hyt as [Hyt Hyts].
      rewrite HpR; [| apply (allocated_wrapped _ _ _ _ _ _ _ _ _ HW Hy), Hrun1, Hy | exact Hyts].
      rewrite (Marking.wr_parent _ _ _ _ _ _ _ _ HW), !decide_False;
        [reflexivity | apply Hrun1, Hy | exact Hyt]. }
    intros y Hy Hyq.
    rewrite HcR; [| apply (allocated_wrapped _ _ _ _ _ _ _ _ _ HW Hy), Hrun1, Hy | exact Hyq].
    rewrite (Marking.wr_children _ _ _ _ _ _ _ _ HW), !decide_False;
      [reflexivity | exact Hyq | apply Hrun1, Hy].
Qed.

End Siblings.

End WalkFacts.
(** * Further properties of the code *)

(** ** utils.js *)

Module UtilsFacts.

Import Utils.

Lemma indexOf_bound r l i : indexOf r l = Some i -> i < length l.
Proof.
  revert i. induction l as [| x l IH]; intros i; cbn; [discriminate |].
  destruct (Nat.eqb x r); [intros [= <-]; lia |].
  destruct (indexOf r l) as [j |]; cbn; [| discriminate].
  intros [= <-]. specialize (IH j eq_refl). lia.
Qed.

Lemma indexOf_elem r l : r ∈ l -> is_Some (indexOf r l).
Proof.
  induction l as [| x l IH]; intros H; [inversion H |]. cbn.
  destruct (Nat.eqb_spec x r) as [-> | Hne]; [eauto |].
  apply elem_of_cons in H as [-> | H]; [congruence |].
  destruct (IH H) as [j ->]. cbn. eauto.
Qed.

Lemma indexOf_app_l r pre l : r ∈ pre -> indexOf r (pre ++ l) = indexOf r pre.
Proof.
  induction pre as [| x pre IH]; intros H; [inversion H |]. cbn.
  destruct (Nat.eqb_spec x r) as [-> | Hne]; [reflexivity |].
  apply elem_of_cons in H as [-> | H]; [congruence |].
  rewrite (IH H). reflexivity.
Qed.

(** The walk of [unique] with the values seen so far writes what the filter
    of the source keeps. *)
Lemma uniqueFilter_from arr :
  forall pre seen,
    (forall x, x ∈ seen <-> x ∈ pre) ->
    snd <$> filter (fun iv => indexOf (snd iv) (pre ++ arr) = Some (fst iv))
              (imap (fun i v => (length pre + i, v)) arr)
    = uniqueFrom seen arr.
Proof.
  induction arr as [| x arr IH]; intros pre seen Hseen; [reflexivity |].
  rewrite imap_cons. cbn [uniqueFrom].
  assert (Htail : forall seen',
            (forall y, y ∈ seen' <-> y ∈ pre ++ [x]) ->
            snd <$> filter (fun iv => indexOf (snd iv) (pre ++ x :: arr) = Some (fst iv))
                      (imap ((fun i v => (length pre + i, v)) ∘ S) arr)
            = uniqueFrom seen' arr).
  { intros seen' Hs. rewrite <- (IH (pre ++ [x]) seen' Hs).
    rewrite <- app_assoc. cbn [app]. f_equal. f_equal.
    apply imap_ext. intros i v _. cbn. rewrite length_app. cbn. f_equal. lia. }
  destruct (inList x seen) eqn:Hx.
  - apply NormalizeFacts.inList_elem_of, Hseen in Hx.
    rewrite filter_cons_False.
    + apply Htail. intros y. rewrite elem_of_app, list_elem_of_singleton, Hseen.
      split; [tauto |]. intros [H | ->]; assumption.
    + cbn. rewrite (indexOf_app_l _ _ _ Hx).
      destruct (indexOf_elem _ _ Hx) as [j Hj]. rewrite Hj.
      apply indexOf_bound in Hj. intros [= ->]. lia.
  - assert (Hnot : x ∉ pre).
    { intros Hin. apply Hseen, NormalizeFacts.inList_elem_of in Hin. congruence. }
    rewrite filter_cons_True.
    + cbn [fmap list_fmap snd]. f_equal. apply Htail.
      intros y. rewrite elem_of_cons, elem_of_app, list_elem_of_singleton, Hseen. tauto.
    + cbn. rewrite (StoreFacts.indexOf_app x pre arr Hnot). f_equal. lia.
Qed.

Lemma unique_uniqueFilter arr : unique arr = uniqueFilter arr.
Proof.
  unfold unique, uniqueFilter. rewrite <- (uniqueFilter_from arr [] []); [| tauto].
  reflexivity.
Qed.

Lemma NoDup_uniqueFrom seen arr : NoDup (uniqueFrom seen arr).
Proof.
  revert seen. induction arr as [| x arr IH]; intros seen; cbn; [constructor |].
  destruct (inList x seen); [apply IH |].
  apply NoDup_cons. split; [| apply IH].
  rewrite NormalizeFacts.elem_of_uniqueFrom. intros [_ H]. apply H. left.
Qed.

Lemma sublist_uniqueFrom seen arr : uniqueFrom seen arr `sublist_of` arr.
Proof.
  revert seen. induction arr as [| x arr IH]; intros seen; cbn; [constructor |].
  destruct (inList x seen); [apply sublist_cons, IH | apply sublist_skip, IH].
Qed.

Lemma uniqueFrom_NoDup seen arr :
  NoDup arr -> (forall x, x ∈ arr -> x ∉ seen) -> uniqueFrom seen arr = arr.
Proof.
  revert seen. induction arr as [| x arr IH]; intros seen Hnd Hs; [reflexivity |].
  apply NoDup_cons in Hnd as [Hx Hnd]. cbn.
  destruct (inList x seen) eqn:Hin.
  - apply NormalizeFacts.inList_elem_of in Hin. exfalso. apply (Hs x); [left | exact Hin].
  - f_equal. apply IH; [exact Hnd |]. intros y Hy Hys.
    apply elem_of_cons in Hys as [-> | Hys]; [contradiction |].
    apply (Hs y); [right; exact Hy | exact Hys].
Qed.

(** *** [sortByDepth] *)

Lemma sort_ext {A} (cmp cmp' : A -> A -> Z) l :
  (forall a b, cmp a b = cmp' a b) -> sort cmp l = sort cmp' l.
Proof.
  intros H. unfold sort.
  assert (Hins : forall x acc, insertSorted cmp x acc = insertSorted cmp' x acc).
  { intros x acc. induction acc as [| y acc IH]; cbn; [reflexivity |].
    rewrite H, IH. reflexivity. }
  generalize (@nil A). induction l as [| x l IH]; intros acc; cbn; [reflexivity |].
  rewrite Hins. apply IH.
Qed.

Lemma deepestFirst_lookup dep l i j x y :
  Tree.deepestFirst dep l -> i < j -> l !! i = Some x -> l !! j = Some y ->
  (dep y <= dep x)%Z.
Proof.
  revert i j. induction l as [| h l IH]; intros i j Hsort Hij Hi Hj; [discriminate |].
  destruct Hsort as [Hh Hs].
  destruct j as [| j]; [lia |]. cbn in Hj. destruct i as [| i].
  - cbn in Hi. injection Hi as <-. apply Hh. eapply list_elem_of_lookup_2, Hj.
  - cbn in Hi. apply (IH i j Hs); [lia | assumption | assumption].
Qed.

(** *** [defaults] *)

Lemma defaults_lookup {V} (obj : option (JsObject.t V)) (source : JsObject.t V) k :
  defaults obj source !! k =
  if JsObject.isUndefined (default ∅ obj) k
  then from_option Some (default ∅ obj !! k) (source !! k)
  else default ∅ obj !! k.
Proof.
  unfold defaults. set (o := default ∅ obj).
  set (f := fun (prop : string) (v : option V) (obj : gmap string (option V)) =>
              if JsObject.isUndefined obj prop then <[prop := v]> obj else obj).
  revert k.
  refine (map_fold_weak_ind (M := gmap string) (A := option V)
            (fun r (m : gmap string (option V)) => forall k,
               r !! k = if JsObject.isUndefined o k
                        then from_option Some (o !! k) (m !! k) else o !! k)
            f o _ _ source).
  - intros k. rewrite lookup_empty. destruct (JsObject.isUndefined o k); reflexivity.
  - intros i x m r Hi IH k.
    assert (Hri : r !! i = o !! i).
    { rewrite IH, Hi. destruct (JsObject.isUndefined o i); reflexivity. }
    assert (Hui : JsObject.isUndefined r i = JsObject.isUndefined o i).
    { unfold JsObject.isUndefined. rewrite Hri. reflexivity. }
    unfold f. rewrite Hui. destruct (decide (k = i)) as [-> | Hne].
    + rewrite lookup_insert_eq. destruct (JsObject.isUndefined o i).
      * rewrite lookup_insert_eq. reflexivity.
      * exact Hri.
    + rewrite (lookup_insert_ne m) by congruence.
      destruct (JsObject.isUndefined o i).
      * rewrite lookup_insert_ne by congruence. apply IH.
      * apply IH.
Qed.

(** *** [groupHighlights] *)

Import Grouping.

Lemma sameKey_cons d k h hs :
  sameKey d k (h :: hs) = if decide (keyOf d h = k) then h :: sameKey d k hs else sameKey d k hs.
Proof.
  unfold sameKey. destruct (decide (keyOf d h = k)).
  - rewrite filter_cons_True by assumption. reflexivity.
  - rewrite filter_cons_False by assumption. reflexivity.
Qed.

Lemma groupStep_eval d order chunks h :
  isElement d h = true ->
  groupStep (order, chunks) h d =
  match chunks !! keyOf d h with
  | Some group => (Ret (order, <[keyOf d h := group ++ [h]]> chunks), d)
  | None =>
      if JsObject.inherited (keyOf d h)
      then (Throw (TypeError "chunks[timestamp].push is not a function"), d)
      else (Ret (order ++ [stampOf d h], <[keyOf d h := [h]]> chunks), d)
  end.
Proof.
  intros He. unfold groupStep, keyOf, stampOf, getAttribute. rewrite bind_gets.
  unfold isElement, getElement in *.
  destruct (getData d h) as [[v | e] |]; try discriminate.
  cbn [deref]. rewrite bind_ret. cbn [fst snd mbind option_bind].
  destruct (chunks !! _); [reflexivity |].
  destruct (JsObject.inherited _); reflexivity.
Qed.

Lemma groupLoop_ok d :
  forall rest order (chunks : gmap string (list nat)) seen,
    (forall k, k ∈ seen <-> is_Some (chunks !! k)) ->
    (forall h, h ∈ rest ->
       isElement d h = true /\ JsObject.inherited (keyOf d h) = false) ->
    exists chunks',
      groupLoop (order, chunks) rest d
        = (Ret (order ++ firstStamps d seen rest, chunks'), d) /\
      forall k, chunks' !! k =
        match chunks !! k with
        | Some g => Some (g ++ sameKey d k rest)
        | None =>
            if bool_decide (k ∈ keyOf d <$> rest) then Some (sameKey d k rest) else None
        end.
Proof.
  induction rest as [| h rest IH]; intros order chunks seen Hseen Hok.
  - exists chunks. split; [cbn; rewrite app_nil_r; reflexivity |].
    intros k. destruct (chunks !! k) as [g |]; [rewrite app_nil_r |]; reflexivity.
  - destruct (Hok h) as [He Hni]; [left |].
    assert (Hok' : forall h', h' ∈ rest ->
              isElement d h' = true /\ JsObject.inherited (keyOf d h') = false).
    { intros h' Hin. apply Hok. right. exact Hin. }
    cbn [groupLoop firstStamps]. unfold bind at 1. rewrite (groupStep_eval d _ _ h He).
    destruct (chunks !! keyOf d h) as [g |] eqn:Hg.
    + rewrite bool_decide_eq_true_2 by (apply Hseen; rewrite Hg; eauto).
      destruct (IH order (<[keyOf d h := g ++ [h]]> chunks) seen) as (chunks' & Hrun & Hlook).
      { intros k. rewrite Hseen. destruct (decide (k = keyOf d h)) as [-> |].
        - rewrite lookup_insert_eq, Hg. split; eauto.
        - rewrite lookup_insert_ne by congruence. reflexivity. }
      { exact Hok'. }
      exists chunks'. split; [exact Hrun |]. intros k. rewrite Hlook, sameKey_cons.
      destruct (decide (keyOf d h = k)) as [<- | Hne].
      * rewrite lookup_insert_eq, Hg, <- app_assoc. reflexivity.
      * rewrite lookup_insert_ne by congruence.
        destruct (chunks !! k); [reflexivity |].
        rewrite fmap_cons. apply f_equal with (f := fun b : bool => if b then _ else _).
        apply bool_decide_ext. rewrite elem_of_cons. split; [tauto |].
        intros [-> | H]; [contradiction | exact H].
    + rewrite Hni.
      rewrite bool_decide_eq_false_2.
      2:{ intros Hin. apply Hseen in Hin. rewrite Hg in Hin. destruct Hin; discriminate. }
      destruct (IH (order ++ [stampOf d h]) (<[keyOf d h := [h]]> chunks)
                  (keyOf d h :: seen)) as (chunks' & Hrun & Hlook).
      { intros k. rewrite elem_of_cons, Hseen.
        destruct (decide (k = keyOf d h)) as [-> |].
        - rewrite lookup_insert_eq. split; eauto.
        - rewrite lookup_insert_ne by congruence. split; [intros [? | ?] |]; tauto. }
      { exact Hok'. }
      exists chunks'. split; [rewrite Hrun, <- app_assoc; reflexivity |].
      intros k. rewrite Hlook, sameKey_cons.
      destruct (decide (keyOf d h = k)) as [<- | Hne].
      * rewrite lookup_insert_eq, Hg.
        rewrite bool_decide_eq_true_2 by (rewrite fmap_cons; left). reflexivity.
      * rewrite lookup_insert_ne by congruence.
        destruct (chunks !! k); [reflexivity |].
        rewrite fmap_cons. apply f_equal with (f := fun b : bool => if b then _ else _).
        apply bool_decide_ext. rewrite elem_of_cons. split; [tauto |].
        intros [-> | H]; [contradiction | exact H].
Qed.

Lemma firstStamps_keys d hs :
  forall seen,
    NoDup (default "null" <$> firstStamps d seen hs) /\
    (forall ts, ts ∈ firstStamps d seen hs ->
       (default "null" ts ∉ seen) /\ (default "null" ts ∈ keyOf d <$> hs)) /\
    (forall h, h ∈ hs ->
       keyOf d h ∈ seen \/ keyOf d h ∈ default "null" <$> firstStamps d seen hs).
Proof.
  induction hs as [| h hs IH]; intros seen; cbn [firstStamps].
  - split; [constructor |]. split; intros x Hx; inversion Hx.
  - destruct (bool_decide_reflect (keyOf d h ∈ seen)) as [Hin | Hnot].
    + destruct (IH seen) as (Hnd & Hts & Hcov). split; [exact Hnd |]. split.
      * intros ts Hx. destruct (Hts ts Hx) as [H1 H2]. split; [exact H1 |].
        rewrite fmap_cons. right. exact H2.
      * intros h' Hh. apply elem_of_cons in Hh as [-> | Hh]; [left; exact Hin |].
        apply Hcov, Hh.
    + destruct (IH (keyOf d h :: seen)) as (Hnd & Hts & Hcov). split; [| split].
      * rewrite fmap_cons. apply NoDup_cons. split; [| exact Hnd].
        intros Hx. apply list_elem_of_fmap in Hx as (ts & Heq & Hx).
        destruct (Hts ts Hx) as [H1 _]. apply H1. rewrite <- Heq. left.
      * intros ts Hx. rewrite fmap_cons. apply elem_of_cons in Hx as [-> | Hx].
        -- split; [exact Hnot | left].
        -- destruct (Hts ts Hx) as [H1 H2]. split; [| right; exact H2].
           intros Hs. apply H1. right. exact Hs.
      * intros h' Hh. rewrite fmap_cons. apply elem_of_cons in Hh as [-> | Hh].
        -- right. left.
        -- destruct (Hcov h' Hh) as [Hs | Hs]; [| right; right; exact Hs].
           apply elem_of_cons in Hs as [-> | Hs]; [right; left | left; exact Hs].
Qed.

Lemma concat_sameKey_nil d (ks : list string) :
  concat ((fun k => sameKey d k []) <$> ks) = [].
Proof. induction ks as [| k ks IH]; [reflexivity | exact IH]. Qed.

(** The groups of distinct names that cover the array hold each marker
    once. *)
Lemma concat_sameKey d hs :
  forall ks : list string,
    NoDup ks -> (forall h, h ∈ hs -> keyOf d h ∈ ks) ->
    concat ((fun k => sameKey d k hs) <$> ks) ≡ₚ hs.
Proof.
  induction hs as [| h hs IH]; intros ks Hnd Hcov.
  - rewrite concat_sameKey_nil. reflexivity.
  - destruct (list_elem_of_split _ _ (Hcov h ltac:(left))) as (ks1 & ks2 & ->).
    apply NoDup_app in Hnd as (Hnd1 & Hdis & Hnd2).
    apply NoDup_cons in Hnd2 as [Hk2 Hnd2].
    assert (Hk1 : keyOf d h ∉ ks1) by (intros Hin; apply (Hdis _ Hin); left).
    assert (Hother : forall l : list string, keyOf d h ∉ l ->
              (fun k => sameKey d k (h :: hs)) <$> l = (fun k => sameKey d k hs) <$> l).
    { intros l Hl. apply list_fmap_ext. intros i k Hk. rewrite sameKey_cons.
      rewrite decide_False; [reflexivity |]. intros <-. apply Hl.
      eapply list_elem_of_lookup_2, Hk. }
    rewrite fmap_app, fmap_cons, concat_app, concat_cons.
    rewrite (Hother ks1 Hk1), (Hother ks2 Hk2), sameKey_cons, decide_True by reflexivity.
    assert (HIH : concat ((fun k => sameKey d k hs) <$> ks1 ++ keyOf d h :: ks2) ≡ₚ hs).
    { apply IH.
      - apply NoDup_app. split; [exact Hnd1 |]. split; [exact Hdis |].
        apply NoDup_cons. split; assumption.
      - intros h' Hh. apply Hcov. right. exact Hh. }
    rewrite fmap_app, fmap_cons, concat_app, concat_cons in HIH.
    etransitivity; [| apply perm_skip, HIH].
    cbn [app]. symmetry. apply Permutation_middle.
Qed.

Lemma groupLoop_app st l1 l2 d :
  groupLoop st (l1 ++ l2) d =
  (st' <- groupLoop st l1 ;; groupLoop st' l2) d.
Proof.
  revert st d. induction l1 as [| h l1 IH]; intros st d; [reflexivity |].
  cbn [app groupLoop]. unfold bind.
  destruct (groupStep st h d) as [[st' | e |] d']; [| reflexivity | reflexivity].
  rewrite IH. reflexivity.
Qed.

End UtilsFacts.

Module Extras.

Import Utils.

(** X1, [unique]: the filter of the source keeps a value where [indexOf]
    finds it, that is at its first occurrence.  The result holds every
    value of the array once, in the order of the first occurrences, and an
    array without duplicates is returned as it is. *)
Theorem unique_first_occurrences arr :
  uniqueFilter arr = unique arr /\
  NoDup (uniqueFilter arr) /\
  (forall x, x ∈ uniqueFilter arr <-> x ∈ arr) /\
  uniqueFilter arr `sublist_of` arr /\
  (NoDup arr -> uniqueFilter arr = arr).
Proof.
  rewrite <- UtilsFacts.unique_uniqueFilter. split; [reflexivity |].
  split; [exact (UtilsFacts.NoDup_uniqueFrom [] arr) |].
  split; [intros x; apply NormalizeFacts.elem_of_unique |].
  split; [exact (UtilsFacts.sublist_uniqueFrom [] arr) |].
  intros Hnd. apply (UtilsFacts.uniqueFrom_NoDup [] arr); [exact Hnd |].
  intros x _ H. inversion H.
Qed.

(** X2, [sortByDepth]: the array is rearranged, nothing is added or
    dropped, and afterwards no entry lies deeper than an entry before it
    (descending) or higher than one (ascending); the tree is not touched. *)
Theorem sortByDepth_orders arr descending d :
  exists l,
    sortByDepth arr descending d = (Ret l, d) /\
    l ≡ₚ arr /\
    forall i j x y, i < j -> l !! i = Some x -> l !! j = Some y ->
      if descending then (depth d y <= depth d x)%Z
      else (depth d x <= depth d y)%Z.
Proof.
  unfold sortByDepth, gets. eexists. split; [reflexivity |].
  split; [apply RemoveFacts.sort_Permutation |].
  intros i j x y Hij Hi Hj. destruct descending.
  - eapply (UtilsFacts.deepestFirst_lookup (depth d));
      [apply RemoveFacts.sort_deepestFirst | exact Hij | exact Hi | exact Hj].
  - set (up := fun x => (- depth d x)%Z).
    rewrite (UtilsFacts.sort_ext _ (fun a b => (up b - up a)%Z))
      in Hi, Hj by (intros; unfold up; lia).
    assert (H : (up y <= up x)%Z).
    { eapply (UtilsFacts.deepestFirst_lookup up);
        [apply RemoveFacts.sort_deepestFirst | exact Hij | exact Hi | exact Hj]. }
    unfold up in H. lia.
Qed.

(** X3, [defaults]: a property that [obj] defines keeps its value; a
    property that reads [undefined] on [obj] takes the value that [source]
    has for it; no other property is added, so a default whose name every
    object inherits is never applied to an object without such a property
    of its own; and a second application changes nothing. *)
Theorem defaults_fills_undefined {V} (obj : option (JsObject.t V))
  (source : JsObject.t V) :
  (forall k v, default ∅ obj !! k = Some (Some v) ->
               defaults obj source !! k = Some (Some v)) /\
  (forall k v, JsObject.isUndefined (default ∅ obj) k = true ->
               source !! k = Some v -> defaults obj source !! k = Some v) /\
  (forall k, source !! k = None -> defaults obj source !! k = default ∅ obj !! k) /\
  (forall k, JsObject.inherited k = true -> default ∅ obj !! k = None ->
             defaults obj source !! k = None) /\
  defaults (Some (defaults obj source)) source = defaults obj source.
Proof.
  repeat split.
  - intros k v H. rewrite UtilsFacts.defaults_lookup.
    unfold JsObject.isUndefined. rewrite H. reflexivity.
  - intros k v Hu Hs. rewrite UtilsFacts.defaults_lookup, Hu, Hs. reflexivity.
  - intros k Hs. rewrite UtilsFacts.defaults_lookup, Hs.
    destruct (JsObject.isUndefined _ k); reflexivity.
  - intros k Hi Hn. rewrite UtilsFacts.defaults_lookup.
    unfold JsObject.isUndefined. rewrite Hn, Hi. reflexivity.
  - apply map_eq. intros k. rewrite (UtilsFacts.defaults_lookup (Some _)).
    cbn [default from_option id]. set (r := defaults obj source).
    pose proof (UtilsFacts.defaults_lookup obj source k) as Hr. fold r in Hr.
    destruct (JsObject.isUndefined r k) eqn:Hu; [| reflexivity].
    destruct (source !! k) as [v |] eqn:Hs; [| reflexivity]. cbn [from_option].
    destruct (JsObject.isUndefined (default ∅ obj) k) eqn:Hu0.
    + cbn [from_option] in Hr. exact (eq_sym Hr).
    + unfold JsObject.isUndefined in Hu, Hu0. rewrite Hr in Hu. congruence.
Qed.

(** X4, [groupHighlights]: for markers that are elements and whose
    timestamps are not names that every object inherits, the result lists
    the timestamps in the order in which they occur first, each with the
    markers that carry it, in the order of the array.  No two groups share
    a timestamp, and together the groups hold every marker once. *)
Theorem groupHighlights_by_timestamp hs d :
  (forall h, h ∈ hs ->
     isElement d h = true /\ JsObject.inherited (Grouping.keyOf d h) = false) ->
  exists gs,
    groupHighlights hs d = (Ret gs, d) /\
    gs = (fun ts => mkGroup (Grouping.sameKey d (default "null" ts) hs) ts)
           <$> Grouping.firstStamps d [] hs /\
    NoDup ((fun g => default "null" (timestamp g)) <$> gs) /\
    concat (chunks <$> gs) ≡ₚ hs.
Proof.
  intros Hok.
  destruct (UtilsFacts.groupLoop_ok d hs [] ∅ []) as (chunks' & Hrun & Hlook).
  { intros k. rewrite lookup_empty. split; [intros H; inversion H | intros [? ?]; discriminate]. }
  { exact Hok. }
  destruct (UtilsFacts.firstStamps_keys d hs []) as (Hnd & Hts & Hcov).
  eexists. split; [| split; [reflexivity |]].
  - unfold groupHighlights, bind. rewrite Hrun. cbn [fst snd app]. unfold ret.
    f_equal. f_equal. apply list_fmap_ext. intros i ts Hi.
    rewrite Hlook, lookup_empty.
    rewrite bool_decide_eq_true_2; [reflexivity |].
    apply (Hts ts). eapply list_elem_of_lookup_2, Hi.
  - split.
    + rewrite <- list_fmap_compose. exact Hnd.
    + rewrite <- list_fmap_compose.
      change (concat ((fun ts => Grouping.sameKey d (default "null" ts) hs)
                        <$> Grouping.firstStamps d [] hs) ≡ₚ hs).
      rewrite (list_fmap_compose (default "null")
                 (fun k => Grouping.sameKey d k hs)).
      apply UtilsFacts.concat_sameKey; [exact Hnd |].
      intros h Hh. destruct (Hcov h Hh) as [Hs | Hs]; [inversion Hs | exact Hs].
Qed.

Lemma groupHighlights_by_timestamp_witness :
  exists gs,
    groupHighlights [1; 3; 5] Examples.twoGroups = (Ret gs, Examples.twoGroups) /\
    gs = [mkGroup [1; 5] (Some "1"); mkGroup [3] (Some "2")] /\
    NoDup ((fun g => default "null" (timestamp g)) <$> gs) /\
    concat (chunks <$> gs) ≡ₚ [1; 3; 5].
Proof.
  apply (groupHighlights_by_timestamp [1; 3; 5] Examples.twoGroups).
  intros h Hh. repeat (apply elem_of_cons in Hh as [-> | Hh]);
    try (split; vm_compute; reflexivity).
  inversion Hh.
Defined.

(** X5, [groupHighlights]: a timestamp that is the name of a property
    every object inherits, such as [constructor], is not a fresh key of the
    object that collects the groups; at the first marker that carries one
    the function throws a [TypeError], whatever follows in the array. *)
Theorem groupHighlights_inherited_name pre h post d :
  (forall x, x ∈ pre ->
     isElement d x = true /\ JsObject.inherited (Grouping.keyOf d x) = false) ->
  isElement d h = true ->
  JsObject.inherited (Grouping.keyOf d h) = true ->
  groupHighlights (pre ++ h :: post) d
    = (Throw (TypeError "chunks[timestamp].push is not a function"), d).
Proof.
  intros Hpre He Hin.
  destruct (UtilsFacts.groupLoop_ok d pre [] ∅ []) as (chunks' & Hrun & Hlook).
  { intros k. rewrite lookup_empty. split; [intros H; inversion H | intros [? ?]; discriminate]. }
  { exact Hpre. }
  unfold groupHighlights. unfold bind at 1.
  rewrite UtilsFacts.groupLoop_app. unfold bind at 1. rewrite Hrun.
  cbn [groupLoop]. unfold bind at 1.
  rewrite (UtilsFacts.groupStep_eval d _ _ h He), Hlook, lookup_empty.
  rewrite bool_decide_eq_false_2, Hin; [reflexivity |].
  intros Hk. apply list_elem_of_fmap in Hk as (x & Heq & Hx).
  destruct (Hpre x Hx) as [_ Hni]. rewrite <- Heq in Hni. congruence.
Qed.

Lemma groupHighlights_inherited_name_witness :
  groupHighlights ([1] ++ 3 :: [5])
    (Fixture.document
       (Fixture.E Fixture.p
          [Fixture.E (Examples.stamped "1") [Fixture.T "a"];
           Fixture.E (Examples.stamped "constructor") [Fixture.T "b"];
           Fixture.E (Examples.stamped "1") [Fixture.T "c"]]))
  = (Throw (TypeError "chunks[timestamp].push is not a function"),
     Fixture.document
       (Fixture.E Fixture.p
          [Fixture.E (Examples.stamped "1") [Fixture.T "a"];
           Fixture.E (Examples.stamped "constructor") [Fixture.T "b"];
           Fixture.E (Examples.stamped "1") [Fixture.T "c"]])).
Proof.
  apply groupHighlights_inherited_name.
  - intros x Hx. apply list_elem_of_singleton in Hx as ->. split; vm_compute; reflexivity.
  - vm_compute. reflexivity.
  - vm_compute. reflexivity.
Defined.



(** X7, [highlightRange]: a selection of the part [m] of the text
    [a ++ m ++ b] of one text node [t], where [m] is white space only or
    the parent of [t] has an ignored tag.  The call returns no marker; the
    text of [t] is cut at the boundaries all the same, but every other node
    of the document keeps its data and its text content. *)
Theorem highlightRange_skips_blank f el w d t q l1 l2 a m b anc :
  WellFormed.wellFormed d ->
  getData d t = Some (TextData (a +:+ m +:+ b)) ->
  getParent d t = Some q -> getChildren d q = l1 ++ t :: l2 ->
  m <> "" ->
  Config.ignored (tagName <$> getElement d q) = true \/ Platform.trim m = "" ->
  exists d',
    TextHighlighter.highlightRange (S f) el
      (Some (Range.mk t (String.length a) t (String.length a + String.length m) anc))
      w d = (Ret [], d') /\
    (exists before x after,
       getChildren d' q = l1 ++ before ++ x :: after ++ l2 /\
       Tree.texts 1 d' before = Some a /\ getData d' x = Some (TextData m) /\
       Tree.texts 1 d' after = Some b) /\
    (forall y, Tree.allocated d y -> y <> t -> getData d' y = getData d y) /\
    (forall y s, Tree.allocated d y -> y <> t ->
       textContentFrom (S (fresh d)) d y = Some s -> textContent d' y = s).
Proof.
  intros Hwf0 Hd Hp Hcs Hm Hskip.
  pose proof (TreeFacts.wellFormed_WF d Hwf0) as Hwf.
  pose proof (HighlightFacts.length_pos m Hm) as Hlen.
  destruct (HighlightFacts.refine_in_text (S f) d t q l1 l2 a m b anc Hwf Hd Hm Hp Hcs)
    as (x & d1 & before & after & Hev & Hcut & Hx & Hpx & Hch & Hbefore & Hafter & Htxt
        & _).
  assert (Hqa : Tree.allocated d q).
  { apply (TreeFacts.allocated_of_child d q t). rewrite Hcs. apply elem_of_app. right. left. }
  assert (Hqt : q <> t).
  { intros Heq. pose proof (Tree.wf_leaf d Hwf t) as Hl. unfold isText in Hl.
    rewrite Hd in Hl. specialize (Hl eq_refl). rewrite <- Heq, Hcs in Hl.
    destruct l1; discriminate. }
  assert (Hskip1 : Config.ignored (tagName <$> getElement d1 q) = true \/
                   Platform.trim m = "").
  { unfold getElement. rewrite (Marking.cut_data _ _ _ _ Hcut) by assumption. exact Hskip. }
  pose proof (Marking.cut_fresh _ _ _ _ Hcut) as Hfr.
  exists d1. split.
  { unfold TextHighlighter.highlightRange, Range.collapsed.
    cbn [Range.startContainer Range.endContainer Range.startOffset Range.endOffset].
    destruct (Nat.eqb_spec (String.length a) (String.length a + String.length m));
      [lia |].
    rewrite andb_false_r. unfold bind at 1. rewrite Hev.
    cbn [Utils.startContainer Utils.endContainer Utils.goDeeper].
    apply (HighlightFacts.highlightLoop_skip f el w d1 x q m
             (Marking.cut_wf _ _ _ _ Hcut) Hx Hpx Hskip1). }
  split.
  { exists before, x, after. rewrite Hch, <- app_assoc. auto. }
  split.
  { intros y Hy Hne. apply (Marking.cut_data _ _ _ _ Hcut); assumption. }
  intros y s Hy Hne Hs. unfold textContent.
  apply (Marking.cut_text _ _ _ _ Hcut) in Hs; [| assumption | assumption].
  rewrite (HighlightFacts.textContentFrom_le (S (fresh d)) (S (fresh d1)) d1 y s
             ltac:(lia) Hs).
  reflexivity.
Qed.

Lemma highlightRange_skips_blank_witness :
  exists d',
    TextHighlighter.highlightRange 1 0
      (Some (Range.mk 1 (String.length "The") 1
               (String.length "The" + String.length " ") 0))
      2 (snd (TextHighlighter.createWrapper TextHighlighter.defaultOptions Examples.fox))
    = (Ret [], d') /\
    (exists before x after,
       getChildren d' 0 = [] ++ before ++ x :: after ++ [] /\
       Tree.texts 1 d' before = Some "The" /\ getData d' x = Some (TextData " ") /\
       Tree.texts 1 d' after = Some "quick brown fox") /\
    (forall y,
       Tree.allocated
         (snd (TextHighlighter.createWrapper TextHighlighter.defaultOptions Examples.fox)) y ->
       y <> 1 ->
       getData d' y
       = getData
           (snd (TextHighlighter.createWrapper TextHighlighter.defaultOptions Examples.fox))
           y) /\
    (forall y s,
       Tree.allocated
         (snd (TextHighlighter.createWrapper TextHighlighter.defaultOptions Examples.fox)) y ->
       y <> 1 ->
       textContentFrom
         (S (fresh (snd (TextHighlighter.createWrapper TextHighlighter.defaultOptions
                           Examples.fox))))
         (snd (TextHighlighter.createWrapper TextHighlighter.defaultOptions Examples.fox)) y
       = Some s ->
       textContent d' y = s).
Proof.
  apply (highlightRange_skips_blank 0 0 2
           (snd (TextHighlighter.createWrapper TextHighlighter.defaultOptions Examples.fox))
           1 0 [] [] "The" " " "quick brown fox" 0).
  - apply WellFormedFacts.wellFormedb_wellFormed. vm_compute. reflexivity.
  - vm_compute. reflexivity.
  - vm_compute. reflexivity.
  - vm_compute. reflexivity.
  - discriminate.
  - right. vm_compute. reflexivity.
Defined.

(** X8, [highlightRange]: whatever the range is and however the call ends
    (with markers, with an exception or out of fuel), on a well-formed
    document and with a wrapper element [w] without children the tree stays
    well-formed, every element keeps its data (tag, class, colour and
    attributes), every text node stays a text node and every element keeps
    its text content.  When the call returns, the markers it returns are
    distinct new elements, copies of the wrapper with the marker attribute
    set. *)
Theorem highlightRange_keeps_text fuel el range w e d :
  WellFormed.wellFormed d ->
  getData d w = Some (ElementData e) -> getChildren d w = [] ->
  Wp.post (TextHighlighter.highlightRange fuel el range w) d (fun o d' =>
    Tree.WF d' /\
    (forall y e0, getData d y = Some (ElementData e0) ->
                  getData d' y = Some (ElementData e0)) /\
    (forall y, isText d y = true -> isText d' y = true) /\
    (forall y s, isElement d y = true ->
                 textContentFrom (S (fresh d)) d y = Some s -> textContent d' y = s) /\
    (forall hs, o = Ret hs ->
       NoDup hs /\
       forall h, h ∈ hs ->
         ~ Tree.allocated d h /\
         getElement d' h = Some (Marking.marked e) /\
         TextHighlighter.isHighlight d' (Some h) = true)).
Proof.
  intros Hwf0 Hw Hwc.
  pose proof (TreeFacts.wellFormed_WF d Hwf0) as Hwf.
  assert (Hend : forall (o : outcome (list nat)) d',
            Marking.Kept d d' w ->
            (forall hs, o = Ret hs ->
               NoDup hs /\
               forall h, h ∈ hs ->
                 fresh d <= h /\ getData d' h = Some (ElementData (Marking.marked e))) ->
            Tree.WF d' /\
            (forall y e0, getData d y = Some (ElementData e0) ->
                          getData d' y = Some (ElementData e0)) /\
            (forall y, isText d y = true -> isText d' y = true) /\
            (forall y s, isElement d y = true ->
               textContentFrom (S (fresh d)) d y = Some s -> textContent d' y = s) /\
            (forall hs, o = Ret hs ->
               NoDup hs /\
               forall h, h ∈ hs ->
                 ~ Tree.allocated d h /\
                 getElement d' h = Some (Marking.marked e) /\
                 TextHighlighter.isHighlight d' (Some h) = true)).
  { intros o d' HK Hhs.
    pose proof (Marking.kept_fresh _ _ _ HK) as Hfr.
    split; [exact (Marking.kept_wf _ _ _ HK) |].
    split; [exact (Marking.kept_element _ _ _ HK) |].
    split; [exact (Marking.kept_textnode _ _ _ HK) |].
    split.
    { intros y s Hy Hs. apply (Marking.kept_text _ _ _ HK) in Hs; [| exact Hy].
      unfold textContent.
      replace (S (fresh d')) with (fresh d' - fresh d + S (fresh d)) by lia.
      rewrite Hs. reflexivity. }
    intros hs Ho. destruct (Hhs hs Ho) as [Hnd Hin]. split; [exact Hnd |].
    intros h Hh. destruct (Hin h Hh) as [Hge Hd]. split.
    { intros Ha. apply (Tree.wf_alloc d Hwf) in Ha. lia. }
    split; [unfold getElement; rewrite Hd; reflexivity |].
    unfold TextHighlighter.isHighlight, Config.nodeType, hasAttribute, getElement.
    rewrite Hd. cbn [Marking.marked attributes]. apply HighlightFacts.setAttr_has. }
  pose proof (HighlightFacts.Kept_refl d w Hwf Hwc) as Hrefl.
  assert (Hnil : forall (o : outcome (list nat)) hs, o = Ret hs -> hs = [] ->
            NoDup hs /\
            forall h, h ∈ hs ->
              fresh d <= h /\ getData d h = Some (ElementData (Marking.marked e))).
  { intros o hs _ ->. split; [constructor |]. intros h Hh. inversion Hh. }
  unfold TextHighlighter.highlightRange. destruct range as [range |].
  2: { apply HighlightFacts.post_ret, Hend; [exact Hrefl |].
       intros hs [= <-]. apply (Hnil (Ret []) [] eq_refl eq_refl). }
  destruct (Range.collapsed range).
  { apply HighlightFacts.post_ret, Hend; [exact Hrefl |].
    intros hs [= <-]. apply (Hnil (Ret []) [] eq_refl eq_refl). }
  apply HighlightFacts.post_bind.
  apply (HighlightFacts.post_mono _ _ _ _ (HighlightFacts.refine_kept fuel range w d Hwf Hwc)).
  intros o d1 HK1.
  destruct o as [result | ex |];
    [| apply Hend; [exact HK1 | discriminate] | apply Hend; [exact HK1 | discriminate]].
  apply (HighlightFacts.post_mono _ _ _ _
           (HighlightFacts.highlightLoop_post fuel fuel el w e
              (Utils.endContainer result) d Hw
              (TextHighlighter.mkWalk (Utils.startContainer result)
                 (Utils.goDeeper result) false []) d1 HK1)).
  intros o d2 (HK2 & Hfr2 & Hdata2 & Hhs2). apply Hend; [exact HK2 |].
  intros hs Ho. destruct (Hhs2 hs Ho) as (new & Heq & Hnd & Hin).
  cbn [TextHighlighter.highlights app] in Heq. subst new.
  split; [exact Hnd |]. intros h Hh. destruct (Hin h Hh) as [Hb Hd].
  pose proof (Marking.kept_fresh _ _ _ HK1). split; [lia | exact Hd].
Qed.

Lemma highlightRange_keeps_text_witness :
  Wp.post
    (TextHighlighter.highlightRange 2 0 (Some (Range.mk 1 4 1 9 0)) 2)
    (snd (TextHighlighter.createWrapper TextHighlighter.defaultOptions Examples.fox))
    (fun o d' =>
       Tree.WF d' /\
       (forall y e0,
          getData (snd (TextHighlighter.createWrapper TextHighlighter.defaultOptions
                          Examples.fox)) y = Some (ElementData e0) ->
          getData d' y = Some (ElementData e0)) /\
       (forall y,
          isText (snd (TextHighlighter.createWrapper TextHighlighter.defaultOptions
                         Examples.fox)) y = true ->
          isText d' y = true) /\
       (forall y s,
          isElement (snd (TextHighlighter.createWrapper TextHighlighter.defaultOptions
                            Examples.fox)) y = true ->
          textContentFrom
            (S (fresh (snd (TextHighlighter.createWrapper TextHighlighter.defaultOptions
                              Examples.fox))))
            (snd (TextHighlighter.createWrapper TextHighlighter.defaultOptions Examples.fox))
            y = Some s ->
          textContent d' y = s) /\
       (forall hs, o = Ret hs ->
          NoDup hs /\
          forall h, h ∈ hs ->
            ~ Tree.allocated
                (snd (TextHighlighter.createWrapper TextHighlighter.defaultOptions
                        Examples.fox)) h /\
            getElement d' h
            = Some (Marking.marked (mkElement "SPAN" "highlighted" "#ffff7b" [])) /\
            TextHighlighter.isHighlight d' (Some h) = true)).
Proof.
  apply (highlightRange_keeps_text 2 0 (Some (Range.mk 1 4 1 9 0)) 2
           (mkElement "SPAN" "highlighted" "#ffff7b" [])).
  - apply WellFormedFacts.wellFormedb_wellFormed. vm_compute. reflexivity.
  - vm_compute. reflexivity.
  - vm_compute. reflexivity.
Defined.

(** X9, [removeHighlights]: in a well-formed store that is a tree below
    the container, with a container that is an element and not a marker and
    markers below it that hold text nodes and markers only, at least one,
    [removeHighlights] with the veto that always answers [true] returns and
    leaves no marker below the container: no node below it carries the
    marker attribute, and [getHighlights] for the container answers the
    empty list. *)
Theorem removeHighlights_clears el element d :
  WellFormed.wellFormed d ->
  Tree.treeBelow d (default el element) ->
  isElement d (default el element) = true ->
  hasAttribute d (default el element) Config.DATA_ATTR = false ->
  (forall hl, hl ∈ descendants d (default el element) ->
              hasAttribute d hl Config.DATA_ATTR = true -> Tree.textOrMarkers d hl) ->
  exists d',
    TextHighlighter.removeHighlights el TextHighlighter.defaultOptions element d
    = (Ret tt, d') /\
    (forall x, Reach.Below d' (default el element) x ->
               hasAttribute d' x Config.DATA_ATTR = false) /\
    TextHighlighter.getHighlights (default el element) true d' = (Ret [], d').
Proof.
  intros Hwf (Hnd & Hsome & Hends) Hec Hnm Hmark.
  pose proof (TreeFacts.wellFormed_WF d Hwf) as HWF.
  unfold TextHighlighter.removeHighlights. cbv zeta.
  unfold TextHighlighter.getHighlights at 1. rewrite bind_gets.
  rewrite Hnm, andb_false_r. unfold Utils.sortByDepth. rewrite bind_gets.
  set (c := default el element) in *.
  set (L0 := filter (fun r => Is_true (hasAttribute d r Config.DATA_ATTR))
               (descendants d c)).
  set (dep := Utils.depth d).
  set (L := Utils.sort (fun a b => (dep b - dep a)%Z) L0).
  change (exists d',
            TextHighlighter.removeAll TextHighlighter.defaultOptions L d = (Ret tt, d') /\
            (forall x, Reach.Below d' c x -> hasAttribute d' x Config.DATA_ATTR = false) /\
            TextHighlighter.getHighlights c true d' = (Ret [], d')).
  assert (HL : forall h, h ∈ L <->
                         h ∈ descendants d c /\ hasAttribute d h Config.DATA_ATTR = true).
  { intros h. unfold L, L0.
    rewrite NormalizeFacts.elem_of_sort, list_elem_of_filter, Is_true_true. tauto. }
  destruct (ClearFacts.removeAll_clears c d dep L d) as (d' & Hrun & HG & Hclear & Hattr).
  - split.
    + exact HWF.
    + intros h Hh. apply HL in Hh as [Hin Hm].
      destruct (Hmark h Hin Hm) as [Hne Hkids].
      split; [exact (RemoveFacts.marker_isElement d h Hm) |]. split.
      { destruct (RemoveFacts.descendantsFrom_child _ _ _ _ Hin) as [q Hq].
        rewrite (Tree.wf_up d HWF _ _ Hq). eauto. }
      split; [exact Hne |]. intros x Hx.
      destruct (Hkids x Hx) as [Ht | Hxm]; [left; exact Ht | right].
      assert (Hxin : x ∈ descendants d c).
      { apply (RemoveFacts.descendantsFrom_closed (fresh d) d HWF c h x); eauto. }
      split; [apply HL; split; assumption |].
      apply RemoveFacts.depth_child; [apply (Tree.wf_up d HWF _ _ Hx) |].
      apply (Hends x Hxin).
    + exact Hec.
    + auto.
    + reflexivity.
  - intros x Hx Hm. apply HL. split; [| exact Hm].
    apply (ClearFacts.Below_descendants d c x HWF Hsome Hx).
  - unfold L. rewrite RemoveFacts.sort_Permutation. apply NoDup_filter, Hnd.
  - intros Hc. apply HL in Hc as [_ Hm]. rewrite Hnm in Hm. discriminate.
  - apply RemoveFacts.sort_deepestFirst.
  - exists d'. split; [exact Hrun |]. split; [exact Hclear |].
    unfold TextHighlighter.getHighlights, gets. rewrite Hattr, Hnm, andb_false_r.
    f_equal. f_equal.
    assert (Hnone : forall l, (forall x, x ∈ l -> Reach.Below d' c x) ->
              filter (fun r => Is_true (hasAttribute d' r Config.DATA_ATTR)) l = []).
    { induction l as [| x l IH]; intros Hl; [reflexivity |].
      rewrite filter_cons_False.
      - apply IH. intros y Hy. apply Hl. right. exact Hy.
      - rewrite (Hclear x (Hl x ltac:(left))). exact id. }
    apply Hnone. intros x Hx. apply (ClearFacts.descendantsFrom_Below _ _ _ _ Hx).
Qed.

Lemma removeHighlights_clears_witness :
  exists d',
    TextHighlighter.removeHighlights 0 TextHighlighter.defaultOptions None Examples.redInside
    = (Ret tt, d') /\
    (forall x, Reach.Below d' 0 x -> hasAttribute d' x Config.DATA_ATTR = false) /\
    TextHighlighter.getHighlights 0 true d' = (Ret [], d').
Proof.
  apply (removeHighlights_clears 0 None Examples.redInside).
  - apply WellFormedFacts.wellFormedb_wellFormed. vm_compute. reflexivity.
  - split; [apply (bool_decide_unpack _); vm_compute; exact I |].
    split; [exists "abcdef"; vm_compute; reflexivity |].
    intros x Hin. vm_compute in Hin.
    repeat (apply elem_of_cons in Hin as [-> | Hin]); try (vm_compute; lia).
    inversion Hin.
  - reflexivity.
  - reflexivity.
  - intros hl Hin Hm. vm_compute in Hin.
    repeat (apply elem_of_cons in Hin as [-> | Hin]);
      try (vm_compute in Hm; discriminate); try (inversion Hin; fail).
    + split; [vm_compute; discriminate |].
      intros x Hx. vm_compute in Hx.
      repeat (apply elem_of_cons in Hx as [-> | Hx]);
        try (left; vm_compute; reflexivity); try (right; vm_compute; reflexivity).
      inversion Hx.
    + split; [vm_compute; discriminate |].
      intros x Hx. vm_compute in Hx.
      repeat (apply elem_of_cons in Hx as [-> | Hx]);
        try (left; vm_compute; reflexivity); try (right; vm_compute; reflexivity).
      inversion Hx.
Defined.

(** X10, [flattenNestedHighlights], one step of [flattenOnce]: a marker
    [hl] that is the last child of a marker [P] of another colour, where
    [P] is the last child of its parent [G] and has a sibling [z] in front,
    is moved in front of [P] ([insertBefore(parentNext || parent)] with no
    [parentNext]), and the step asks for another run.  So [hl], whose text
    [c] followed the text [b] of the other children of [P], now stands
    before [P]: with text nodes below the two markers the text of [P] was
    [b ++ c], and afterwards [hl] with [c] precedes [P] with [b]. *)
Theorem flatten_moves_last_child_front d hl P G z pre cs cP ch :
  WellFormed.wellFormed d ->
  getParent d hl = Some P -> getParent d P = Some G ->
  getChildren d G = pre ++ [z; P] -> getChildren d P = cs ++ [hl] -> cs <> [] ->
  TextHighlighter.isHighlight d (Some P) = true ->
  Canonical.colourOf d P = Some cP -> Canonical.colourOf d hl = Some ch -> cP <> ch ->
  isElement d G = true -> Node_contains d hl G = false ->
  (forall x, x ∈ cs ++ getChildren d hl -> isText d x = true) ->
  exists d' b c,
    TextHighlighter.flattenStep hl d = (Ret (hl, true), d') /\
    getChildren d' G = pre ++ [z; hl; P] /\
    getChildren d' P = cs /\ getChildren d' hl = getChildren d hl /\
    textContent d P = b +:+ c /\ textContent d hl = c /\
    textContent d' P = b /\ textContent d' hl = c.
Proof.
  intros Hwf0 Hhl HP HG HPc Hcs Hmark HcP Hch Hdiff HGe Hfree Htext.
  pose proof (TreeFacts.wellFormed_WF d Hwf0) as Hwf.
  pose proof (FlattenFacts.front_eval d hl P G z pre cs cP ch
                Hwf Hhl HP HG HPc Hcs Hmark HcP Hch Hdiff HGe Hfree) as Hev.
  pose proof (FlattenFacts.front_children d hl P G z pre cs cP ch
                Hwf Hhl HP HG HPc HcP Hch Hdiff HGe Hfree) as Hch'.
  pose proof (FlattenFacts.front_data d hl P G Hhl) as Hdata.
  pose proof (FlattenFacts.front_P_G d hl P G z pre cs cP ch
                Hwf Hhl HP HG HPc HcP Hch Hdiff HGe Hfree) as HPG.
  pose proof (FlattenFacts.front_P_hl d hl P G cs cP ch
                Hwf Hhl HP HPc HcP Hch Hdiff HGe Hfree) as HPhl.
  pose proof (FlattenFacts.front_hl_G d hl G Hfree) as HhlG.
  set (d' := Tree.attach hl G (Some P) (detach hl d)) in *.
  destruct (FlattenFacts.texts_of_text d cs) as [b Hb].
  { intros x Hx. apply Htext, elem_of_app. left. exact Hx. }
  destruct (FlattenFacts.texts_of_text d (getChildren d hl)) as [c Hc].
  { intros x Hx. apply Htext, elem_of_app. right. exact Hx. }
  assert (Hhe : exists eh, getData d hl = Some (ElementData eh)).
  { unfold Canonical.colourOf, getElement in Hch.
    destruct (getData d hl) as [[? | eh] |]; try discriminate. eauto. }
  destruct Hhe as [eh Hhe].
  assert (HPe : exists eP, getData d P = Some (ElementData eP)).
  { unfold Canonical.colourOf, getElement in HcP.
    destruct (getData d P) as [[? | eP] |]; try discriminate. eauto. }
  destruct HPe as [eP HPe].
  assert (Hfr : 3 <= fresh d).
  { pose proof (Tree.wf_alloc d Hwf hl (TreeFacts.allocated_of_data _ _ _ Hhe)).
    pose proof (Tree.wf_alloc d Hwf P (TreeFacts.allocated_of_data _ _ _ HPe)).
    pose proof (Tree.wf_alloc d Hwf G (HighlightFacts.isElement_allocated _ _ HGe)).
    lia. }
  assert (Hsame : forall l, (forall x, x ∈ l -> isText d x = true) ->
            forall g, Tree.texts g d' l = Tree.texts g d l).
  { intros l Hl g. apply RemoveFacts.texts_same. intros x Hx.
    split; [apply Hl, Hx | apply Hdata]. }
  assert (Hthl : textContentFrom 2 d hl = Some c).
  { rewrite TreeFacts.textContentFrom_S, Hhe. apply Hc. }
  exists d', b, c. split; [exact Hev |].
  split; [rewrite Hch', decide_True by reflexivity; reflexivity |].
  split; [rewrite Hch', decide_False, decide_True by (exact HPG || reflexivity);
          reflexivity |].
  split.
  { rewrite Hch', !decide_False; [reflexivity | |]; intros Heq; symmetry in Heq;
      [exact (HPhl Heq) | exact (HhlG (eq_sym Heq))]. }
  split.
  { apply (FlattenFacts.textContent_from d P _ 3); [lia |].
    rewrite TreeFacts.textContentFrom_S, HPe, HPc, TreeFacts.texts_app, Hb.
    cbn [mbind option_bind]. rewrite TreeFacts.texts_cons, Hthl, TreeFacts.texts_nil.
    cbn [mbind option_bind]. rewrite StringFacts.append_nil_r. reflexivity. }
  split; [apply (FlattenFacts.textContent_from d hl _ 2); [lia | exact Hthl] |].
  assert (Hfr' : fresh d' = fresh d).
  { unfold d'. rewrite TreeFacts.fresh_attach.
    apply (TreeFacts.fresh_detach d hl P Hhl). }
  split.
  - apply (FlattenFacts.textContent_from d' P _ 2); [lia |].
    rewrite TreeFacts.textContentFrom_S, Hdata, HPe.
    rewrite Hch', decide_False, decide_True by (exact HPG || reflexivity).
    rewrite Hsame; [apply Hb |].
    intros x Hx. apply Htext, elem_of_app. left. exact Hx.
  - apply (FlattenFacts.textContent_from d' hl _ 2); [lia |].
    rewrite TreeFacts.textContentFrom_S, Hdata, Hhe.
    replace (getChildren d' hl) with (getChildren d hl).
    + rewrite Hsame; [apply Hc |].
      intros x Hx. apply Htext, elem_of_app. right. exact Hx.
    + rewrite Hch', !decide_False; [reflexivity | |]; intros Heq; symmetry in Heq;
        [exact (HPhl Heq) | exact (HhlG (eq_sym Heq))].
Qed.

Lemma flatten_moves_last_child_front_witness :
  exists d' b c,
    TextHighlighter.flattenStep 4 Examples.nestedAtEnd = (Ret (4, true), d') /\
    getChildren d' 0 = [] ++ [1; 4; 2] /\
    getChildren d' 2 = [3] /\ getChildren d' 4 = getChildren Examples.nestedAtEnd 4 /\
    textContent Examples.nestedAtEnd 2 = b +:+ c /\
    textContent Examples.nestedAtEnd 4 = c /\
    textContent d' 2 = b /\ textContent d' 4 = c.
Proof.
  apply (flatten_moves_last_child_front Examples.nestedAtEnd 4 2 0 1 [] [3] "red" "yellow").
  - apply WellFormedFacts.wellFormedb_wellFormed. vm_compute. reflexivity.
  - vm_compute. reflexivity.
  - vm_compute. reflexivity.
  - vm_compute. reflexivity.
  - vm_compute. reflexivity.
  - discriminate.
  - vm_compute. reflexivity.
  - vm_compute. reflexivity.
  - vm_compute. reflexivity.
  - discriminate.
  - vm_compute. reflexivity.
  - vm_compute. reflexivity.
  - intros x Hx. vm_compute in Hx.
    repeat (apply elem_of_cons in Hx as [-> | Hx]); try (vm_compute; reflexivity).
    inversion Hx.
Defined.



(** X12, [highlightRange] and [getHighlights]: in the setting of X6 the
    marker that [highlightRange] made is among the markers that
    [getHighlights] then finds below the element of the highlighter, every
    node found is a marker, and no marker found before is lost. *)
Theorem highlight_is_found f el w e d t q l1 l2 a m b anc :
  WellFormed.wellFormed d ->
  getData d t = Some (TextData (a +:+ m +:+ b)) ->
  getParent d t = Some q -> getChildren d q = l1 ++ t :: l2 ->
  Platform.trim m <> "" ->
  Config.ignored (tagName <$> getElement d q) = false ->
  Node_contains d el q = true ->
  getData d w = Some (ElementData e) -> getChildren d w = [] ->
  exists h d' hs,
    TextHighlighter.highlightRange (S f) el
      (Some (Range.mk t (String.length a) t (String.length a + String.length m) anc))
      w d = (Ret [h], d') /\
    TextHighlighter.getHighlights el true d' = (Ret hs, d') /\
    h ∈ hs /\
    (forall y, y ∈ hs -> TextHighlighter.isHighlight d' (Some y) = true) /\
    (forall old, TextHighlighter.getHighlights el true d = (Ret old, d) ->
       forall y, y ∈ old -> y ∈ hs).
Proof.
  intros Hwf0 Hd Hp Hcs Htrim Hig Hin Hw Hwc.
  pose proof (TreeFacts.wellFormed_WF d Hwf0) as Hwf.
  pose proof (HighlightFacts.trim_nonempty m Htrim) as Hm.
  pose proof (HighlightFacts.length_pos m Hm) as Hlen.
  destruct (HighlightFacts.refine_in_text (S f) d t q l1 l2 a m b anc Hwf Hd Hm Hp Hcs)
    as (x & d1 & before & after & Hev & Hcut & Hx & Hpx & Hch & _ & _ & _ & _).
  assert (Hqa : Tree.allocated d q).
  { apply (TreeFacts.allocated_of_child d q t). rewrite Hcs. apply elem_of_app. right. left. }
  assert (Hta : Tree.allocated d t) by (eapply TreeFacts.allocated_of_data, Hd).
  assert (Hwa : Tree.allocated d w) by (eapply TreeFacts.allocated_of_data, Hw).
  assert (Htt : isText d t = true) by (unfold isText; rewrite Hd; reflexivity).
  assert (Hqt : q <> t).
  { intros Heq. pose proof (Tree.wf_leaf d Hwf t Htt) as Hl. rewrite <- Heq, Hcs in Hl.
    destruct l1; discriminate. }
  assert (Hwt : w <> t) by (intros Heq; rewrite Heq in Hw; congruence).
  assert (Hwq : w <> q).
  { intros Heq. rewrite Heq, Hcs in Hwc. destruct l1; discriminate. }
  assert (Hig1 : Config.ignored (tagName <$> getElement d1 q) = false).
  { unfold getElement. rewrite (Marking.cut_data _ _ _ _ Hcut) by assumption. exact Hig. }
  assert (Hw1 : getData d1 w = Some (ElementData e)).
  { rewrite (Marking.cut_data _ _ _ _ Hcut) by assumption. exact Hw. }
  assert (Hwc1 : getChildren d1 w = []).
  { rewrite (Marking.cut_children _ _ _ _ Hcut) by assumption. exact Hwc. }
  pose proof (HighlightFacts.contains_cut d d1 t q el q Hwf Hcut Hqa Hin) as Hin1.
  destruct (HighlightFacts.highlightLoop_one f el w e d1 x q (l1 ++ before) (after ++ l2) m
              (Marking.cut_wf _ _ _ _ Hcut) Hx Hpx Hch Hig1 Htrim Hw1 Hwc1 Hin1)
    as (d2 & Hloop & HW).
  pose proof (Marking.cut_fresh _ _ _ _ Hcut) as Hfr.
  pose proof (Marking.wr_fresh _ _ _ _ _ _ _ _ HW) as Hfr2.
  pose proof (Marking.wr_wf _ _ _ _ _ _ _ _ HW) as Hwf2.
  set (h := fresh d1) in *.
  assert (Hold : forall y, Tree.allocated d y -> y <> h).
  { intros y Hy Heq. apply (Tree.wf_alloc d Hwf) in Hy. unfold h in Heq. lia. }
  assert (Hh : getData d2 h = Some (ElementData (Marking.marked e))).
  { rewrite (Marking.wr_data _ _ _ _ _ _ _ _ HW), decide_True by reflexivity. reflexivity. }
  assert (Hmark : hasAttribute d2 h Config.DATA_ATTR = true).
  { unfold hasAttribute, getElement. rewrite Hh. cbn [Marking.marked attributes].
    apply HighlightFacts.setAttr_has. }
  assert (Hdata : forall y, Tree.allocated d y -> y <> t -> getData d2 y = getData d y).
  { intros y Hy Hyt.
    rewrite (Marking.wr_data _ _ _ _ _ _ _ _ HW), decide_False by (apply Hold, Hy).
    apply (Marking.cut_data _ _ _ _ Hcut); assumption. }
  assert (Hxleaf : getChildren d x = []).
  { destruct (getChildren d x) as [| k ks] eqn:Hk; [reflexivity |].
    assert (Hxa : Tree.allocated d x).
    { apply (TreeFacts.allocated_of_child d x k). rewrite Hk. left. }
    destruct (decide (x = t)) as [-> | Hxt].
    - rewrite (Tree.wf_leaf d Hwf t Htt) in Hk. discriminate.
    - rewrite (Marking.cut_data _ _ _ _ Hcut) in Hx by assumption.
      assert (Hxt' : isText d x = true) by (unfold isText; rewrite Hx; reflexivity).
      rewrite (Tree.wf_leaf d Hwf x Hxt') in Hk. discriminate. }
  assert (Hpar : forall y, getChildren d y <> [] -> getParent d2 y = getParent d y).
  { intros y Hy.
    assert (Hya : Tree.allocated d y).
    { destruct (getChildren d y) as [| k ks] eqn:Hk; [contradiction |].
      apply (TreeFacts.allocated_of_child d y k). rewrite Hk. left. }
    rewrite (Marking.wr_parent _ _ _ _ _ _ _ _ HW), !decide_False.
    - apply (Marking.cut_parent _ _ _ _ Hcut), Hya.
    - apply Hold, Hya.
    - intros ->. contradiction. }
  assert (Hkids : forall z k, k ∈ getChildren d z -> k <> t -> k ∈ getChildren d2 z).
  { intros z k Hk Hkt.
    assert (Hza : Tree.allocated d z) by (apply (TreeFacts.allocated_of_child d z k Hk)).
    rewrite (Marking.wr_children _ _ _ _ _ _ _ _ HW), decide_False by (apply Hold, Hza).
    destruct (decide (z = q)) as [-> | Hzq].
    - rewrite Hcs in Hk. apply elem_of_app in Hk as [Hk | Hk].
      + apply elem_of_app. left. apply elem_of_app. left. exact Hk.
      + apply elem_of_cons in Hk as [-> | Hk]; [contradiction |].
        apply elem_of_app. right. right. apply elem_of_app. right. exact Hk.
    - rewrite (Marking.cut_children _ _ _ _ Hcut) by assumption. exact Hk. }
  assert (Hhq : h ∈ getChildren d2 q).
  { rewrite (Marking.wr_children _ _ _ _ _ _ _ _ HW), decide_False, decide_True
      by (apply Hold, Hqa || reflexivity).
    apply elem_of_app. right. left. }
  assert (Hhin : h ∈ descendants d2 el).
  { unfold descendants. rewrite Hfr2.
    unfold Node_contains in Hin. apply orb_true_iff in Hin as [Heq | Hanc].
    - apply Nat.eqb_eq in Heq as ->. apply RemoveFacts.descendantsFrom_head, Hhq.
    - apply NormalizeFacts.inList_elem_of in Hanc. unfold ancestors in Hanc.
      apply (RoundFacts.descendantsFrom_step d2 el q h); [| exact Hhq].
      apply (RoundFacts.ancestors_descendants d2 el Hwf2).
      apply (RoundFacts.ancestorsFrom_keep d d2 el Hwf Hpar (fresh d) (fresh d1) q);
        [exact Hfr | | exact Hanc].
      rewrite Hcs. destruct l1; discriminate. }
  eexists h, d2, _. split.
  { unfold TextHighlighter.highlightRange, Range.collapsed.
    cbn [Range.startContainer Range.endContainer Range.startOffset Range.endOffset].
    destruct (Nat.eqb_spec (String.length a) (String.length a + String.length m));
      [lia |].
    rewrite andb_false_r. unfold bind at 1. rewrite Hev.
    cbn [Utils.startContainer Utils.endContainer Utils.goDeeper]. exact Hloop. }
  split; [reflexivity |].
  assert (Hfound : forall D c y,
            y ∈ (if true && hasAttribute D c Config.DATA_ATTR
                 then filter (fun r => Is_true (hasAttribute D r Config.DATA_ATTR))
                        (descendants D c) ++ [c]
                 else filter (fun r => Is_true (hasAttribute D r Config.DATA_ATTR))
                        (descendants D c)) <->
            hasAttribute D y Config.DATA_ATTR = true /\ (y ∈ descendants D c \/ y = c)).
  { intros D c y. cbn [andb]. destruct (hasAttribute D c Config.DATA_ATTR) eqn:Hc.
    - rewrite elem_of_app, list_elem_of_filter, Is_true_true, list_elem_of_singleton.
      split; [intros [[? ?] | ->]; auto | intros [? [? | ->]]; auto].
    - rewrite list_elem_of_filter, Is_true_true.
      split; [intros [? ?]; auto | intros [? [? | ->]]; [auto | congruence]]. }
  split; [apply Hfound; auto |].
  split.
  { intros y Hy. apply Hfound in Hy as [Hy _].
    unfold TextHighlighter.isHighlight, Config.nodeType.
    unfold hasAttribute, getElement in Hy |- *.
    destruct (getData d2 y) as [[? | ?] |]; try discriminate. exact Hy. }
  intros old Hold' y Hy. unfold TextHighlighter.getHighlights, gets in Hold'.
  injection Hold' as <-. apply Hfound in Hy as [Hym Hy]. apply Hfound.
  assert (Hyt : y <> t).
  { intros ->. unfold hasAttribute, getElement in Hym. rewrite Hd in Hym. discriminate. }
  assert (Hya : Tree.allocated d y).
  { unfold hasAttribute, getElement in Hym.
    destruct (getData d y) eqn:Hdy; [| discriminate].
    eapply TreeFacts.allocated_of_data, Hdy. }
  split.
  - unfold hasAttribute, getElement. rewrite (Hdata y Hya Hyt). exact Hym.
  - destruct Hy as [Hy | ->]; [left | right; reflexivity].
    unfold descendants in *.
    apply (RoundFacts.descendantsFrom_mono d2 el y (fresh d) (fresh d2)); [lia |].
    apply (RoundFacts.descendantsFrom_keep d d2 t (Tree.wf_leaf d Hwf t Htt) Hkids);
      assumption.
Qed.

Lemma highlight_is_found_witness :
  exists h d' hs,
    TextHighlighter.highlightRange 1 0
      (Some (Range.mk 1 (String.length "The ") 1
               (String.length "The " + String.length "quick") 0))
      2 (snd (TextHighlighter.createWrapper TextHighlighter.defaultOptions Examples.fox))
    = (Ret [h], d') /\
    TextHighlighter.getHighlights 0 true d' = (Ret hs, d') /\
    h ∈ hs /\
    (forall y, y ∈ hs -> TextHighlighter.isHighlight d' (Some y) = true) /\
    (forall old,
       TextHighlighter.getHighlights 0 true
         (snd (TextHighlighter.createWrapper TextHighlighter.defaultOptions Examples.fox))
       = (Ret old,
          snd (TextHighlighter.createWrapper TextHighlighter.defaultOptions Examples.fox)) ->
       forall y, y ∈ old -> y ∈ hs).
Proof.
  apply (highlight_is_found 0 0 2
           (mkElement "SPAN" "highlighted" "#ffff7b" [])
           (snd (TextHighlighter.createWrapper TextHighlighter.defaultOptions Examples.fox))
           1 0 [] [] "The " "quick" " brown fox" 0).
  - apply WellFormedFacts.wellFormedb_wellFormed. vm_compute. reflexivity.
  - vm_compute. reflexivity.
  - vm_compute. reflexivity.
  - vm_compute. reflexivity.
  - vm_compute. discriminate.
  - vm_compute. reflexivity.
  - vm_compute. reflexivity.
  - vm_compute. reflexivity.
  - vm_compute. reflexivity.
Defined.

(** X13, [normalizeHighlights]: whenever the call returns, the list it
    returns has no duplicates, holds only nodes that have a parent element
    in the tree at that moment (a marker that the flatten or the merge pass
    took out of the tree is left out), and is ordered by the rendered
    position: by [offsetTop], and by [offsetLeft] where the tops are the
    same. *)
Theorem normalize_result_shape layout fuel highlights d :
  Wp.post (TextHighlighter.normalizeHighlights layout fuel highlights) d (fun o d' =>
    forall r, o = Ret r ->
      NoDup r /\
      (forall h, h ∈ r -> is_Some (parentElement d' h)) /\
      StronglySorted
        (fun a b =>
           (fst (layout d' a) < fst (layout d' b))%Z \/
           (fst (layout d' a) = fst (layout d' b) /\
            (snd (layout d' a) <= snd (layout d' b))%Z)) r).
Proof.
  unfold TextHighlighter.normalizeHighlights. apply HighlightFacts.post_bind.
  unfold Wp.post at 1.
  destruct (TextHighlighter.flattenNestedHighlights fuel highlights d) as [[hs | ex |] d1];
    cbn [fst snd]; try discriminate.
  apply HighlightFacts.post_bind. unfold Wp.post at 1.
  destruct (TextHighlighter.mergeSiblingHighlights hs d1) as [[[] | ex |] d2];
    cbn [fst snd]; try discriminate.
  apply HighlightFacts.post_gets. cbv zeta. intros r [= <-].
  set (cmp := fun a b : nat =>
         let d0 := (fst (layout d2 a) - fst (layout d2 b))%Z in
         if (d0 =? 0)%Z then (snd (layout d2 a) - snd (layout d2 b))%Z else d0).
  split; [| split].
  - rewrite RemoveFacts.sort_Permutation. apply (UtilsFacts.NoDup_uniqueFrom [] _).
  - intros h Hh.
    rewrite NormalizeFacts.elem_of_sort, NormalizeFacts.elem_of_unique,
      list_elem_of_filter in Hh.
    destruct Hh as [Hh _]. exact Hh.
  - apply (SortFacts.StronglySorted_impl (fun a b => (cmp a b <= 0)%Z)).
    + intros a b. unfold cmp. cbv zeta.
      destruct (Z.eqb_spec (fst (layout d2 a) - fst (layout d2 b)) 0); lia.
    + apply SortFacts.sort_sorted.
      * intros a b. unfold cmp. cbv zeta.
        destruct (Z.eqb_spec (fst (layout d2 a) - fst (layout d2 b)) 0);
          destruct (Z.eqb_spec (fst (layout d2 b) - fst (layout d2 a)) 0); lia.
      * intros a b c. unfold cmp. cbv zeta.
        destruct (Z.eqb_spec (fst (layout d2 a) - fst (layout d2 b)) 0);
          destruct (Z.eqb_spec (fst (layout d2 b) - fst (layout d2 c)) 0);
          destruct (Z.eqb_spec (fst (layout d2 a) - fst (layout d2 c)) 0); lia.
Qed.

(** X14, [serializeHighlights]: when the element of the highlighter is
    itself a marker, in a well-formed tree whose chains of ancestors end,
    the call throws a [TypeError] and leaves the tree as it is.  The
    element is then the first marker to be described, and the loop of
    [getElementPath], which stops at the reference element only after a
    step to the parent, climbs from the element past the root. *)
Theorem serialize_marker_anchor_throws fuel el d :
  WellFormed.wellFormed d ->
  hasAttribute d el Config.DATA_ATTR = true ->
  (forall x, x ∈ descendants d el -> length (ancestors d x) < fresh d) ->
  length (ancestors d el) < fresh d ->
  length (ancestors d el) < fuel ->
  TextHighlighter.serializeHighlights fuel el d
  = (Throw (TypeError "childNodes of null"), d).
Proof.
  intros Hwf0 Hm Hends Hel Hfuel.
  pose proof (TreeFacts.wellFormed_WF d Hwf0) as Hwf.
  unfold TextHighlighter.serializeHighlights, TextHighlighter.getHighlights.
  rewrite bind_gets, Hm. cbn [andb]. unfold Utils.sortByDepth. rewrite bind_gets.
  set (L := filter (fun r => Is_true (hasAttribute d r Config.DATA_ATTR))
              (descendants d el)).
  destruct (SerializeFacts.sort_last_first (Utils.depth d) L el) as [rest Hsort].
  { intros y Hy. apply list_elem_of_filter in Hy as [_ Hy].
    apply (SerializeFacts.descendant_deeper d Hwf (fresh d) el y Hends Hy). }
  cbn beta iota. rewrite Hsort. cbn [TextHighlighter.describeAll].
  unfold bind at 1. unfold bind at 1. unfold TextHighlighter.describe.
  rewrite bind_gets. unfold bind at 1.
  unfold ancestors in Hel, Hfuel.
  pose proof (SerializeFacts.ancestorsFrom_stable d (fresh d) fuel el Hel Hfuel) as Hsame.
  rewrite (SerializeFacts.getElementPath_off d el fuel el []).
  - reflexivity.
  - rewrite Hsame. exact Hfuel.
  - rewrite Hsame. apply SerializeFacts.ancestors_acyclic, Hel.
Qed.

Lemma serialize_marker_anchor_throws_witness :
  TextHighlighter.serializeHighlights 5 1 Examples.redInside
  = (Throw (TypeError "childNodes of null"), Examples.redInside).
Proof.
  apply (serialize_marker_anchor_throws 5 1 Examples.redInside).
  - apply WellFormedFacts.wellFormedb_wellFormed. vm_compute. reflexivity.
  - vm_compute. reflexivity.
  - intros x Hx. vm_compute in Hx.
    repeat (apply elem_of_cons in Hx as [-> | Hx]); try (vm_compute; lia).
    inversion Hx.
  - vm_compute. lia.
  - vm_compute. lia.
Defined.

(** X15, [highlightRange] over a run of text nodes: the selection starts at
    the beginning of the text node [t0] and ends at the end of the text node
    [tlast], and the nodes from [t0] to [tlast] are the children [ts] of one
    element [q] inside the element of the highlighter, each with text that is
    not white space only.  With a wrapper whose tag is not ignored the call
    returns one new marker for each text node, in the order of the nodes:
    each marker is a copy of the wrapper with the marker attribute, stands
    where its text node stood and has that text node as its only child; no
    text is split and every other node is as before. *)
Theorem highlightRange_wraps_run f el w e d q pre ts post t0 tlast vl anc :
  WellFormed.wellFormed d ->
  getChildren d q = pre ++ ts ++ post ->
  head ts = Some t0 -> last ts = Some tlast ->
  (forall t, t ∈ ts -> exists v, getData d t = Some (TextData v) /\ Platform.trim v <> "") ->
  getData d tlast = Some (TextData vl) ->
  Config.ignored (tagName <$> getElement d q) = false ->
  Config.ignored (Some (tagName e)) = false ->
  getData d w = Some (ElementData e) -> getChildren d w = [] ->
  Node_contains d el q = true ->
  2 * length ts <= S (S f) ->
  exists d',
    TextHighlighter.highlightRange (S f) el
      (Some (Range.mk t0 0 tlast (String.length vl) anc)) w d
    = (Ret (seq (fresh d) (length ts)), d') /\
    Marking.wrappedRun e q post d d' pre ts.
Proof.
  intros Hwf0 Hcs Hhead Hlast Htexts Hvl Hig Htag Hw Hwc Hin Hfuel.
  pose proof (TreeFacts.wellFormed_WF d Hwf0) as Hwf.
  assert (Ht0 : t0 ∈ ts) by (destruct ts; [discriminate | injection Hhead as <-; left]).
  destruct (Htexts t0 Ht0) as (v0 & Hv0 & Htrim0).
  assert (Htl : tlast ∈ ts).
  { apply list_elem_of_lookup. rewrite last_lookup in Hlast. eauto. }
  destruct (Htexts tlast Htl) as (vl' & Hvl' & Htriml).
  rewrite Hvl in Hvl'. injection Hvl' as <-.
  pose proof (HighlightFacts.length_pos vl (HighlightFacts.trim_nonempty vl Htriml)) as Hll.
  pose proof (HighlightFacts.length_pos v0 (HighlightFacts.trim_nonempty v0 Htrim0)) as Hl0.
  destruct (WalkFacts.walk_siblings f el w e q post tlast Htag ts pre [] (S f) d t0
              Hwf Hcs Hhead Hlast Htexts Hig Hw Hwc Hin Hfuel) as (d' & Hloop & HR).
  exists d'. split; [| exact HR].
  unfold TextHighlighter.highlightRange, Range.collapsed.
  cbn [Range.startContainer Range.endContainer Range.startOffset Range.endOffset].
  destruct (Nat.eqb_spec 0 (String.length vl)) as [? | _]; [lia |].
  rewrite andb_false_r. unfold Utils.refineRangeBoundaries.
  cbn [Range.startContainer Range.endContainer Range.startOffset Range.endOffset
       Range.commonAncestorContainer].
  destruct (Nat.eqb_spec (String.length vl) 0) as [? | _]; [lia |].
  unfold bind at 1. unfold bind at 1.
  rewrite bind_gets. unfold Config.nodeType at 1. rewrite Hvl.
  rewrite bind_gets. unfold getNodeValue at 1. rewrite Hvl. cbn [default from_option id].
  rewrite Nat.ltb_irrefl. unfold bind at 1. unfold ret at 1 2.
  rewrite bind_gets. unfold Config.nodeType at 1. rewrite Hv0.
  rewrite bind_gets. unfold getNodeValue at 1. rewrite Hv0. cbn [default from_option id].
  destruct (Nat.eqb_spec 0 (String.length v0)) as [? | _]; [lia |].
  cbn [Nat.ltb Nat.leb]. unfold ret at 1.
  cbn [Utils.startContainer Utils.endContainer Utils.goDeeper app] in *.
  exact Hloop.
Qed.

Lemma highlightRange_wraps_run_witness :
  exists d',
    TextHighlighter.highlightRange 3 0
      (Some (Range.mk 1 0 2 (String.length "two") 0)) 3
      (snd (TextHighlighter.createWrapper TextHighlighter.defaultOptions
              (Fixture.document (Fixture.E Fixture.p [Fixture.T "one"; Fixture.T "two"]))))
    = (Ret (seq
              (fresh (snd (TextHighlighter.createWrapper TextHighlighter.defaultOptions
                 (Fixture.document
                    (Fixture.E Fixture.p [Fixture.T "one"; Fixture.T "two"])))))
              (length [1; 2])), d') /\
    Marking.wrappedRun (mkElement "SPAN" "highlighted" "#ffff7b" []) 0 []
      (snd (TextHighlighter.createWrapper TextHighlighter.defaultOptions
              (Fixture.document (Fixture.E Fixture.p [Fixture.T "one"; Fixture.T "two"]))))
      d' [] [1; 2].
Proof.
  apply (highlightRange_wraps_run 2 0 3 (mkElement "SPAN" "highlighted" "#ffff7b" [])
           (snd (TextHighlighter.createWrapper TextHighlighter.defaultOptions
              (Fixture.document (Fixture.E Fixture.p [Fixture.T "one"; Fixture.T "two"]))))
           0 [] [1; 2] [] 1 2 "two" 0).
  - apply WellFormedFacts.wellFormedb_wellFormed. vm_compute. reflexivity.
  - vm_compute. reflexivity.
  - reflexivity.
  - reflexivity.
  - intros t Ht.
    repeat (apply elem_of_cons in Ht as [-> | Ht]).
    + exists "one". split; [vm_compute; reflexivity | vm_compute; discriminate].
    + exists "two". split; [vm_compute; reflexivity | vm_compute; discriminate].
    + inversion Ht.
  - vm_compute. reflexivity.
  - vm_compute. reflexivity.
  - vm_compute. reflexivity.
  - vm_compute. reflexivity.
  - vm_compute. reflexivity.
  - vm_compute. reflexivity.
  - cbn. lia.
Defined.

End Extras.

(** * The claims *)

Module Claims.

Import TextHighlighter Canonical Fixture Examples.

(** ** C2: idempotence of normalisation *)

(** C2: on [redInYellow] with the markers 1 and 6 listed, a first run of
    [normalizeHighlights] returns both markers and leaves three markers in
    the tree; a second run on the list returned changes the tree again: it
    merges marker 1 away, returns one marker and leaves two markers in the
    tree.  The text of the document is the same throughout.  So a run is
    not idempotent, and the first run has not reached the smallest number
    of wrappers that the method promises. *)
Theorem normalize_not_idempotent :
  exists d1 d2,
    normalizeHighlights sameSpot 10 [1; 6] redInYellow = (Ret [6; 1], d1) /\
    normalizeHighlights sameSpot 10 [6; 1] d1 = (Ret [6], d2) /\
    viewAll d1 0 =
      E p [E red [T "x"]; E yellow [E red [T "efcd"]; T "ab"]] /\
    viewAll d2 0 = E p [E red [T "xefcd"]; E yellow [T "ab"]] /\
    getHighlights 0 true d1 = (Ret [1; 3; 6], d1) /\
    getHighlights 0 true d2 = (Ret [6; 3], d2) /\
    textContent d1 0 = textContent redInYellow 0 /\
    textContent d2 0 = textContent redInYellow 0.
Proof.
  eexists. eexists. split; [vm_compute; reflexivity |].
  split; [vm_compute; reflexivity |].
  repeat split; vm_compute; reflexivity.
Qed.

(** A list on which neither pass has anything to do is a fixed point: if
    for every listed marker nothing is to flatten ([flat]) and nothing is
    to merge ([merged]), a run of [normalizeHighlights] leaves the tree as
    it is and returns the same markers. *)
Theorem normalize_fixed_point layout fuel (hs : list nat) d :
  Forall (flat d) hs -> Forall (merged d) hs ->
  exists hs',
    normalizeHighlights layout (S fuel) hs d = (Ret hs', d) /\
    forall x, x ∈ hs' <-> x ∈ hs.
Proof.
  intros Hf Hm. unfold normalizeHighlights, flattenNestedHighlights.
  unfold Utils.sortByDepth. unfold bind at 1. rewrite bind_gets.
  set (hs0 := Utils.sort _ hs).
  assert (Hin0 : forall x, x ∈ hs0 <-> x ∈ hs)
    by (intros x; apply NormalizeFacts.elem_of_sort).
  assert (Hf0 : Forall (flat d) hs0).
  { rewrite Forall_forall in *. intros x Hx. apply Hf, Hin0, Hx. }
  assert (Hm0 : Forall (merged d) hs0).
  { rewrite Forall_forall in *. intros x Hx. apply Hm, Hin0, Hx. }
  cbn [flattenLoop]. unfold bind at 1.
  rewrite (NormalizeFacts.flat_flattenOnce _ _ Hf0). cbn [fst snd ret].
  unfold bind. rewrite (NormalizeFacts.merged_mergeSiblingHighlights _ _ Hm0).
  unfold gets. eexists. split; [reflexivity |].
  intros x. rewrite NormalizeFacts.elem_of_sort, NormalizeFacts.elem_of_unique.
  rewrite list_elem_of_filter, Hin0. split; [tauto |].
  intros Hx. split; [| assumption].
  rewrite Forall_forall in Hf. destruct (Hf x Hx) as (parent & -> & _). eauto.
Qed.

Lemma normalize_fixed_point_witness :
  exists hs',
    normalizeHighlights sameSpot 1 [3] redInside = (Ret hs', redInside) /\
    forall x, x ∈ hs' <-> x ∈ [3].
Proof.
  apply (normalize_fixed_point sameSpot 0 [3] redInside).
  - repeat constructor. exists 1. split; [vm_compute; reflexivity |].
    right. exists "yellow", "red".
    repeat split; try (vm_compute; eauto; fail). discriminate.
  - repeat constructor; vm_compute; eauto.
Defined.

(** ** C3: merging two neighbours *)



(** ** C4: completion of normalisation *)

(** C4: on [nestedSame] with the two innermost markers listed, the flatten
    loop does not complete: in its second run the entry that the first run
    replaced twice by the same parent is met a second time, now removed
    from the tree, and [parent.previousSibling] is read from [null].  The
    merge pass is never reached, and the text b has left the document. *)
Theorem flatten_throws_on_removed_entry fuel :
  exists d',
    normalizeHighlights sameSpot (S (S fuel)) [3; 5] nestedSame =
      (Throw (TypeError "previousSibling of null"), d') /\
    viewAll d' 0 = E p [E yellow [T "a"]].
Proof.
  eexists. split; vm_compute; reflexivity.
Qed.

(** ** C5: the canonical form after normalisation *)

(** C5: in [chain3], three markers of one colour side by side, with the
    last marker 5 listed, [normalizeHighlights] completes, returns marker 5
    and leaves it with a marker of its own colour, marker 1, as direct
    neighbour: the merge step reads the two neighbours of the listed marker
    once, absorbs marker 3, and does not look at the neighbour that marker
    5 has after that.  A second run on the same list does merge the two. *)
Theorem normalize_leaves_same_style_neighbours :
  exists d' d'',
    normalizeHighlights sameSpot 10 [5] chain3 = (Ret [5], d') /\
    viewAll d' 0 = E p [E yellow [T "a"]; E yellow [T "bc"]] /\
    isHighlight d' (Some 1) = true /\ isHighlight d' (Some 5) = true /\
    nextSibling d' 1 = Some 5 /\
    colourOf d' 1 = colourOf d' 5 /\
    normalizeHighlights sameSpot 10 [5] d' = (Ret [5], d'') /\
    viewAll d'' 0 = E p [E yellow [T "abc"]].
Proof.
  eexists. eexists. split; [vm_compute; reflexivity |].
  repeat split; vm_compute; reflexivity.
Qed.

(** When the flatten pass completes, every entry of the list it leaves
    has an element parent that is not a marker, or that is a marker of
    another colour in which the entry has a sibling on either side. *)
Theorem flatten_leaves_listed_flat fuel (hs hs' : list nat) d d' :
  flattenNestedHighlights fuel hs d = (Ret hs', d') ->
  Forall (flat d') hs'.
Proof.
  unfold flattenNestedHighlights, Utils.sortByDepth.
  rewrite bind_gets. apply NormalizeFacts.flattenLoop_Ret.
Qed.

Lemma flatten_leaves_listed_flat_witness :
  Forall (flat (snd (flattenNestedHighlights 5 [6] redInYellow)))
         [6].
Proof.
  apply (flatten_leaves_listed_flat 5 [6] [6] redInYellow).
  vm_compute. reflexivity.
Defined.

(** ** C8: the end boundary at offset 0 *)

(** C8, the claim as stated fails: on [hello] with [helloRange] the walk
    from the end container, the text node 3, ends at the element 2, whose
    preceding sibling is the text node 1.  The end container returned is
    not that sibling: the start boundary lies inside node 1 and splits it,
    and the part split off, the new node 4, is returned as start and as end
    container. *)
Lemma refine_end_not_the_sibling_taken :
  exists d',
    Boundary.WalkUp hello (Range.commonAncestorContainer helloRange) 1
      (Range.endContainer helloRange) 2 /\
    previousSibling hello 2 = Some 1 /\
    Utils.refineRangeBoundaries 5 helloRange hello
      = (Ret (Utils.mkRefined (Some 4) (Some 4) true), d') /\
    getData hello 4 = None /\
    viewAll d' 0 = E p [T "he"; T "llo"; E b [T "x"]] /\
    previousSibling d' 2 = Some 4.
Proof.
  eexists. split.
  { apply (Boundary.WalkUp_step _ _ 0 3 2 2).
    - vm_compute. reflexivity.
    - vm_compute. reflexivity.
    - cbn. lia.
    - apply Boundary.WalkUp_stop. left. vm_compute. eauto. }
  split; [vm_compute; reflexivity |].
  split; [vm_compute; reflexivity |].
  repeat split; vm_compute; reflexivity.
Qed.

(** C8, amended: with an end offset of 0, [refineRangeBoundaries] walks up
    from the end container through the nodes that have no preceding sibling
    and do not lie directly below the common ancestor; let [x] be the node
    where that walk ends.  The end container returned is the preceding
    sibling that [x] has when the function is called, unless the start
    boundary splits that very sibling (it is the start container, a text
    node, and the start offset lies strictly inside its text): then the part
    split off, a new node, is returned as start and as end container.  In
    both cases the node returned is the one that precedes [x] when the
    function returns, and without a split the tree is left as it was. *)
Theorem refine_end_offset_zero fuel range d n x :
  WellFormed.wellFormed d ->
  Range.endOffset range = 0 ->
  Boundary.WalkUp d (Range.commonAncestorContainer range) n
    (Range.endContainer range) x ->
  n < fuel ->
  Boundary.startOk d range ->
  exists r d',
    Utils.refineRangeBoundaries fuel range d = (Ret r, d') /\
    Utils.endContainer r =
      (if Boundary.startSplits d range
          && optEqb (previousSibling d x) (Some (Range.startContainer range))
       then Some (fresh d)
       else previousSibling d x) /\
    Utils.endContainer r = previousSibling d' x /\
    (Boundary.startSplits d range = true ->
     Utils.startContainer r = Some (fresh d) /\ getData d (fresh d) = None) /\
    (Boundary.startSplits d range = false -> d' = d).
Proof.
  intros Hwf Hend Hwalk Hfuel Hstart.
  pose proof (RefineFacts.WalkUp_end_allocated _ _ _ _ _ Hwalk) as Hx.
  assert (Hfree : getData d (fresh d) = None).
  { unfold getData. rewrite (WellFormedFacts.wf_fresh_free d Hwf). reflexivity. }
  unfold Utils.refineRangeBoundaries. rewrite Hend. cbn [Nat.eqb].
  unfold bind at 1.
  rewrite (RefineFacts.endBoundary_eval _ _ _ _ _ _ Hwalk Hfuel).
  rewrite bind_gets.
  unfold Boundary.startOk in Hstart. unfold Boundary.startSplits.
  unfold Config.nodeType, getNodeValue in *.
  destruct (getData d (Range.startContainer range)) as [[v | e] |] eqn:Hdata.
  - destruct Hstart as [Hoff [q Hq]]. rewrite bind_gets, Hdata.
    cbn [default from_option id].
    destruct (Nat.eqb (Range.startOffset range) (String.length v)) eqn:Heq.
    { eexists _, d. cbn [negb andb Utils.endContainer].
      repeat split; try reflexivity; intros; try reflexivity; discriminate. }
    destruct (Nat.ltb 0 (Range.startOffset range)) eqn:Hpos.
    2: { eexists _, d. cbn [negb andb Utils.endContainer].
         repeat split; try reflexivity; intros; try reflexivity; discriminate. }
    destruct (RefineFacts.splitText_attached d (Range.startContainer range)
                v q (Range.startOffset range) Hwf)
      as (d' & pre & post & Hsplit & Hpar & Hparn & Hch & Hcs & Hcs');
      try assumption.
    { unfold getNodeValue. rewrite Hdata. reflexivity. }
    unfold bind at 1. rewrite Hsplit. rewrite bind_gets.
    assert (Hprevn : previousSibling d' (fresh d)
                     = Some (Range.startContainer range)).
    { rewrite RefineFacts.previousSibling_prevOf, Hparn.
      cbn [mbind option_bind]. rewrite Hcs'.
      apply RefineFacts.prevOf_behind.
      - intros Hin.
        assert (Hin' : fresh d ∈ getChildren d q) by (rewrite Hcs; set_solver).
        apply (WellFormedFacts.wf_parent_of_child d _ _ Hwf) in Hin' as [_ Hlt].
        lia.
      - intros Heq'. unfold getParent in Hq. rewrite Heq' in Hq.
        rewrite (WellFormedFacts.wf_fresh_free d Hwf) in Hq. discriminate. }
    rewrite Hprevn.
    pose proof (RefineFacts.previousSibling_after_split d d'
                  (Range.startContainer range) q pre post x
                  Hwf Hx Hq Hpar Hch Hcs Hcs') as Hafter.
    cbn [negb andb].
    destruct (optEqb _ _) eqn:Ho; eexists _, d';
      (split; [reflexivity |]); cbn [Utils.endContainer Utils.startContainer];
      rewrite Hafter; repeat split; try reflexivity; intros;
      try reflexivity; try exact Hfree; discriminate.
  - rewrite bind_gets.
    destruct (Nat.ltb _ _); [| rewrite bind_gets];
      eexists _, d; cbn [andb]; repeat split; try reflexivity; intros;
      try reflexivity; discriminate.
  - rewrite bind_gets.
    destruct (Nat.ltb _ _); [| rewrite bind_gets];
      eexists _, d; cbn [andb]; repeat split; try reflexivity; intros;
      try reflexivity; discriminate.
Qed.

Lemma refine_end_offset_zero_witness :
  exists r d',
    Utils.refineRangeBoundaries 5 helloRange hello = (Ret r, d') /\
    Utils.endContainer r =
      (if Boundary.startSplits hello helloRange
          && optEqb (previousSibling hello 2) (Some (Range.startContainer helloRange))
       then Some (fresh hello)
       else previousSibling hello 2) /\
    Utils.endContainer r = previousSibling d' 2 /\
    (Boundary.startSplits hello helloRange = true ->
     Utils.startContainer r = Some (fresh hello) /\ getData hello (fresh hello) = None) /\
    (Boundary.startSplits hello helloRange = false -> d' = hello).
Proof.
  apply (refine_end_offset_zero 5 helloRange hello 1 2).
  - apply WellFormedFacts.wellFormedb_wellFormed. vm_compute. reflexivity.
  - reflexivity.
  - apply (Boundary.WalkUp_step _ _ 0 3 2 2).
    + vm_compute. reflexivity.
    + vm_compute. reflexivity.
    + cbn. lia.
    + apply Boundary.WalkUp_stop. left. vm_compute. eauto.
  - lia.
  - vm_compute. split; [lia | eauto].
Defined.

(** ** C9, C7, C6: what [deserializeHighlights] does with its input *)

(** C9: the empty string, the one falsy string, is not parseable JSON, and
    [deserializeHighlights] answers it with an empty array, without a
    warning and without a change to the tree. *)
Theorem deserialize_empty_string el d :
  JSON.parse "" = None /\
  deserializeHighlights el "" d = (Ret ([], []), d).
Proof. split; reflexivity. Qed.

(** C7: on the input [not json] the parse error is thrown; on the input
    [[[1]]] nothing is thrown: the one descriptor fails (its third entry is
    undefined and has no [split]), the failure is logged, and the array of
    markers returned is empty.  The tree is as before in both cases. *)
Theorem deserialize_not_json_and_wrong_shape el d :
  deserializeHighlights el "not json" d
    = (Throw (Thrown "Can't parse JSON"), d) /\
  deserializeHighlights el "[[1]]" d
    = (Ret ([], [TypeError "split is not a function"]), d).
Proof. split; reflexivity. Qed.




(** ** C10: [removeHighlights] and the text of the container *)

(** C10, the claim as stated fails: in [oneMarker] the container handed to
    [removeHighlights] is the marker 2 itself.  It is removed as well, so
    the text below it is empty afterwards, while the paragraph keeps the
    whole text in one node. *)
Lemma remove_empties_marker_container :
  exists d',
    removeHighlights 0 defaultOptions (Some 2) oneMarker = (Ret tt, d') /\
    textContent oneMarker 2 = "abc" /\
    textContent d' 2 = "" /\
    viewAll d' 0 = E p [T "xabcy"].
Proof.
  eexists. split; [vm_compute; reflexivity |].
  repeat split; vm_compute; reflexivity.
Qed.

(** A marker that wraps an element is outside the amended statement too:
    the loop over the unwrapped children takes each for a text node, and
    the text nodes on both sides of the element leave the tree. *)
Example remove_next_to_element_child :
  exists d',
    removeHighlights 0 defaultOptions None markerAroundElement = (Ret tt, d') /\
    textContent markerAroundElement 0 = "axc" /\
    textContent d' 0 = "x".
Proof.
  eexists. split; [vm_compute; reflexivity |].
  split; vm_compute; reflexivity.
Qed.

(** C10, amended: in a well-formed store that is a tree below the
    container, let the container be an element that is not a marker itself
    and let every marker below it hold text nodes and markers only, at
    least one.  Then
    [removeHighlights] with the veto that always answers [true] returns,
    and the text content of the container is what it was. *)
Theorem remove_keeps_text el element d :
  WellFormed.wellFormed d ->
  Tree.treeBelow d (default el element) ->
  isElement d (default el element) = true ->
  hasAttribute d (default el element) Config.DATA_ATTR = false ->
  (forall hl, hl ∈ descendants d (default el element) ->
              hasAttribute d hl Config.DATA_ATTR = true -> Tree.textOrMarkers d hl) ->
  exists d',
    removeHighlights el defaultOptions element d = (Ret tt, d') /\
    textContent d' (default el element) = textContent d (default el element).
Proof.
  intros Hwf (Hnd & [r Hr] & Hends) Hec Hnm Hmark.
  pose proof (TreeFacts.wellFormed_WF d Hwf) as HWF.
  unfold removeHighlights. cbv zeta. unfold getHighlights. rewrite bind_gets.
  rewrite Hnm, andb_false_r. unfold Utils.sortByDepth. rewrite bind_gets.
  set (c := default el element) in *.
  set (L0 := filter (fun r => Is_true (hasAttribute d r Config.DATA_ATTR))
               (descendants d c)).
  set (dep := Utils.depth d).
  change (exists d', removeAll defaultOptions
                       (Utils.sort (fun a b => (dep b - dep a)%Z) L0) d = (Ret tt, d') /\
                     textContent d' c = textContent d c).
  set (L := Utils.sort (fun a b => (dep b - dep a)%Z) L0).
  assert (HL : forall h, h ∈ L <->
                         h ∈ descendants d c /\ hasAttribute d h Config.DATA_ATTR = true).
  { intros h. unfold L, L0.
    rewrite NormalizeFacts.elem_of_sort, list_elem_of_filter, Is_true_true. tauto. }
  destruct (RemoveFacts.removeAll_ok c d dep L d) as (d' & Hrun & HG).
  - split.
    + exact HWF.
    + intros h Hh. apply HL in Hh as [Hin Hm].
      destruct (Hmark h Hin Hm) as [Hne Hkids].
      split; [exact (RemoveFacts.marker_isElement d h Hm) |]. split.
      { destruct (RemoveFacts.descendantsFrom_child _ _ _ _ Hin) as [q Hq].
        rewrite (Tree.wf_up d HWF _ _ Hq). eauto. }
      split; [exact Hne |]. intros x Hx.
      destruct (Hkids x Hx) as [Ht | Hxm]; [left; exact Ht | right].
      assert (Hxin : x ∈ descendants d c).
      { apply (RemoveFacts.descendantsFrom_closed (fresh d) d HWF c h x); eauto. }
      split; [apply HL; split; assumption |].
      apply RemoveFacts.depth_child; [apply (Tree.wf_up d HWF _ _ Hx) |].
      apply (Hends x Hxin).
    + exact Hec.
    + auto.
    + reflexivity.
  - unfold L. rewrite RemoveFacts.sort_Permutation. apply NoDup_filter, Hnd.
  - intros Hc. apply HL in Hc as [_ Hm]. rewrite Hnm in Hm. discriminate.
  - apply RemoveFacts.sort_deepestFirst.
  - exists d'. split; [exact Hrun |].
    unfold textContent. rewrite (Tree.good_fresh _ _ _ _ _ HG).
    rewrite (Tree.good_text _ _ _ _ _ HG _ _ Hr), Hr. reflexivity.
Qed.

Lemma remove_keeps_text_witness :
  exists d',
    removeHighlights 0 defaultOptions None redInside = (Ret tt, d') /\
    textContent d' 0 = textContent redInside 0.
Proof.
  apply (remove_keeps_text 0 None redInside).
  - apply WellFormedFacts.wellFormedb_wellFormed. vm_compute. reflexivity.
  - split; [apply (bool_decide_unpack _); vm_compute; exact I |].
    split; [exists "abcdef"; vm_compute; reflexivity |].
    intros x Hin. vm_compute in Hin.
    repeat (apply elem_of_cons in Hin as [-> | Hin]); try (vm_compute; lia).
    inversion Hin.
  - reflexivity.
  - reflexivity.
  - intros hl Hin Hm. vm_compute in Hin.
    repeat (apply elem_of_cons in Hin as [-> | Hin]);
      try (vm_compute in Hm; discriminate); try (inversion Hin; fail).
    + split; [vm_compute; discriminate |].
      intros x Hx. vm_compute in Hx.
      repeat (apply elem_of_cons in Hx as [-> | Hx]);
        try (left; vm_compute; reflexivity); try (right; vm_compute; reflexivity).
      inversion Hx.
    + split; [vm_compute; discriminate |].
      intros x Hx. vm_compute in Hx.
      repeat (apply elem_of_cons in Hx as [-> | Hx]);
        try (left; vm_compute; reflexivity); try (right; vm_compute; reflexivity).
      inversion Hx.
Defined.

End Claims.
